(** * HeavyBall: cached PSGD-Kron, a shallow embedding of
      [heavyball/utils.py] and [heavyball/cached_psgd_kron.py]

    Conventions of the embedding.
    - Python [int] is [Z]; Python [float] and tensor entries are idealised as
      real numbers [R] (no rounding, no NaN, no infinities), except for the
      constructor arguments, which are compared only and are taken in [Q] so
      that the checks compute.
    - A Python exception is the [Err] branch of [result].
    - Library calls of torch, numpy and [random] are either given their
      documented meaning on the data model below or taken as parameters
      (the classes [NumpyLib], [TorchLib], [Rng] and [BaseConstructor]);
      so are [triu_to_line] and [line_to_triu], which
      [cached_psgd_kron.py] imports and [utils.py] does not define (the
      class [Collaborators]).
    - A call binds its arguments before the body of the callee runs: a
      call that passes a number of arguments the callee does not take
      raises [TypeError]. *)

From Stdlib Require Import Reals Lra Lia ZArith List QArith.
From Stdlib Require Import String Ascii.
From stdpp Require Import base gmap strings list sorting.

(* ===================================================================== *)
(** * Part I: definitions                                                 *)
(* ===================================================================== *)

(** ** Exceptions *)

Inductive exn : Type :=
  | ValueError (msg : string)
  | RuntimeError (msg : string)
  | IndexError (msg : string)
  | AttributeError (msg : string)
  | KeyError (msg : string)
  | TypeError (msg : string).

Inductive result (A : Type) : Type :=
  | Ok (a : A)
  | Err (e : exn).
Arguments Ok {A} a.
Arguments Err {A} e.

Definition is_ValueError {A} (r : result A) : bool :=
  match r with Err (ValueError _) => true | _ => false end.

Definition is_Ok {A} (r : result A) : bool :=
  match r with Ok _ => true | _ => false end.

(** ** [precond_update_prob_schedule] (utils.py, 654-674) *)

Module Schedule.
Section Closure.
Open Scope R_scope.
Variables (max_prob min_prob decay : R) (flat_start : Z).

(** The closure [_schedule(n)].  The statement [n -= flat_start] rebinds
    [n]; the exponent then subtracts [flat_start] from the new [n]. *)
Definition _schedule (n : Z) : R :=
  if (n <? flat_start)%Z then max_prob
  else
    let n := (n - flat_start)%Z in
    let prob := max_prob * exp (- decay * (IZR n - IZR flat_start)) in
    Rmax min_prob (Rmin max_prob prob).
End Closure.

Definition precond_update_prob_schedule
    (max_prob min_prob decay : R) (flat_start : Z) : Z -> R :=
  _schedule max_prob min_prob decay flat_start.

(** Default arguments: [max_prob=1.0, min_prob=0.03, decay=0.001,
    flat_start=250]. *)
Definition default_schedule : Z -> R :=
  precond_update_prob_schedule 1%R 0.03%R 0.001%R 250%Z.
End Schedule.

(** ** Tensors as values *)

Inductive dtype : Type := bfloat16 | float16 | float32 | float64.

Definition dtype_eqb (a b : dtype) : bool :=
  match a, b with
  | bfloat16, bfloat16 | float16, float16
  | float32, float32 | float64, float64 => true
  | _, _ => false
  end.

(** A dense array: element type tag, shape, and the entries in row-major
    order.  A well-formed tensor has [length data = numel]. *)
Record Tensor : Type := mkTensor {
  t_dtype : dtype;
  t_shape : list Z;
  t_data : list R
}.

Definition prod_Z (l : list Z) : Z := fold_right Z.mul 1%Z l.

Definition numel (t : Tensor) : Z := prod_Z (t_shape t).

Definition ndim (t : Tensor) : nat := length (t_shape t).

(** Two tensors of one shape, with as many entries. *)
Definition same_shape (t u : Tensor) : Prop :=
  t_shape t = t_shape u /\ length (t_data t) = length (t_data u).

(** [Tensor.view(new_shape)]: torch raises [RuntimeError] when the
    requested shape does not have the number of elements of the input. *)
Definition view (t : Tensor) (new_shape : list Z) : result Tensor :=
  if (prod_Z new_shape =? numel t)%Z
  then Ok (mkTensor (t_dtype t) new_shape (t_data t))
  else Err (RuntimeError "shape is invalid for input size").

(** ** [dim_merger] (utils.py, 54-98), the path taken with [split=False] *)

Module DimMerger.
(** The [for sh in shape[1:][::-1]] loop, with the two loop-carried
    variables [new_shape] and [curr_shape]. *)
Fixpoint merge_loop (max_precond_dim : Z) (dims : list Z)
    (new_shape : list Z) (curr_shape : Z) : list Z * Z :=
  match dims with
  | [] => (new_shape, curr_shape)
  | sh :: dims' =>
      let temp_shape := (curr_shape * sh)%Z in
      if (temp_shape >? max_precond_dim)%Z then
        if (curr_shape >? 1)%Z
        then merge_loop max_precond_dim dims' (new_shape ++ [curr_shape]) sh
        else merge_loop max_precond_dim dims' (new_shape ++ [sh]) 1%Z
      else merge_loop max_precond_dim dims' new_shape temp_shape
  end.

(** The shape handed to [grad.view]. *)
Definition merged_shape (shape : list Z) (max_precond_dim : Z) : list Z :=
  let '(new_shape, curr_shape) :=
    merge_loop max_precond_dim (rev (tail shape)) [] 1%Z in
  let new_shape := firstn 1 shape ++ rev new_shape in
  if (curr_shape >? 1)%Z || (length new_shape =? 0)%nat
  then new_shape ++ [curr_shape]
  else new_shape.

Definition dim_merger (grad : Tensor) (max_precond_dim : Z)
    : result Tensor :=
  view grad (merged_shape (t_shape grad) max_precond_dim).

(** A gradient of shape (2, 0): two rows, no columns, no entries. *)
Definition grad_2x0 : Tensor := mkTensor float32 [2; 0]%Z [].
End DimMerger.

(** ** Tensor constructors used by the factor initialisation *)

(** [torch.zeros_like(t)] *)
Definition zeros_like (t : Tensor) : Tensor :=
  mkTensor (t_dtype t) (t_shape t) (map (fun _ => 0%R) (t_data t)).

(** [c * t], entrywise. *)
Definition scale_tensor (c : R) (t : Tensor) : Tensor :=
  mkTensor (t_dtype t) (t_shape t) (map (Rmult c) (t_data t)).

(** [torch.ones(size, dtype=dt)]. *)
Definition ones (size : Z) (dt : dtype) : Tensor :=
  mkTensor dt [size] (repeat 1%R (Z.to_nat size)).

(** [torch.ones_like(t, dtype=dt)]. *)
Definition ones_like (t : Tensor) (dt : dtype) : Tensor :=
  mkTensor dt (t_shape t) (repeat 1%R (Z.to_nat (numel t))).

(** [torch.eye(size, dtype=dt)], row-major. *)
Definition eye_data (n : nat) : list R :=
  flat_map (fun i => map (fun j => if (i =? j)%nat then 1%R else 0%R) (seq 0 n))
           (seq 0 n).

Definition eye (size : Z) (dt : dtype) : Tensor :=
  mkTensor dt [size; size] (eye_data (Z.to_nat size)).

(** Python [x ** y] on floats, for the bases that stay real: a positive
    base, and base zero with the positive exponents used here.  A negative
    base with a fractional exponent is a complex number in Python and is
    outside this model; every statement about [scale] below assumes
    [0 < scale]. *)
Definition float_pow (x y : R) : R :=
  if Rlt_dec 0 x then Rpower x y else 0%R.

(** ** [np.argsort]

    [np.argsort(a)] returns the indices that sort [a]: a permutation of
    [0, ..., len(a) - 1] along which the keys do not decrease.  The call
    of line 489 does not pass [kind], and numpy's default sort is not
    stable: in which order the indices of equal keys come is numpy's
    choice.  The sort is therefore a parameter with this contract. *)
Class NumpyLib : Type := {
  argsort : list Z -> list nat;
  argsort_perm : forall a : list Z, argsort a ≡ₚ seq 0 (length a);
  argsort_sorted :
    forall a : list Z,
      StronglySorted (fun i j => (nth i a 0 <= nth j a 0)%Z) (argsort a)
}.

(** One sort within the contract: an insertion sort, in which each index
    in turn moves left past the indices whose key is strictly greater.
    It keeps equal keys in their original order. *)
Module Argsort.
Section Keys.
Variable key : nat -> Z.

Fixpoint insert (i : nat) (sorted : list nat) : list nat :=
  match sorted with
  | [] => [i]
  | j :: rest =>
      if (key i <? key j)%Z then i :: j :: rest
      else j :: insert i rest
  end.

Definition insertion_sort (idx : list nat) : list nat :=
  fold_left (fun acc i => insert i acc) idx [].
End Keys.

Definition stable_argsort (a : list Z) : list nat :=
  insertion_sort (fun i => nth i a 0%Z) (seq 0 (length a)).
End Argsort.

(** ** [init_Q_exprs] (utils.py, 464-540) *)

Module InitQ.

(** [string.ascii_lowercase + string.ascii_uppercase] *)
Definition letters : string :=
  "abcdefghijklmnopqrstuvwxyzABCDEFGHIJKLMNOPQRSTUVWXYZ".

(** [letters[i]] as a one-character string.  The indices used are
    [i], [i + 13] and [i + 26] with [i < 13], all inside the 52 letters. *)
Definition letter (i : nat) : string :=
  match String.get i letters with
  | Some c => String c EmptyString
  | None => EmptyString
  end.

(** [sep.join(l)] *)
Fixpoint join (sep : string) (l : list string) : string :=
  match l with
  | [] => EmptyString
  | [x] => x
  | x :: rest => x +:+ sep +:+ join sep rest
  end.

(** The einsum expressions [(exprA, tuple(exprGs), exprP)]. *)
Record Exprs : Type := mkExprs {
  exprA : string;
  exprGs : list string;
  exprP : string
}.

(** The memory-save policy: the list [dim_diag] of forced-diagonal
    flags, or the [ValueError] of line 495. *)
Definition dim_diag_of `{NumpyLib} (shape : list Z)
    (memory_save_mode : option string) : result (list bool) :=
  match memory_save_mode with
  | None => Ok (map (fun _ => false) shape)
  | Some mode =>
      if String.eqb mode "one_diag" then
        let rev_sorted_dims := rev (argsort shape) in
        let dim_diag := map (fun _ => false) shape in
        match rev_sorted_dims with
        | k :: _ => Ok (<[k := true]> dim_diag)
        | [] => Err (IndexError "index 0 is out of bounds")
        end
      else if String.eqb mode "all_diag" then
        Ok (map (fun _ => true) shape)
      else Err (ValueError "Invalid memory_save_mode")
  end.

(** The variables carried by the loop over the axes. *)
Record Pieces : Type := mkPieces {
  Q : list Tensor;
  piece1A : list string; piece2A : string; piece3A : string;
  Gs : list string;
  piece1P : list string; piece2P : list string;
  piece3P : string; piece4P : string
}.

Definition pieces0 : Pieces := mkPieces [] [] "" "" [] [] [] "" "".

(** The test of line 503: this axis gets a diagonal factor. *)
Definition use_diag (rank : nat) (max_size min_ndim_triangular : Z)
    (size : Z) (dim_d : bool) : bool :=
  (size =? 1)%Z || (size >? max_size)%Z
  || (Z.of_nat rank <? min_ndim_triangular)%Z || dim_d.

(** ["".join(letters[i + off] if j == i else letters[j] for j in range(rank))] *)
Definition subst_letter (rank i off : nat) : string :=
  String.concat ""
    (map (fun j => if (j =? i)%nat then letter (i + off) else letter j)
         (seq 0 rank)).

Definition axis_step (scale : R) (dt : dtype) (rank : nat)
    (max_size min_ndim_triangular : Z)
    (st : Pieces) (i : nat) (size : Z) (dim_d : bool) : Pieces :=
  if use_diag rank max_size min_ndim_triangular size dim_d then
    let piece1 := subst_letter rank i 13 in
    let subscripts := piece1 +:+ "," +:+ piece1 +:+ "->" +:+ letter (i + 13) in
    mkPieces
      (Q st ++ [scale_tensor scale (ones size dt)])
      (piece1A st ++ [letter i])
      (piece2A st +:+ letter i)
      (piece3A st +:+ letter i)
      (Gs st ++ [subscripts])
      (piece1P st ++ [letter (i + 13)])
      (piece2P st ++ [letter (i + 13)])
      (piece3P st +:+ letter (i + 13))
      (piece4P st +:+ letter (i + 13))
  else
    let piece1 := subst_letter rank i 13 in
    let piece2 := subst_letter rank i 26 in
    let subscripts :=
      piece1 +:+ "," +:+ piece2 +:+ "->" +:+ letter (i + 13) +:+ letter (i + 26) in
    let a := letter i in
    let b := letter (i + 13) in
    let c := letter (i + 26) in
    mkPieces
      (Q st ++ [scale_tensor scale (eye size dt)])
      (piece1A st ++ [letter i +:+ letter (i + 13)])
      (piece2A st +:+ letter (i + 13))
      (piece3A st +:+ letter i)
      (Gs st ++ [subscripts])
      (piece1P st ++ [a +:+ b])
      (piece2P st ++ [a +:+ c])
      (piece3P st +:+ c)
      (piece4P st +:+ b).

(** [for i, (size, dim_d) in enumerate(zip(shape, dim_diag))] *)
Fixpoint axes_loop (scale : R) (dt : dtype) (rank : nat)
    (max_size min_ndim_triangular : Z)
    (st : Pieces) (i : nat) (axes : list (Z * bool)) : Pieces :=
  match axes with
  | [] => st
  | (size, dim_d) :: axes' =>
      axes_loop scale dt rank max_size min_ndim_triangular
        (axis_step scale dt rank max_size min_ndim_triangular st i size dim_d)
        (S i) axes'
  end.

Definition init_Q_exprs `{NumpyLib} (t : Tensor) (scale : R)
    (max_size min_ndim_triangular : Z) (memory_save_mode : option string)
    (dtype_arg : option dtype) : result (list Tensor * Exprs) :=
  let dt := match dtype_arg with Some d => d | None => t_dtype t end in
  let shape := t_shape t in
  if (length shape =? 0)%nat then
    Ok ([scale_tensor scale (ones_like t dt)],
        mkExprs ",->" [",->"] ",,->")
  else if (13 <? length shape)%nat then
    Err (ValueError "Einstein runs out of letters!")
  else
    let scale := float_pow scale (1 / INR (length shape)) in
    match dim_diag_of shape memory_save_mode with
    | Err e => Err e
    | Ok dim_diag =>
        let st := axes_loop scale dt (length shape) max_size
                    min_ndim_triangular pieces0 0 (combine shape dim_diag) in
        let exprA :=
          join "," (piece1A st) +:+ "," +:+ piece2A st +:+ "->" +:+ piece3A st in
        let exprP :=
          join "," (piece1P st) +:+ "," +:+ join "," (piece2P st) +:+ ","
            +:+ piece3P st +:+ "->" +:+ piece4P st in
        Ok (Q st, mkExprs exprA (Gs st) exprP)
    end.

(** A parameter of shape (4, 4, 2). *)
Definition param_442 : Tensor :=
  mkTensor float32 [4; 4; 2]%Z (repeat 0%R 32).

(** A parameter of shape (4, 4). *)
Definition param_44 : Tensor :=
  mkTensor float32 [4; 4]%Z (repeat 0%R 16).
End InitQ.

(** ** Reading factors *)

(** Entry [(r, c)] of a row-major matrix with [n] columns. *)
Definition mat_entry (q : Tensor) (n r c : nat) : R :=
  nth (r * n + c) (t_data q) 0%R.

(** A 1-D factor of length [size] whose entries are all [s]. *)
Definition is_scaled_ones (q : Tensor) (size : Z) (s : R) : Prop :=
  t_shape q = [size] /\ t_data q = repeat s (Z.to_nat size).

(** A square [size] x [size] factor equal to [s] times the identity. *)
Definition is_scaled_eye (q : Tensor) (size : Z) (s : R) : Prop :=
  t_shape q = [size; size] /\
  length (t_data q) = (Z.to_nat size * Z.to_nat size)%nat /\
  forall r c : nat,
    (r < Z.to_nat size)%nat -> (c < Z.to_nat size)%nat ->
    mat_entry q (Z.to_nat size) r c = if (r =? c)%nat then s else 0%R.

(** The three memory-save policies the synthesizer accepts. *)
Definition valid_mode (memory_save_mode : option string) : Prop :=
  memory_save_mode = None \/ memory_save_mode = Some "one_diag"
  \/ memory_save_mode = Some "all_diag".

(** [k] is a position of [a] that holds its maximum. *)
Definition is_max_axis (a : list Z) (k : nat) : Prop :=
  (k < length a)%nat /\
  (forall j, (j < length a)%nat -> (nth j a 0 <= nth k a 0)%Z).

(** The ranks of the factors of a synthesis result, when there is one. *)
Definition factor_ndims (r : result (list Tensor * InitQ.Exprs))
    : option (list nat) :=
  match r with
  | Ok (Qs, _) => Some (map ndim Qs)
  | Err _ => None
  end.

(** ** Entrywise and matrix operations on tensor values

    Entries are real; [conj] is the identity and [q.H] is the transpose. *)

Module Ops.
Open Scope R_scope.

Definition sum_R (l : list R) : R := fold_right Rplus 0 l.
Definition prod_R (l : list R) : R := fold_right Rmult 1 l.

Definition with_data (t : Tensor) (d : list R) : Tensor :=
  mkTensor (t_dtype t) (t_shape t) d.

(** [a + b], [a - b], [a * b] for tensors of one shape. *)
Definition zip_R (f : R -> R -> R) (a b : Tensor) : Tensor :=
  with_data a (zip_with f (t_data a) (t_data b)).
Definition add (a b : Tensor) : Tensor := zip_R Rplus a b.
Definition sub (a b : Tensor) : Tensor := zip_R Rminus a b.
Definition mul (a b : Tensor) : Tensor := zip_R Rmult a b.

(** [t / c] for a number [c]. *)
Definition div_scalar (t : Tensor) (c : R) : Tensor :=
  with_data t (map (fun x => x / c) (t_data t)).

(** [t.norm(float("inf"))]: the largest absolute entry. *)
Definition norm_inf (t : Tensor) : R :=
  fold_right Rmax 0 (map Rabs (t_data t)).

(** [torch.linalg.vector_norm(t)]: the Euclidean norm of the entries. *)
Definition vector_norm (d : list R) : R :=
  sqrt (sum_R (map (fun x => x * x) d)).

(** Rows and columns of a 2-D tensor. *)
Definition nrows (t : Tensor) : nat := Z.to_nat (nth 0 (t_shape t) 0%Z).
Definition ncols (t : Tensor) : nat := Z.to_nat (nth 1 (t_shape t) 0%Z).
Definition get2 (t : Tensor) (i j : nat) : R := mat_entry t (ncols t) i j.

(** The row-major table of [f i j] for [i < n], [j < m]. *)
Definition table (n m : nat) (f : nat -> nat -> R) : list R :=
  flat_map (fun i => map (fun j => f i j) (seq 0 m)) (seq 0 n).

Definition mk_mat (dt : dtype) (n m : nat) (f : nat -> nat -> R) : Tensor :=
  mkTensor dt [Z.of_nat n; Z.of_nat m] (table n m f).

(** [t.T] *)
Definition transpose2 (t : Tensor) : Tensor :=
  mk_mat (t_dtype t) (ncols t) (nrows t) (fun i j => get2 t j i).

(** [torch.matmul(a, b)] for 2-D [a] and [b] with matching inner size. *)
Definition matmul (a b : Tensor) : Tensor :=
  mk_mat (t_dtype a) (nrows a) (ncols b)
    (fun i j => sum_R (map (fun l => get2 a i l * get2 b l j)
                           (seq 0 (ncols a)))).

(** [torch.triu(t)]: entries below the diagonal set to zero. *)
Definition triu (t : Tensor) : Tensor :=
  mk_mat (t_dtype t) (nrows t) (ncols t)
    (fun i j => if (j <? i)%nat then 0 else get2 t i j).

(** Row [j] and column [i] of a matrix, and vector-matrix products. *)
Definition row (t : Tensor) (j : nat) : list R :=
  map (fun c => get2 t j c) (seq 0 (ncols t)).
Definition col (t : Tensor) (i : nat) : list R :=
  map (fun r => get2 t r i) (seq 0 (nrows t)).
Definition vecmat (x : list R) (m : Tensor) : list R :=
  map (fun j => sum_R (zip_with Rmult x (col m j))) (seq 0 (ncols m)).

(** [torch.max(v, 0)]: the maximum and the first index that holds it. *)
Fixpoint max_with_index (v : list R) : R * nat :=
  match v with
  | [] => (0, 0%nat)
  | [x] => (x, 0%nat)
  | x :: rest =>
      let '(m, i) := max_with_index rest in
      if Rlt_dec x m then (m, S i) else (x, 0%nat)
  end.

(** Whether the matrix has only zeros below its diagonal. *)
Definition upper_triangular (t : Tensor) : Prop :=
  forall i j : nat,
    (i < nrows t)%nat -> (j < i)%nat -> get2 t i j = 0.

(** The outer product of flat entry lists; folded over the factors it
    lists every product of one entry from each factor, which are the
    entries of the Kronecker product of the factors. *)
Definition outer (a b : list R) : list R :=
  flat_map (fun x => map (Rmult x) b) a.
Definition outer_all (factors : list (list R)) : list R :=
  fold_right outer [1] factors.
End Ops.

(** A well-formed [n] x [n] matrix. *)
Definition square (n : nat) (t : Tensor) : Prop :=
  t_shape t = [Z.of_nat n; Z.of_nat n] /\ length (t_data t) = (n * n)%nat.

(** ** [psgd_balance_Q] (utils.py, 543-548) *)

Module Balance.
Import Ops.
Open Scope R_scope.

(** [norms.log().mean().exp()] *)
Definition geometric_mean (norms : list R) : R :=
  exp (sum_R (map ln norms) / INR (length norms)).

(** The new contents of the tensors of [Q_in], which are multiplied in
    place by [geometric_mean / norm].  [torch.stack] of an empty list
    raises. *)
Definition psgd_balance_Q (Q_in : list Tensor) : result (list Tensor) :=
  match Q_in with
  | [] => Err (RuntimeError "stack expects a non-empty TensorList")
  | _ =>
      let norms := map norm_inf Q_in in
      let geometric_mean := geometric_mean norms in
      let norms := map (fun n => geometric_mean / n) norms in
      Ok (zip_with (fun q c => scale_tensor c q) Q_in norms)
  end.

(** Two factors with infinity norms 2 and 8. *)
Definition Q_2_8 : list Tensor :=
  [mkTensor float32 [2]%Z [1; -2]; mkTensor float32 [1; 1]%Z [8]].
End Balance.

(** ** The torch calls that are used as given *)

Class TorchLib : Type := {
  (** [torch.einsum(expr, *operands)] *)
  einsum : string -> list Tensor -> Tensor;
  (** [torch.permute(t, dims)] *)
  permute : Tensor -> list nat -> Tensor;
  (** [torch.transpose(t, dim0, dim1)] *)
  transpose : Tensor -> nat -> nat -> Tensor;
  (** [torch.linalg.solve_triangular(q, B, upper=True, left=False)] *)
  solve_triangular : Tensor -> Tensor -> Tensor;
  (** [torch.randn_like(t)], the draw made at this call *)
  randn_like : Tensor -> Tensor;
  (** [torch.empty_like(t)]: the shape and dtype of [t], contents left to
      the allocator *)
  empty_like : Tensor -> Tensor;
  (** [torch.matmul(x, M, out=x.view(1, -1))] for a vector [x] and a matrix
      [M]: the entries that [x] holds afterwards.  The output buffer is
      the storage of the first operand, and what torch leaves there when
      it reads an operand that it is overwriting is not the product. *)
  matmul_out_self : list R -> Tensor -> list R
}.

(** ** The preconditioner update (utils.py, 551-613) *)

Module Precond.
Import Ops.
Open Scope R_scope.

(** [conjB /= q] for a 0-D or 1-D [q], broadcast along the last axis. *)
Definition div_last (t q : Tensor) : Tensor :=
  with_data t
    (imap (fun k x => x / nth (k mod length (t_data q)) (t_data q) 0)
          (t_data t)).

Definition unsqueeze0 (t : Tensor) : Tensor :=
  mkTensor (t_dtype t) (1%Z :: t_shape t) (t_data t).

Definition squeeze0 (t : Tensor) : Tensor :=
  match t_shape t with
  | 1%Z :: rest => mkTensor (t_dtype t) rest (t_data t)
  | _ => t
  end.

Section WithTorch.
Context `{TorchLib}.

(** The body of [for i, q in enumerate(Q)] in [psgd_calc_A_and_conjB]. *)
Definition conjB_step (order : nat) (conjB : Tensor) (i : nat) (q : Tensor)
    : Tensor :=
  let conjB :=
    if (ndim q <=? 1)%nat then div_last conjB q
    else
      let unsqueeze := (ndim conjB <=? 1)%nat in
      let conjB := if unsqueeze then unsqueeze0 conjB else conjB in
      let conjB := solve_triangular q conjB in
      if unsqueeze then squeeze0 conjB else conjB in
  if (Z.of_nat i <? Z.of_nat order - 1)%Z
  then transpose conjB i (order - 1)
  else conjB.

Fixpoint conjB_loop (order : nat) (conjB : Tensor) (i : nat)
    (Q : list Tensor) : Tensor :=
  match Q with
  | [] => conjB
  | q :: Q' => conjB_loop order (conjB_step order conjB i q) (S i) Q'
  end.

Definition psgd_calc_A_and_conjB (exprA : string) (G : Tensor)
    (Q : list Tensor) (V : Tensor) : Tensor * Tensor :=
  let A := einsum exprA (Q ++ [G]) in
  let order := ndim G in
  let p := seq 0 order in
  let conjB := permute V (tail p ++ firstn 1 p) in
  (A, conjB_loop order conjB 0 Q).
End WithTorch.

Section WithTorch.
Context `{TorchLib}.

(** [psgd_lb(A, max_abs)] for a square matrix [A].  [A /= max_abs]
    divides in place; the two products of lines 583 and 585 are written
    into [x] itself through [out=x.view(1, -1)]. *)
Definition psgd_lb (A : Tensor) (max_abs : R) : R :=
  let A := div_scalar A max_abs in
  let aa := mul A A in
  let '(value0, i) :=
    max_with_index (map (fun c => sum_R (col aa c)) (seq 0 (ncols aa))) in
  let '(value1, j) :=
    max_with_index (map (fun r => sum_R (row aa r)) (seq 0 (nrows aa))) in
  let ah := transpose2 A in
  let comp := if Rlt_dec value1 value0 then true else false in
  let x := if comp then col A i else row A j in
  let x := matmul_out_self x (if comp then A else transpose2 A) in
  let x := map (fun v => v / vector_norm x) x in
  let x := matmul_out_self x (if comp then ah else transpose2 ah) in
  vector_norm x * max_abs.
End WithTorch.

(** The correction of lines 601-605, from the two contractions
    [term1 = einsum(exprG, A, A.conj())] and
    [term2 = einsum(exprG, conjB.conj(), conjB)]. *)
Definition correction (term1 term2 : Tensor) (step : R) : Tensor * Tensor :=
  let term2 := add term2 term1 in            (* term2 += term1 *)
  let term1 := scale_tensor 2 term1 in       (* term1 *= 2 *)
  let term1 := sub term1 term2 in            (* term1 -= term2 *)
  let term1 := scale_tensor step term1 in    (* term1 *= step *)
  (term1, term2).

(** [q.addcdiv_(term1, d, value=-1)] with a 0-D divisor [d]. *)
Definition addcdiv_neg (q term1 : Tensor) (d : R) : Tensor :=
  with_data q (zip_with (fun qx tx => qx + -1 * (tx / d))
                        (t_data q) (t_data term1)).

(** [q.addmm_(term1, q, alpha=-1)] *)
Definition addmm_neg (q term1 : Tensor) : Tensor :=
  with_data q (zip_with (fun qx px => qx + -1 * px)
                        (t_data q) (t_data (matmul term1 q))).

(** The body of the loop of [psgd_update_precond]: the new contents of
    [q]. *)
Definition update_factor `{TorchLib} (q term1 term2 : Tensor)
    (step tiny : R) : Tensor :=
  let '(term1, term2) := correction term1 term2 step in
  let norm := norm_inf term2 in
  if (ndim q <? 2)%nat then
    let term1 := mul term1 q in
    addcdiv_neg q term1 (Rmax norm tiny)
  else
    let term1 := triu term1 in
    let lb := if Rlt_dec 0 norm then psgd_lb term2 norm else norm in
    let term1 := div_scalar term1 (Rmax lb tiny) in
    addmm_neg q term1.

Section WithTorch.
Context `{TorchLib}.

(** The new contents of the tensors of [Q]; [A] and [conjB] are
    computed once, from the factors as they are on entry. *)
Definition psgd_update_precond (Q : list Tensor) (exprs : InitQ.Exprs)
    (V G : Tensor) (step tiny : R) : list Tensor :=
  let exprA := InitQ.exprA exprs in
  let exprGs := InitQ.exprGs exprs in
  let '(A, conjB) := psgd_calc_A_and_conjB exprA G Q V in
  zip_with
    (fun q exprG =>
       let term1 := einsum exprG [A; A] in
       let term2 := einsum exprG [conjB; conjB] in
       update_factor q term1 term2 step tiny)
    Q exprGs.
End WithTorch.
End Precond.

(** ** The torch calls on 1-D tensors

    For a rank-1 parameter the synthesized expressions are ["a,a->a"],
    ["n,n->n"] and ["n,n,n->n"]: every operand and the output carry the
    same single index, so the contraction is the entrywise product of the
    operands; permuting a 1-D tensor by [0] and transposing are the
    identity.  No triangular system arises.  The probe is a fixed draw. *)
Module Rank1.
Import Ops.

Definition einsum1 (expr : string) (operands : list Tensor) : Tensor :=
  match operands with
  | [] => mkTensor float32 [] []
  | t :: rest => fold_left mul rest t
  end.

#[export] Instance torch_rank1 : TorchLib := {
  einsum := einsum1;
  permute := fun t _ => t;
  transpose := fun t _ _ => t;
  solve_triangular := fun _ B => B;
  randn_like := fun t => with_data t (map (fun _ => 1%R) (t_data t));
  empty_like := fun t => with_data t (map (fun _ => 0%R) (t_data t));
  matmul_out_self := fun x _ => map (fun _ => 0%R) x
}.

(** A 1-D preconditioner [1, 1], gradient [2, 4] and probe [1, -1]. *)
Definition Q1 : list Tensor := [mkTensor float32 [2]%Z [1; 1]%R].
Definition G1 : Tensor := mkTensor float32 [2]%Z [2; 4]%R.
Definition V1 : Tensor := mkTensor float32 [2]%Z [1; -1]%R.
Definition exprs1 : InitQ.Exprs := InitQ.mkExprs "a,a->a" ["n,n->n"] "n,n,n->n".
End Rank1.

(** ** Python objects with identity

    A reference is a location; [x is y] compares locations.  The store
    holds the live objects: tensors, dtype objects such as
    [torch.bfloat16], and the tuples built by a tuple display. *)

Module Py.
Definition loc : Type := positive.

Inductive obj : Type :=
  | OTensor (t : Tensor)
  | ODtype (d : dtype)
  | OTuple (items : list dtype).

Abbreviation heap := (gmap loc obj).

(** A new object gets a location that no live object has. *)
Definition alloc (o : obj) (h : heap) : loc * heap :=
  let l := fresh (dom h) in (l, <[l := o]> h).

(** What a call may hand back: a tensor reference or a dtype object. *)
Inductive pyval : Type :=
  | PTensor (l : loc)
  | PDtype (d : dtype).

(** Computations on a state [S] that may raise; the state reached when
    the exception is raised is kept. *)
Definition M (S A : Type) : Type := S -> S * result A.

Definition ret {S A : Type} (a : A) : M S A := fun s => (s, Ok a).

Definition raise {S A : Type} (e : exn) : M S A := fun s => (s, Err e).

Definition bind {S A B : Type} (m : M S A) (k : A -> M S B) : M S B :=
  fun s =>
    match m s with
    | (s', Ok a) => k a s'
    | (s', Err e) => (s', Err e)
    end.

Definition get {S : Type} : M S S := fun s => (s, Ok s).
Definition modify {S : Type} (f : S -> S) : M S unit := fun s => (f s, Ok tt).

(** [[f(x) for x in l]], left to right. *)
Fixpoint mapM {S A B : Type} (f : A -> M S B) (l : list A) : M S (list B) :=
  match l with
  | [] => ret []
  | x :: l' => bind (f x) (fun y => bind (mapM f l') (fun ys => ret (y :: ys)))
  end.

(** [for x in l: f(x)] *)
Fixpoint forM_ {S A : Type} (f : A -> M S unit) (l : list A) : M S unit :=
  match l with
  | [] => ret tt
  | x :: l' => bind (f x) (fun _ => forM_ f l')
  end.
End Py.

Notation "'let!' x ':=' m 'in' k" := (Py.bind m (fun x => k))
  (at level 10, x name, m at level 100, k at level 200).
Notation "'let!' ( x , y ) ':=' m 'in' k" :=
  (Py.bind m (fun xy => let '(x, y) := xy in k))
  (at level 10, x name, y name, m at level 100, k at level 200).
Notation "'run!' m 'in' k" := (Py.bind m (fun _ => k))
  (at level 10, m at level 100, k at level 200).

(** ** [promote] (utils.py, 308-313) *)

Module Promote.
Import Py.

Definition is_half (d : dtype) : bool :=
  match d with bfloat16 | float16 => true | _ => false end.

(** [x.float()]: a new float32 tensor with the same entries. *)
Definition to_float (t : Tensor) : Tensor :=
  mkTensor float32 (t_shape t) (t_data t).

(** [x is (torch.bfloat16, torch.float16)]: the display builds a tuple
    object, [is] compares its identity with that of [x], and the tuple
    is dropped. *)
Definition is_dtype_pair (x : loc) (h : heap) : bool :=
  let '(tup, _) := alloc (OTuple [bfloat16; float16]) h in
  Pos.eqb x tup.

Definition promote (x : loc) : M heap pyval :=
  fun h =>
    if is_dtype_pair x h then (h, Ok (PDtype float32))
    else
      match h !! x with
      | Some (OTensor t) =>
          if is_half (t_dtype t)
          then let '(l, h') := alloc (OTensor (to_float t)) h in
               (h', Ok (PTensor l))
          else (h, Ok (PTensor x))
      | _ => (h, Err (AttributeError "object has no attribute 'dtype'"))
      end.

(** A store with a bfloat16 tensor at 1, a float32 tensor at 2 and the
    dtype object [torch.bfloat16] at 3. *)
Definition heap12 : heap :=
  <[1%positive := OTensor (mkTensor bfloat16 [2]%Z [1%R; 2%R])]>
    (<[2%positive := OTensor (mkTensor float32 [2]%Z [3%R; 4%R])]>
       (<[3%positive := ODtype bfloat16]> ∅)).
End Promote.

(** ** Binding the arguments of a call

    Before the body of a method runs, Python binds the positional
    arguments of the call to the parameters of the method.  A method
    whose parameters after [self] are [params], none with a default
    value, raises [TypeError] when it is given another number of
    positional arguments.  The messages count [self]. *)
Module PyCall.
Definition digit (n : nat) : string :=
  String (ascii_of_nat (48 + n)) EmptyString.

Definition quoted (s : string) : string := "'" +:+ s +:+ "'".

(** ['a'], ['a' and 'b'], ['a', 'b', and 'c'] *)
Definition name_list (names : list string) : string :=
  match names with
  | [a] => quoted a
  | [a; b] => quoted a +:+ " and " +:+ quoted b
  | _ =>
      String.concat ", " (map quoted (removelast names))
        +:+ ", and " +:+ quoted (List.last names "")
  end.

(** The exception for [given] positional arguments, [given] different
    from the number of parameters. *)
Definition arity_error (name : string) (params : list string) (given : nat)
    : exn :=
  if (length params <? given)%nat then
    TypeError (name +:+ "() takes " +:+ digit (S (length params))
               +:+ " positional arguments but " +:+ digit (S given)
               +:+ " were given")
  else
    let missing := skipn given params in
    TypeError (name +:+ "() missing " +:+ digit (length missing)
               +:+ " required positional argument"
               +:+ (if (1 <? length missing)%nat then "s: " else ": ")
               +:+ name_list missing).

(** The exception for a keyword argument that names no parameter. *)
Definition unexpected_keyword (name keyword : string) : exn :=
  TypeError (name +:+ "() got an unexpected keyword argument "
             +:+ quoted keyword).
End PyCall.

(** ** [ForeachCachedPSGDKron] (cached_psgd_kron.py) *)

Module Kron.
Import Py Promote.

(** The constructor arguments that the constructor inspects or stores.
    [params], [clip_fn] and [foreach] are passed on untouched and are
    left out. *)
Record Args : Type := mkArgs {
  lr : Q;
  beta : Q;
  weight_decay : Q;
  preconditioner_update_probability : option (Z -> R);
  max_size_triangular : Z;
  min_ndim_triangular : Z;
  memory_save_mode : option string;
  momentum_into_precond_update : bool;
  warmup_steps : Z;
  merge_dims : bool;
  split : bool;
  store_triu_as_line : bool;
  q_dtype : string
}.

(** The defaults of the signature. *)
Definition default_args : Args :=
  mkArgs 0.001 0.9 0 None 2048 2 None true 1 false false true "float32".

(** The [defaults] dictionary, which becomes the parameter group. *)
Record Group : Type := mkGroup {
  g_lr : Q;
  g_beta : Q;
  g_weight_decay : Q;
  g_max_size_triangular : Z;
  g_min_ndim_triangular : Z;
  g_memory_save_mode : option string;
  g_momentum_into_precond_update : bool;
  g_precond_lr : R;
  g_precond_init_scale : R;
  g_step : Z;
  g_warmup_steps : Z;
  g_merge_dims : bool;
  g_split : bool;
  g_store_triu_as_line : bool;
  g_q_dtype : string
}.

Record Optimizer : Type := mkOptimizer {
  update_probability : Z -> R;
  defaults : Group;
  _prob_step : Z
}.

Definition Qlt_bool (x y : Q) : bool := negb (Qle_bool y x).

(** The dictionary [defaults] of lines 58-65; [precond_lr] is fixed at
    0.1 and [precond_init_scale] at 1.0. *)
Definition defaults_of (a : Args) : Group :=
  mkGroup (lr a) (beta a) (weight_decay a)
    (max_size_triangular a) (min_ndim_triangular a)
    (memory_save_mode a) (momentum_into_precond_update a)
    0.1%R 1%R 0 (warmup_steps a) (merge_dims a) (split a)
    (store_triu_as_line a) (q_dtype a).

(** The arguments of line 66, [super().__init__(params, defaults,
    foreach)]. *)
Inductive ctor_arg : Type :=
  | ArgParams
  | ArgDefaults (g : Group)
  | ArgForeach.

(** [torch.optim.Optimizer.__init__(self, params, defaults)], which
    [StatefulOptimizer] inherits. *)
Class BaseConstructor : Type := {
  optimizer_init : ctor_arg -> ctor_arg -> result unit
}.

(** [PSGDBase.__init__(self, parameters, groups)] (utils.py, 636-639): it
    takes two arguments and hands them to the constructor it inherits;
    the generator and [_tiny] it then stores are part of [Step.World]. *)
Definition PSGDBase__init__ `{BaseConstructor} (args : list ctor_arg)
    : result unit :=
  match args with
  | [parameters; groups] => optimizer_init parameters groups
  | _ =>
      Err (PyCall.arity_error "PSGDBase.__init__" ["parameters"; "groups"]
             (length args))
  end.

(** [__init__]: the three range checks of lines 44-49, the assembly of
    [defaults], the call of the base-class constructor with the three
    arguments of line 66, and [_prob_step = 0]. *)
Definition __init__ `{BaseConstructor} (a : Args) : result Optimizer :=
  if negb (Qle_bool 0 (lr a)) then
    Err (ValueError "Invalid learning rate")
  else if negb (Qle_bool 0 (beta a) && Qlt_bool (beta a) 1) then
    Err (ValueError "Invalid beta parameter")
  else if negb (Qle_bool 0 (weight_decay a)) then
    Err (ValueError "Invalid weight_decay value")
  else
    let prob :=
      match preconditioner_update_probability a with
      | None => Schedule.precond_update_prob_schedule 1 0.03 0.001 250
      | Some f => f
      end in
    match PSGDBase__init__
            [ArgParams; ArgDefaults (defaults_of a); ArgForeach] with
    | Err e => Err e
    | Ok _ => Ok (mkOptimizer prob (defaults_of a) 0)
    end.

(** [torch.finfo(torch.bfloat16).tiny], 2 ** -126 *)
Definition tiny : R := (/ 2 ^ 126)%R.

(** *** The cache expression of lines 102-106 *)

Definition upper_ascii (c : ascii) : ascii :=
  let n := nat_of_ascii c in
  if (97 <=? n)%nat && (n <=? 122)%nat then ascii_of_nat (n - 32) else c.

Fixpoint contains (c : ascii) (s : string) : bool :=
  match s with
  | EmptyString => false
  | String d s' => Ascii.eqb c d || contains c s'
  end.

Definition char_str (c : ascii) : string := String c EmptyString.

(** [zip(einsum_base, xs)]: the first letters paired with [xs]. *)
Definition zip_letters {A : Type} (xs : list A) : list (ascii * A) :=
  combine (list_ascii_of_string InitQ.letters) xs.

Definition cache_expr_of (Q : list Tensor) (g_shape : list Z) : string :=
  let expr :=
    map (fun cq : ascii * Tensor =>
           let (c, q_) := cq in
           if (ndim q_ =? 2)%nat then char_str (upper_ascii c) +:+ char_str c
           else char_str c)
        (zip_letters Q) in
  let expr := InitQ.join "," expr in
  let grad_expr := map fst (zip_letters g_shape) in
  let out_expr :=
    String.concat ""
      (map (fun c => if contains (upper_ascii c) expr
                     then char_str (upper_ascii c) else char_str c)
           grad_expr) in
  expr +:+ "," +:+ string_of_list_ascii grad_expr +:+ "->" +:+ out_expr.

(** [matmul(q.T.conj(), q)] for a matrix, [mul(q.conj(), q)] otherwise. *)
Definition cache_of (q_ : Tensor) : Tensor :=
  if (ndim q_ =? 2)%nat then Ops.matmul (Ops.transpose2 q_) q_
  else Ops.mul q_ q_.

(** The default arguments with an unknown memory-save policy. *)
Definition bad_policy_args : Args :=
  mkArgs 0.001 0.9 0 None 2048 2 (Some "bogus") true 1 false false true
    "float32".

(** The default arguments with [store_triu_as_line=False]. *)
Definition unpacked_args : Args :=
  mkArgs 0.001 0.9 0 None 2048 2 None true 1 false false false "float32".

(** The default arguments with a negative learning rate. *)
Definition negative_lr_args : Args :=
  mkArgs (-0.5) 0.9 0 None 2048 2 None true 1 false false true "float32".
End Kron.

(** ** The optimizer state and the loops of [_step]

    [cached_psgd_kron.py] imports [triu_to_line] and [line_to_triu] from
    [utils.py], which does not define them: they form the interface
    [Collaborators].  The draws of [self.rng] come from Python's
    [random].  [_step] is embedded in its parts: one round of the loop
    that collects the state (lines 93-110), the momentum update of line
    120, one round of the loop over the parameters (lines 125-142) and
    the end (lines 144-147); the pairs [(p, g)] of the first loop are
    what [split_p_and_g_in_group] yields. *)

(** The stream of [self.rng.random()]: [uniform n] is the [n]-th draw. *)
Class Rng : Type := { uniform : nat -> R }.

Module Step.
Import Py Promote Kron.

Section WithPacked.
(** The representation that [triu_to_line] produces. *)
Context {packed : Type}.

(** The values kept in a per-parameter state dictionary. *)
Inductive sval : Type :=
  | SVTensor (l : loc)
  | SVTensors (ls : list loc)
  | SVPacked (q : packed)
  | SVExprs (e : InitQ.Exprs)
  | SVStr (s : string).

Record World : Type := mkWorld {
  w_heap : heap;
  (** [self.state], keyed by [(data_ptr, shape)] *)
  w_state : gmap (loc * list Z) (gmap string sval);
  w_group : Group;
  w_prob_step : Z;
  (** how many draws [self.rng] has made *)
  w_rng : nat
}.

Class Collaborators : Type := {
  triu_to_line : list loc -> M World packed;
  line_to_triu : packed -> M World (list loc)
}.

Context `{NumpyLib} `{TorchLib} `{Rng} `{Collaborators}.

(** *** Store and dictionary access *)

Definition set_heap (h : heap) (w : World) : World :=
  mkWorld h (w_state w) (w_group w) (w_prob_step w) (w_rng w).

Definition set_state (s : gmap (loc * list Z) (gmap string sval))
    (w : World) : World :=
  mkWorld (w_heap w) s (w_group w) (w_prob_step w) (w_rng w).

Definition read (l : loc) : M World Tensor :=
  fun w =>
    match w_heap w !! l with
    | Some (OTensor t) => (w, Ok t)
    | _ => (w, Err (AttributeError "not a tensor"))
    end.

(** An in-place write: the object at [l] now holds [t]. *)
Definition write (l : loc) (t : Tensor) : M World unit :=
  modify (fun w => set_heap (<[l := OTensor t]> (w_heap w)) w).

Definition new_tensor (t : Tensor) : M World loc :=
  fun w =>
    let '(l, h) := alloc (OTensor t) (w_heap w) in (set_heap h w, Ok l).

(** [promote], run on the store of the optimizer. *)
Definition promote_w (x : loc) : M World pyval :=
  fun w => let '(h, r) := promote x (w_heap w) in (set_heap h w, r).

(** [self.state_(p)]: the key, creating the empty dictionary on first
    access as [defaultdict] does. *)
Definition state_ (p : loc) : M World (loc * list Z) :=
  let! t := read p in
  let key := (p, t_shape t) in
  run! modify (fun w =>
         match w_state w !! key with
         | Some _ => w
         | None => set_state (<[key := ∅]> (w_state w)) w
         end) in
  ret key.

Definition state_dict (key : loc * list Z) (w : World) : gmap string sval :=
  default ∅ (w_state w !! key).

(** [state[name] = v] *)
Definition setitem (key : loc * list Z) (name : string) (v : sval)
    : M World unit :=
  modify (fun w =>
    set_state (<[key := <[name := v]> (state_dict key w)]> (w_state w)) w).

(** [state[name]] *)
Definition getitem (key : loc * list Z) (name : string) : M World sval :=
  fun w =>
    match state_dict key w !! name with
    | Some v => (w, Ok v)
    | None => (w, Err (KeyError name))
    end.

Definition lift {A : Type} (r : result A) : M World A :=
  fun w => (w, r).

Definition as_exprs (v : sval) : M World InitQ.Exprs :=
  match v with
  | SVExprs e => ret e
  | _ => raise (TypeError "expected the expression triple")
  end.

Definition as_loc (v : pyval) : M World loc :=
  match v with
  | PTensor l => ret l
  | PDtype _ => raise (AttributeError "a dtype is not a tensor")
  end.

(** In-place update of the tensors [ls] with the contents [ts]. *)
Definition write_all (ls : list loc) (ts : list Tensor) : M World unit :=
  forM_ (fun lt : loc * Tensor => write (fst lt) (snd lt)) (combine ls ts).

Definition draw : M World R :=
  fun w =>
    (mkWorld (w_heap w) (w_state w) (w_group w) (w_prob_step w)
       (S (w_rng w)),
     Ok (uniform (w_rng w))).

(** *** [PSGDBase.balance] and [PSGDBase.do_update] (utils.py, 641-651) *)

(** The arguments that the calls of lines 134 and 135 pass. *)
Inductive call_arg : Type :=
  | ABool (b : bool)
  | ATensors (ls : list loc)
  | AFactors (qs : list (list pyval))
  | AFloat (r : R)
  | AStored (vs : list sval).

(** The truth value of an argument: an empty list and the number zero
    are false. *)
Definition truthy (a : call_arg) : bool :=
  match a with
  | ABool b => b
  | ATensors ls => negb (bool_decide (ls = []))
  | AFactors qs => negb (bool_decide (qs = []))
  | AFloat r => if Req_dec_T r 0 then false else true
  | AStored vs => match vs with [] => false | _ => true end
  end.

Definition as_tensor_list (a : call_arg) : M World (list loc) :=
  match a with
  | ATensors ls => ret ls
  | _ => raise (TypeError "expected a list of tensors")
  end.

Definition as_factor_lists (a : call_arg) : M World (list (list pyval)) :=
  match a with
  | AFactors qs => ret qs
  | _ => raise (TypeError "expected a list of factor lists")
  end.

Definition as_float (a : call_arg) : M World R :=
  match a with
  | AFloat r => ret r
  | _ => raise (TypeError "expected a number")
  end.

(** The body of [balance(self, do_update, grad_list, Q_list)]. *)
Definition PSGDBase_balance (do_update grad_list Q_list : call_arg)
    : M World unit :=
  if negb (truthy do_update) then ret tt
  else
    let! r := draw in
    if Rlt_dec 0.01 r then ret tt
    else
      let! grad_list := as_tensor_list grad_list in
      let! Q_list := as_factor_lists Q_list in
      forM_ (fun gq : loc * list pyval =>
               let '(g, q) := gq in
               let! gt := read g in
               if (1 <? ndim gt)%nat then
                 let! qs := mapM as_loc q in
                 let! ts := mapM read qs in
                 let! ts' := lift (Balance.psgd_balance_Q ts) in
                 write_all qs ts'
               else ret tt)
            (combine grad_list Q_list).

(** The body of [do_update(self, p_list, grad_list, q_list, precond_lr)]. *)
Definition PSGDBase_do_update (p_list grad_list q_list precond_lr : call_arg)
    : M World unit :=
  let! p_list := as_tensor_list p_list in
  let! grad_list := as_tensor_list grad_list in
  let! q_list := as_factor_lists q_list in
  forM_ (fun pgq : loc * loc * list pyval =>
           let '(p, grad, Q) := pgq in
           let! key := state_ p in
           let! ex := getitem key "exprs" in
           let! ex := as_exprs ex in
           let! gt := read grad in
           let! precond_lr := as_float precond_lr in
           let! qs := mapM as_loc Q in
           let! ts := mapM read qs in
           write_all qs
             (Precond.psgd_update_precond ts ex (randn_like gt) gt
                precond_lr tiny))
        (combine (combine p_list grad_list) q_list).

(** A call [self.balance(...)] with the positional arguments [args]: the
    method has three parameters. *)
Definition balance (args : list call_arg) : M World unit :=
  match args with
  | [do_update; grad_list; Q_list] =>
      PSGDBase_balance do_update grad_list Q_list
  | _ =>
      raise (PyCall.arity_error "PSGDBase.balance"
               ["do_update"; "grad_list"; "Q_list"] (length args))
  end.

(** A call [self.do_update(...)] with the positional arguments [args] and
    the keyword arguments named [keywords]: the method has four
    parameters, and a keyword that names none of them is refused
    first. *)
Definition do_update (args : list call_arg) (keywords : list string)
    : M World unit :=
  let params := ["p_list"; "grad_list"; "q_list"; "precond_lr"] in
  match List.filter (fun k => negb (existsb (String.eqb k) params))
                    keywords with
  | k :: _ => raise (PyCall.unexpected_keyword "PSGDBase.do_update" k)
  | [] =>
      match args with
      | [p_list; grad_list; q_list; precond_lr] =>
          PSGDBase_do_update p_list grad_list q_list precond_lr
      | _ =>
          raise (PyCall.arity_error "PSGDBase.do_update" params
                   (length args))
      end
  end.

(** *** Lines 95-108: the state of a parameter seen for the first time *)

Definition init_state (key : loc * list Z) (p g : loc)
    (precond_init_scale : R) (max_size_triangular min_ndim_triangular : Z)
    (memory_save_mode : option string) (store_triu_as_line : bool)
    (q_dtype : dtype) : M World unit :=
  let! gt := read g in
  let! ea := new_tensor (zeros_like gt) in
  run! setitem key "exp_avg" (SVTensor ea) in
  let! pt := read p in
  let! (Q, exprs) :=
    lift (InitQ.init_Q_exprs pt precond_init_scale max_size_triangular
            min_ndim_triangular memory_save_mode (Some q_dtype)) in
  let! Qrefs := mapM new_tensor Q in
  run! setitem key "exprs" (SVExprs exprs) in
  let! stored :=
    (if store_triu_as_line
     then let! line := triu_to_line Qrefs in ret (SVPacked line)
     else ret (SVTensors Qrefs)) in
  run! setitem key "Q" stored in
  let! cache := mapM (fun q => new_tensor (empty_like q)) Q in
  run! setitem key "Q_cache" (SVTensors cache) in
  setitem key "cache_expr" (SVStr (cache_expr_of Q (t_shape gt))).

(** The tuple appended to [vals]. *)
Record Val : Type := mkVal {
  v_p : loc; v_g : loc; v_exp_avg : loc; v_Q : sval; v_Q_cache : list loc
}.

Definition as_tensor (v : sval) : M World loc :=
  match v with
  | SVTensor l => ret l
  | _ => raise (TypeError "expected a tensor")
  end.

Definition as_tensors (v : sval) : M World (list loc) :=
  match v with
  | SVTensors ls => ret ls
  | _ => raise (TypeError "expected a list of tensors")
  end.

Definition as_packed (v : sval) : M World packed :=
  match v with
  | SVPacked q => ret q
  | _ => raise (TypeError "expected a packed factor list")
  end.

Definition as_str (v : sval) : M World string :=
  match v with
  | SVStr s => ret s
  | _ => raise (TypeError "expected a string")
  end.

(** *** Lines 92-110: one round of the gathering loop *)

Definition gather (grp : Group) (q_dtype : dtype) (pg : loc * loc)
    : M World Val :=
  let '(p, g) := pg in
  let! key := state_ p in
  let! w := get in
  run! (if bool_decide (is_Some (state_dict key w !! "Q")) then ret tt
        else init_state key p g (g_precond_init_scale grp)
               (g_max_size_triangular grp) (g_min_ndim_triangular grp)
               (g_memory_save_mode grp) (g_store_triu_as_line grp)
               q_dtype) in
  let! ea := getitem key "exp_avg" in
  let! ea := as_tensor ea in
  let! Q := getitem key "Q" in
  let! Qc := getitem key "Q_cache" in
  let! Qc := as_tensors Qc in
  ret (mkVal p g ea Q Qc).

(** *** Line 120: [torch._foreach_lerp_(exp_avg_list, grad_list, w)] *)

Definition lerp_ (weight : R) (v : Val) : M World unit :=
  let! ea := read (v_exp_avg v) in
  let! g := read (v_g v) in
  write (v_exp_avg v)
    (Ops.with_data ea
       (zip_with (fun a b => (a + weight * (b - a))%R)
                 (t_data ea) (t_data g))).

(** *** Lines 124-142: the loop over the parameters *)

(** [torch.einsum(self.state_(p)['cache_expr'], *cached_q, ea)] *)
Definition cache_apply (p : loc) (cached_q : list loc) (ea : loc)
    : M World Tensor :=
  let! key := state_ p in
  let! e := getitem key "cache_expr" in
  let! e := as_str e in
  let! operands := mapM read (cached_q ++ [ea]) in
  ret (einsum e operands).

(** Lines 136-140: every cache entry is overwritten from its factor. *)
Definition rebuild_cache (cached_q q : list loc) : M World unit :=
  forM_ (fun cq : loc * loc =>
           let '(c_, q_) := cq in
           let! t := read q_ in
           write c_ (cache_of t))
        (combine cached_q q).

(** Line 132: the factors of the stored [Q]. *)
Definition unpack_Q (grp : Group) (v : Val) : M World (list loc) :=
  if g_store_triu_as_line grp
  then let! line := as_packed (v_Q v) in line_to_triu line
  else as_tensors (v_Q v).

(** Lines 132-135: unpack, promote, [self.balance([g], [q32])] and
    [self.do_update([p], [ea if ... else g], [q32], precond_lr, [q_orig],
    store_triu_as_line=store_triu_as_line)]. *)
Definition refresh_Q (grp : Group) (v : Val) : M World (list loc) :=
  let! q := unpack_Q grp v in
  let! q32 := mapM promote_w q in
  run! balance [ATensors [v_g v]; AFactors [q32]] in
  run! do_update
         [ATensors [v_p v];
          ATensors [if g_momentum_into_precond_update grp then v_exp_avg v
                    else v_g v];
          AFactors [q32]; AFloat (g_precond_lr grp); AStored [v_Q v]]
         ["store_triu_as_line"] in
  ret q.

(** [set_(dst, src)] (utils.py, 131-137) for a source that is a new
    tensor, so that the two data pointers differ: with equal dtypes
    [dst.set_(src)] makes [dst] the tensor [src]; otherwise
    [dst.copy_(src)] copies the entries into [dst].  Tensors are taken
    contiguous. *)
Definition set_value (d src : Tensor) : Tensor :=
  if dtype_eqb (t_dtype src) (t_dtype d) then src
  else mkTensor (t_dtype d) (t_shape d) (t_data src).

Definition set_ (dst : loc) (src : Tensor) : M World unit :=
  let! d := read dst in
  write dst (set_value d src).

Definition step_param (grp : Group) (do_upd : bool) (v : Val)
    : M World unit :=
  let! new := cache_apply (v_p v) (v_Q_cache v) (v_exp_avg v) in
  run! (if do_upd
        then let! q := refresh_Q grp v in rebuild_cache (v_Q_cache v) q
        else ret tt) in
  set_ (v_g v) new.

End WithPacked.

Arguments sval : clear implicits.
Arguments World : clear implicits.
Arguments Collaborators : clear implicits.
End Step.

(** The object at [l] in the store of [w] is the tensor [t]. *)
Definition tensor_at {packed : Type} (w : Step.World packed) (l : Py.loc)
    (t : Tensor) : Prop :=
  Step.w_heap w !! l = Some (Py.OTensor t).

(** ** Instances for the examples *)

Module Reference.
Import Py Step.

(** Every draw of the generator is 1/2. *)
#[export] Instance rng_half : Rng := { uniform := fun _ => (1 / 2)%R }.

(** The constructor of [torch.optim.Optimizer] accepts its arguments. *)
#[export] Instance optimizer_accepts : Kron.BaseConstructor :=
  { optimizer_init := fun _ _ => Ok tt }.

(** Modelled from the spec: [triu_to_line] and [line_to_triu] are not in
    the [utils.py] at hand.  The specification asks of the packed form
    only that unpacking gives the factor list back; this instance keeps
    the list of tensors as its packed form. *)
#[export] Instance collab_list : Collaborators (list loc) := {
  triu_to_line := fun qs => ret qs;
  line_to_triu := fun line => ret line
}.

(** A parameter with 14 axes of size 1 at location 1 and its gradient at
    location 2, in an optimizer that has not stepped yet. *)
Definition shape14 : list Z := repeat 1%Z 14.

Definition world14 : World (list loc) :=
  mkWorld
    (<[1%positive := OTensor (mkTensor float32 shape14 [0%R])]>
       (<[2%positive := OTensor (mkTensor float32 shape14 [1%R])]> ∅))
    ∅ (Kron.defaults_of Kron.default_args) 0 0.

(** A rank-1 parameter at location 1 and its gradient at location 2, in an
    optimizer built with the unknown policy "bogus". *)
Definition world_bad : World (list loc) :=
  mkWorld
    (<[1%positive := OTensor (mkTensor float32 [2]%Z [0%R; 0%R])]>
       (<[2%positive := OTensor (mkTensor float32 [2]%Z [2%R; 4%R])]> ∅))
    ∅ (Kron.defaults_of Kron.bad_policy_args) 0 0.
End Reference.

(** A rank-1 parameter of shape (2) at location 1 with gradient at 2,
    momentum buffer at 3, its single factor at 4 and the cache entry at 5;
    the state as [_step] leaves it, under the default arguments. *)
Module World1.
Import Py Step Rank1 Reference.

Definition key1 : loc * list Z := (1%positive, [2]%Z).

Definition state1 : gmap string (sval (list loc)) :=
  <["exp_avg" := SVTensor 3%positive]>
    (<["exprs" := SVExprs exprs1]>
       (<["Q" := SVPacked [4%positive]]>
          (<["Q_cache" := SVTensors [5%positive]]>
             (<["cache_expr" := SVStr "a,a->a"]> ∅)))).

Definition heap1 : heap :=
  <[1%positive := OTensor (mkTensor float32 [2]%Z [0; 0]%R)]>
    (<[2%positive := OTensor G1]>
       (<[3%positive := OTensor (mkTensor float32 [2]%Z [2; 4]%R)]>
          (<[4%positive := OTensor (mkTensor float32 [2]%Z [1; 1]%R)]>
             (<[5%positive := OTensor (mkTensor float32 [2]%Z [1; 1]%R)]>
                ∅)))).

Definition world1 : World (list loc) :=
  mkWorld heap1 (<[key1 := state1]> ∅)
    (Kron.defaults_of Kron.default_args) 1 1.

Definition val1 : Val :=
  mkVal 1%positive 2%positive 3%positive (SVPacked [4%positive])
    [5%positive].

(** The same under [store_triu_as_line=False]: the state keeps the list
    of factors. *)
Definition world1_list : World (list loc) :=
  mkWorld heap1
    (<[key1 := <["Q" := SVTensors [4%positive]]> state1]> ∅)
    (Kron.defaults_of Kron.unpacked_args) 1 1.

Definition val1_list : @Val (list loc) :=
  mkVal 1%positive 2%positive 3%positive (SVTensors [4%positive])
    [5%positive].
End World1.

(** ** Python arithmetic that can raise

    [x / y] and [x ** n] on floats raise [ZeroDivisionError] on a zero
    divisor and on [0.0] raised to a negative power. *)

Inductive arith (A : Type) : Type :=
  | Value (a : A)
  | ZeroDivisionError.
Arguments Value {A} a.
Arguments ZeroDivisionError {A}.

Definition abind {A B : Type} (m : arith A) (k : A -> arith B) : arith B :=
  match m with
  | Value a => k a
  | ZeroDivisionError => ZeroDivisionError
  end.

(** [x / y] *)
Definition true_div (x y : R) : arith R :=
  if Req_dec_T y 0 then ZeroDivisionError else Value (x / y)%R.

(** [x ** n] for a float [x] and an int [n] *)
Definition pow_int (x : R) (n : Z) : arith R :=
  if (n <? 0)%Z then
    if Req_dec_T x 0 then ZeroDivisionError else Value (powerRZ x n)
  else Value (powerRZ x n).

(** ** [warmup] (utils.py, 24-27) *)

Definition warmup (lr : R) (step warmup_steps : Z) : arith R :=
  if (step >=? warmup_steps)%Z then Value lr
  else true_div (lr * IZR step) (IZR warmup_steps).

(** ** [beta_debias] (utils.py, 101-102) *)

Definition beta_debias (beta : R) (step : Z) : arith R :=
  abind (pow_int beta step) (fun b =>
  abind (true_div (1 - beta) (1 - b)) (fun q =>
  Value (1 - q)%R)).

(** ** The momentum buffer as a bias-corrected average

    [decayed_sum b gs] is the sum of [b ^ (k - 1 - i) * g_i] over the [k]
    values [g_0, ..., g_(k-1)] of [gs], and [bias_corrected b gs] is that
    sum times [(1 - b) / (1 - b ^ k)]: the exponential moving average of
    [gs] with its weights rescaled to add up to one. *)
Definition decayed_sum (b : R) (gs : list R) : R :=
  Ops.sum_R (imap (fun i g => b ^ (length gs - 1 - i) * g)%R gs).

Definition bias_corrected (b : R) (gs : list R) : R :=
  ((1 - b) * decayed_sum b gs / (1 - b ^ length gs))%R.

(** ** [copy_stochastic_] (utils.py, 424-439) on bit patterns

    A float32 entry is taken as the signed 32-bit integer that
    [source.view(dtype=torch.int32)] shows; int32 addition wraps around. *)

Module Stochastic.
Open Scope Z_scope.

Definition int32 (z : Z) : Prop := - 2 ^ 31 <= z < 2 ^ 31.

(** The value an int32 register holds after an operation whose exact
    result is [z]. *)
Definition wrap32 (z : Z) : Z := (z + 2 ^ 31) mod 2 ^ 32 - 2 ^ 31.

(** Lines 430-436 for one entry: [r] is the entry of
    [torch.randint_like(source, dtype=torch.int32, low=0, high=(1 << 16))],
    [result.add_] adds the bits of the source, [result.bitwise_and_(-65536)]
    masks the lower 16 bits off. *)
Definition stochastic_bits (r source : Z) : Z :=
  Z.land (wrap32 (r + source)) (-65536).

(** The bits copied into the target, entry by entry. *)
Definition copy_stochastic_data (rs source : list Z) : list Z :=
  zip_with stochastic_bits rs source.

(** The sixteen-bit draws, [0, 1, ..., 65535]. *)
Definition draws : list Z := map Z.of_nat (seq 0 (Z.to_nat 65536)).

Definition sum_Z (l : list Z) : Z := fold_right Z.add 0 l.
End Stochastic.

(** ** [trust_region_clip_] (utils.py, 625-632), entry by entry *)

(** [p.copysign_(t)]: the magnitude of [p] with the sign of [t]. *)
Definition copysign (p t : R) : R :=
  if Rlt_dec t 0 then (- Rabs p)%R else Rabs p.

(** What the seven statements leave in an entry that held [x], with
    [inv] the value of [1 / scale]. *)
Definition clip_entry (lerp inv scale x : R) : R :=
  let y := (x * inv)%R in                     (* _foreach_mul_(grad, 1 / scale) *)
  let t := tanh y in                          (* _foreach_tanh(grad) *)
  let p := ln (1 + Rabs y) in                 (* _foreach_abs_, _foreach_log1p_ *)
  let s := copysign p t in                    (* p.copysign_(t) *)
  ((s + lerp * (t - s)) * scale)%R.           (* _foreach_lerp_, _foreach_mul_ *)

(** ** [adaptive_gradient_clipping_] (utils.py, 117-128)

    The new contents of the tensors of [gradients], which are distinct
    tensors scaled in place.  [torch._foreach_norm] is the Euclidean norm
    of all entries of each tensor; a [torch._foreach_*] call raises on an
    empty list, and on two lists of different lengths. *)
Definition adaptive_gradient_clipping_ (parameters gradients : list Tensor)
    (clip_val minimum eps : R) : result (list Tensor) :=
  if Rle_dec clip_val 0 then Ok gradients
  else
    match parameters, gradients with
    | [], _ | _, [] =>
        Err (RuntimeError "Tensor list must have at least one tensor.")
    | _, _ =>
        let p_norm := map (fun p => Ops.vector_norm (t_data p)) parameters in
        let g_norm := map (fun g => Ops.vector_norm (t_data g)) gradients in
        let p_norm := map (fun n => Rmax n minimum) p_norm in
        let g_norm := map (fun n => Rmax n eps) g_norm in
        if (length p_norm =? length g_norm)%nat then
          let p_norm := zip_with Rdiv p_norm g_norm in
          let p_norm := map (fun n => n * clip_val)%R p_norm in
          let p_norm := map (fun n => Rmin n 1) p_norm in
          Ok (zip_with (fun g c => scale_tensor c g) gradients p_norm)
        else
          Err (RuntimeError
                 "Tensor lists must have the same number of tensors")
    end.

(** ** [exp_avg_sq_] (utils.py, 105-114)

    The new contents of [state], which is updated in place, and the
    returned denominator.  For a single tensor and for a list of tensors
    the entries go through the same three steps. *)
Module ExpAvgSq.
Open Scope R_scope.

(** [state.mul_(beta2).addcmul_(grad, grad, value=1 - beta2)] *)
Definition second_moment (beta2 : R) (state grad : Tensor) : Tensor :=
  Ops.with_data state
    (zip_with (fun s g => s * beta2 + (1 - beta2) * (g * g))
              (t_data state) (t_data grad)).

(** [torch.sqrt(state).clamp_(min=eps)] *)
Definition denominator (eps : R) (state : Tensor) : Tensor :=
  Ops.with_data state (map (fun s => Rmax (sqrt s) eps) (t_data state)).

(** The branch [isinstance(state, torch.Tensor)] *)
Definition exp_avg_sq_ (state grad : Tensor) (beta2 eps : R)
    : Tensor * Tensor :=
  let state := second_moment beta2 state grad in
  (state, denominator eps state).

(** The list branch; the list operations require a list that is not
    empty, and lists of one length. *)
Definition exp_avg_sq_list_ (state grad : list Tensor) (beta2 eps : R)
    : result (list Tensor * list Tensor) :=
  match state with
  | [] => Err (RuntimeError "Tensor list must have at least one tensor.")
  | _ =>
      if (length state =? length grad)%nat then
        let state := zip_with (second_moment beta2) state grad in
        Ok (state, map (denominator eps) state)
      else
        Err (RuntimeError "Tensor lists must have the same number of tensors")
  end.
End ExpAvgSq.

(** ** The equations [torch.einsum] accepts

    For an equation without ellipsis [torch.einsum] raises unless there
    is one comma-separated group of subscripts per operand, every
    subscript is a letter, each operand has as many subscripts as axes, a
    subscript repeated in one operand sits on axes of one size, the axes
    that share a subscript across operands have one size or size 1, and,
    when the output is given after [->], every output subscript is a
    letter that occurs once there and occurs in an operand.  Blanks are
    ignored. *)
Module Einsum.
Definition is_letter (c : ascii) : bool :=
  let n := nat_of_ascii c in
  ((65 <=? n) && (n <=? 90) || (97 <=? n) && (n <=? 122))%nat.

(** [s.split(sep)], on the characters *)
Fixpoint split_on (sep : ascii) (l : list ascii) : list (list ascii) :=
  match l with
  | [] => [[]]
  | c :: l' =>
      if Ascii.eqb c sep then [] :: split_on sep l'
      else
        match split_on sep l' with
        | h :: t => (c :: h) :: t
        | [] => [[c]]
        end
  end.

(** The two sides of the first [->] *)
Fixpoint split_arrow (l : list ascii) : option (list ascii * list ascii) :=
  match l with
  | [] => None
  | c :: l' =>
      let rest :=
        match split_arrow l' with
        | Some (a, b) => Some (c :: a, b)
        | None => None
        end in
      if Ascii.eqb c "-" then
        match l' with
        | d :: r => if Ascii.eqb d ">" then Some ([], r) else rest
        | [] => rest
        end
      else rest
  end.

(** Every subscript with the size of its axis: equal subscripts have
    equal sizes. *)
Definition strict (ps : list (ascii * Z)) : bool :=
  forallb (fun p =>
    forallb (fun q =>
      negb (Ascii.eqb (fst p) (fst q)) || (snd p =? snd q)%Z) ps) ps.

(** Equal subscripts have equal sizes, or one of them has size 1. *)
Definition broadcastable (ps : list (ascii * Z)) : bool :=
  forallb (fun p =>
    forallb (fun q =>
      negb (Ascii.eqb (fst p) (fst q)) || (snd p =? snd q)%Z
      || (snd p =? 1)%Z || (snd q =? 1)%Z) ps) ps.

Definition operand_ok (labels : list ascii) (shape : list Z) : bool :=
  (length labels =? length shape)%nat && forallb is_letter labels
  && strict (combine labels shape).

Fixpoint operands_ok (ops : list (list ascii)) (shapes : list (list Z))
    : bool :=
  match ops, shapes with
  | [], [] => true
  | l :: ops', sh :: shapes' => operand_ok l sh && operands_ok ops' shapes'
  | _, _ => false
  end.

Fixpoint nodupb (l : list ascii) : bool :=
  match l with
  | [] => true
  | c :: l' => negb (existsb (Ascii.eqb c) l') && nodupb l'
  end.

Definition output_ok (ops : list (list ascii)) (out : list ascii) : bool :=
  forallb is_letter out && nodupb out
  && forallb (fun c => existsb (existsb (Ascii.eqb c)) ops) out.

(** Whether [torch.einsum(expr, *operands)] accepts the equation [expr]
    for operands of the shapes [shapes]. *)
Definition valid (expr : string) (shapes : list (list Z)) : bool :=
  let l :=
    List.filter (fun c => negb (Ascii.eqb c " "))
                (list_ascii_of_string expr) in
  match split_arrow l with
  | None =>
      let ops := split_on "," l in
      operands_ok ops shapes
      && broadcastable (concat (zip_with (@combine ascii Z) ops shapes))
  | Some (lhs, out) =>
      let ops := split_on "," lhs in
      operands_ok ops shapes
      && broadcastable (concat (zip_with (@combine ascii Z) ops shapes))
      && output_ok ops out
  end.
End Einsum.

(** ** The Shampoo statistics: [init_preconditioner] (utils.py, 327-344)
       and [compute_ggt] (utils.py, 293-305)

    [state['GG']] is a list with one slot per axis: the empty list [[]]
    for an axis without statistics, here [None], or a square matrix. *)
Module Shampoo.
Import Ops.
Open Scope Z_scope.

(** [torch.zeros(sh, sh, dtype=grad.dtype)] *)
Definition zeros2 (sh : Z) (dt : dtype) : Tensor :=
  mkTensor dt [sh; sh] (repeat 0%R (Z.to_nat sh * Z.to_nat sh)).

(** The list left in [state['GG']]; [state['Q']] is set to [None]. *)
Definition init_preconditioner (grad : Tensor) (max_precond_dim : Z)
    (precondition_1d : bool) : list (option Tensor) :=
  if (ndim grad =? 1)%nat then
    let n := nth 0 (t_shape grad) 0 in
    if negb precondition_1d || (n >? max_precond_dim) then [None]
    else [Some (zeros2 n (t_dtype grad))]
  else
    map (fun sh => if sh >? max_precond_dim then None
                   else Some (zeros2 sh (t_dtype grad)))
        (t_shape grad).

(** [s.replace(b, c)] for one-character [b] and [c] *)
Fixpoint replace_char (b c : ascii) (s : string) : string :=
  match s with
  | EmptyString => EmptyString
  | String d s' =>
      String (if Ascii.eqb d b then c else d) (replace_char b c s')
  end.

(** The expression [f'{g0},{g1}->{b + b.upper()}'] for axis [idx] of a
    gradient of rank [rank]. *)
Definition ggt_expr (rank idx : nat) : result string :=
  match String.get idx InitQ.letters with
  | None => Err (IndexError "string index out of range")
  | Some b =>
      let g0 := substring 0 rank InitQ.letters in
      let g1 := replace_char b (Kron.upper_ascii b) g0 in
      Ok (g0 +:+ "," +:+ g1 +:+ "->"
          +:+ Kron.char_str b +:+ Kron.char_str (Kron.upper_ascii b))
  end.

(** [m.lerp_(e, w)]: in place, so the shape and dtype of [m] stay. *)
Definition lerp_tensor (m e : Tensor) (w : R) : Tensor :=
  with_data m (zip_with (fun x y => x + w * (y - x))%R (t_data m) (t_data e)).

(** [promote(x)] for a tensor [x] that has just been made. *)
Definition promoted (x : Tensor) : Tensor :=
  if Promote.is_half (t_dtype x) then Promote.to_float x else x.

Section WithTorch.
Context `{TorchLib}.

(** The loop [for idx, sh in enumerate(grad.shape)], from axis [idx] on.
    [torch.einsum] checks its equation; [GG[idx].lerp_] is looked up
    before its argument [promote(outer_product)] is evaluated, and
    [lerp_] raises when [end] has another dtype than the tensor it
    updates.  The messages of the two [RuntimeError]s are abbreviated. *)
Fixpoint ggt_loop (grad : Tensor) (max_precond_dim : Z) (beta : R)
    (idx : nat) (dims : list Z) (GG : list (option Tensor))
    : result (list (option Tensor)) :=
  match dims with
  | [] => Ok GG
  | sh :: dims' =>
      if sh >? max_precond_dim
      then ggt_loop grad max_precond_dim beta (S idx) dims' GG
      else
        match ggt_expr (ndim grad) idx with
        | Err e => Err e
        | Ok expr =>
            if negb (Einsum.valid expr [t_shape grad; t_shape grad]) then
              Err (RuntimeError "einsum(): invalid equation")
            else
              let outer_product := einsum expr [grad; grad] in
              match GG !! idx with
              | None => Err (IndexError "list index out of range")
              | Some None =>
                  Err (AttributeError
                         "'list' object has no attribute 'lerp_'")
              | Some (Some m) =>
                  let e := promoted outer_product in
                  if dtype_eqb (t_dtype m) (t_dtype e) then
                    ggt_loop grad max_precond_dim beta (S idx) dims'
                      (<[idx := Some (lerp_tensor m e (1 - beta))]> GG)
                  else
                    Err (RuntimeError
                           "expected the dtype of self for `end`")
              end
        end
  end.

(** The new contents of the list [GG]. *)
Definition compute_ggt (grad : Tensor) (GG : list (option Tensor))
    (max_precond_dim : Z) (precondition_1d : bool) (beta : R)
    : result (list (option Tensor)) :=
  if (ndim grad =? 1)%nat
     && (negb precondition_1d
         || (nth 0 (t_shape grad) 0 >? max_precond_dim))
  then Ok GG
  else ggt_loop grad max_precond_dim beta 0 (t_shape grad) GG.
End WithTorch.

(** Which slots hold a matrix, and of which dtype and shape. *)
Definition slots (GG : list (option Tensor))
    : list (option (dtype * list Z)) :=
  map (option_map (fun t => (t_dtype t, t_shape t))) GG.
End Shampoo.

(** ** The subscripts of the expressions of [compute_ggt] *)
Module GgtSubscripts.
Import Einsum Shampoo.
Open Scope nat_scope.

(** Whether equal subscripts of [la] and [lb] sit at equal positions. *)
Definition aligned (la lb : list ascii) : bool :=
  forallb (fun i =>
    forallb (fun j =>
      negb (Ascii.eqb (nth i la " "%char) (nth j lb " "%char)) || (i =? j))
      (seq 0 (length lb)))
    (seq 0 (length la)).

(** What [Einsum.valid] makes of the expression of [ggt_expr]: the
    subscripts of the operands and of the output. *)
Definition ggt_subscripts (rank idx : nat)
    : option (list (list ascii) * list ascii) :=
  match ggt_expr rank idx with
  | Err _ => None
  | Ok e =>
      match split_arrow
              (List.filter (fun c => negb (Ascii.eqb c " "))
                 (list_ascii_of_string e)) with
      | Some (lhs, out) => Some (split_on "," lhs, out)
      | None => None
      end
  end.

Definition subscripts_fine (rank idx : nat) : bool :=
  match ggt_subscripts rank idx with
  | Some ([la; lb], out) =>
      (length la =? rank) && (length lb =? rank)
      && forallb is_letter la && forallb is_letter lb
      && aligned la la && aligned la lb && aligned lb la && aligned lb lb
      && output_ok [la; lb] out
  | _ => false
  end.
End GgtSubscripts.

(** ** The contraction of [compute_ggt]

    For a gradient of rank at most 26 the expression built for axis [idx]
    names the axes ["ab...z"], puts the upper-case letter on axis [idx]
    in the second operand and asks for the output [bB] of the two letters
    of that axis: entry [(x, y)] of [torch.einsum] of it on [(grad, grad)]
    is the sum, over the positions on all other axes, of the product of
    the entries of [grad] with [x] and with [y] on axis [idx].  Entries
    are in row-major order: with [outer] the number of positions on the
    axes before [idx], [n] the size of axis [idx] and [inner] the number
    of positions after it, entry [(a, x, c)] is at
    [a * n * inner + x * inner + c]. *)
Module Gram.
Import Ops.

Definition gram (grad : Tensor) (idx : nat) : Tensor :=
  let shape := map Z.to_nat (t_shape grad) in
  let n := nth idx shape 0%nat in
  let outer := fold_right Nat.mul 1%nat (firstn idx shape) in
  let inner := fold_right Nat.mul 1%nat (skipn (S idx) shape) in
  let entry := fun a x c : nat =>
    nth (a * n * inner + x * inner + c) (t_data grad) 0%R in
  mk_mat (t_dtype grad) n n
    (fun x y =>
       sum_R (flat_map
                (fun a => map (fun c => entry a x c * entry a y c)%R
                              (seq 0 inner))
                (seq 0 outer))).

(** A well-formed symmetric [n] x [n] matrix without a negative entry on
    its diagonal. *)
Definition symmetric_nonneg_diag (n : nat) (t : Tensor) : Prop :=
  square n t /\
  (forall x y : nat, (x < n)%nat -> (y < n)%nat -> get2 t x y = get2 t y x) /\
  (forall x : nat, (x < n)%nat -> (0 <= get2 t x x)%R).

(** The axis an expression of [compute_ggt] is about: its output is the
    lower-case letter of the axis followed by the upper-case one. *)
Definition axis_of (expr : string) : nat :=
  match String.get (String.length expr - 2) expr with
  | Some b => (nat_of_ascii b - 97)%nat
  | None => 0%nat
  end.

(** The torch calls with [einsum] read as the contraction above. *)
#[export] Instance torch_gram : TorchLib := {
  einsum := fun expr operands =>
    match operands with
    | g :: _ => gram g (axis_of expr)
    | [] => mkTensor float32 [] []
    end;
  permute := fun t _ => t;
  transpose := fun t _ _ => t;
  solve_triangular := fun _ B => B;
  randn_like := fun t => t;
  empty_like := fun t => t;
  matmul_out_self := fun x _ => x
}.

(** A gradient of shape (2, 3). *)
Definition grad_2x3 : Tensor :=
  mkTensor float32 [2; 3]%Z [1; 2; 3; 4; 5; 6]%R.
End Gram.

(** The torch calls for a vector of two entries with one 2 x 2 factor:
    the contraction of a matrix with a vector, the outer product of two
    vectors, and the solution [X] of [X q = B] for an upper-triangular
    [q]; the product written over its own operand leaves zeros. *)
Module Vec2.
Import Ops.
Open Scope R_scope.

Definition einsum2 (expr : string) (operands : list Tensor) : Tensor :=
  match operands with
  | [a; b] =>
      if (ndim a =? 2)%nat then
        mkTensor (t_dtype b) [Z.of_nat (nrows a)]
          (map (fun r => sum_R (zip_with Rmult (row a r) (t_data b)))
               (seq 0 (nrows a)))
      else
        mk_mat (t_dtype a) (length (t_data a)) (length (t_data b))
          (fun i j => nth i (t_data a) 0 * nth j (t_data b) 0)
  | _ => mkTensor float32 [] []
  end.

Definition solve2 (q B : Tensor) : Tensor :=
  let b0 := nth 0 (t_data B) 0 in
  let b1 := nth 1 (t_data B) 0 in
  let x0 := b0 / get2 q 0 0 in
  with_data B [x0; (b1 - x0 * get2 q 0 1) / get2 q 1 1].

#[export] Instance torch_vec2 : TorchLib := {
  einsum := einsum2;
  permute := fun t _ => t;
  transpose := fun t _ _ => t;
  solve_triangular := solve2;
  randn_like := fun t => with_data t (map (fun _ => 1) (t_data t));
  empty_like := fun t => with_data t (map (fun _ => 0) (t_data t));
  matmul_out_self := fun x _ => map (fun _ => 0) x
}.

(** The factor [[2, 1], [0, 2]], the expressions of a rank-1 parameter
    with a matrix factor, the gradient [2, 4] and the probe [1, -1]. *)
Definition Q2 : list Tensor := [mkTensor float32 [2; 2]%Z [2; 1; 0; 2]].
Definition exprs2 : InitQ.Exprs :=
  InitQ.mkExprs "an,n->a" ["n,A->nA"] "an,aA,A->n".
Definition G2 : Tensor := mkTensor float32 [2]%Z [2; 4].
Definition V2 : Tensor := mkTensor float32 [2]%Z [1; -1].
End Vec2.

(** ** In-place tensor operations on the store

    A location stands for a tensor's storage: [x.data_ptr() ==
    y.data_ptr()] compares locations, and a view of a tensor is the tensor
    itself.  The operations of [torch._foreach_*] raise on an empty list
    and otherwise go through their list from left to right.  The two
    operands of an entrywise operation are taken of one shape. *)
Module Mem.
Import Py.

Definition load (l : loc) : M heap Tensor :=
  fun h =>
    match h !! l with
    | Some (OTensor t) => (h, Ok t)
    | _ => (h, Err (AttributeError "not a tensor"))
    end.

Definition store (l : loc) (t : Tensor) : M heap unit :=
  modify (fun h => <[l := OTensor t]> h).

Definition new (t : Tensor) : M heap loc :=
  fun h => let '(l, h') := alloc (OTensor t) h in (h', Ok l).

Definition lift_result {A : Type} (r : result A) : M heap A :=
  fun h => (h, r).

(** Entrywise functions of one tensor, and of two tensors with as many
    entries; between tensors of other shapes torch broadcasts or raises,
    which is not modelled. *)
Definition map_entries (f : R -> R) (t : Tensor) : Tensor :=
  Ops.with_data t (map f (t_data t)).

Definition zip_entries (f : R -> R -> R) (t u : Tensor) : Tensor :=
  Ops.with_data t (zip_with f (t_data t) (t_data u)).

(** The check that every [torch._foreach_*] call makes on its first
    list. *)
Definition nonempty (ls : list loc) : M heap unit :=
  match ls with
  | [] => raise (RuntimeError "Tensor list must have at least one tensor.")
  | _ => ret tt
  end.

(** [torch._foreach_<op>_(ls, number)]: every tensor of [ls] is replaced
    by [f] of itself. *)
Definition foreach_ (f : Tensor -> Tensor) (ls : list loc) : M heap unit :=
  run! nonempty ls in
  forM_ (fun l => let! t := load l in store l (f t)) ls.

(** [torch._foreach_<op>(ls)]: a new tensor [f] of each tensor of [ls]. *)
Definition foreach_new (f : Tensor -> Tensor) (ls : list loc)
    : M heap (list loc) :=
  run! nonempty ls in
  mapM (fun l => let! t := load l in new (f t)) ls.

(** The tensors of [ls] are updated, each with its partner in [others]. *)
Definition pairwise_ (f : Tensor -> Tensor -> Tensor)
    (pairs : list (loc * loc)) : M heap unit :=
  forM_ (fun lo : loc * loc =>
           let! t := load (fst lo) in
           let! u := load (snd lo) in
           store (fst lo) (f t u))
        pairs.

(** [torch._foreach_<op>_(ls, others, ...)]: the first list must not be
    empty and the two lists must have the same number of tensors. *)
Definition foreach2_ (f : Tensor -> Tensor -> Tensor) (ls others : list loc)
    : M heap unit :=
  run! nonempty ls in
  if (length ls =? length others)%nat
  then pairwise_ f (combine ls others)
  else raise (RuntimeError "Tensor lists must have the same number of tensors").

(** [promote(x)] where a tensor is needed afterwards. *)
Definition promote_tensor (x : loc) : M heap loc :=
  let! v := Promote.promote x in
  match v with
  | PTensor l => ret l
  | PDtype _ => raise (TypeError "a dtype is not a tensor")
  end.

(** [set_(dst, src)] (utils.py, 131-137), tensors taken contiguous.  With
    equal dtypes [dst.set_(src)] makes [dst] the tensor [src]: it has the
    contents of [src] from then on. *)
Definition set_ (dst src : loc) : M heap unit :=
  if Pos.eqb src dst then ret tt
  else
    let! d := load dst in
    let! s := load src in
    store dst (Step.set_value d s).
End Mem.

(** The entries [copy_stochastic_] leaves in its target: each entry of the
    source rounded to one of its two bfloat16 neighbours, as drawn at this
    call. *)
Class StochasticRound : Type := { bf16_round : list R -> list R }.

(** ** [copy_stochastic_] and [copy_stochastic_list_] (utils.py, 416-439) *)
Module CopyStochastic.
Import Py Mem.
Section WithRound.
Context `{StochasticRound}.

Definition copy_stochastic_ (target source : loc) : M heap unit :=
  if Pos.eqb target source then ret tt
  else
    let! t := load target in
    let! s := load source in
    store target (Ops.with_data t (bf16_round (t_data s))).

Definition copy_stochastic_list_ (target source : list loc) : M heap unit :=
  forM_ (fun ts : loc * loc =>
           let! t := load (fst ts) in
           if dtype_eqb (t_dtype t) bfloat16
           then copy_stochastic_ (fst ts) (snd ts)
           else set_ (fst ts) (snd ts))
        (combine target source).
End WithRound.
End CopyStochastic.

(** ** [trust_region_clip_] (utils.py, 625-632) on the store

    The function has no [return] statement: it hands back [None]. *)
Module TrustRegion.
Import Py Mem.
Open Scope R_scope.

Definition trust_region_clip_ (grad : list loc) (lerp scale : R)
    : M heap (arith (option (list loc))) :=
  match true_div 1 scale with
  | ZeroDivisionError => ret ZeroDivisionError
  | Value inv =>
      run! foreach_ (map_entries (fun x => x * inv)) grad in
      let! tanh := foreach_new (map_entries tanh) grad in
      run! foreach_ (map_entries Rabs) grad in
      run! foreach_ (map_entries (fun x => ln (1 + x))) grad in
      (* [grad = [p.copysign_(t) for t, p in zip(tanh, grad)]]: the same
         tensors, updated in place *)
      run! pairwise_ (zip_entries copysign) (combine grad tanh) in
      run! foreach2_ (zip_entries (fun g t => g + lerp * (t - g))) grad tanh in
      run! foreach_ (map_entries (fun x => x * scale)) grad in
      ret (Value None)
  end.
End TrustRegion.

(** ** [update_param_] (utils.py, 442-452) *)
Module UpdateParam.
Import Py Mem CopyStochastic.
Open Scope R_scope.
Section WithRound.
Context `{StochasticRound}.

(** [update] is [None] or a list; [add_fn] is [None] or a callable. *)
Definition update_param_ (param : list loc) (update : option (list loc))
    (lr decay : R)
    (add_fn : option (list loc -> list loc -> R -> M heap unit))
    : M heap unit :=
  let! param32 := mapM promote_tensor param in
  let! update32 :=
    match update with
    | None => raise (TypeError "'NoneType' object is not iterable")
    | Some update =>
        mapM (fun up : loc * loc =>
                let! u := load (fst up) in
                let! p := load (snd up) in
                run! lift_result (view u (t_shape p)) in
                promote_tensor (fst up))
             (combine update param)
    end in
  run! (if Rlt_dec 0 decay
        then foreach_ (scale_tensor (1 - decay * lr)) param32
        else ret tt) in
  run! match add_fn with
       | None =>
           foreach2_ (zip_entries (fun p u => p + lr * u)) param32 update32
       | Some add_fn => add_fn param32 update32 lr
       end in
  copy_stochastic_list_ param param32.
End WithRound.
End UpdateParam.

(** ** The end of [_step] (cached_psgd_kron.py, 144-147) *)
Module Tail.
Import Py Mem Kron Step.
Open Scope R_scope.
Section WithPacked.
Context {packed : Type} `{StochasticRound}.

Definition lift_heap {A : Type} (m : M heap A) : M (World packed) A :=
  fun w => let '(h, r) := m (w_heap w) in (set_heap h w, r).

(** [clip_fn] is the callable given to the constructor; [lr] and
    [weight_decay] are the values read from the group at the start of
    [_step], [group['step']] is read here. *)
Definition step_tail
    (clip_fn : list loc -> M (World packed) (arith (option (list loc))))
    (lr weight_decay : R) (p_list grad_list : list loc)
    : M (World packed) (arith unit) :=
  let! clipped := clip_fn grad_list in
  match clipped with
  | ZeroDivisionError => ret ZeroDivisionError
  | Value grad_list =>
      let! w := get in
      match warmup lr (g_step (w_group w)) (g_warmup_steps (w_group w)) with
      | ZeroDivisionError => ret ZeroDivisionError
      | Value warm =>
          let lr := - warm in
          run! lift_heap
                 (UpdateParam.update_param_ p_list grad_list lr weight_decay
                    None) in
          ret (Value tt)
      end
  end.

(** The default of the constructor (line 54):
    [lambda x: trust_region_clip_(x, 0.9, 1.5)]. *)
Definition default_clip_fn (x : list loc)
    : M (World packed) (arith (option (list loc))) :=
  lift_heap (TrustRegion.trust_region_clip_ x 0.9 1.5).
End WithPacked.
End Tail.

(** The rounding that leaves every entry as it is: the draw for entries
    that bfloat16 holds exactly. *)
Module ExactRound.
#[export] Instance round_exact : StochasticRound :=
  { bf16_round := fun d => d }.
End ExactRound.

(** The tensors [ts] are the contents of the locations [ls]. *)
Definition holds (h : Py.heap) (ls : list Py.loc) (ts : list Tensor) : Prop :=
  Forall2 (fun l t => h !! l = Some (Py.OTensor t)) ls ts.

(** ** [schedule_free_] (utils.py, 30-51) *)
Module ScheduleFreeStep.
Import Py Mem CopyStochastic.
Open Scope R_scope.

(** [x ** y] on floats for a base that is not negative: [0.0 ** 0.0] is
    1, [0.0] to a positive power is 0, and to a negative power raises.  A
    negative base is outside this model (a fractional power of it is a
    complex number). *)
Definition pow_float (x y : R) : arith R :=
  if Rlt_dec 0 x then Value (Rpower x y)
  else if Rlt_dec y 0 then ZeroDivisionError
  else if Req_dec_T y 0 then Value 1
  else Value 0.

(** Lines 32-38: the new [weight_sum] and [ckp1]; the division by zero is
    caught and gives [ckp1 = 0]. *)
Definition weights (lr weight_lr_power weight_sum r : R) (step : Z)
    : arith (R * R) :=
  abind (pow_float lr weight_lr_power) (fun a =>
  abind (pow_float (IZR (Z.max step 1)) r) (fun b =>
  let weight := a * b in
  let weight_sum := weight_sum + weight in
  let ckp1 :=
    match true_div weight weight_sum with
    | Value c => c
    | ZeroDivisionError => 0
    end in
  Value (weight_sum, ckp1))).

Section WithRound.
Context `{StochasticRound}.

(** Returns the new [weight_sum]. *)
Definition schedule_free_ (lr weight_lr_power weight_sum beta1 : R)
    (parameters z grad : list loc) (r : R) (step : Z)
    : M heap (arith R) :=
  match weights lr weight_lr_power weight_sum r step with
  | ZeroDivisionError => ret ZeroDivisionError
  | Value (weight_sum, ckp1) =>
      let! p32 := mapM promote_tensor parameters in
      let! z32 := mapM promote_tensor z in
      run! foreach2_ (zip_entries (fun p z => p + ckp1 * (z - p))) p32 z32 in
      run! foreach2_
             (zip_entries (fun p g => p + lr * (beta1 * (1 - ckp1) - 1) * g))
             p32 grad in
      run! copy_stochastic_list_ parameters p32 in
      (* z step *)
      run! foreach2_ (zip_entries (fun z g => z - lr * g)) z grad in
      run! copy_stochastic_list_ z z32 in
      ret (Value weight_sum)
  end.
End WithRound.
End ScheduleFreeStep.

(** A parameter [1, 2] at location 1, its [z] tensor [3, 4] at location 2,
    in float32 and in float16, and a gradient [1, 1] at location 3. *)
Module SFWorld.
Import Py.
Open Scope R_scope.

Definition p1 : Tensor := mkTensor float32 [2]%Z [1; 2].
Definition z32 : Tensor := mkTensor float32 [2]%Z [3; 4].
Definition z16 : Tensor := mkTensor float16 [2]%Z [3; 4].
Definition g1 : Tensor := mkTensor float32 [2]%Z [1; 1].

Definition heap32 : heap :=
  <[1%positive := OTensor p1]>
    (<[2%positive := OTensor z32]> (<[3%positive := OTensor g1]> ∅)).

Definition heap16 : heap :=
  <[1%positive := OTensor p1]>
    (<[2%positive := OTensor z16]> (<[3%positive := OTensor g1]> ∅)).
End SFWorld.

(** ** [ScheduleFree.eval] and [ScheduleFree.train] (utils.py, 382-410) *)
Module ScheduleFreeOpt.
Import Py Mem CopyStochastic.
Open Scope R_scope.

(** The keys of a parameter group that the two methods read. *)
Record Group : Type := mkGroup {
  train_mode : option bool;
  beta : option R;
  betas : option (list R);
  params : list loc
}.

(** The optimizer: the store, [self.state] keyed by [(data_ptr, shape)]
    with the tensors kept under each name, and [self.param_groups]. *)
Record Opt : Type := mkOpt {
  o_heap : heap;
  o_state : gmap (loc * list Z) (gmap string loc);
  o_groups : list Group
}.

Definition set_heap (h : heap) (o : Opt) : Opt :=
  mkOpt h (o_state o) (o_groups o).
Definition set_state (s : gmap (loc * list Z) (gmap string loc)) (o : Opt)
    : Opt :=
  mkOpt (o_heap o) s (o_groups o).
Definition set_groups (gs : list Group) (o : Opt) : Opt :=
  mkOpt (o_heap o) (o_state o) gs.

Definition on_heap {A : Type} (m : M heap A) : M Opt A :=
  fun o => let '(h, r) := m (o_heap o) in (set_heap h o, r).

Definition lift {A : Type} (r : result A) : M Opt A := fun o => (o, r).

(** [group['train_mode']] *)
Definition train_mode_of (group : Group) : result bool :=
  match train_mode group with
  | Some b => Ok b
  | None => Err (KeyError "train_mode")
  end.

(** [group['beta'] if 'beta' in group else group['betas'][0]] *)
Definition beta1_of (group : Group) : result R :=
  match beta group with
  | Some b => Ok b
  | None =>
      match betas group with
      | None => Err (KeyError "betas")
      | Some [] => Err (IndexError "tuple index out of range")
      | Some (b :: _) => Ok b
      end
  end.

(** [self.state_(p)]: the dictionary of [p], created empty on first
    access. *)
Definition state_ (p : loc) : M Opt (gmap string loc) :=
  let! t := on_heap (load p) in
  let key := (p, t_shape t) in
  fun o =>
    match o_state o !! key with
    | Some d => (o, Ok d)
    | None => (set_state (<[key := ∅]> (o_state o)) o, Ok ∅)
    end.

Section WithRound.
Context `{StochasticRound}.

(** The body of [for p in group['params']], with the weight of
    [p32.lerp_(end=z, weight=...)]. *)
Definition move_param (weight : R) (p : loc) : M Opt unit :=
  let! state := state_ p in
  match state !! "z" with
  | None => ret tt
  | Some z =>
      on_heap
        (let! z := promote_tensor z in
         let! p32 := promote_tensor p in
         run! pairwise_ (zip_entries (fun x e => x + weight * (e - x)))
                [(p32, z)] in
         copy_stochastic_ p p32)
  end.

(** [group['train_mode'] = mode] for the group at position [i]. *)
Definition set_train_mode (i : nat) (mode : bool) : M Opt unit :=
  modify (fun o =>
    set_groups
      (alter (fun g => mkGroup (Some mode) (beta g) (betas g) (params g))
             i (o_groups o))
      o).

(** One round of [for group in self.param_groups] in [eval]. *)
Definition eval_group (i : nat) (group : Group) : M Opt unit :=
  let! train_mode := lift (train_mode_of group) in
  let! beta1 := lift (beta1_of group) in
  if Rlt_dec 0 beta1 then
    if train_mode then
      run! forM_ (move_param (1 - 1 / beta1)) (params group) in
      set_train_mode i false
    else ret tt
  else ret tt.

(** One round of [for group in self.param_groups] in [train]. *)
Definition train_group (i : nat) (group : Group) : M Opt unit :=
  let! train_mode := lift (train_mode_of group) in
  let! beta1 := lift (beta1_of group) in
  if Rlt_dec 0 beta1 then
    if negb train_mode then
      run! forM_ (move_param (1 - beta1)) (params group) in
      set_train_mode i true
    else ret tt
  else ret tt.

(** The groups with their positions, as the loop meets them. *)
Definition enumerate (o : Opt) : list (nat * Group) :=
  imap (fun i g => (i, g)) (o_groups o).

Definition eval : M Opt unit :=
  let! o := get in
  forM_ (fun ig : nat * Group => eval_group (fst ig) (snd ig)) (enumerate o).

Definition train : M Opt unit :=
  let! o := get in
  forM_ (fun ig : nat * Group => train_group (fst ig) (snd ig)) (enumerate o).
End WithRound.
End ScheduleFreeOpt.

(** The facts about a parameter [p] of a schedule-free optimizer that the
    two methods rely on: [p] is a tensor that is not half precision, its
    state holds a tensor [z] of the same kind and number of entries, and
    [z] is not one of the parameters [all]. *)
Definition has_z (o : ScheduleFreeOpt.Opt) (all : list Py.loc)
    (p : Py.loc) (pt zt : Tensor) : Prop :=
  ScheduleFreeOpt.o_heap o !! p = Some (Py.OTensor pt) /\
  Promote.is_half (t_dtype pt) = false /\
  Promote.is_half (t_dtype zt) = false /\
  length (t_data zt) = length (t_data pt) /\
  exists (d : gmap string Py.loc) (z : Py.loc),
    ScheduleFreeOpt.o_state o !! (p, t_shape pt) = Some d /\
    d !! "z" = Some z /\
    (z ∉ all) /\
    ScheduleFreeOpt.o_heap o !! z = Some (Py.OTensor zt).

(** All parameters of all groups. *)
Definition all_params (gs : list ScheduleFreeOpt.Group) : list Py.loc :=
  concat (map ScheduleFreeOpt.params gs).

(** [p32.lerp_(end=z, weight)] on the tensors. *)
Definition lerp_towards (weight : R) (pt zt : Tensor) : Tensor :=
  Mem.zip_entries (fun x e => x + weight * (e - x))%R pt zt.

(** The weight with which [eval] and [train] move the parameters of a
    group that they do not skip for its [beta1]. *)
Definition eval_weight (g : ScheduleFreeOpt.Group) : option R :=
  match ScheduleFreeOpt.beta1_of g with
  | Ok b => if Rlt_dec 0 b then Some (1 - 1 / b)%R else None
  | Err _ => None
  end.

Definition train_weight (g : ScheduleFreeOpt.Group) : option R :=
  match ScheduleFreeOpt.beta1_of g with
  | Ok b => if Rlt_dec 0 b then Some (1 - b)%R else None
  | Err _ => None
  end.

(** The group with [group['train_mode'] = mode]. *)
Definition with_mode (mode : bool) (g : ScheduleFreeOpt.Group)
    : ScheduleFreeOpt.Group :=
  ScheduleFreeOpt.mkGroup (Some mode) (ScheduleFreeOpt.beta g)
    (ScheduleFreeOpt.betas g) (ScheduleFreeOpt.params g).

(** A group in training mode with a readable [beta1]. *)
Definition training (g : ScheduleFreeOpt.Group) : Prop :=
  ScheduleFreeOpt.train_mode g = Some true /\
  exists b : R, ScheduleFreeOpt.beta1_of g = Ok b.

(** What a pass leaves of a group: its mode is switched when the pass has
    a weight for it. *)
Definition switched (weight : option R) (mode : bool)
    (g : ScheduleFreeOpt.Group) : ScheduleFreeOpt.Group :=
  match weight with
  | Some _ => with_mode mode g
  | None => g
  end.

(** A group as [eval] leaves it: out of training mode unless it was
    skipped for its [beta1]. *)
Definition evaluated (g : ScheduleFreeOpt.Group) : Prop :=
  exists (b : R) (m : bool),
    ScheduleFreeOpt.beta1_of g = Ok b /\
    ScheduleFreeOpt.train_mode g = Some m /\
    ((0 < b)%R -> m = false).

(** An optimizer with one group in training mode with [beta = 0.9],
    holding the parameter at location 1 of [SFWorld.heap32], whose state
    has the tensor at location 2 as its [z]. *)
Definition group1 : ScheduleFreeOpt.Group :=
  ScheduleFreeOpt.mkGroup (Some true) (Some 0.9%R) None [1%positive].

Definition opt1 : ScheduleFreeOpt.Opt :=
  ScheduleFreeOpt.mkOpt SFWorld.heap32
    (<[(1%positive, [2]%Z) := <["z" := 2%positive]> ∅]> ∅)
    [group1].

(** A parameter of shape (4, 4) at location 1 with its gradient at
    location 2, in an optimizer that has not stepped yet and keeps its
    factors as tensors ([store_triu_as_line=False]). *)
Module FirstSight.
Import Py Step.

Definition lines_off (g : Kron.Group) : Kron.Group :=
  Kron.mkGroup (Kron.g_lr g) (Kron.g_beta g) (Kron.g_weight_decay g)
    (Kron.g_max_size_triangular g) (Kron.g_min_ndim_triangular g)
    (Kron.g_memory_save_mode g) (Kron.g_momentum_into_precond_update g)
    (Kron.g_precond_lr g) (Kron.g_precond_init_scale g) (Kron.g_step g)
    (Kron.g_warmup_steps g) (Kron.g_merge_dims g) (Kron.g_split g)
    false (Kron.g_q_dtype g).

Definition group44 : Kron.Group :=
  lines_off (Kron.defaults_of Kron.default_args).

Definition grad_44 : Tensor :=
  mkTensor float32 [4; 4]%Z (repeat 1%R 16).

Definition world44 : World (list loc) :=
  mkWorld
    (<[1%positive := OTensor InitQ.param_44]>
       (<[2%positive := OTensor grad_44]> ∅))
    ∅ group44 0 0.
End FirstSight.

(* ===================================================================== *)
(** * Part II: properties                                                 *)
(* ===================================================================== *)

(** ** The update-probability schedule *)

Section ScheduleFacts.
Open Scope R_scope.
Import Schedule.
Variables (max_prob min_prob decay : R) (flat_start : Z).
Hypothesis decay_pos : 0 < decay.
Hypothesis max_pos : 0 < max_prob.
Hypothesis min_le_max : min_prob <= max_prob.

Let sched := _schedule max_prob min_prob decay flat_start.

(** The unclamped value of the anneal at step [n >= flat_start]. *)
Let raw (n : Z) : R :=
  max_prob * exp (- decay * (IZR (n - flat_start) - IZR flat_start)).

Lemma schedule_flat (n : Z) : (n < flat_start)%Z -> sched n = max_prob.
Proof.
  intros Hn. unfold sched, _schedule.
  destruct (Z.ltb_spec n flat_start); [reflexivity | lia].
Qed.

Lemma schedule_anneal (n : Z) :
  (flat_start <= n)%Z -> sched n = Rmax min_prob (Rmin max_prob (raw n)).
Proof.
  intros Hn. unfold sched, _schedule, raw.
  destruct (Z.ltb_spec n flat_start); [lia | reflexivity].
Qed.

Lemma raw_strictly_decreasing (a b : Z) : (a < b)%Z -> raw b < raw a.
Proof.
  intros Hab. unfold raw.
  apply Rmult_lt_compat_l; [exact max_pos |].
  apply exp_increasing.
  apply IZR_lt in Hab. rewrite !minus_IZR. nra.
Qed.

Lemma schedule_bounds (n : Z) : min_prob <= sched n <= max_prob.
Proof.
  destruct (Z.lt_ge_cases n flat_start) as [Hn | Hn].
  - rewrite schedule_flat by assumption. lra.
  - rewrite schedule_anneal by assumption. split.
    + apply Rmax_l.
    + apply Rmax_lub; [assumption | apply Rmin_l].
Qed.

Lemma schedule_nonincreasing (a b : Z) : (a <= b)%Z -> sched b <= sched a.
Proof.
  intros Hab.
  destruct (Z.lt_ge_cases a flat_start) as [Ha | Ha].
  - rewrite (schedule_flat a) by assumption. apply schedule_bounds.
  - rewrite !schedule_anneal by lia.
    apply Rle_max_compat_l, Rle_min_compat_l.
    destruct (Z.eq_dec a b) as [-> | Hne]; [lra |].
    left. apply raw_strictly_decreasing. lia.
Qed.

Lemma schedule_strict_inside (a b : Z) :
  (a < b)%Z -> sched a < max_prob -> min_prob < sched b -> sched b < sched a.
Proof.
  intros Hab Ha Hb.
  destruct (Z.lt_ge_cases a flat_start) as [Hlt | Hge].
  - rewrite schedule_flat in Ha by assumption. lra.
  - rewrite (schedule_anneal a) in * by lia.
    rewrite (schedule_anneal b) in * by lia.
    pose proof (raw_strictly_decreasing a b Hab) as Hraw.
    revert Ha Hb. unfold Rmax, Rmin.
    repeat destruct Rle_dec; lra.
Qed.
End ScheduleFacts.

Section DefaultSchedule.
Open Scope R_scope.
Import Schedule.

Lemma default_schedule_eq (n : Z) :
  default_schedule n = _schedule 1 0.03 0.001 250 n.
Proof. reflexivity. Qed.

(** Because [flat_start] is subtracted twice, the exponent is still
    non-negative up to step 500 and the upper clamp keeps the value at
    [max_prob]. *)
Lemma default_schedule_flat_top (n : Z) :
  (n <= 500)%Z -> default_schedule n = 1.
Proof.
  intros Hn. rewrite default_schedule_eq.
  destruct (Z.lt_ge_cases n 250) as [Hlt | Hge].
  - apply schedule_flat; assumption.
  - rewrite schedule_anneal by assumption.
    assert (Hexp : 1 <= 1 * exp (- (0.001) * (IZR (n - 250) - IZR 250))).
    { rewrite Rmult_1_l, <- exp_0.
      apply IZR_le in Hn. rewrite minus_IZR.
      destruct (Req_dec (IZR n) 500) as [-> | Hne].
      - right. f_equal. lra.
      - left. apply exp_increasing. lra. }
    rewrite Rmin_left by exact Hexp.
    apply Rmax_right. lra.
Qed.

(** Far enough out the lower clamp [max(min_prob, _)] takes over. *)
Lemma default_schedule_floor (n : Z) :
  (34000 <= n)%Z -> default_schedule n = 0.03.
Proof.
  intros Hn. rewrite default_schedule_eq.
  rewrite schedule_anneal by lia.
  apply IZR_le in Hn.
  set (x := 0.001 * (IZR (n - 250) - IZR 250)).
  assert (Hx : 33.5 <= x) by (unfold x; rewrite minus_IZR; lra).
  replace (- (0.001) * (IZR (n - 250) - IZR 250)) with (- x)
    by (unfold x; lra).
  assert (Hbig : 34.5 < exp x) by (pose proof (exp_ineq1 x); lra).
  assert (Hsmall : exp (- x) < 0.03).
  { rewrite exp_Ropp.
    apply Rlt_trans with (/ 34.5); [| lra].
    apply Rinv_lt_contravar; [| exact Hbig].
    apply Rmult_lt_0_compat; lra. }
  rewrite Rmult_1_l, Rmin_right by lra.
  apply Rmax_left. lra.
Qed.
End DefaultSchedule.

Section ScheduleClaims.
Open Scope R_scope.
Import Schedule.

(** C1, as stated, fails: "strictly decreasing for every step >= 250" is
    refuted at step 40000, where the lower clamp [max(min_prob, _)] has
    taken over and two consecutive steps both give 0.03. *)
Lemma C1_strict_decrease_counterexample :
  default_schedule 40000 = 0.03 /\
  default_schedule (40000 + 1) = 0.03 /\
  ~ (forall step : Z, (250 <= step)%Z ->
       default_schedule (step + 1) < default_schedule step).
Proof.
  assert (H0 : default_schedule 40000 = 0.03)
    by (apply default_schedule_floor; lia).
  assert (H1 : default_schedule (40000 + 1) = 0.03)
    by (apply default_schedule_floor; lia).
  repeat split; try assumption.
  intros Hdec. specialize (Hdec 40000%Z ltac:(lia)).
  rewrite H0, H1 in Hdec. lra.
Qed.

(** C1 (amended): for the default schedule, the probability is 1.0 at
    every step below 250; it never increases from one step to a later
    one; between two steps whose probabilities lie strictly inside the
    clamp (the earlier below 1.0, the later above 0.03) it strictly
    decreases; and at every step it lies in [0.03, 1.0]. *)
Theorem C1_default_schedule (a b : Z) :
  ((a < 250)%Z -> default_schedule a = 1) /\
  ((a <= b)%Z -> default_schedule b <= default_schedule a) /\
  ((a < b)%Z -> default_schedule a < 1 -> 0.03 < default_schedule b ->
     default_schedule b < default_schedule a) /\
  0.03 <= default_schedule a <= 1.
Proof.
  rewrite !default_schedule_eq.
  split; [| split; [| split]].
  - apply schedule_flat.
  - apply schedule_nonincreasing; lra.
  - apply schedule_strict_inside; lra.
  - apply schedule_bounds. lra.
Qed.

Lemma default_schedule_600 : default_schedule 600 < 1.
Proof.
  rewrite default_schedule_eq, schedule_anneal by lia.
  assert (He : exp (- (0.001) * (IZR (600 - 250) - IZR 250)) < 1).
  { rewrite <- exp_0. apply exp_increasing. rewrite minus_IZR. lra. }
  rewrite Rmult_1_l.
  apply Rmax_lub_lt; [lra |].
  apply Rle_lt_trans with (2 := He). apply Rmin_r.
Qed.

Lemma default_schedule_601 : 0.03 < default_schedule 601.
Proof.
  rewrite default_schedule_eq, schedule_anneal by lia.
  assert (He : / 3 <= exp (- (0.001) * (IZR (601 - 250) - IZR 250))).
  { replace (- (0.001) * (IZR (601 - 250) - IZR 250)) with (- (0.101))
      by (rewrite minus_IZR; lra).
    rewrite exp_Ropp.
    apply Rinv_le_contravar; [apply exp_pos |].
    apply Rle_trans with (exp 1); [| apply exp_le_3].
    left. apply exp_increasing. lra. }
  rewrite Rmult_1_l.
  apply Rlt_le_trans with (2 := Rmax_r _ _).
  apply Rmin_glb_lt; lra.
Qed.

Lemma C1_default_schedule_witness :
  default_schedule 100 = 1 /\
  default_schedule 601 <= default_schedule 600 /\
  default_schedule 601 < default_schedule 600 /\
  0.03 <= default_schedule 600 <= 1.
Proof.
  destruct (C1_default_schedule 100 100) as (Hflat & _).
  destruct (C1_default_schedule 600 601) as (_ & Hle & Hlt & Hbnd).
  split; [apply Hflat; lia |].
  split; [apply Hle; lia |].
  split; [| exact Hbnd].
  apply Hlt; [lia | apply default_schedule_600 | apply default_schedule_601].
Defined.
End ScheduleClaims.

(** ** [dim_merger]: the merged shape and the element count *)

Section DimMergerFacts.
Import DimMerger.
Open Scope Z_scope.

Lemma prod_Z_app (l1 l2 : list Z) :
  prod_Z (l1 ++ l2) = prod_Z l1 * prod_Z l2.
Proof.
  induction l1 as [| x l1 IH]; simpl.
  - destruct (prod_Z l2); reflexivity.
  - rewrite IH. ring.
Qed.

Lemma prod_Z_rev (l : list Z) : prod_Z (rev l) = prod_Z l.
Proof.
  induction l as [| x l IH]; simpl; [reflexivity |].
  rewrite prod_Z_app, IH. simpl. ring.
Qed.

Lemma prod_Z_head_tail (l : list Z) :
  prod_Z l = prod_Z (firstn 1 l) * prod_Z (tail l).
Proof. destruct l as [| x l]; simpl; [reflexivity | ring]. Qed.

(** Loop invariant: while every dimension met so far is at least 1, the
    accumulator [curr_shape] stays at least 1 and
    [prod new_shape * curr_shape] is the product of what was consumed. *)
Lemma merge_loop_invariant (m : Z) (dims : list Z) :
  forall (acc : list Z) (curr : Z),
    Forall (fun d => 1 <= d) dims -> 1 <= curr ->
    prod_Z (fst (merge_loop m dims acc curr)) * snd (merge_loop m dims acc curr)
      = prod_Z acc * curr * prod_Z dims
    /\ 1 <= snd (merge_loop m dims acc curr).
Proof.
  induction dims as [| sh dims IH]; intros acc curr Hpos Hcurr; simpl.
  - split; [ring | assumption].
  - inversion Hpos as [| ? ? Hsh Hrest]; subst.
    destruct (curr * sh >? m) eqn:Hbig.
    + destruct (curr >? 1) eqn:Hc.
      * destruct (IH (acc ++ [curr]) sh Hrest Hsh) as [Hprod Hge].
        split; [| exact Hge].
        rewrite Hprod, prod_Z_app. simpl. ring.
      * assert (curr = 1) by lia. subst curr.
        destruct (IH (acc ++ [sh]) 1 Hrest ltac:(lia)) as [Hprod Hge].
        split; [| exact Hge].
        rewrite Hprod, prod_Z_app. simpl. ring.
    + destruct (IH acc (curr * sh) Hrest ltac:(nia)) as [Hprod Hge].
      split; [| exact Hge].
      rewrite Hprod. ring.
Qed.

(** With every trailing dimension at least 1 the merged shape keeps the
    element count, whatever [max_precond_dim] is. *)
Lemma merged_shape_prod (shape : list Z) (m : Z) :
  Forall (fun d => 1 <= d) (tail shape) ->
  prod_Z (merged_shape shape m) = prod_Z shape.
Proof.
  intros Hpos. unfold merged_shape.
  assert (Hrev : Forall (fun d => 1 <= d) (rev (tail shape))).
  { apply Forall_rev. exact Hpos. }
  destruct (merge_loop_invariant m (rev (tail shape)) [] 1 Hrev ltac:(lia))
    as [Hprod Hge].
  destruct (merge_loop m (rev (tail shape)) [] 1) as [ns c].
  simpl in Hprod, Hge.
  rewrite prod_Z_rev in Hprod.
  rewrite (prod_Z_head_tail shape).
  destruct ((c >? 1) || (length (firstn 1 shape ++ rev ns) =? 0)%nat)
    eqn:Hcond.
  - rewrite !prod_Z_app, prod_Z_rev. simpl. nia.
  - apply orb_false_iff in Hcond as [Hc _].
    assert (c = 1) by lia. subst c.
    rewrite prod_Z_app, prod_Z_rev. nia.
Qed.

Lemma dim_merger_ok_positive (grad : Tensor) (m : Z) :
  Forall (fun d => 1 <= d) (tail (t_shape grad)) ->
  dim_merger grad m
    = Ok (mkTensor (t_dtype grad) (merged_shape (t_shape grad) m)
            (t_data grad)).
Proof.
  intros Hpos. unfold dim_merger, view, numel.
  rewrite merged_shape_prod by assumption.
  rewrite Z.eqb_refl. reflexivity.
Qed.

(** C10 fails on the code at a zero-size trailing dimension: for shape
    (2, 0) and [max_precond_dim = 10] the loop leaves [curr_shape = 0],
    the test [curr_shape > 1] drops it, and the merged shape is [2],
    with product 2 against 0 elements, so [grad.view] raises. *)
Theorem C10_dim_merger_zero_dim :
  merged_shape [2; 0] 10 = [2] /\
  prod_Z (merged_shape [2; 0] 10) = 2 /\
  prod_Z [2; 0] = 0 /\
  is_Ok (dim_merger grad_2x0 10) = false.
Proof. repeat split; reflexivity. Qed.
End DimMergerFacts.

(** ** [init_Q_exprs]: the factor list *)

Section InitQFactors.
Import InitQ.
Variables (scale : R) (dt : dtype) (rank : nat).
Variables (max_size min_ndim_triangular : Z).

(** The factor appended for one axis. *)
Let factor_of (ax : Z * bool) : Tensor :=
  if use_diag rank max_size min_ndim_triangular (fst ax) (snd ax)
  then scale_tensor scale (ones (fst ax) dt)
  else scale_tensor scale (eye (fst ax) dt).

Lemma axis_step_Q (st : Pieces) (i : nat) (size : Z) (dim_d : bool) :
  Q (axis_step scale dt rank max_size min_ndim_triangular st i size dim_d)
    = Q st ++ [factor_of (size, dim_d)].
Proof.
  unfold axis_step, factor_of; simpl.
  destruct (use_diag rank max_size min_ndim_triangular size dim_d);
    reflexivity.
Qed.

Lemma axes_loop_Q (axes : list (Z * bool)) :
  forall (st : Pieces) (i : nat),
    Q (axes_loop scale dt rank max_size min_ndim_triangular st i axes)
      = Q st ++ map factor_of axes.
Proof.
  induction axes as [| [size dim_d] axes IH]; intros st i; simpl.
  - symmetry. apply app_nil_r.
  - rewrite IH, axis_step_Q, <- app_assoc. reflexivity.
Qed.
End InitQFactors.

Section FactorShapes.
Open Scope R_scope.

Lemma scaled_ones_spec (s : R) (size : Z) (dt : dtype) :
  is_scaled_ones (scale_tensor s (ones size dt)) size s.
Proof.
  split; [reflexivity |]. simpl.
  induction (Z.to_nat size) as [| n IH]; simpl; [reflexivity |].
  rewrite IH. f_equal. ring.
Qed.

(** Row [r], column [c] of a row-major table built row by row. *)
Lemma nth_flat_rows (f : nat -> list R) (n : nat) :
  (forall i, length (f i) = n) ->
  forall (m start r c : nat),
    (r < m)%nat -> (c < n)%nat ->
    nth (r * n + c) (flat_map f (seq start m)) 0 = nth c (f (start + r)%nat) 0.
Proof.
  intros Hlen m. induction m as [| m IH]; intros start r c Hr Hc; [lia |].
  simpl. destruct r as [| r].
  - simpl. rewrite app_nth1 by (rewrite Hlen; lia).
    rewrite Nat.add_0_r. reflexivity.
  - rewrite app_nth2 by (rewrite Hlen; simpl; lia).
    rewrite Hlen.
    replace (S r * n + c - n)%nat with (r * n + c)%nat by (simpl; lia).
    rewrite IH by lia. f_equal. f_equal. lia.
Qed.

Lemma length_flat_rows (f : nat -> list R) (n : nat) :
  (forall i, length (f i) = n) ->
  forall m start, length (flat_map f (seq start m)) = (m * n)%nat.
Proof.
  intros Hlen m. induction m as [| m IH]; intros start; simpl; [reflexivity |].
  rewrite length_app, Hlen, IH. reflexivity.
Qed.

Lemma nth_map_seq (f : nat -> R) (n : nat) :
  forall (start c : nat) (d : R),
    (c < n)%nat -> nth c (map f (seq start n)) d = f (start + c)%nat.
Proof.
  induction n as [| n IH]; intros start c d Hc; [lia |].
  destruct c as [| c]; simpl.
  - rewrite Nat.add_0_r. reflexivity.
  - rewrite IH by lia. f_equal. lia.
Qed.

Lemma eye_data_entry (n r c : nat) :
  (r < n)%nat -> (c < n)%nat ->
  nth (r * n + c) (eye_data n) 0 = if (r =? c)%nat then 1 else 0.
Proof.
  intros Hr Hc. unfold eye_data.
  rewrite nth_flat_rows by
    (try (intros; rewrite length_map, length_seq; reflexivity); lia).
  simpl. rewrite nth_map_seq by assumption. reflexivity.
Qed.

Lemma scaled_eye_spec (s : R) (size : Z) (dt : dtype) :
  is_scaled_eye (scale_tensor s (eye size dt)) size s.
Proof.
  split; [reflexivity |]. split.
  - simpl. rewrite length_map. unfold eye_data.
    apply length_flat_rows. intros. rewrite length_map, length_seq.
    reflexivity.
  - intros r c Hr Hc. unfold mat_entry. simpl.
    set (n := Z.to_nat size) in *.
    assert (Hlt : (r * n + c < length (eye_data n))%nat).
    { unfold eye_data. rewrite (length_flat_rows _ n)
        by (intros; rewrite length_map, length_seq; reflexivity).
      nia. }
    rewrite (nth_indep _ 0 (s * 0)) by (rewrite length_map; exact Hlt).
    rewrite map_nth, eye_data_entry by assumption.
    destruct (r =? c)%nat; ring.
Qed.
End FactorShapes.

(** ** The insertion sort is within the contract of [np.argsort] *)

Section ArgsortFacts.
Import Argsort.
Variable key : nat -> Z.
Open Scope Z_scope.

Let le_key (i j : nat) : Prop := key i <= key j.

Lemma insert_perm (i : nat) (acc : list nat) :
  insert key i acc ≡ₚ i :: acc.
Proof.
  induction acc as [| h rest IH]; simpl; [reflexivity |].
  destruct (key i <? key h); [reflexivity |].
  rewrite IH. apply perm_swap.
Qed.

Lemma insertion_sort_perm (idx : list nat) :
  insertion_sort key idx ≡ₚ idx.
Proof.
  unfold insertion_sort.
  assert (Hgen : forall acc,
            fold_left (fun acc i => insert key i acc) idx acc ≡ₚ idx ++ acc).
  { induction idx as [| i idx IH]; intros acc; simpl; [reflexivity |].
    rewrite IH, insert_perm. symmetry. apply Permutation_middle. }
  rewrite Hgen, app_nil_r. reflexivity.
Qed.

Lemma insert_sorted (i : nat) (acc : list nat) :
  StronglySorted le_key acc -> StronglySorted le_key (insert key i acc).
Proof.
  induction acc as [| h rest IH]; intros Hs; simpl.
  - repeat constructor.
  - apply StronglySorted_inv in Hs as [Hrest Hh].
    destruct (Z.ltb_spec (key i) (key h)) as [Hlt | Hge].
    + constructor; [constructor; assumption |].
      constructor; [unfold le_key; lia |].
      eapply Forall_impl; [exact Hh |].
      intros y Hy. unfold le_key in *. lia.
    + constructor; [apply IH; exact Hrest |].
      rewrite insert_perm. constructor; [exact Hge | exact Hh].
Qed.

Lemma insertion_sort_sorted (idx : list nat) :
  StronglySorted le_key (insertion_sort key idx).
Proof.
  unfold insertion_sort.
  assert (Hgen : forall acc,
            StronglySorted le_key acc ->
            StronglySorted le_key
              (fold_left (fun acc i => insert key i acc) idx acc)).
  { induction idx as [| i idx IH]; intros acc Hacc; simpl; [exact Hacc |].
    apply IH, insert_sorted, Hacc. }
  apply Hgen. constructor.
Qed.
End ArgsortFacts.

(** The stable sort as the sort of numpy: the order [np.argsort] returns
    on the shape (4, 4, 2) of the examples. *)
Module StableSort.
#[export] Instance numpy_stable : NumpyLib := {|
  argsort := Argsort.stable_argsort;
  argsort_perm := fun a =>
    insertion_sort_perm (fun i => nth i a 0%Z) (seq 0 (length a));
  argsort_sorted := fun a =>
    insertion_sort_sorted (fun i => nth i a 0%Z) (seq 0 (length a))
|}.
End StableSort.

Section ArgsortLast.
Context `{NumpyLib}.

Lemma argsort_length (a : list Z) : length (argsort a) = length a.
Proof.
  rewrite (Permutation_length (argsort_perm a)). apply length_seq.
Qed.

Lemma rev_head_last (l : list nat) :
  l <> [] -> rev l = List.last l 0%nat :: rev (removelast l).
Proof.
  intros Hl.
  rewrite (app_removelast_last 0%nat Hl) at 1.
  rewrite rev_app_distr. reflexivity.
Qed.

(** The first entry of [np.argsort(shape)[::-1]]: an index whose key no
    other key exceeds. *)
Lemma rev_argsort_head (a : list Z) :
  a <> [] ->
  exists k rest, rev (argsort a) = k :: rest /\ is_max_axis a k.
Proof.
  intros Ha.
  assert (Hne : argsort a <> []).
  { intros Heq. apply (f_equal (@length nat)) in Heq.
    rewrite argsort_length in Heq. destruct a; [congruence | discriminate]. }
  set (k := List.last (argsort a) 0%nat).
  exists k, (rev (removelast (argsort a))).
  split; [apply rev_head_last; exact Hne |].
  pose proof (app_removelast_last 0%nat Hne) as Hsplit. fold k in Hsplit.
  assert (Hin : forall j, (j < length a)%nat <-> j ∈ argsort a).
  { intros j. rewrite (argsort_perm a), elem_of_seq. lia. }
  split.
  - apply Hin. rewrite Hsplit. apply elem_of_app. right.
    apply list_elem_of_singleton. reflexivity.
  - intros j Hj. apply Hin in Hj. rewrite Hsplit in Hj.
    apply elem_of_app in Hj as [Hj | Hj].
    + pose proof (argsort_sorted a) as Hs. rewrite Hsplit in Hs.
      apply (StronglySorted_app_1_elem_of _ _ _ j k Hs Hj).
      apply list_elem_of_singleton. reflexivity.
    + apply list_elem_of_singleton in Hj. subst j. lia.
Qed.
End ArgsortLast.

(** ** [init_Q_exprs]: which branch is taken, and what it returns *)

Section InitQCases.
Import InitQ.
Context `{NumpyLib}.
Open Scope R_scope.

Lemma lookup_map_const {A B : Type} (b : B) (l : list A) (j : nat) :
  (j < length l)%nat -> map (fun _ => b) l !! j = Some b.
Proof.
  revert j. induction l as [| x l IH]; intros j Hj; simpl in *; [lia |].
  destruct j as [| j]; [reflexivity | apply IH; lia].
Qed.

Lemma lookup_map_combine {A B C : Type} (f : A * B -> C)
    (l : list A) (k : list B) (j : nat) (x : A) (y : B) :
  l !! j = Some x -> k !! j = Some y ->
  map f (combine l k) !! j = Some (f (x, y)).
Proof.
  revert k j. induction l as [| a l IH]; intros k j Hl Hk; [discriminate |].
  destruct k as [| b k]; [discriminate |].
  destruct j as [| j]; simpl in *.
  - congruence.
  - apply IH; assumption.
Qed.

Lemma float_pow_pos (x y : R) : 0 < x -> float_pow x y = Rpower x y.
Proof. intros Hx. unfold float_pow. destruct (Rlt_dec 0 x); [reflexivity | lra]. Qed.

Lemma dim_diag_of_none (shape : list Z) :
  dim_diag_of shape None = Ok (map (fun _ => false) shape).
Proof. reflexivity. Qed.

Lemma dim_diag_of_all_diag (shape : list Z) :
  dim_diag_of shape (Some "all_diag") = Ok (map (fun _ => true) shape).
Proof. reflexivity. Qed.

Lemma dim_diag_of_one_diag (shape : list Z) :
  shape <> [] ->
  exists k,
    is_max_axis shape k /\
    dim_diag_of shape (Some "one_diag")
      = Ok (<[k := true]> (map (fun _ => false) shape)).
Proof.
  intros Hne.
  destruct (rev_argsort_head shape Hne) as (k & rest & Hrev & Hmax).
  exists k. split; [exact Hmax |].
  unfold dim_diag_of. simpl String.eqb. cbv iota. rewrite Hrev. reflexivity.
Qed.

Lemma dim_diag_of_invalid (shape : list Z) (mode : string) :
  mode <> "one_diag"%string -> mode <> "all_diag"%string ->
  dim_diag_of shape (Some mode) = Err (ValueError "Invalid memory_save_mode").
Proof.
  intros H1 H2. unfold dim_diag_of.
  apply String.eqb_neq in H1, H2. rewrite H1, H2. reflexivity.
Qed.

Lemma dim_diag_of_valid (shape : list Z) (mode : option string) :
  shape <> [] -> valid_mode mode ->
  exists dd, dim_diag_of shape mode = Ok dd /\ length dd = length shape.
Proof.
  intros Hne [-> | [-> | ->]].
  - eexists. split; [apply dim_diag_of_none | apply length_map].
  - destruct (dim_diag_of_one_diag shape Hne) as (k & _ & Heq).
    eexists. split; [exact Heq |].
    rewrite length_insert. apply length_map.
  - eexists. split; [apply dim_diag_of_all_diag | apply length_map].
Qed.

Variables (t : Tensor) (scale : R) (max_size min_ndim_triangular : Z).
Variables (memory_save_mode : option string) (dtype_arg : option dtype).

Let dt := match dtype_arg with Some d => d | None => t_dtype t end.
Let rank := length (t_shape t).
Let run :=
  init_Q_exprs t scale max_size min_ndim_triangular memory_save_mode dtype_arg.

Lemma init_Q_exprs_scalar :
  rank = 0%nat ->
  run = Ok ([scale_tensor scale (ones_like t dt)],
            mkExprs ",->" [",->"] ",,->").
Proof.
  unfold run, init_Q_exprs, rank. intros ->. reflexivity.
Qed.

Lemma init_Q_exprs_rank_too_large :
  (13 < rank)%nat ->
  run = Err (ValueError "Einstein runs out of letters!").
Proof.
  unfold run, init_Q_exprs, rank. intros Hr.
  destruct (Nat.eqb_spec (length (t_shape t)) 0); [lia |].
  destruct (Nat.ltb_spec 13 (length (t_shape t))); [reflexivity | lia].
Qed.

Lemma init_Q_exprs_bad_mode (e : exn) :
  (0 < rank <= 13)%nat ->
  dim_diag_of (t_shape t) memory_save_mode = Err e ->
  run = Err e.
Proof.
  unfold run, init_Q_exprs, rank. intros Hr Hdd.
  destruct (Nat.eqb_spec (length (t_shape t)) 0); [lia |].
  destruct (Nat.ltb_spec 13 (length (t_shape t))); [lia |].
  rewrite Hdd. reflexivity.
Qed.

Lemma init_Q_exprs_tensor (dd : list bool) :
  (0 < rank <= 13)%nat ->
  dim_diag_of (t_shape t) memory_save_mode = Ok dd ->
  exists ex,
    run = Ok (map (fun ax : Z * bool =>
                     let s := float_pow scale (1 / INR rank) in
                     if use_diag rank max_size min_ndim_triangular
                          (fst ax) (snd ax)
                     then scale_tensor s (ones (fst ax) dt)
                     else scale_tensor s (eye (fst ax) dt))
                  (combine (t_shape t) dd), ex)
    /\ length (exprGs ex) = length (combine (t_shape t) dd).
Proof.
  unfold run, init_Q_exprs, rank. intros Hr Hdd.
  destruct (Nat.eqb_spec (length (t_shape t)) 0); [lia |].
  destruct (Nat.ltb_spec 13 (length (t_shape t))); [lia |].
  rewrite Hdd. eexists. split.
  - rewrite axes_loop_Q. reflexivity.
  - simpl exprGs.
    generalize (combine (t_shape t) dd) as axes.
    generalize (float_pow scale (1 / INR (length (t_shape t)))) as s.
    intros s axes.
    assert (Hgen : forall st i,
      length (Gs (axes_loop s dt (length (t_shape t)) max_size
                    min_ndim_triangular st i axes))
        = (length (Gs st) + length axes)%nat).
    { induction axes as [| [size d] axes IH]; intros st i; simpl; [lia |].
      rewrite IH. unfold axis_step.
      destruct (use_diag _ _ _ _ _); simpl; rewrite length_app; simpl; lia. }
    rewrite Hgen. reflexivity.
Qed.
End InitQCases.

Section InitQClaims.
Import InitQ.
Context `{NumpyLib}.
Open Scope R_scope.

Lemma lookup_combine_some {A B : Type} (l : list A) (k : list B) (i : nat)
    (x : A) :
  length k = length l -> l !! i = Some x -> exists y, k !! i = Some y.
Proof.
  revert k i. induction l as [| a l IH]; intros k i Hlen Hl; [discriminate |].
  destruct k as [| b k]; [discriminate |].
  destruct i as [| i]; simpl in *; [eauto |].
  apply IH; [lia | assumption].
Qed.

(** C8: whenever the synthesis applies (rank at most 13, one of the three
    policies, positive init scale) [init_Q_exprs] returns a factor list;
    it has one factor per axis, or a single factor for a rank-0 tensor;
    the factor of an axis that the test of line 503 sends to the diagonal
    branch is a vector of axis-size entries all equal to the scale, any
    other is the axis-size square matrix scale times identity; and the
    scale is [init_scale ** (1 / rank)]. *)
Theorem C8_init_Q_exprs_factors
    (t : Tensor) (scale : R) (max_size min_ndim_triangular : Z)
    (memory_save_mode : option string) (dtype_arg : option dtype) :
  0 < scale ->
  (length (t_shape t) <= 13)%nat ->
  valid_mode memory_save_mode ->
  let rank := length (t_shape t) in
  let dt := match dtype_arg with Some d => d | None => t_dtype t end in
  exists Qs ex,
    init_Q_exprs t scale max_size min_ndim_triangular memory_save_mode
      dtype_arg = Ok (Qs, ex) /\
    length Qs = Nat.max 1 rank /\
    length (exprGs ex) = length Qs /\
    (rank = 0%nat -> Qs = [scale_tensor scale (ones_like t dt)]) /\
    (rank <> 0%nat ->
     exists dim_diag,
       dim_diag_of (t_shape t) memory_save_mode = Ok dim_diag /\
       forall (i : nat) (size : Z),
         t_shape t !! i = Some size ->
         exists q d,
           Qs !! i = Some q /\ dim_diag !! i = Some d /\
           t_dtype q = dt /\
           if use_diag rank max_size min_ndim_triangular size d
           then is_scaled_ones q size (Rpower scale (1 / INR rank))
           else is_scaled_eye q size (Rpower scale (1 / INR rank))).
Proof.
  intros Hscale Hrank Hmode rank dt.
  destruct (Nat.eq_dec rank 0%nat) as [Hz | Hnz].
  - exists [scale_tensor scale (ones_like t dt)], (mkExprs ",->" [",->"] ",,->").
    split; [apply init_Q_exprs_scalar; exact Hz |].
    rewrite Hz. repeat split; try reflexivity. intros; contradiction.
  - assert (Hne : t_shape t <> []).
    { intros Heq. apply Hnz. unfold rank. rewrite Heq. reflexivity. }
    destruct (dim_diag_of_valid _ _ Hne Hmode) as (dd & Hdd & Hlen).
    destruct (init_Q_exprs_tensor t scale max_size min_ndim_triangular
                memory_save_mode dtype_arg dd ltac:(fold rank; lia) Hdd)
      as (ex & Hrun & HGs).
    eexists. exists ex. split; [exact Hrun |].
    assert (Hcomb : length (combine (t_shape t) dd) = rank).
    { rewrite length_combine, Hlen. apply Nat.min_id. }
    split; [rewrite length_map, Hcomb; lia |].
    split; [rewrite length_map; exact HGs |].
    split; [intros; contradiction |].
    intros _. exists dd. split; [exact Hdd |].
    intros i size Hi.
    destruct (lookup_combine_some _ dd i size Hlen Hi) as (d & Hd).
    eexists. exists d.
    split; [apply lookup_map_combine; eassumption |].
    split; [exact Hd |].
    cbv zeta. simpl fst. simpl snd. fold rank.
    rewrite float_pow_pos by exact Hscale.
    destruct (use_diag rank max_size min_ndim_triangular size d).
    + split; [reflexivity | apply scaled_ones_spec].
    + split; [reflexivity | apply scaled_eye_spec].
Qed.
End InitQClaims.

Section InitQInstance.
Import InitQ StableSort.
Open Scope R_scope.

Lemma C8_init_Q_exprs_factors_witness :
  exists Qs ex,
    init_Q_exprs param_44 1 8 2 None None = Ok (Qs, ex) /\
    length Qs = 2%nat /\
    exists q0 q1,
      Qs !! 0%nat = Some q0 /\ Qs !! 1%nat = Some q1 /\
      is_scaled_eye q0 4 (Rpower 1 (1 / INR 2)) /\
      is_scaled_eye q1 4 (Rpower 1 (1 / INR 2)).
Proof.
  destruct (C8_init_Q_exprs_factors param_44 1 8 2 None None)
    as (Qs & ex & Hrun & Hlen & _ & _ & Haxes).
  - lra.
  - simpl. lia.
  - left. reflexivity.
  - exists Qs, ex. split; [exact Hrun |]. split; [exact Hlen |].
    destruct (Haxes ltac:(discriminate)) as (dd & Hdd & Hfac).
    rewrite dim_diag_of_none in Hdd. injection Hdd as <-.
    destruct (Hfac 0%nat 4%Z eq_refl) as (q0 & d0 & Hq0 & Hd0 & _ & H0).
    destruct (Hfac 1%nat 4%Z eq_refl) as (q1 & d1 & Hq1 & Hd1 & _ & H1).
    injection Hd0 as <-. injection Hd1 as <-.
    exists q0, q1.
    split; [exact Hq0 |]. split; [exact Hq1 |].
    split; [exact H0 | exact H1].
Defined.
End InitQInstance.

Section OneDiagFacts.
Import InitQ.

Lemma one_diag_flags (shape : list Z) (k j : nat) :
  (k < length shape)%nat ->
  (<[k := true]> (map (fun _ => false) shape)) !! j = Some true <-> j = k.
Proof.
  intros Hk. split.
  - intros Hj. destruct (Nat.eq_dec j k) as [| Hne]; [assumption |].
    rewrite list_lookup_insert_ne in Hj by congruence.
    destruct (Nat.lt_ge_cases j (length shape)) as [Hlt | Hge].
    + rewrite lookup_map_const in Hj by exact Hlt. discriminate.
    + apply lookup_lt_Some in Hj. rewrite length_map in Hj. lia.
  - intros ->. apply list_lookup_insert_eq. rewrite length_map. exact Hk.
Qed.

Lemma one_diag_flag_at (shape : list Z) (k j : nat) :
  (k < length shape)%nat -> (j < length shape)%nat ->
  (<[k := true]> (map (fun _ => false) shape)) !! j = Some (j =? k)%nat.
Proof.
  intros Hk Hj. destruct (Nat.eqb_spec j k) as [-> | Hne].
  - apply list_lookup_insert_eq. rewrite length_map. exact Hk.
  - rewrite list_lookup_insert_ne by congruence.
    apply lookup_map_const. exact Hj.
Qed.
End OneDiagFacts.

Section OneDiagClaims.
Import InitQ.
Context `{NumpyLib}.
Open Scope R_scope.

(** C2 (amended): under 'one_diag', for every shape of rank 1 to 13 and
    every order in which [np.argsort] puts equal keys, [init_Q_exprs]
    flags exactly one axis as forced-diagonal, and it is an axis of the
    largest size: the head of the reversed ascending argsort.  Which of
    several axes of the largest size that is, is numpy's choice.  The
    factor of an axis is a vector when the axis is flagged, or has size
    1, or size above [max_size], or the rank is below
    [min_ndim_triangular]; otherwise it is a square matrix. *)
Theorem C2_one_diag_a_largest
    (t : Tensor) (scale : R) (max_size min_ndim_triangular : Z)
    (dtype_arg : option dtype) :
  (1 <= length (t_shape t) <= 13)%nat ->
  let rank := length (t_shape t) in
  exists (k : nat) (dim_diag : list bool) Qs ex,
    is_max_axis (t_shape t) k /\
    dim_diag_of (t_shape t) (Some "one_diag") = Ok dim_diag /\
    length dim_diag = rank /\
    (forall j, dim_diag !! j = Some true <-> j = k) /\
    init_Q_exprs t scale max_size min_ndim_triangular (Some "one_diag")
      dtype_arg = Ok (Qs, ex) /\
    length Qs = rank /\
    forall (j : nat) (size : Z),
      t_shape t !! j = Some size ->
      exists q,
        Qs !! j = Some q /\
        ndim q = if use_diag rank max_size min_ndim_triangular size
                      (j =? k)%nat
                 then 1%nat else 2%nat.
Proof.
  intros Hrank rank.
  assert (Hne : t_shape t <> []).
  { intros Heq. rewrite Heq in Hrank. simpl in Hrank. lia. }
  destruct (dim_diag_of_one_diag _ Hne) as (k & Hmax & Hdd).
  pose proof Hmax as (Hk & _).
  destruct (init_Q_exprs_tensor t scale max_size min_ndim_triangular
              (Some "one_diag") dtype_arg _ ltac:(lia) Hdd)
    as (ex & Hrun & _).
  exists k. eexists. eexists. exists ex.
  split; [exact Hmax |]. split; [exact Hdd |].
  assert (Hlen : length (<[k := true]> (map (fun _ : Z => false) (t_shape t)))
                 = rank)
    by (rewrite length_insert; apply length_map).
  split; [exact Hlen |].
  split; [intros j; apply one_diag_flags; exact Hk |].
  split; [exact Hrun |].
  split.
  { rewrite length_map, length_combine, Hlen. apply Nat.min_id. }
  intros j size Hj.
  assert (Hjlt : (j < length (t_shape t))%nat)
    by (eapply lookup_lt_Some; exact Hj).
  eexists. split.
  - apply lookup_map_combine; [exact Hj |].
    apply one_diag_flag_at; assumption.
  - cbv zeta. simpl fst. simpl snd. fold rank.
    destruct (use_diag rank max_size min_ndim_triangular size (j =? k)%nat);
      reflexivity.
Qed.
End OneDiagClaims.

Section OneDiagInstance.
Import InitQ StableSort.
Open Scope R_scope.

(** C2, as stated, fails on its own example.  [np.argsort((4, 4, 2))] is
    [[2, 0, 1]]: for these three keys it is the order of the stable sort.
    On shape (4, 4, 2) with [max_size = 8] and [min_ndim_triangular = 2]
    the policy then flags axis 1, not axis 0; the factor of axis 0 is a
    matrix and that of axis 1 a vector. *)
Lemma C2_one_diag_442_counterexample :
  argsort [4; 4; 2]%Z = [2; 0; 1]%nat /\
  dim_diag_of [4; 4; 2]%Z (Some "one_diag") = Ok [false; true; false] /\
  factor_ndims (init_Q_exprs param_442 1 8 2 (Some "one_diag") None)
    = Some [2; 1; 2]%nat /\
  factor_ndims (init_Q_exprs param_442 1 8 2 (Some "one_diag") None)
    <> Some [1; 2; 2]%nat.
Proof.
  assert (H : factor_ndims
                (init_Q_exprs param_442 1 8 2 (Some "one_diag") None)
              = Some [2; 1; 2]%nat) by reflexivity.
  split; [reflexivity |]. split; [reflexivity |]. split; [exact H |].
  rewrite H. discriminate.
Qed.

(** The instance at shape (4, 4, 2): the flagged axis is axis 0 or axis
    1, its factor is a vector, and the other two factors are matrices. *)
Lemma C2_one_diag_a_largest_witness :
  exists (k : nat) Qs ex q0 q1 q2,
    init_Q_exprs param_442 1 8 2 (Some "one_diag") None = Ok (Qs, ex) /\
    (k = 0%nat \/ k = 1%nat) /\
    Qs = [q0; q1; q2] /\
    ndim q0 = (if (k =? 0)%nat then 1 else 2)%nat /\
    ndim q1 = (if (k =? 1)%nat then 1 else 2)%nat /\
    ndim q2 = 2%nat.
Proof.
  destruct (C2_one_diag_a_largest param_442 1 8 2 None)
    as (k & dd & Qs & ex & Hmax & _ & _ & _ & Hrun & Hlen & Hax).
  { simpl. lia. }
  assert (Hk : k = 0%nat \/ k = 1%nat).
  { destruct Hmax as (Hk & Hall). simpl in Hk.
    destruct k as [| [| [| k]]]; [left; reflexivity | right; reflexivity | | lia].
    specialize (Hall 0%nat). simpl in Hall. lia. }
  destruct (Hax 0%nat 4%Z eq_refl) as (q0 & Hq0 & Hn0).
  destruct (Hax 1%nat 4%Z eq_refl) as (q1 & Hq1 & Hn1).
  destruct (Hax 2%nat 2%Z eq_refl) as (q2 & Hq2 & Hn2).
  exists k, Qs, ex, q0, q1, q2.
  split; [exact Hrun |]. split; [exact Hk |].
  simpl in Hlen.
  destruct Qs as [| a [| b [| c [| ? ?]]]]; try discriminate.
  simpl in Hq0, Hq1, Hq2.
  injection Hq0 as ->. injection Hq1 as ->. injection Hq2 as ->.
  split; [reflexivity |].
  destruct Hk as [-> | ->]; split; try exact Hn0; split; try exact Hn1;
    exact Hn2.
Defined.
End OneDiagInstance.

(** ** [psgd_balance_Q] *)

Section BalanceFacts.
Import Ops Balance.
Open Scope R_scope.

Lemma fold_Rmax_nonneg (l : list R) : 0 <= fold_right Rmax 0 l.
Proof.
  induction l as [| x l IH]; simpl; [lra |].
  apply Rle_trans with (1 := IH), Rmax_r.
Qed.

Lemma norm_inf_scale (c : R) (t : Tensor) :
  norm_inf (scale_tensor c t) = Rabs c * norm_inf t.
Proof.
  unfold norm_inf, scale_tensor. simpl.
  induction (t_data t) as [| x l IH]; simpl; [ring |].
  rewrite IH, Rabs_mult. apply RmaxRmult, Rabs_pos.
Qed.

Lemma exp_mult_nat (n : nat) (y : R) : exp (INR n * y) = exp y ^ n.
Proof.
  induction n as [| n IH].
  - simpl. rewrite Rmult_0_l. apply exp_0.
  - rewrite S_INR, Rmult_plus_distr_r, Rmult_1_l, exp_plus, IH.
    simpl. ring.
Qed.

Lemma exp_sum_ln (ns : list R) :
  Forall (fun n => 0 < n) ns -> exp (sum_R (map ln ns)) = prod_R ns.
Proof.
  induction 1 as [| n ns Hn _ IH]; simpl; [apply exp_0 |].
  rewrite exp_plus, exp_ln, IH by assumption. reflexivity.
Qed.

(** The value computed by [norms.log().mean().exp()] is the geometric
    mean: its power by the number of factors is their product. *)
Lemma geometric_mean_pow (ns : list R) :
  ns <> [] -> Forall (fun n => 0 < n) ns ->
  geometric_mean ns ^ length ns = prod_R ns.
Proof.
  intros Hne Hpos. unfold geometric_mean.
  rewrite <- exp_mult_nat, <- (exp_sum_ln ns Hpos). f_equal.
  field. apply not_0_INR. destruct ns; [congruence | discriminate].
Qed.

Lemma geometric_mean_pos (ns : list R) : 0 < geometric_mean ns.
Proof. apply exp_pos. Qed.

Section Rescale.
Variable g : R.
Hypothesis g_pos : 0 < g.

Let rescale (Q : list Tensor) : list Tensor :=
  zip_with (fun q c => scale_tensor c q) Q
    (map (fun n => g / n) (map norm_inf Q)).

Lemma rescale_cons (q : Tensor) (Q : list Tensor) :
  rescale (q :: Q) = scale_tensor (g / norm_inf q) q :: rescale Q.
Proof. reflexivity. Qed.

Lemma rescale_length (Q : list Tensor) : length (rescale Q) = length Q.
Proof.
  induction Q as [| q Q IH]; [reflexivity |].
  rewrite rescale_cons. simpl. rewrite IH. reflexivity.
Qed.

Lemma rescale_shapes (Q : list Tensor) :
  map t_shape (rescale Q) = map t_shape Q.
Proof.
  induction Q as [| q Q IH]; [reflexivity |].
  rewrite rescale_cons. simpl. rewrite IH. reflexivity.
Qed.

Lemma rescale_norms (Q : list Tensor) :
  Forall (fun q => 0 < norm_inf q) Q ->
  Forall (fun q' => norm_inf q' = g) (rescale Q).
Proof.
  induction 1 as [| q Q Hq _ IH]; [constructor |].
  rewrite rescale_cons. constructor; [| exact IH].
  rewrite norm_inf_scale, Rabs_right.
  - field. lra.
  - apply Rle_ge. left. apply Rdiv_lt_0_compat; assumption.
Qed.

Lemma rescale_prod_norms (Q : list Tensor) :
  Forall (fun q => 0 < norm_inf q) Q ->
  prod_R (map norm_inf (rescale Q)) = g ^ length Q.
Proof.
  intros Hpos. apply rescale_norms in Hpos.
  rewrite <- rescale_length.
  induction Hpos as [| q' Q' Hq' _ IH]; simpl; [reflexivity |].
  rewrite Hq', IH. reflexivity.
Qed.

Lemma outer_scale_l (c : R) (a b : list R) :
  outer (map (Rmult c) a) b = map (Rmult c) (outer a b).
Proof.
  unfold outer. induction a as [| x a IH]; simpl; [reflexivity |].
  rewrite IH, map_app, map_map. f_equal.
  apply map_ext. intros y. ring.
Qed.

Lemma outer_scale_r (c : R) (a b : list R) :
  outer a (map (Rmult c) b) = map (Rmult c) (outer a b).
Proof.
  unfold outer. induction a as [| x a IH]; simpl; [reflexivity |].
  rewrite IH, map_app, !map_map. f_equal.
  apply map_ext. intros y. ring.
Qed.

(** Rescaling multiplies the outer product of the factors by the
    product of the coefficients, [g ^ k / (n_1 * ... * n_k)]. *)
Lemma rescale_outer (Q : list Tensor) :
  Forall (fun q => 0 < norm_inf q) Q ->
  outer_all (map t_data (rescale Q))
    = map (Rmult (g ^ length Q / prod_R (map norm_inf Q)))
          (outer_all (map t_data Q)).
Proof.
  induction 1 as [| q Q Hq Hpos IH].
  - simpl. f_equal. field.
  - rewrite rescale_cons. simpl map. simpl outer_all.
    fold (outer_all (map t_data (rescale Q))).
    fold (outer_all (map t_data Q)).
    rewrite IH, outer_scale_l, outer_scale_r, map_map.
    apply map_ext. intros y. simpl.
    assert (prod_R (map norm_inf Q) <> 0).
    { clear IH. induction Hpos as [| q0 Q0 H0 _ IH0]; simpl; [lra |].
      apply Rmult_integral_contrapositive_currified; [lra | exact IH0]. }
    field. split; [assumption | lra].
Qed.
End Rescale.

Lemma psgd_balance_Q_eq (Q : list Tensor) :
  Q <> [] ->
  psgd_balance_Q Q
    = Ok (zip_with (fun q c => scale_tensor c q) Q
            (map (fun n => geometric_mean (map norm_inf Q) / n)
                 (map norm_inf Q))).
Proof. destruct Q; [congruence | reflexivity]. Qed.
End BalanceFacts.

Section BalanceClaims.
Import Ops Balance.
Open Scope R_scope.

(** C6: for a non-empty factor list whose infinity norms are all
    positive, [psgd_balance_Q] leaves every factor with infinity norm
    equal to the geometric mean of the original norms (the positive
    number whose power by the number of factors is their product); the
    product of the norms is unchanged; and the outer product of the
    factors, which carries the entries of their Kronecker product, is
    unchanged. *)
Theorem C6_balance_geometric_mean (Q : list Tensor) :
  Q <> [] ->
  Forall (fun q => 0 < norm_inf q) Q ->
  let gm := geometric_mean (map norm_inf Q) in
  exists Q',
    psgd_balance_Q Q = Ok Q' /\
    length Q' = length Q /\
    map t_shape Q' = map t_shape Q /\
    0 < gm /\
    gm ^ length Q = prod_R (map norm_inf Q) /\
    Forall (fun q' => norm_inf q' = gm) Q' /\
    prod_R (map norm_inf Q') = prod_R (map norm_inf Q) /\
    outer_all (map t_data Q') = outer_all (map t_data Q).
Proof.
  intros Hne Hpos gm.
  assert (Hns : Forall (fun n => 0 < n) (map norm_inf Q)).
  { apply Forall_map. exact Hpos. }
  assert (Hnne : map norm_inf Q <> [])
    by (destruct Q; [congruence | discriminate]).
  assert (Hpow : gm ^ length Q = prod_R (map norm_inf Q)).
  { rewrite <- (length_map norm_inf Q).
    apply geometric_mean_pow; assumption. }
  assert (Hgm : 0 < gm) by apply geometric_mean_pos.
  eexists. split; [apply psgd_balance_Q_eq; exact Hne |].
  fold gm.
  split; [apply rescale_length |].
  split; [apply rescale_shapes |].
  split; [exact Hgm |].
  split; [exact Hpow |].
  split; [apply rescale_norms; assumption |].
  split; [rewrite rescale_prod_norms by assumption; exact Hpow |].
  rewrite rescale_outer by assumption.
  rewrite Hpow.
  assert (Hnz : prod_R (map norm_inf Q) <> 0) by (rewrite <- Hpow; apply pow_nonzero; lra).
  rewrite <- (map_id (outer_all (map t_data Q))) at 2.
  apply map_ext. intros y. field. exact Hnz.
Qed.

Lemma Q_2_8_norms_pos : Forall (fun q => 0 < norm_inf q) Q_2_8.
Proof.
  repeat constructor; unfold norm_inf; simpl.
  - apply Rlt_le_trans with (Rabs 1); [rewrite Rabs_R1; lra | apply Rmax_l].
  - apply Rlt_le_trans with (Rabs 8);
      [rewrite Rabs_right; lra | apply Rmax_l].
Qed.

Lemma C6_balance_geometric_mean_witness :
  exists Q',
    psgd_balance_Q Q_2_8 = Ok Q' /\
    Forall (fun q' => norm_inf q' = geometric_mean (map norm_inf Q_2_8)) Q' /\
    prod_R (map norm_inf Q') = prod_R (map norm_inf Q_2_8) /\
    outer_all (map t_data Q') = outer_all (map t_data Q_2_8).
Proof.
  destruct (C6_balance_geometric_mean Q_2_8)
    as (Q' & Hrun & _ & _ & _ & _ & Hnorm & Hprod & Houter).
  - discriminate.
  - apply Q_2_8_norms_pos.
  - exists Q'. repeat split; assumption.
Defined.
End BalanceClaims.

(** ** [psgd_update_precond]: the update of one factor *)

Section PrecondFacts.
Import Ops Precond.
Context `{TorchLib}.
Open Scope R_scope.

Lemma correction_term1 (term1 term2 : Tensor) (step : R) :
  t_data (fst (correction term1 term2 step))
    = zip_with (fun a b => step * (2 * a - (a + b)))
               (t_data term1) (t_data term2).
Proof.
  unfold correction. simpl.
  generalize (t_data term2) as bs.
  induction (t_data term1) as [| a l IH]; intros bs; simpl.
  - destruct bs; reflexivity.
  - destruct bs as [| b bs]; [reflexivity |]. simpl.
    rewrite IH. f_equal. ring.
Qed.

Lemma correction_term2 (term1 term2 : Tensor) (step : R) :
  snd (correction term1 term2 step) = add term2 term1.
Proof. reflexivity. Qed.

Lemma correction_shape (term1 term2 : Tensor) (step : R) :
  t_shape (fst (correction term1 term2 step)) = t_shape term1.
Proof. reflexivity. Qed.

Lemma zip_with_nested (f : R -> R -> R) (qs cs : list R) :
  zip_with f qs (zip_with Rmult cs qs)
    = zip_with (fun q c => f q (c * q)) qs cs.
Proof.
  revert cs. induction qs as [| q qs IH]; intros cs; [reflexivity |].
  destruct cs as [| c cs]; [reflexivity |]. simpl. rewrite IH. reflexivity.
Qed.

(** A 0-D or 1-D factor: [q <- q - term1 * q / max(norm, tiny)], with
    [term1] the correction and [norm] the infinity norm of
    [term1 + term2]. *)
Lemma update_factor_diag (q term1 term2 : Tensor) (step tiny : R) :
  (ndim q < 2)%nat ->
  let corr := fst (correction term1 term2 step) in
  let norm := norm_inf (add term2 term1) in
  update_factor q term1 term2 step tiny
    = with_data q
        (zip_with (fun qx cx => qx - cx * qx / Rmax norm tiny)
                  (t_data q) (t_data corr)).
Proof.
  intros Hq corr norm. unfold update_factor.
  change (correction term1 term2 step)
    with (corr, snd (correction term1 term2 step)).
  cbv iota beta. rewrite correction_term2. fold norm.
  destruct (Nat.ltb_spec (ndim q) 2) as [_ | ?]; [| lia].
  unfold addcdiv_neg, mul, zip_R, with_data. simpl. f_equal.
  rewrite zip_with_nested.
  apply zip_with_ext; try reflexivity.
  intros qx cx. unfold Rdiv. ring.
Qed.

(** A factor of rank 2 or more: only the upper-triangular part of the
    correction is kept, it is divided by [max(lb, tiny)], and
    [q <- q - term1 @ q]. *)
Lemma update_factor_tri (q term1 term2 : Tensor) (step tiny : R) :
  (2 <= ndim q)%nat ->
  let corr := fst (correction term1 term2 step) in
  let sum := add term2 term1 in
  let norm := norm_inf sum in
  let lb := if Rlt_dec 0 norm then psgd_lb sum norm else norm in
  let T := div_scalar (triu corr) (Rmax lb tiny) in
  update_factor q term1 term2 step tiny
    = with_data q
        (zip_with (fun qx px => qx - px) (t_data q) (t_data (matmul T q))).
Proof.
  intros Hq corr sum norm lb T. unfold update_factor.
  change (correction term1 term2 step)
    with (corr, snd (correction term1 term2 step)).
  cbv iota beta. rewrite correction_term2. fold sum norm lb.
  destruct (Nat.ltb_spec (ndim q) 2) as [? | _]; [lia |].
  fold T. unfold addmm_neg, with_data. f_equal.
  apply zip_with_ext; try reflexivity.
  intros qx px. ring.
Qed.
End PrecondFacts.

(** ** The triangular update keeps the factor upper triangular *)

Section TriangularStructure.
Import Ops Precond.
Context `{TorchLib}.
Open Scope R_scope.

Lemma table_length (n m : nat) (f : nat -> nat -> R) :
  length (table n m f) = (n * m)%nat.
Proof.
  unfold table. apply length_flat_rows.
  intros i. rewrite length_map, length_seq. reflexivity.
Qed.

Lemma table_entry (n m : nat) (f : nat -> nat -> R) (i j : nat) :
  (i < n)%nat -> (j < m)%nat -> nth (i * m + j) (table n m f) 0 = f i j.
Proof.
  intros Hi Hj. unfold table.
  rewrite (nth_flat_rows (fun i => map (fun j => f i j) (seq 0 m)) m)
    by (try (intros; rewrite length_map, length_seq; reflexivity); lia).
  rewrite nth_map_seq by assumption. reflexivity.
Qed.

Lemma mk_mat_dims (dt : dtype) (n m : nat) (f : nat -> nat -> R) :
  nrows (mk_mat dt n m f) = n /\ ncols (mk_mat dt n m f) = m.
Proof. unfold nrows, ncols. simpl. split; apply Nat2Z.id. Qed.

Lemma get2_mk_mat (dt : dtype) (n m : nat) (f : nat -> nat -> R) (i j : nat) :
  (i < n)%nat -> (j < m)%nat -> get2 (mk_mat dt n m f) i j = f i j.
Proof.
  intros Hi Hj. unfold get2, mat_entry.
  destruct (mk_mat_dims dt n m f) as [_ ->].
  apply table_entry; assumption.
Qed.

Lemma square_dims (n : nat) (t : Tensor) :
  square n t -> nrows t = n /\ ncols t = n /\ ndim t = 2%nat.
Proof.
  intros [Hshape _]. unfold nrows, ncols, ndim. rewrite Hshape. simpl.
  repeat split; apply Nat2Z.id.
Qed.

Lemma sum_R_zero {A : Type} (f : A -> R) (l : list A) :
  (forall x, In x l -> f x = 0) -> sum_R (map f l) = 0.
Proof.
  induction l as [| x l IH]; intros Hall; simpl; [reflexivity |].
  rewrite (Hall x) by (left; reflexivity).
  rewrite IH by (intros y Hy; apply Hall; right; exact Hy). ring.
Qed.

Lemma nth_zip_with_R (f : R -> R -> R) (l k : list R) (i : nat) :
  (i < length l)%nat -> (i < length k)%nat ->
  nth i (zip_with f l k) 0 = f (nth i l 0) (nth i k 0).
Proof.
  revert k i. induction l as [| x l IH]; intros k i Hl Hk; simpl in Hl; [lia |].
  destruct k as [| y k]; simpl in Hk; [lia |].
  destruct i as [| i]; simpl; [reflexivity | apply IH; lia].
Qed.

(** The update of an [n] x [n] factor with an [n] x [n] contraction is
    an [n] x [n] matrix. *)
Lemma update_factor_square (n : nat) (q term1 term2 : Tensor)
    (step tiny : R) :
  square n q -> square n term1 ->
  square n (update_factor q term1 term2 step tiny).
Proof.
  intros Hq Ht1.
  destruct (square_dims n q Hq) as (Hr & Hc & Hnd).
  destruct (square_dims n term1 Ht1) as (Hr1 & Hc1 & _).
  rewrite update_factor_tri by lia.
  set (corr := fst (correction term1 term2 step)).
  set (d := Rmax _ tiny).
  set (T := div_scalar (triu corr) d).
  assert (HrT : nrows T = n).
  { unfold T, nrows, div_scalar, with_data, triu. simpl.
    rewrite !Nat2Z.id. unfold nrows, corr. rewrite correction_shape.
    exact Hr1. }
  assert (Hlen : length (t_data (matmul T q)) = (n * n)%nat).
  { unfold matmul. simpl. rewrite table_length, HrT, Hc. reflexivity. }
  destruct Hq as [Hshape Hdata]. split; [exact Hshape |].
  unfold with_data. cbn [t_data].
  rewrite length_zip_with, Hdata, Hlen. apply Nat.min_id.
Qed.

(** If [q] is an upper-triangular [n] x [n] matrix and the contraction
    [term1] is [n] x [n], the updated [q] is upper triangular again. *)
Lemma update_factor_upper_triangular (n : nat) (q term1 term2 : Tensor)
    (step tiny : R) :
  square n q -> square n term1 -> upper_triangular q ->
  square n (update_factor q term1 term2 step tiny) /\
  upper_triangular (update_factor q term1 term2 step tiny).
Proof.
  intros Hq Ht1 Hup.
  destruct (square_dims n q Hq) as (Hr & Hc & Hnd).
  destruct (square_dims n term1 Ht1) as (Hr1 & Hc1 & _).
  rewrite update_factor_tri by lia.
  set (corr := fst (correction term1 term2 step)).
  set (d := Rmax _ tiny).
  set (T := div_scalar (triu corr) d).
  assert (Hcorr : nrows corr = n /\ ncols corr = n).
  { unfold nrows, ncols, corr. rewrite correction_shape.
    split; assumption. }
  destruct Hcorr as [Hrc Hcc].
  assert (HT : nrows T = n /\ ncols T = n).
  { unfold T, nrows, ncols, div_scalar, with_data, triu. simpl.
    rewrite !Nat2Z.id. split; assumption. }
  destruct HT as [HrT HcT].
  assert (Hlen : length (t_data (matmul T q)) = (n * n)%nat).
  { unfold matmul. simpl. rewrite table_length, HrT, Hc. reflexivity. }
  assert (Hsq : square n
            (with_data q (zip_with (fun qx px => qx - px) (t_data q)
                            (t_data (matmul T q))))).
  { destruct Hq as [Hshape Hdata]. split; [exact Hshape |].
    unfold with_data. cbn [t_data].
    rewrite length_zip_with, Hdata, Hlen. apply Nat.min_id. }
  split; [exact Hsq |].
  intros i j Hi Hj.
  destruct (square_dims n _ Hsq) as (Hr' & Hc' & _).
  rewrite Hr' in Hi.
  unfold get2, mat_entry. rewrite Hc'. unfold with_data. cbn [t_data].
  destruct Hq as [Hshape Hdata].
  rewrite nth_zip_with_R by (rewrite ?Hdata, ?Hlen; nia).
  assert (Hqij : nth (i * n + j) (t_data q) 0 = 0).
  { specialize (Hup i j). unfold get2, mat_entry in Hup.
    rewrite Hr, Hc in Hup. apply Hup; lia. }
  assert (Hmm : nth (i * n + j) (t_data (matmul T q)) 0 = 0).
  { unfold matmul. simpl. rewrite HrT, Hc, HcT.
    rewrite table_entry by lia.
    apply sum_R_zero. intros l Hl. apply in_seq in Hl.
    destruct (Nat.lt_ge_cases l i) as [Hli | Hil].
    - assert (HT0 : get2 T i l = 0).
      { unfold get2, mat_entry, T, div_scalar, with_data, ncols. simpl.
        rewrite Nat2Z.id, Hcc.
        rewrite (nth_indep _ 0 (0 / d))
          by (rewrite length_map, table_length, Hrc; nia).
        rewrite (map_nth (fun x => x / d)), table_entry by lia.
        destruct (Nat.ltb_spec l i); [| lia]. unfold Rdiv. ring. }
      rewrite HT0. ring.
    - assert (Hq0 : get2 q l j = 0) by (apply Hup; lia).
      rewrite Hq0. ring. }
  rewrite Hqij, Hmm. ring.
Qed.

(** Entry [(r, c)] of the updated matrix factor: the correction enters
    only with its entries on and above the diagonal, each divided by the
    clamped bound, in the product with [q]. *)
Lemma update_factor_tri_entry (n : nat) (q term1 term2 : Tensor)
    (step tiny : R) (r c : nat) :
  square n q -> square n term1 -> square n term2 ->
  (r < n)%nat -> (c < n)%nat ->
  let sum := add term2 term1 in
  let norm := norm_inf sum in
  let lb := if Rlt_dec 0 norm then psgd_lb sum norm else norm in
  get2 (update_factor q term1 term2 step tiny) r c
    = get2 q r c
      - sum_R (map (fun l =>
                      (if (l <? r)%nat then 0
                       else step * (2 * get2 term1 r l
                                    - (get2 term1 r l + get2 term2 r l))
                            / Rmax lb tiny)
                      * get2 q l c)
                   (seq 0 n)).
Proof.
  intros Hq Ht1 Ht2 Hr Hc sum norm lb.
  destruct (square_dims n q Hq) as (Hrq & Hcq & Hnd).
  destruct (square_dims n term1 Ht1) as (Hr1 & Hc1 & _).
  destruct (square_dims n term2 Ht2) as (Hr2 & Hc2 & _).
  rewrite update_factor_tri by lia.
  fold sum norm lb.
  set (corr := fst (correction term1 term2 step)).
  set (d := Rmax lb tiny).
  set (T := div_scalar (triu corr) d).
  assert (Hcorr : nrows corr = n /\ ncols corr = n).
  { unfold nrows, ncols, corr. rewrite correction_shape.
    split; assumption. }
  destruct Hcorr as [Hrc Hcc].
  assert (HT : nrows T = n /\ ncols T = n).
  { unfold T, nrows, ncols, div_scalar, with_data, triu. simpl.
    rewrite !Nat2Z.id. split; assumption. }
  destruct HT as [HrT HcT].
  assert (Hlen : length (t_data (matmul T q)) = (n * n)%nat).
  { unfold matmul. simpl. rewrite table_length, HrT, Hcq. reflexivity. }
  destruct Hq as [Hshape Hdata].
  destruct Ht1 as [_ Hdata1]. destruct Ht2 as [_ Hdata2].
  assert (Hcw : ncols (with_data q
                         (zip_with (fun qx px => qx - px) (t_data q)
                            (t_data (matmul T q)))) = n).
  { unfold ncols, with_data. simpl. rewrite Hshape. simpl.
    apply Nat2Z.id. }
  unfold get2 at 1. unfold mat_entry at 1. rewrite Hcw.
  unfold with_data. cbn [t_data].
  rewrite nth_zip_with_R by (rewrite ?Hdata, ?Hlen; nia).
  apply (f_equal2 Rminus).
  - unfold get2, mat_entry. rewrite Hcq. reflexivity.
  - unfold matmul. simpl. rewrite HrT, Hcq, HcT.
    rewrite table_entry by lia.
    f_equal. apply map_ext_in. intros l Hl. apply in_seq in Hl.
    f_equal.
    unfold get2 at 1. unfold mat_entry, T, div_scalar, with_data, ncols.
    simpl. rewrite Nat2Z.id, Hcc.
    rewrite (nth_indep _ 0 (0 / d))
      by (rewrite length_map, table_length, Hrc; nia).
    rewrite (map_nth (fun x => x / d)), table_entry by lia.
    destruct (Nat.ltb_spec l r); [unfold Rdiv; ring |].
    f_equal. unfold get2, mat_entry. rewrite Hcc.
    fold (ncols term1) (ncols term2). rewrite Hc1, Hc2.
    unfold corr. rewrite correction_term1.
    apply nth_zip_with_R; rewrite ?Hdata1, ?Hdata2; nia.
Qed.

(** The bound that [psgd_lb] returns, step by step. *)
Lemma psgd_lb_steps (S : Tensor) (norm : R) :
  let An := div_scalar S norm in
  let aa := mul An An in
  let v0 :=
    max_with_index (map (fun c => sum_R (col aa c)) (seq 0 (ncols aa))) in
  let v1 :=
    max_with_index (map (fun r => sum_R (row aa r)) (seq 0 (nrows aa))) in
  let comp := if Rlt_dec (fst v1) (fst v0) then true else false in
  let x0 := if comp then col An (snd v0) else row An (snd v1) in
  let x1 := matmul_out_self x0 (if comp then An else transpose2 An) in
  let x2 := map (fun v => v / vector_norm x1) x1 in
  let x3 :=
    matmul_out_self x2
      (if comp then transpose2 An else transpose2 (transpose2 An)) in
  psgd_lb S norm = vector_norm x3 * norm.
Proof.
  intros An aa v0 v1 comp x0 x1 x2 x3.
  unfold psgd_lb. fold An aa.
  change (max_with_index
            (map (fun c => sum_R (col aa c)) (seq 0 (ncols aa)))) with v0.
  change (max_with_index
            (map (fun r => sum_R (row aa r)) (seq 0 (nrows aa)))) with v1.
  destruct v0 as [value0 i] eqn:Hv0. destruct v1 as [value1 j] eqn:Hv1.
  reflexivity.
Qed.
End TriangularStructure.

Section PrecondClaims.
Import Ops Precond.
Open Scope R_scope.
Context `{TorchLib}.

(** C7: in [psgd_update_precond], for every axis, with [term1] and
    [term2] the [exprGs] contractions of [A] and of [conjB], the
    correction has the entries [step * (2 * term1 - (term1 + term2))].
    A factor of rank below 2 becomes, entry by entry,
    [q - correction * q / max(norm, tiny)], [norm] being the largest
    absolute entry of [term1 + term2].  An [n] x [n] matrix factor
    becomes [q - T @ q], where [T] has the entries of the correction on
    and above the diagonal, zeros below it, all divided by
    [max(lb, tiny)]: the value the variable [term1] holds when [addmm_]
    runs; [lb] is [norm] when [norm] is zero and otherwise what [psgd_lb]
    computes, the norm of the vector its two products leave, times
    [norm].  An upper-triangular factor stays upper triangular. *)
Theorem C7_psgd_update_precond
    (Q : list Tensor) (exprs : InitQ.Exprs) (V G : Tensor) (step tiny : R)
    (i : nat) (q : Tensor) (exprG : string) :
  Q !! i = Some q ->
  InitQ.exprGs exprs !! i = Some exprG ->
  let A := fst (psgd_calc_A_and_conjB (InitQ.exprA exprs) G Q V) in
  let conjB := snd (psgd_calc_A_and_conjB (InitQ.exprA exprs) G Q V) in
  let term1 := einsum exprG [A; A] in
  let term2 := einsum exprG [conjB; conjB] in
  let norm := norm_inf (add term2 term1) in
  (* psgd_lb(term2, norm), the variable term2 holding term1 + term2 *)
  let An := div_scalar (add term2 term1) norm in
  let aa := mul An An in
  let v0 :=
    max_with_index (map (fun c => sum_R (col aa c)) (seq 0 (ncols aa))) in
  let v1 :=
    max_with_index (map (fun r => sum_R (row aa r)) (seq 0 (nrows aa))) in
  let comp := if Rlt_dec (fst v1) (fst v0) then true else false in
  let x0 := if comp then col An (snd v0) else row An (snd v1) in
  let x1 := matmul_out_self x0 (if comp then An else transpose2 An) in
  let x2 := map (fun v => v / vector_norm x1) x1 in
  let x3 :=
    matmul_out_self x2
      (if comp then transpose2 An else transpose2 (transpose2 An)) in
  let lb := if Rlt_dec 0 norm then vector_norm x3 * norm else norm in
  exists q',
    psgd_update_precond Q exprs V G step tiny !! i = Some q' /\
    t_dtype q' = t_dtype q /\ t_shape q' = t_shape q /\
    ((ndim q < 2)%nat ->
     length (t_data term1) = length (t_data q) ->
     length (t_data term2) = length (t_data q) ->
     length (t_data q') = length (t_data q) /\
     forall k : nat,
       (k < length (t_data q))%nat ->
       nth k (t_data q') 0
         = nth k (t_data q) 0
           - step * (2 * nth k (t_data term1) 0
                     - (nth k (t_data term1) 0 + nth k (t_data term2) 0))
             * nth k (t_data q) 0 / Rmax norm tiny) /\
    (forall n : nat,
       square n q -> square n term1 -> square n term2 ->
       square n q' /\
       (forall r c : nat,
          (r < n)%nat -> (c < n)%nat ->
          get2 q' r c
            = get2 q r c
              - sum_R (map (fun l =>
                              (if (l <? r)%nat then 0
                               else step * (2 * get2 term1 r l
                                            - (get2 term1 r l
                                               + get2 term2 r l))
                                    / Rmax lb tiny)
                              * get2 q l c)
                           (seq 0 n))) /\
       (upper_triangular q -> upper_triangular q')).
Proof.
  intros Hq HG A conjB term1 term2 norm An aa v0 v1 comp x0 x1 x2 x3 lb.
  exists (update_factor q term1 term2 step tiny).
  split; [| split; [| split; [| split]]].
  - unfold psgd_update_precond.
    rewrite (surjective_pairing (psgd_calc_A_and_conjB _ _ _ _)).
    fold A conjB.
    rewrite lookup_zip_with, Hq. simpl. rewrite HG. reflexivity.
  - unfold update_factor.
    destruct (correction term1 term2 step) as [c1 c2].
    destruct (ndim q <? 2)%nat; reflexivity.
  - unfold update_factor.
    destruct (correction term1 term2 step) as [c1 c2].
    destruct (ndim q <? 2)%nat; reflexivity.
  - intros Hd Hl1 Hl2. rewrite update_factor_diag by exact Hd.
    unfold with_data. cbn [t_data].
    assert (Hlc : length (t_data (fst (correction term1 term2 step)))
                  = length (t_data q)).
    { rewrite correction_term1, length_zip_with, Hl1, Hl2.
      apply Nat.min_id. }
    split; [rewrite length_zip_with, Hlc; apply Nat.min_id |].
    intros k Hk.
    rewrite nth_zip_with_R by (rewrite ?Hlc; exact Hk).
    rewrite correction_term1.
    rewrite nth_zip_with_R by (rewrite ?Hl1, ?Hl2; exact Hk).
    reflexivity.
  - intros n Hsq Ht1 Ht2.
    split; [apply update_factor_square; assumption |].
    split;
      [| intros Hup;
         apply (update_factor_upper_triangular n q term1 term2 step tiny
                  Hsq Ht1 Hup)].
    intros r c Hr Hc.
    rewrite (update_factor_tri_entry n q term1 term2 step tiny r c Hsq Ht1
               Ht2 Hr Hc).
    cbv zeta. fold norm.
    assert (Hlb : (if Rlt_dec 0 norm then psgd_lb (add term2 term1) norm
                   else norm) = lb).
    { unfold lb. destruct (Rlt_dec 0 norm); [| reflexivity].
      apply psgd_lb_steps. }
    rewrite Hlb. reflexivity.
Qed.
End PrecondClaims.

Section PrecondInstance.
Import Ops Precond Vec2.
Open Scope R_scope.

Lemma C7_psgd_update_precond_witness :
  exists q',
    psgd_update_precond Q2 exprs2 V2 G2 0.1 0.001 !! 0%nat = Some q' /\
    square 2 q' /\ get2 q' 1 0 = 0.
Proof.
  destruct (C7_psgd_update_precond Q2 exprs2 V2 G2 0.1 0.001 0%nat
              (mkTensor float32 [2; 2]%Z [2; 1; 0; 2]) "n,A->nA"
              eq_refl eq_refl)
    as (q' & Hrun & _ & _ & _ & Htri).
  destruct (Htri 2%nat) as (Hsq & _ & Hup).
  - split; reflexivity.
  - split; reflexivity.
  - split; reflexivity.
  - exists q'. split; [exact Hrun |]. split; [exact Hsq |].
    assert (Hup' : upper_triangular q').
    { apply Hup. intros r c Hr Hc. unfold nrows in Hr. simpl in Hr.
      assert (r = 1%nat /\ c = 0%nat) as [-> ->] by lia.
      reflexivity. }
    apply Hup'; [| lia].
    destruct Hsq as [Hshape _]. unfold nrows. rewrite Hshape.
    simpl. lia.
Defined.
End PrecondInstance.

(** ** [promote]: the identity test and the dtype test *)

Section PromoteClaims.
Import Py Promote.

Lemma alloc_fresh (o : obj) (h : heap) : h !! fst (alloc o h) = None.
Proof.
  unfold alloc. simpl. apply not_elem_of_dom. apply is_fresh.
Qed.

(** No live object is the tuple that the display has just built. *)
Lemma is_dtype_pair_false (x : loc) (h : heap) :
  is_Some (h !! x) -> is_dtype_pair x h = false.
Proof.
  intros Hlive. unfold is_dtype_pair, alloc.
  apply Pos.eqb_neq. intros ->.
  apply elem_of_dom in Hlive. exact (is_fresh (dom h) Hlive).
Qed.

(** On a tensor that is not half precision [promote] returns its
    argument and leaves the store as it is. *)
Lemma promote_alias (h : heap) (x : loc) (t : Tensor) :
  h !! x = Some (OTensor t) -> is_half (t_dtype t) = false ->
  promote x h = (h, Ok (PTensor x)).
Proof.
  intros Hx Hhalf. unfold promote.
  rewrite is_dtype_pair_false by (rewrite Hx; eauto).
  rewrite Hx, Hhalf. reflexivity.
Qed.

(** C9, as stated, fails for an input that is not a tensor: for the
    dtype object [torch.bfloat16], one of the two values the first test
    names, the test is false and [promote] does not return its argument
    but raises [AttributeError] at [x.dtype]. *)
Lemma C9_promote_dtype_counterexample :
  heap12 !! 3%positive = Some (ODtype bfloat16) /\
  is_dtype_pair 3%positive heap12 = false /\
  promote 3%positive heap12
    = (heap12, Err (AttributeError "object has no attribute 'dtype'")).
Proof. split; [reflexivity |]. split; reflexivity. Qed.

(** C9 (amended): for every live [x] the test [x is (torch.bfloat16,
    torch.float16)] is false, so [promote] never returns the dtype
    object.  On a tensor it returns a new float32 tensor [x.float()] when
    [x.dtype] is bfloat16 or float16, and [x] itself, with the store
    untouched, otherwise; on any other object it raises
    [AttributeError]. *)
Theorem C9_promote_identity_test (h : heap) (x : loc) (o : obj) :
  h !! x = Some o ->
  is_dtype_pair x h = false /\
  match o with
  | OTensor t =>
      if is_half (t_dtype t) then
        exists l,
          h !! l = None /\
          promote x h = (<[l := OTensor (to_float t)]> h, Ok (PTensor l))
      else promote x h = (h, Ok (PTensor x))
  | _ =>
      promote x h
        = (h, Err (AttributeError "object has no attribute 'dtype'"))
  end.
Proof.
  intros Hx.
  assert (Hfalse : is_dtype_pair x h = false)
    by (apply is_dtype_pair_false; rewrite Hx; eauto).
  split; [exact Hfalse |].
  unfold promote. rewrite Hfalse, Hx.
  destruct o as [t | d | items]; [| reflexivity | reflexivity].
  destruct (is_half (t_dtype t)); [| reflexivity].
  exists (fst (alloc (OTensor (to_float t)) h)).
  split; [apply alloc_fresh | reflexivity].
Qed.

Lemma C9_promote_identity_test_witness :
  is_dtype_pair 1%positive heap12 = false /\
  is_dtype_pair 2%positive heap12 = false /\
  (exists l, heap12 !! l = None /\
     promote 1%positive heap12
       = (<[l := OTensor (mkTensor float32 [2]%Z [1%R; 2%R])]> heap12,
          Ok (PTensor l))) /\
  promote 2%positive heap12 = (heap12, Ok (PTensor 2%positive)).
Proof.
  destruct (C9_promote_identity_test heap12 1%positive
              (OTensor (mkTensor bfloat16 [2]%Z [1%R; 2%R])) eq_refl)
    as (Hid1 & Hhalf).
  destruct (C9_promote_identity_test heap12 2%positive
              (OTensor (mkTensor float32 [2]%Z [3%R; 4%R])) eq_refl)
    as (Hid2 & Hfull).
  split; [exact Hid1 |]. split; [exact Hid2 |].
  split; [exact Hhalf | exact Hfull].
Defined.
End PromoteClaims.

(** ** The constructor *)

Section ConstructorFacts.
Import Kron.
Context `{NumpyLib}.
Open Scope Q_scope.

Lemma Qlt_bool_iff (x y : Q) : Qlt_bool x y = true <-> x < y.
Proof.
  unfold Qlt_bool. rewrite negb_true_iff.
  split.
  - intros Hb. apply Qnot_le_lt. intros Hle.
    apply Qle_bool_iff in Hle. congruence.
  - intros Hlt. destruct (Qle_bool y x) eqn:Hb; [| reflexivity].
    apply Qle_bool_iff in Hb. exfalso. exact (Qlt_not_le _ _ Hlt Hb).
Qed.

(** An unknown policy string makes the synthesis raise, on any tensor
    with at least one and at most 13 axes. *)
Lemma bad_mode_rejected (mode : option string) (max_size min_ndim : Z) :
  ~ valid_mode mode ->
  forall (t : Tensor) (scale : R) (dtype_arg : option dtype),
    (1 <= length (t_shape t) <= 13)%nat ->
    InitQ.init_Q_exprs t scale max_size min_ndim mode dtype_arg
      = Err (ValueError "Invalid memory_save_mode").
Proof.
  intros Hbad t scale dtype_arg Hrank.
  destruct mode as [m |]; [| exfalso; apply Hbad; left; reflexivity].
  apply init_Q_exprs_bad_mode; [lia |].
  apply dim_diag_of_invalid.
  - intros ->. apply Hbad. right. left. reflexivity.
  - intros ->. apply Hbad. right. right. reflexivity.
Qed.

(** The call of line 66 cannot bind its three arguments. *)
Lemma base_call_raises `{BaseConstructor} (g : Group) :
  PSGDBase__init__ [ArgParams; ArgDefaults g; ArgForeach]
    = Err (TypeError
             "PSGDBase.__init__() takes 3 positional arguments but 4 were given").
Proof. reflexivity. Qed.
End ConstructorFacts.

(** ** The loop that collects the state: first sight of a parameter *)

Section GatherFacts.
Import Py Promote Kron Step.
Context {packed : Type} `{NumpyLib} `{TorchLib} `{Rng}
        `{Collaborators packed}.

Lemma bind_Ok_inv {S A B : Type} (m : M S A) (k : A -> M S B)
    (s s' : S) (b : B) :
  bind m k s = (s', Ok b) ->
  exists a s1, m s = (s1, Ok a) /\ k a s1 = (s', Ok b).
Proof.
  unfold bind. destruct (m s) as [s1 [a | e]]; [eauto | discriminate].
Qed.

Lemma bind_Ok {S A B : Type} (m : M S A) (k : A -> M S B)
    (s s1 : S) (a : A) :
  m s = (s1, Ok a) -> bind m k s = k a s1.
Proof. unfold bind. intros ->. reflexivity. Qed.

Lemma bind_Err {S A B : Type} (m : M S A) (k : A -> M S B)
    (s s1 : S) (e : exn) :
  m s = (s1, Err e) -> bind m k s = (s1, Err e).
Proof. unfold bind. intros ->. reflexivity. Qed.

Lemma read_tensor_at (w : World packed) (l : loc) (t : Tensor) :
  tensor_at w l t -> read l w = (w, Ok t).
Proof. unfold tensor_at, read. intros ->. reflexivity. Qed.

Lemma init_state_raises (key : loc * list Z) (p g : loc) (pt gt : Tensor)
    (scale : R) (max_size min_ndim : Z) (mode : option string)
    (line : bool) (q_dtype : dtype) (w : World packed) (e : exn) :
  tensor_at w p pt -> tensor_at w g gt ->
  InitQ.init_Q_exprs pt scale max_size min_ndim mode (Some q_dtype) = Err e ->
  let ea := fst (alloc (OTensor (zeros_like gt)) (w_heap w)) in
  init_state key p g scale max_size min_ndim mode line q_dtype w
    = (mkWorld (<[ea := OTensor (zeros_like gt)]> (w_heap w))
         (<[key := <["exp_avg" := SVTensor ea]> (state_dict key w)]>
            (w_state w))
         (w_group w) (w_prob_step w) (w_rng w),
       Err e).
Proof.
  intros Hp Hg Hinit ea.
  assert (Hea : w_heap w !! ea = None) by apply alloc_fresh.
  unfold init_state.
  rewrite (bind_Ok _ _ _ _ _ (read_tensor_at _ _ _ Hg)).
  set (w1 := set_heap (<[ea := OTensor (zeros_like gt)]> (w_heap w)) w).
  assert (Hnew : new_tensor (zeros_like gt) w = (w1, Ok ea))
    by reflexivity.
  rewrite (bind_Ok _ _ _ _ _ Hnew).
  set (w2 := set_state
               (<[key := <["exp_avg" := SVTensor ea]> (state_dict key w1)]>
                  (w_state w1)) w1).
  assert (Hset : setitem key "exp_avg" (SVTensor ea) w1 = (w2, Ok tt))
    by reflexivity.
  rewrite (bind_Ok _ _ _ _ _ Hset).
  assert (Hp2 : tensor_at w2 p pt).
  { unfold tensor_at, w2, w1. simpl.
    rewrite lookup_insert_ne; [exact Hp |].
    intros ->. unfold tensor_at in Hp. congruence. }
  rewrite (bind_Ok _ _ _ _ _ (read_tensor_at _ _ _ Hp2)).
  apply bind_Err. unfold lift. rewrite Hinit. reflexivity.
Qed.

(** What [gather] leaves behind when the synthesis raises on a
    parameter that has no state yet: the state dictionary of the
    parameter holds the new momentum buffer and nothing else. *)
Lemma gather_first_sight_raises (grp : Group) (q_dtype : dtype)
    (p g : loc) (pt gt : Tensor) (w : World packed) (e : exn) :
  tensor_at w p pt -> tensor_at w g gt ->
  w_state w !! (p, t_shape pt) = None ->
  InitQ.init_Q_exprs pt (g_precond_init_scale grp)
    (g_max_size_triangular grp) (g_min_ndim_triangular grp)
    (g_memory_save_mode grp) (Some q_dtype) = Err e ->
  let ea := fst (alloc (OTensor (zeros_like gt)) (w_heap w)) in
  gather grp q_dtype (p, g) w
    = (mkWorld (<[ea := OTensor (zeros_like gt)]> (w_heap w))
         (<[(p, t_shape pt) := {["exp_avg" := SVTensor ea]}]> (w_state w))
         (w_group w) (w_prob_step w) (w_rng w),
       Err e).
Proof.
  intros Hp Hg Hnew Hinit ea.
  set (key := (p, t_shape pt)).
  set (w1 := set_state (<[key := ∅]> (w_state w)) w).
  assert (Hstate : state_ p w = (w1, Ok key)).
  { unfold state_. rewrite (bind_Ok _ _ _ _ _ (read_tensor_at _ _ _ Hp)).
    unfold bind, modify, ret. rewrite Hnew. reflexivity. }
  unfold gather. rewrite (bind_Ok _ _ _ _ _ Hstate).
  rewrite (bind_Ok _ _ _ _ _ (eq_refl : get w1 = (w1, Ok w1))).
  assert (Hfresh : state_dict key w1 = ∅).
  { unfold state_dict, w1. simpl. rewrite lookup_insert_eq. reflexivity. }
  rewrite Hfresh, lookup_empty.
  rewrite bool_decide_eq_false_2 by (intros [? ?]; discriminate).
  erewrite bind_Err;
    [| apply (init_state_raises key p g pt gt); eassumption].
  f_equal. fold ea. simpl. f_equal.
  fold w1. rewrite Hfresh. unfold w1. simpl.
  rewrite insert_insert_eq. reflexivity.
Qed.
End GatherFacts.

Section ConstructorChecks.
Import Py Promote Kron Step.
Context {packed : Type} `{NumpyLib} `{TorchLib} `{Rng}
        `{Collaborators packed}.
Context `{BaseConstructor}.

(** C3 (amended): the constructor raises a [ValueError] exactly when the
    learning rate is negative, beta is outside [0, 1) or the weight decay
    is negative, with the message of the first check that fails; it does
    not look at the memory-save policy.  A policy outside None,
    'one_diag', 'all_diag' is refused by the [ValueError] of
    [init_Q_exprs]: the loop of [_step] raises it for a tensor of rank 1
    to 13 that has no state yet, and for a tensor of rank 0 the synthesis
    returns whatever the policy. *)
Theorem C3_constructor_checks (a : Args) :
  ((~ 0 <= lr a)%Q ->
   __init__ a = Err (ValueError "Invalid learning rate")) /\
  ((0 <= lr a)%Q -> (~ (0 <= beta a /\ beta a < 1))%Q ->
   __init__ a = Err (ValueError "Invalid beta parameter")) /\
  ((0 <= lr a)%Q -> (0 <= beta a /\ beta a < 1)%Q ->
   (~ 0 <= weight_decay a)%Q ->
   __init__ a = Err (ValueError "Invalid weight_decay value")) /\
  (is_ValueError (__init__ a) = true <->
     (~ 0 <= lr a \/ ~ (0 <= beta a /\ beta a < 1) \/ ~ 0 <= weight_decay a)%Q)
  /\
  (~ valid_mode (memory_save_mode a) ->
   forall (q_dtype : dtype) (p g : loc) (pt gt : Tensor) (w : World packed),
     tensor_at w p pt -> tensor_at w g gt ->
     w_state w !! (p, t_shape pt) = None ->
     (ndim pt = 0%nat ->
      is_Ok (InitQ.init_Q_exprs pt 1 (max_size_triangular a)
               (min_ndim_triangular a) (memory_save_mode a) (Some q_dtype))
        = true) /\
     ((1 <= ndim pt <= 13)%nat ->
      exists w',
        gather (defaults_of a) q_dtype (p, g) w
          = (w', Err (ValueError "Invalid memory_save_mode")))).
Proof.
  assert (Hpolicy :
    ~ valid_mode (memory_save_mode a) ->
    forall (q_dtype : dtype) (p g : loc) (pt gt : Tensor) (w : World packed),
      tensor_at w p pt -> tensor_at w g gt ->
      w_state w !! (p, t_shape pt) = None ->
      (ndim pt = 0%nat ->
       is_Ok (InitQ.init_Q_exprs pt 1 (max_size_triangular a)
                (min_ndim_triangular a) (memory_save_mode a) (Some q_dtype))
         = true) /\
      ((1 <= ndim pt <= 13)%nat ->
       exists w',
         gather (defaults_of a) q_dtype (p, g) w
           = (w', Err (ValueError "Invalid memory_save_mode")))).
  { intros Hbad q_dtype p g pt gt w Hp Hg Hnew. split.
    - intros Hz. rewrite init_Q_exprs_scalar by exact Hz. reflexivity.
    - intros Hrank. eexists.
      apply (gather_first_sight_raises (defaults_of a) q_dtype p g pt gt w);
        try assumption.
      simpl. apply bad_mode_rejected; assumption. }
  unfold __init__. rewrite base_call_raises.
  destruct (Qle_bool 0 (lr a)) eqn:Hlr; simpl.
  2:{ assert (Hn : (~ 0 <= lr a)%Q)
        by (intros Hle; apply Qle_bool_iff in Hle; congruence).
      split; [reflexivity |].
      split; [intros Hle; contradiction |].
      split; [intros Hle; contradiction |].
      split; [| exact Hpolicy].
      split; [intros _; left; exact Hn | reflexivity]. }
  apply Qle_bool_iff in Hlr.
  destruct (Qle_bool 0 (beta a)) eqn:Hb0; simpl.
  2:{ assert (Hn : (~ (0 <= beta a /\ beta a < 1))%Q)
        by (intros [Hle _]; apply Qle_bool_iff in Hle; congruence).
      split; [intros Hle; contradiction |].
      split; [reflexivity |].
      split; [intros _ Hb; contradiction |].
      split; [| exact Hpolicy].
      split; [intros _; right; left; exact Hn | reflexivity]. }
  destruct (Qlt_bool (beta a) 1) eqn:Hb1; simpl.
  2:{ assert (Hn : (~ (0 <= beta a /\ beta a < 1))%Q)
        by (intros [_ Hlt]; apply Qlt_bool_iff in Hlt; congruence).
      split; [intros Hle; contradiction |].
      split; [reflexivity |].
      split; [intros _ Hb; contradiction |].
      split; [| exact Hpolicy].
      split; [intros _; right; left; exact Hn | reflexivity]. }
  apply Qle_bool_iff in Hb0. apply Qlt_bool_iff in Hb1.
  destruct (Qle_bool 0 (weight_decay a)) eqn:Hwd; simpl.
  2:{ assert (Hn : (~ 0 <= weight_decay a)%Q)
        by (intros Hle; apply Qle_bool_iff in Hle; congruence).
      split; [intros Hle; contradiction |].
      split; [intros _ Hb; exfalso; apply Hb; split; assumption |].
      split; [reflexivity |].
      split; [| exact Hpolicy].
      split; [intros _; right; right; exact Hn | reflexivity]. }
  apply Qle_bool_iff in Hwd.
  split; [intros Hle; contradiction |].
  split; [intros _ Hb; exfalso; apply Hb; split; assumption |].
  split; [intros _ _ Hw; contradiction |].
  split; [| exact Hpolicy].
  split; [discriminate |].
  intros [Hn | [Hn | Hn]]; exfalso; apply Hn; auto.
Qed.
End ConstructorChecks.

Section ConstructorInstance.
Import Py Promote Kron Step.
Import Rank1 Reference StableSort.

(** C3, as stated, fails for the memory-save policy: with the unknown
    policy string "bogus" the constructor raises no [ValueError], and
    what it does is what it does with the default arguments: the policy
    is not examined. *)
Lemma C3_bad_policy_not_examined_counterexample :
  ~ valid_mode (memory_save_mode bad_policy_args) /\
  is_ValueError (__init__ bad_policy_args) = false /\
  match __init__ bad_policy_args, __init__ default_args with
  | Err e, Err e' => e = e'
  | _, _ => False
  end.
Proof.
  split; [| split; reflexivity].
  intros [Hm | [Hm | Hm]]; discriminate Hm.
Qed.

Lemma C3_constructor_checks_witness :
  __init__ negative_lr_args = Err (ValueError "Invalid learning rate") /\
  is_ValueError (__init__ bad_policy_args) = false /\
  exists w' : World (list loc),
    gather (defaults_of bad_policy_args) float32 (1%positive, 2%positive)
      world_bad
      = (w', Err (ValueError "Invalid memory_save_mode")).
Proof.
  destruct (C3_constructor_checks (packed := list loc) negative_lr_args)
    as (Hneg & _).
  destruct (C3_constructor_checks (packed := list loc) bad_policy_args)
    as (_ & _ & _ & Hiff & Hpol).
  split; [| split].
  - apply Hneg. intros Hle. apply Qle_bool_iff in Hle. discriminate Hle.
  - apply not_true_is_false. intros Hv. apply Hiff in Hv.
    destruct Hv as [Hn | [Hn | Hn]]; apply Hn.
    + apply Qle_bool_iff. reflexivity.
    + split; [apply Qle_bool_iff | apply Qlt_bool_iff]; reflexivity.
    + apply Qle_bool_iff. reflexivity.
  - destruct (Hpol ltac:(intros [Hm | [Hm | Hm]]; discriminate Hm)
                float32 1%positive 2%positive
                (mkTensor float32 [2]%Z [0%R; 0%R])
                (mkTensor float32 [2]%Z [2%R; 4%R]) world_bad
                eq_refl eq_refl eq_refl) as [_ Hrank].
    apply Hrank. unfold ndim. simpl. lia.
Defined.
End ConstructorInstance.

Section RankTooLargeClaims.
Import Py Promote Kron Step.
Context {packed : Type} `{NumpyLib} `{TorchLib} `{Rng}
        `{Collaborators packed}.

(** C4 (amended): when the loop of [_step] that collects the state
    receives a pair [(p, g)] whose [p] has more than 13 axes and no state
    yet, it raises the [ValueError] of [init_Q_exprs].  At that point the
    momentum buffer has been allocated (a new tensor of zeros shaped like
    the gradient) and stored under ["exp_avg"]; the state dictionary of
    [p] holds nothing else: no ["Q"], ["exprs"], ["Q_cache"] or
    ["cache_expr"]; no tensor that was in the store has changed. *)
Theorem C4_rank_too_large_after_momentum (grp : Group) (q_dtype : dtype)
    (p g : loc) (pt gt : Tensor) (w : World packed) :
  tensor_at w p pt -> tensor_at w g gt ->
  w_state w !! (p, t_shape pt) = None ->
  (13 < ndim pt)%nat ->
  exists (w' : World packed) (ea : loc),
    gather grp q_dtype (p, g) w
      = (w', Err (ValueError "Einstein runs out of letters!")) /\
    w_heap w !! ea = None /\
    tensor_at w' ea (zeros_like gt) /\
    (forall l, l <> ea -> w_heap w' !! l = w_heap w !! l) /\
    w_state w' !! (p, t_shape pt) = Some {["exp_avg" := SVTensor ea]} /\
    state_dict (p, t_shape pt) w' !! "exp_avg" = Some (SVTensor ea) /\
    state_dict (p, t_shape pt) w' !! "Q" = None /\
    state_dict (p, t_shape pt) w' !! "exprs" = None /\
    state_dict (p, t_shape pt) w' !! "Q_cache" = None /\
    state_dict (p, t_shape pt) w' !! "cache_expr" = None.
Proof.
  intros Hp Hg Hnew Hrank.
  eexists. exists (fst (alloc (OTensor (zeros_like gt)) (w_heap w))). split.
  - apply (gather_first_sight_raises grp q_dtype p g pt gt w);
      try assumption.
    apply init_Q_exprs_rank_too_large. exact Hrank.
  - split; [apply alloc_fresh |].
    split; [unfold tensor_at; simpl; apply lookup_insert_eq |].
    split.
    { intros l Hl. cbn [w_heap]. apply lookup_insert_ne.
      intros Heq. apply Hl. symmetry. exact Heq. }
    unfold state_dict. simpl. rewrite lookup_insert_eq. simpl.
    split; [reflexivity |].
    split; [apply lookup_insert_eq |].
    repeat split; apply lookup_singleton_ne; discriminate.
Qed.
End RankTooLargeClaims.

Section RankTooLargeInstance.
Import Py Promote Kron Step.
Import Rank1 Reference StableSort.

(** C4, as stated, fails: when the loop meets the 14-axis parameter of
    [world14] it raises, but the state dictionary of the parameter
    already holds the momentum buffer ["exp_avg"], a tensor that did not
    exist before the step. *)
Lemma C4_momentum_buffer_allocated_counterexample :
  exists (w' : World (list loc)) (ea : loc),
    gather (defaults_of default_args) float32 (1%positive, 2%positive)
      Reference.world14
      = (w', Err (ValueError "Einstein runs out of letters!")) /\
    w_heap Reference.world14 !! ea = None /\
    state_dict (1%positive, Reference.shape14) w' !! "exp_avg"
      = Some (SVTensor ea) /\
    tensor_at w' ea (mkTensor float32 Reference.shape14 [0%R]).
Proof.
  eexists.
  exists (fst (alloc (OTensor (zeros_like (mkTensor float32 Reference.shape14
                                             [1%R])))
                 (w_heap Reference.world14))).
  split.
  - apply (gather_first_sight_raises (defaults_of default_args) float32
             1%positive 2%positive
             (mkTensor float32 Reference.shape14 [0%R])
             (mkTensor float32 Reference.shape14 [1%R])
             Reference.world14);
      reflexivity.
  - split; [apply alloc_fresh |]. split.
    + unfold state_dict.
      cbn [w_state]. rewrite lookup_insert_eq. reflexivity.
    + unfold tensor_at. cbn [w_heap]. apply lookup_insert_eq.
Qed.

(** With [merge_dims=True] the loop does not receive the parameter but
    [dim_merger] of it: the 14 axes of size 1 are merged into one. *)
Lemma rank_14_merged :
  DimMerger.dim_merger (mkTensor float32 Reference.shape14 [0%R]) 2048
    = Ok (mkTensor float32 [1]%Z [0%R]).
Proof. reflexivity. Qed.

Lemma C4_rank_too_large_after_momentum_witness :
  exists (w' : World (list loc)) (ea : loc),
    gather (defaults_of default_args) float32 (1%positive, 2%positive)
      Reference.world14
      = (w', Err (ValueError "Einstein runs out of letters!")) /\
    w_state w' !! (1%positive, Reference.shape14)
      = Some {["exp_avg" := SVTensor ea]} /\
    state_dict (1%positive, Reference.shape14) w' !! "Q" = None.
Proof.
  destruct (C4_rank_too_large_after_momentum (defaults_of default_args)
              float32 1%positive 2%positive
              (mkTensor float32 Reference.shape14 [0%R])
              (mkTensor float32 Reference.shape14 [1%R])
              Reference.world14)
    as (w' & ea & Hrun & _ & _ & _ & Hst & _ & HQ & _).
  - reflexivity.
  - reflexivity.
  - reflexivity.
  - unfold ndim. simpl. lia.
  - exists w', ea. split; [exact Hrun |]. split; [exact Hst | exact HQ].
Defined.
End RankTooLargeInstance.

(** ** One round of the loop over the parameters *)

Section StepParamFacts.
Import Py Promote Kron Step.
Context {packed : Type} `{NumpyLib} `{TorchLib} `{Rng}
        `{Collaborators packed}.

Lemma mapM_read_inv (ls : list loc) :
  forall (w w1 : World packed) (ts : list Tensor),
    mapM read ls w = (w1, Ok ts) ->
    w1 = w /\ Forall2 (tensor_at w) ls ts.
Proof.
  induction ls as [| l ls IH]; intros w w1 ts Hrun; simpl in Hrun.
  - injection Hrun as <- <-. split; [reflexivity | constructor].
  - apply bind_Ok_inv in Hrun as (t & w2 & Hread & Hrun).
    apply bind_Ok_inv in Hrun as (ts' & w3 & Hrest & Hret).
    injection Hret as <- <-.
    unfold read in Hread.
    destruct (w_heap w !! l) as [[t0 | ? | ?] |] eqn:Hl; try discriminate.
    injection Hread as <- <-.
    apply IH in Hrest as [-> Hall].
    split; [reflexivity |]. constructor; assumption.
Qed.

(** The contraction reads the store as it is on entry and changes
    nothing. *)
Lemma cache_apply_inv (p : loc) (cached_q : list loc) (ea : loc)
    (w w1 : World packed) (new : Tensor) :
  cache_apply p cached_q ea w = (w1, Ok new) ->
  w1 = w /\
  exists (pt : Tensor) (e : string) (operands : list Tensor),
    tensor_at w p pt /\
    state_dict (p, t_shape pt) w !! "cache_expr" = Some (SVStr e) /\
    Forall2 (tensor_at w) (cached_q ++ [ea]) operands /\
    new = einsum e operands.
Proof.
  unfold cache_apply. intros Hrun.
  apply bind_Ok_inv in Hrun as (key & w2 & Hstate & Hrun).
  apply bind_Ok_inv in Hrun as (v & w3 & Hget & Hrun).
  apply bind_Ok_inv in Hrun as (e & w4 & Hstr & Hrun).
  apply bind_Ok_inv in Hrun as (ops & w5 & Hread & Hret).
  injection Hret as <- <-.
  apply mapM_read_inv in Hread as [-> Hops].
  destruct v; try discriminate. injection Hstr as <- <-.
  unfold getitem in Hget.
  destruct (state_dict key w2 !! "cache_expr") as [v |] eqn:Hv;
    [| discriminate].
  injection Hget as <- ->.
  unfold state_ in Hstate.
  apply bind_Ok_inv in Hstate as (pt & w6 & Hp & Hstate).
  unfold read in Hp.
  destruct (w_heap w !! p) as [[pt0 | ? | ?] |] eqn:Hpt; try discriminate.
  injection Hp as <- <-.
  unfold bind, modify, ret in Hstate.
  destruct (w_state w !! (p, t_shape pt0)) as [d |] eqn:Hd.
  - injection Hstate as <- <-.
    split; [reflexivity |]. exists pt0, s, ops. auto.
  - injection Hstate as <- <-.
    unfold state_dict in Hv. simpl in Hv.
    rewrite lookup_insert_eq in Hv. simpl in Hv.
    rewrite lookup_empty in Hv. discriminate.
Qed.

(** With factors that are not half precision (the default [q_dtype] is
    float32) [promote] hands back the factors themselves. *)
Lemma promote_float32_alias (q : list loc) (w : World packed) :
  Forall (fun l => exists t, tensor_at w l t /\ is_half (t_dtype t) = false)
         q ->
  mapM promote_w q w = (w, Ok (map PTensor q)).
Proof.
  induction 1 as [| l q (t & Hl & Hhalf) _ IH]; [reflexivity |].
  simpl.
  assert (Hone : promote_w l w = (w, Ok (PTensor l))).
  { unfold promote_w.
    rewrite (promote_alias (w_heap w) l t Hl Hhalf).
    destruct w; reflexivity. }
  rewrite (bind_Ok _ _ _ _ _ Hone), (bind_Ok _ _ _ _ _ IH). reflexivity.
Qed.

(** The call of line 134 passes two arguments to a method with three
    parameters. *)
Lemma balance_call_raises (a b : call_arg) (w : World packed) :
  balance [a; b] w
    = (w, Err (TypeError
                 "PSGDBase.balance() missing 1 required positional argument: 'Q_list'")).
Proof. reflexivity. Qed.
End StepParamFacts.

Section StepParamClaims.
Import Py Promote Kron Step.
Context {packed : Type} `{NumpyLib} `{TorchLib} `{Rng}
        `{Collaborators packed}.

(** C5: one round of the loop over the parameters, for a parameter whose
    cache contraction [new = einsum(cache_expr, *cached_q, ea)] is
    computed, which reads the store as it is on entry and changes
    nothing.  Without a refresh the round ends with [set_(g, new)] and
    writes nothing else.  With a refresh, once the factors are unpacked
    and promoted, the call [self.balance([g], [q32])] raises [TypeError]:
    the round ends there, in the store that unpacking and promoting have
    left, before [do_update], before any cache entry is recomputed and
    before [set_(g, new)]; with [store_triu_as_line=False] and factors
    that are not half precision this store is the one on entry. *)
Theorem C5_refresh_raises
    (grp : Group) (v : Val) (w w1 : World packed) (new : Tensor) :
  cache_apply (v_p v) (v_Q_cache v) (v_exp_avg v) w = (w1, Ok new) ->
  w1 = w /\
  (exists (pt : Tensor) (e : string) (operands : list Tensor),
     tensor_at w (v_p v) pt /\
     state_dict (v_p v, t_shape pt) w !! "cache_expr" = Some (SVStr e) /\
     Forall2 (tensor_at w) (v_Q_cache v ++ [v_exp_avg v]) operands /\
     new = einsum e operands) /\
  (forall gt : Tensor,
     tensor_at w (v_g v) gt ->
     step_param grp false v w
       = (set_heap (<[v_g v := OTensor (set_value gt new)]> (w_heap w)) w,
          Ok tt)) /\
  (forall (w2 w3 : World packed) (q : list loc) (q32 : list pyval),
     unpack_Q grp v w = (w2, Ok q) ->
     mapM promote_w q w2 = (w3, Ok q32) ->
     step_param grp true v w
       = (w3, Err (TypeError
                     "PSGDBase.balance() missing 1 required positional argument: 'Q_list'")))
  /\
  (forall q : list loc,
     g_store_triu_as_line grp = false ->
     v_Q v = SVTensors q ->
     Forall (fun l => exists t, tensor_at w l t /\ is_half (t_dtype t) = false)
            q ->
     step_param grp true v w
       = (w, Err (TypeError
                    "PSGDBase.balance() missing 1 required positional argument: 'Q_list'"))).
Proof.
  intros Happly.
  destruct (cache_apply_inv _ _ _ _ _ _ Happly) as (-> & Hnew).
  split; [reflexivity |]. split; [exact Hnew |].
  assert (Hrefresh :
    forall (w2 w3 : World packed) (q : list loc) (q32 : list pyval),
      unpack_Q grp v w = (w2, Ok q) ->
      mapM promote_w q w2 = (w3, Ok q32) ->
      step_param grp true v w
        = (w3, Err (TypeError
                      "PSGDBase.balance() missing 1 required positional argument: 'Q_list'"))).
  { intros w2 w3 q q32 Hq Hq32. unfold step_param.
    rewrite (bind_Ok _ _ _ _ _ Happly).
    apply bind_Err. apply bind_Err. unfold refresh_Q.
    rewrite (bind_Ok _ _ _ _ _ Hq), (bind_Ok _ _ _ _ _ Hq32).
    apply bind_Err. apply balance_call_raises. }
  split; [| split; [exact Hrefresh |]].
  - intros gt Hgt. unfold step_param.
    rewrite (bind_Ok _ _ _ _ _ Happly).
    rewrite (bind_Ok _ _ w w tt eq_refl).
    unfold set_. rewrite (bind_Ok _ _ _ _ _ (read_tensor_at _ _ _ Hgt)).
    reflexivity.
  - intros q Hline HQ Hfull.
    apply (Hrefresh w w q (map PTensor q)).
    + unfold unpack_Q. rewrite Hline, HQ. reflexivity.
    + apply promote_float32_alias. exact Hfull.
Qed.
End StepParamClaims.

Section StepParamInstance.
Import Py Promote Kron Step.
Import Rank1 Reference World1 StableSort.
Open Scope R_scope.

(** On [world1_list], whose factor is kept as a list, and on [world1],
    whose factor is kept packed, a round with a refresh raises and
    leaves the store as it was: the gradient at location 2, the factor at
    4 and the cache entry at 5 hold what they held. *)
Lemma C5_refresh_raises_witness :
  cache_apply 1%positive [5%positive] 3%positive world1_list
    = (world1_list, Ok (mkTensor float32 [2]%Z [1 * 2; 1 * 4])) /\
  step_param (defaults_of unpacked_args) true val1_list world1_list
    = (world1_list,
       Err (TypeError
              "PSGDBase.balance() missing 1 required positional argument: 'Q_list'"))
  /\
  step_param (defaults_of default_args) true val1 world1
    = (world1,
       Err (TypeError
              "PSGDBase.balance() missing 1 required positional argument: 'Q_list'")).
Proof.
  assert (Happly :
    cache_apply (v_p val1_list) (v_Q_cache val1_list) (v_exp_avg val1_list)
      world1_list
      = (world1_list, Ok (mkTensor float32 [2]%Z [1 * 2; 1 * 4])))
    by reflexivity.
  assert (Happly1 :
    cache_apply (v_p val1) (v_Q_cache val1) (v_exp_avg val1) world1
      = (world1, Ok (mkTensor float32 [2]%Z [1 * 2; 1 * 4])))
    by reflexivity.
  split; [exact Happly |]. split.
  - destruct (C5_refresh_raises (defaults_of unpacked_args) val1_list
                world1_list world1_list _ Happly) as (_ & _ & _ & _ & Hlist).
    apply (Hlist [4%positive]); [reflexivity | reflexivity |].
    constructor; [| constructor].
    exists (mkTensor float32 [2]%Z [1; 1]). split; reflexivity.
  - destruct (C5_refresh_raises (defaults_of default_args) val1 world1
                world1 _ Happly1) as (_ & _ & _ & Hrefresh & _).
    apply (Hrefresh world1 world1 [4%positive] [PTensor 4%positive]);
      reflexivity.
Defined.
End StepParamInstance.

Section WarmupFacts.
Open Scope R_scope.

Lemma geb_false (a b : Z) : (a >=? b)%Z = false -> (a < b)%Z.
Proof. rewrite Z.geb_leb. apply Z.leb_gt. Qed.

Lemma true_div_value (x y : R) : y <> 0 -> true_div x y = Value (x / y).
Proof.
  intros Hy. unfold true_div. destruct (Req_dec_T y 0); [contradiction | reflexivity].
Qed.

Lemma warmup_value (lr : R) (step ws : Z) :
  (0 <= step)%Z ->
  warmup lr step ws
    = Value (if (step >=? ws)%Z then lr else lr * IZR step / IZR ws).
Proof.
  intros Hs. unfold warmup.
  destruct (step >=? ws)%Z eqn:E; [reflexivity |].
  apply true_div_value. apply geb_false in E.
  apply not_0_IZR. lia.
Qed.

(** X1: for a learning rate that is not negative and steps that are not
    negative, [warmup] returns (no division by zero, whatever
    [warmup_steps] is), its value lies between 0 and [lr], does not
    decrease with the step, and is [lr] from step [warmup_steps] on. *)
Theorem X1_warmup_ramp (lr : R) (s1 s2 ws : Z) :
  0 <= lr -> (0 <= s1 <= s2)%Z ->
  exists v1 v2 : R,
    warmup lr s1 ws = Value v1 /\ warmup lr s2 ws = Value v2 /\
    0 <= v1 <= v2 /\ v2 <= lr /\
    ((ws <= s2)%Z -> v2 = lr) /\
    ((s2 < ws)%Z -> v2 = lr * IZR s2 / IZR ws).
Proof.
  intros Hlr [H1 H12].
  rewrite !warmup_value by lia.
  eexists _, _. split; [reflexivity |]. split; [reflexivity |].
  assert (Hfrac : forall s : Z, (0 <= s < ws)%Z ->
            0 <= lr * IZR s / IZR ws <= lr).
  { intros s [Hs0 Hs].
    assert (0 < IZR ws) by (apply IZR_lt; lia).
    assert (0 <= IZR s) by (apply IZR_le; lia).
    assert (IZR s <= IZR ws) by (apply IZR_le; lia).
    split.
    - apply Rmult_le_pos; [nra | left; apply Rinv_0_lt_compat; lra].
    - apply (Rmult_le_reg_r (IZR ws)); [lra |].
      unfold Rdiv. rewrite Rmult_assoc, Rinv_l by lra. nra. }
  destruct (s1 >=? ws)%Z eqn:E1; destruct (s2 >=? ws)%Z eqn:E2;
    try apply Z.geb_ge in E1; try apply Z.geb_ge in E2;
    try apply geb_false in E1; try apply geb_false in E2.
  - repeat split; try lra; intros; try reflexivity; lia.
  - lia.
  - destruct (Hfrac s1 ltac:(lia)).
    repeat split; try lra; intros; try reflexivity; lia.
  - destruct (Hfrac s1 ltac:(lia)), (Hfrac s2 ltac:(lia)).
    assert (0 < IZR ws) by (apply IZR_lt; lia).
    assert (IZR s1 <= IZR s2) by (apply IZR_le; lia).
    repeat split; try lra; intros; try reflexivity; try lia.
    unfold Rdiv. apply Rmult_le_compat_r;
      [left; apply Rinv_0_lt_compat; lra | nra].
Qed.

Lemma X1_warmup_ramp_witness :
  exists v1 v2 : R,
    warmup 0.001 3 10 = Value v1 /\ warmup 0.001 10 10 = Value v2 /\
    0 <= v1 <= v2 /\ v2 = 0.001.
Proof.
  destruct (X1_warmup_ramp 0.001 3 10 10 ltac:(lra) ltac:(lia))
    as (v1 & v2 & E1 & E2 & Hv & _ & Hfull & _).
  exists v1, v2. repeat split; try tauto. apply Hfull. lia.
Defined.

(** X2: [warmup] raises [ZeroDivisionError] exactly when [warmup_steps]
    is 0 and the step is negative. *)
Theorem X2_warmup_zero_division (lr : R) (step ws : Z) :
  warmup lr step ws = ZeroDivisionError <-> (ws = 0 /\ step < 0)%Z.
Proof.
  unfold warmup, true_div.
  destruct (step >=? ws)%Z eqn:E.
  - apply Z.geb_ge in E. split; [discriminate | lia].
  - apply geb_false in E.
    destruct (Req_dec_T (IZR ws) 0) as [H0 | H0].
    + apply eq_IZR_R0 in H0. split; [intros _; lia | reflexivity].
    + split; [discriminate |]. intros [-> _]. contradiction H0. reflexivity.
Qed.
End WarmupFacts.

Section DebiasFacts.
Open Scope R_scope.

Lemma pow_lt_1 (b : R) (n : nat) : 0 <= b < 1 -> (1 <= n)%nat -> 0 <= b ^ n <= b.
Proof.
  intros Hb Hn. destruct n as [| n]; [lia |]. clear Hn.
  induction n as [| n IH]; simpl in *; [lra |]. nra.
Qed.

Lemma pow_antitone (b : R) (n m : nat) :
  0 <= b < 1 -> (n <= m)%nat -> b ^ m <= b ^ n.
Proof.
  intros Hb Hnm. induction Hnm as [| m _ IH]; [lra |].
  simpl. assert (0 <= b ^ m) by (apply pow_le; lra). nra.
Qed.

Lemma beta_debias_value (beta : R) (step : Z) :
  0 <= beta < 1 -> (1 <= step)%Z ->
  beta_debias beta step
    = Value (1 - (1 - beta) / (1 - beta ^ Z.to_nat step)).
Proof.
  intros Hb Hs. unfold beta_debias, pow_int.
  destruct (step <? 0)%Z eqn:E; [apply Z.ltb_lt in E; lia |].
  cbn [abind].
  replace (powerRZ beta step) with (beta ^ Z.to_nat step).
  2:{ rewrite <- (Z2Nat.id step) at 2 by lia. apply pow_powerRZ. }
  destruct (pow_lt_1 beta (Z.to_nat step) Hb ltac:(lia)).
  rewrite true_div_value by lra. reflexivity.
Qed.

(** X3: for [0 <= beta < 1] and steps from 1 on, [beta_debias] returns a
    value between 0 and [beta] that does not decrease with the step and
    is 0 at step 1; at step 0 it raises [ZeroDivisionError], for every
    [beta]. *)
Theorem X3_beta_debias_range (beta : R) (s1 s2 : Z) :
  0 <= beta < 1 -> (1 <= s1 <= s2)%Z ->
  (exists v1 v2 : R,
     beta_debias beta s1 = Value v1 /\ beta_debias beta s2 = Value v2 /\
     0 <= v1 <= v2 /\ v2 <= beta /\ (s1 = 1%Z -> v1 = 0)) /\
  (forall b : R, beta_debias b 0 = ZeroDivisionError).
Proof.
  intros Hb Hs. split.
  - rewrite !beta_debias_value by (try lia; assumption).
    eexists _, _. split; [reflexivity |]. split; [reflexivity |].
    destruct (pow_lt_1 beta (Z.to_nat s1) Hb ltac:(lia)) as [Ha0 Ha].
    destruct (pow_lt_1 beta (Z.to_nat s2) Hb ltac:(lia)) as [Hc0 Hc].
    pose proof (pow_antitone beta (Z.to_nat s1) (Z.to_nat s2) Hb ltac:(lia))
      as Hmono.
    set (a := beta ^ Z.to_nat s1) in *. set (c := beta ^ Z.to_nat s2) in *.
    assert (Hia : 0 < / (1 - a)) by (apply Rinv_0_lt_compat; lra).
    assert (Hic : 0 < / (1 - c)) by (apply Rinv_0_lt_compat; lra).
    assert (Hica : / (1 - c) <= / (1 - a))
      by (apply Rinv_le_contravar; lra).
    assert (Hia1 : / (1 - a) <= / (1 - beta))
      by (apply Rinv_le_contravar; lra).
    assert (Hic1 : 1 <= / (1 - c)).
    { rewrite <- Rinv_1 at 1. apply Rinv_le_contravar; lra. }
    assert (Hb1 : (1 - beta) * / (1 - beta) = 1) by (apply Rinv_r; lra).
    unfold Rdiv. repeat split; try nra.
    intros ->. subst a. simpl. rewrite Rmult_1_r. lra.
  - intros b. unfold beta_debias, pow_int. simpl.
    unfold true_div. destruct (Req_dec_T (1 - 1) 0) as [_ | Hn];
      [reflexivity | exfalso; lra].
Qed.

Lemma X3_beta_debias_range_witness :
  exists v1 v2 : R,
    beta_debias 0.9 1 = Value v1 /\ beta_debias 0.9 5 = Value v2 /\
    v1 = 0 /\ 0 <= v2 <= 0.9.
Proof.
  destruct (X3_beta_debias_range 0.9 1 5 ltac:(lra) ltac:(lia))
    as [(v1 & v2 & E1 & E2 & Hv & Hle & H1) _].
  exists v1, v2.
  split; [exact E1 |]. split; [exact E2 |].
  split; [apply H1; reflexivity |]. lra.
Defined.
End DebiasFacts.

Section MomentumFacts.
Open Scope R_scope.
Import Py Step.

Lemma sum_R_app (l k : list R) :
  Ops.sum_R (l ++ k) = Ops.sum_R l + Ops.sum_R k.
Proof.
  induction l as [| x l IH]; simpl; [lra |]. unfold Ops.sum_R in *.
  simpl. rewrite IH. lra.
Qed.

Lemma sum_R_scale (c : R) (l : list R) :
  Ops.sum_R (map (Rmult c) l) = c * Ops.sum_R l.
Proof.
  induction l as [| x l IH]; unfold Ops.sum_R in *; simpl; [lra |].
  rewrite IH. lra.
Qed.

Lemma decayed_sum_snoc (b : R) (gs : list R) (g : R) :
  decayed_sum b (gs ++ [g]) = b * decayed_sum b gs + g.
Proof.
  unfold decayed_sum. rewrite imap_app, sum_R_app.
  rewrite length_app. simpl length.
  f_equal.
  - rewrite <- sum_R_scale. f_equal.
    change (map (Rmult b)) with (fmap (M:=list) (Rmult b)).
    rewrite fmap_imap.
    apply imap_ext. intros i x Hi. apply lookup_lt_Some in Hi.
    simpl. replace (length gs + 1 - 1 - i)%nat
      with (S (length gs - 1 - i)) by lia.
    simpl. lra.
  - simpl. unfold Ops.sum_R. simpl.
    replace (length gs + 1 - 1 - (length gs + 0))%nat with 0%nat by lia.
    simpl. lra.
Qed.

Lemma bias_corrected_step (b : R) (gs : list R) (g ea : R) :
  0 <= b < 1 ->
  (gs <> [] -> ea = bias_corrected b gs) ->
  ea + (1 - b) / (1 - powerRZ b (Z.of_nat (S (length gs)))) * (g - ea)
    = bias_corrected b (gs ++ [g]).
Proof.
  intros Hb Hea. unfold bias_corrected.
  rewrite decayed_sum_snoc, length_app. simpl length.
  rewrite <- pow_powerRZ. replace (length gs + 1)%nat with (S (length gs)) by lia.
  destruct gs as [| g0 gs].
  - unfold decayed_sum. simpl. unfold Ops.sum_R. simpl. field. lra.
  - specialize (Hea ltac:(discriminate)).
    set (k := length (g0 :: gs)) in *.
    set (S0 := decayed_sum b (g0 :: gs)) in *.
    unfold bias_corrected in Hea. fold k S0 in Hea.
    destruct (pow_lt_1 b k Hb ltac:(subst k; simpl; lia)).
    destruct (pow_lt_1 b (S k) Hb ltac:(lia)).
    rewrite Hea. simpl pow in *. field. split; lra.
Qed.

(** X4: the momentum update of [_step] keeps the buffer equal to the
    bias-corrected exponential moving average of the gradients seen so
    far.  If before the update at step [k + 1] every entry of [exp_avg]
    is that average of the [k] earlier gradients (nothing is asked when
    [k = 0]), then after [lerp_] with the weight
    [(1 - beta) / (1 - beta ** (k + 1))] every entry is the average of
    the [k + 1] gradients. *)
Theorem X4_momentum_bias_corrected {packed : Type} (b : R)
    (hs : list (list R)) (v : @Val packed) (w : World packed) (ea g : Tensor) :
  0 <= b < 1 ->
  tensor_at w (v_exp_avg v) ea ->
  tensor_at w (v_g v) g ->
  length (t_data ea) = length (t_data g) ->
  (hs <> [] ->
   forall j : nat, (j < length (t_data g))%nat ->
     nth j (t_data ea) 0
       = bias_corrected b (map (fun h => nth j h 0) hs)) ->
  exists ea' : Tensor,
    lerp_ ((1 - b) / (1 - powerRZ b (Z.of_nat (S (length hs))))) v w
      = (set_heap (<[v_exp_avg v := OTensor ea']> (w_heap w)) w, Ok tt) /\
    t_shape ea' = t_shape ea /\
    length (t_data ea') = length (t_data g) /\
    forall j : nat, (j < length (t_data g))%nat ->
      nth j (t_data ea') 0
        = bias_corrected b (map (fun h => nth j h 0) (hs ++ [t_data g])).
Proof.
  intros Hb Hea Hg Hlen Hinv.
  eexists. split.
  { unfold lerp_.
    rewrite (bind_Ok _ _ w w ea) by (apply read_tensor_at; exact Hea).
    rewrite (bind_Ok _ _ w w g) by (apply read_tensor_at; exact Hg).
    reflexivity. }
  split; [reflexivity |].
  cbn [t_data Ops.with_data].
  split.
  { rewrite length_zip_with. lia. }
  intros j Hj.
  rewrite map_app. cbn [map].
  rewrite <- (bias_corrected_step b _ (nth j (t_data g) 0)
                (nth j (t_data ea) 0) Hb).
  2:{ intros Hne. apply Hinv; [| exact Hj].
      intros ->. apply Hne. reflexivity. }
  rewrite length_map.
  rewrite (nth_zip_with_R _ _ _ j) by lia. reflexivity.
Qed.
End MomentumFacts.

Section MomentumInstance.
Open Scope R_scope.
Import Py Step Rank1 Reference World1.

Lemma X4_momentum_bias_corrected_witness :
  exists ea' : Tensor,
    lerp_ ((1 - 0.9) / (1 - powerRZ 0.9 2)) val1 world1
      = (set_heap (<[3%positive := OTensor ea']> heap1) world1, Ok tt) /\
    forall j : nat, (j < 2)%nat ->
      nth j (t_data ea') 0
        = bias_corrected 0.9
            (map (fun h => nth j h 0) [[2; 4]; [2; 4]]).
Proof.
  destruct (X4_momentum_bias_corrected 0.9 [[2; 4]] val1 world1
              (mkTensor float32 [2]%Z [2; 4]) G1)
    as (ea' & Hrun & _ & _ & Hentries).
  - lra.
  - reflexivity.
  - reflexivity.
  - reflexivity.
  - intros _ j Hj. simpl in Hj.
    destruct j as [| [| j]]; [| | lia];
      unfold bias_corrected, decayed_sum, Ops.sum_R; simpl; field; lra.
  - exists ea'. split; [exact Hrun | exact Hentries].
Defined.
End MomentumInstance.

Section StochasticFacts.
Import Stochastic.
Open Scope Z_scope.

Lemma land_mask16 (x : Z) : Z.land x (-65536) = x - x mod 65536.
Proof.
  change (-65536) with (Z.lnot (Z.ones 16)).
  rewrite <- Z.ldiff_land, Z.ldiff_ones_r by lia.
  rewrite Z.shiftr_div_pow2, Z.shiftl_mul_pow2 by lia.
  change (2 ^ 16) with 65536.
  pose proof (Z.div_mod x 65536 ltac:(lia)). lia.
Qed.

Lemma wrap32_id (z : Z) : int32 z -> wrap32 z = z.
Proof.
  unfold int32, wrap32. intros Hz.
  rewrite Z.mod_small by lia. lia.
Qed.

Lemma wrap32_range (z : Z) : int32 (wrap32 z).
Proof.
  unfold int32, wrap32.
  pose proof (Z.mod_pos_bound (z + 2 ^ 31) (2 ^ 32) ltac:(lia)). lia.
Qed.

Lemma stochastic_bits_eq (r source : Z) :
  stochastic_bits r source
    = wrap32 (r + source) - wrap32 (r + source) mod 65536.
Proof. unfold stochastic_bits. apply land_mask16. Qed.

(** X5: whatever is drawn, the entry written by [copy_stochastic_] is an
    int32 pattern whose lower 16 bits are zero (a float32 that bfloat16
    holds exactly); and a source whose lower 16 bits are zero already is
    copied unchanged. *)
Theorem X5_copy_stochastic_low_bits (r source : Z) :
  int32 source -> 0 <= r < 65536 ->
  int32 (stochastic_bits r source) /\
  stochastic_bits r source mod 65536 = 0 /\
  Z.land (stochastic_bits r source) 65535 = 0 /\
  (source mod 65536 = 0 -> stochastic_bits r source = source).
Proof.
  intros Hs Hr. rewrite stochastic_bits_eq.
  pose proof (wrap32_range (r + source)) as Hw.
  set (x := wrap32 (r + source)) in *.
  pose proof (Z.mod_pos_bound x 65536 ltac:(lia)) as Hm.
  pose proof (Z.div_mod x 65536 ltac:(lia)) as Hdm.
  assert (Hmul : x - x mod 65536 = 65536 * (x / 65536)) by lia.
  assert (Hzero : (x - x mod 65536) mod 65536 = 0).
  { rewrite Hmul, Z.mul_comm. apply Z.mod_mul. lia. }
  split; [| split; [exact Hzero | split]].
  - unfold int32 in *. split; [| lia].
    rewrite Hmul.
    assert (- 32768 <= x / 65536).
    { apply Z.div_le_lower_bound; lia. }
    lia.
  - change 65535 with (Z.ones 16). rewrite Z.land_ones by lia.
    exact Hzero.
  - intros Hlow. subst x. unfold wrap32, int32 in *.
    pose proof (Z.div_mod source 65536 ltac:(lia)) as Hsrc.
    rewrite Hlow in Hsrc.
    assert (Hno : 0 <= r + source + 2 ^ 31 < 2 ^ 32) by lia.
    rewrite (Z.mod_small _ _ Hno).
    replace (r + source + 2 ^ 31 - 2 ^ 31) with (r + source) by lia.
    replace (r + source) with (r + source / 65536 * 65536) at 2 by lia.
    rewrite Z.mod_add, (Z.mod_small r) by lia. lia.
Qed.

Lemma X5_copy_stochastic_low_bits_witness :
  stochastic_bits 40000 1065353216 = 1065353216 /\
  stochastic_bits 40000 1065353217 mod 65536 = 0.
Proof.
  destruct (X5_copy_stochastic_low_bits 40000 1065353216)
    as (_ & _ & _ & Hexact); [unfold int32; lia | lia |].
  destruct (X5_copy_stochastic_low_bits 40000 1065353217)
    as (_ & Hzero & _); [unfold int32; lia | lia |].
  split; [apply Hexact; reflexivity | exact Hzero].
Defined.

(** The pattern written when adding the draw does not leave the int32
    range. *)
Lemma stochastic_bits_no_wrap (r source : Z) :
  int32 source -> 0 <= r < 65536 ->
  source - source mod 65536 + 65536 < 2 ^ 31 ->
  stochastic_bits r source
    = source - source mod 65536
      + (if 65536 <=? source mod 65536 + r then 65536 else 0).
Proof.
  intros Hs Hr Htop. rewrite stochastic_bits_eq.
  pose proof (Z.mod_pos_bound source 65536 ltac:(lia)) as Hm.
  pose proof (Z.div_mod source 65536 ltac:(lia)) as Hdm.
  unfold int32 in Hs.
  rewrite wrap32_id by (unfold int32; lia).
  set (low := source mod 65536) in *.
  set (hi := source / 65536) in *.
  replace (r + source) with (low + r + hi * 65536) by lia.
  rewrite Z.mod_add by lia.
  destruct (65536 <=? low + r) eqn:E.
  - apply Z.leb_le in E.
    replace (low + r) with (low + r - 65536 + 1 * 65536) at 2 by lia.
    rewrite Z.mod_add, Z.mod_small by lia. lia.
  - apply Z.leb_gt in E. rewrite Z.mod_small by lia. lia.
Qed.

(** X6: when the addition does not overflow, [copy_stochastic_] writes one
    of the two neighbouring patterns with cleared lower bits: the source
    with its lower 16 bits [low] dropped, or that plus [2 ** 16]; it takes
    the upper one exactly when [low + r >= 2 ** 16], and is never further
    than [2 ** 16 - 1] from the source. *)
Theorem X6_copy_stochastic_neighbours (r source : Z) :
  int32 source -> 0 <= r < 65536 ->
  source - source mod 65536 + 65536 < 2 ^ 31 ->
  let low := source mod 65536 in
  let down := source - low in
  (low + r < 65536 -> stochastic_bits r source = down) /\
  (65536 <= low + r -> stochastic_bits r source = down + 65536) /\
  Z.abs (stochastic_bits r source - source) < 65536.
Proof.
  intros Hs Hr Htop low down.
  rewrite (stochastic_bits_no_wrap r source Hs Hr Htop).
  fold low. fold down.
  pose proof (Z.mod_pos_bound source 65536 ltac:(lia)) as Hm. fold low in Hm.
  destruct (65536 <=? low + r) eqn:E;
    [apply Z.leb_le in E | apply Z.leb_gt in E]; subst down; lia.
Qed.

Lemma X6_copy_stochastic_neighbours_witness :
  stochastic_bits 10 1065353217 = 1065353216 /\
  stochastic_bits 65535 1065353217 = 1065418752.
Proof.
  destruct (X6_copy_stochastic_neighbours 10 1065353217)
    as (Hdown & _ & _); [unfold int32; lia | lia | reflexivity |].
  destruct (X6_copy_stochastic_neighbours 65535 1065353217)
    as (_ & Hup & _); [unfold int32; lia | lia | reflexivity |].
  split; [apply Hdown; reflexivity | apply Hup; discriminate].
Defined.

Lemma sum_Z_app (l k : list Z) : sum_Z (l ++ k) = sum_Z l + sum_Z k.
Proof.
  unfold sum_Z. induction l as [| x l IH]; simpl; [reflexivity | lia].
Qed.

(** The sum of [c + (if t <= r then d else 0)] over [r = 0, ..., n - 1]. *)
Lemma sum_threshold (c d t : Z) (n : nat) :
  0 <= t <= Z.of_nat n ->
  sum_Z (map (fun r => c + (if t <=? r then d else 0))
             (map Z.of_nat (seq 0 n)))
    = Z.of_nat n * c + (Z.of_nat n - t) * d.
Proof.
  induction n as [| n IH]; intros Ht.
  - assert (t = 0) as -> by lia. simpl. lia.
  - rewrite seq_S, !map_app, sum_Z_app. cbn [map sum_Z fold_right Nat.add].
    destruct (Z.eq_dec t (Z.of_nat (S n))) as [-> | Hne].
    + clear IH.
      assert (Hall : forall m, (m <= S n)%nat ->
                sum_Z (map (fun r => c + (if Z.of_nat (S n) <=? r then d else 0))
                           (map Z.of_nat (seq 0 m))) = Z.of_nat m * c).
      { induction m as [| m IHm]; intros Hm; [reflexivity |].
        rewrite seq_S, !map_app, sum_Z_app, IHm by lia.
        cbn [map sum_Z fold_right Nat.add].
        destruct (Z.of_nat (S n) <=? Z.of_nat m) eqn:E;
          [apply Z.leb_le in E; lia | lia]. }
      rewrite Hall by lia.
      destruct (Z.of_nat (S n) <=? Z.of_nat n) eqn:E;
        [apply Z.leb_le in E; lia | lia].
    + rewrite IH by lia.
      destruct (t <=? Z.of_nat n) eqn:E;
        [apply Z.leb_le in E | apply Z.leb_gt in E]; lia.
Qed.

(** X7: stochastic rounding is unbiased on the bit patterns.  When the
    addition cannot overflow, the patterns written for the [2 ** 16]
    possible draws add up to [2 ** 16] times the source pattern: drawn
    uniformly, the written pattern has the source as its mean. *)
Theorem X7_copy_stochastic_unbiased (source : Z) :
  int32 source ->
  source - source mod 65536 + 65536 < 2 ^ 31 ->
  sum_Z (map (fun r => stochastic_bits r source) draws) = 65536 * source.
Proof.
  intros Hs Htop.
  pose proof (Z.mod_pos_bound source 65536 ltac:(lia)) as Hm.
  set (low := source mod 65536) in *.
  transitivity
    (sum_Z (map (fun r => (source - low)
                          + (if 65536 - low <=? r then 65536 else 0))
                draws)).
  - f_equal. unfold draws. apply map_ext_in. intros r Hr.
    apply in_map_iff in Hr as (k & <- & Hk). apply in_seq in Hk.
    rewrite stochastic_bits_no_wrap by (try assumption; lia).
    fold low. f_equal.
    destruct (65536 <=? low + Z.of_nat k) eqn:E1;
      destruct (65536 - low <=? Z.of_nat k) eqn:E2;
      try reflexivity;
      try apply Z.leb_le in E1; try apply Z.leb_gt in E1;
      try apply Z.leb_le in E2; try apply Z.leb_gt in E2; lia.
  - unfold draws. rewrite sum_threshold by lia.
    rewrite Z2Nat.id by lia. lia.
Qed.

Lemma X7_copy_stochastic_unbiased_witness :
  sum_Z (map (fun r => stochastic_bits r 1065353217) draws)
    = 65536 * 1065353217.
Proof.
  apply X7_copy_stochastic_unbiased; [unfold int32; lia | reflexivity].
Defined.
End StochasticFacts.

Section TanhFacts.
Open Scope R_scope.

Lemma cosh_pos (x : R) : 0 < cosh x.
Proof.
  unfold cosh. pose proof (exp_pos x). pose proof (exp_pos (- x)). lra.
Qed.

Lemma sinh_nonneg (x : R) : 0 <= x -> 0 <= sinh x.
Proof.
  intros [Hx | <-]; [| rewrite sinh_0; lra].
  left. rewrite <- sinh_0. apply sinh_lt. exact Hx.
Qed.

Lemma sinh_opp (x : R) : sinh (- x) = - sinh x.
Proof. unfold sinh. rewrite Ropp_involutive. lra. Qed.

Lemma cosh_opp (x : R) : cosh (- x) = cosh x.
Proof. unfold cosh. rewrite Ropp_involutive. lra. Qed.

Lemma tanh_opp (x : R) : tanh (- x) = - tanh x.
Proof. unfold tanh. rewrite sinh_opp, cosh_opp. lra. Qed.

Lemma tanh_0 : tanh 0 = 0.
Proof. unfold tanh. rewrite sinh_0. lra. Qed.

Lemma tanh_nonneg (x : R) : 0 <= x -> 0 <= tanh x.
Proof.
  intros Hx. unfold tanh, Rdiv. apply Rmult_le_pos; [apply sinh_nonneg, Hx |].
  left. apply Rinv_0_lt_compat, cosh_pos.
Qed.

Lemma tanh_pos (x : R) : 0 < x -> 0 < tanh x.
Proof.
  intros Hx. unfold tanh, Rdiv. apply Rmult_lt_0_compat.
  - rewrite <- sinh_0. apply sinh_lt. exact Hx.
  - apply Rinv_0_lt_compat, cosh_pos.
Qed.

Lemma tanh_lt_1 (x : R) : tanh x < 1.
Proof.
  unfold tanh. apply (Rmult_lt_reg_r (cosh x)); [apply cosh_pos |].
  unfold Rdiv. rewrite Rmult_assoc, Rinv_l, Rmult_1_r, Rmult_1_l
    by (pose proof (cosh_pos x); lra).
  unfold sinh, cosh. pose proof (exp_pos (- x)). lra.
Qed.

(** [x * cosh x - sinh x] has the derivative [x * sinh x], which is never
    negative. *)
Definition tanh_gap (x : R) : R := x * cosh x - sinh x.

Lemma tanh_gap_lim (x : R) : derivable_pt_lim tanh_gap x (x * sinh x).
Proof.
  replace (x * sinh x) with ((1 * cosh x + id x * sinh x) - cosh x)
    by (unfold id; ring).
  change tanh_gap with ((id * cosh - sinh)%F).
  apply derivable_pt_lim_minus; [| apply derivable_pt_lim_sinh].
  apply derivable_pt_lim_mult;
    [apply derivable_pt_lim_id | apply derivable_pt_lim_cosh].
Qed.

Lemma tanh_gap_increasing : increasing tanh_gap.
Proof.
  apply (nonneg_derivative_1 tanh_gap
           (fun x => exist _ (x * sinh x) (tanh_gap_lim x))).
  intros x. simpl.
  destruct (Rle_dec 0 x) as [Hx | Hx].
  - apply Rmult_le_pos; [exact Hx | apply sinh_nonneg, Hx].
  - assert (0 <= sinh (- x)) by (apply sinh_nonneg; lra).
    rewrite sinh_opp in *. nra.
Qed.

Lemma tanh_le_id (x : R) : 0 <= x -> tanh x <= x.
Proof.
  intros Hx. pose proof (tanh_gap_increasing 0 x Hx) as Hinc.
  unfold tanh_gap in Hinc. rewrite sinh_0, cosh_0 in Hinc.
  pose proof (cosh_pos x) as Hc.
  unfold tanh. apply (Rmult_le_reg_r (cosh x)); [exact Hc |].
  unfold Rdiv. rewrite Rmult_assoc, Rinv_l, Rmult_1_r by lra. lra.
Qed.

Lemma ln_1p_le (y : R) : 0 <= y -> 0 <= ln (1 + y) <= y.
Proof.
  intros [Hy | <-].
  - split.
    + rewrite <- ln_1. left. apply ln_increasing; lra.
    + left. rewrite <- (ln_exp y) at 2. apply ln_increasing; [lra |].
      apply exp_ineq1. lra.
  - rewrite Rplus_0_r, ln_1. lra.
Qed.
End TanhFacts.

Section ClipEntryFacts.
Open Scope R_scope.

Lemma clip_entry_nonneg (lerp scale x : R) :
  0 < scale -> 0 <= lerp <= 1 -> 0 <= x ->
  0 <= clip_entry lerp (1 / scale) scale x <= x /\
  clip_entry lerp (1 / scale) scale x
    <= scale * (lerp + (1 - lerp) * ln (1 + x / scale)) /\
  (0 < x -> 0 < clip_entry lerp (1 / scale) scale x).
Proof.
  intros Hs Hl Hx. unfold clip_entry.
  assert (Hinv : 0 < / scale) by (apply Rinv_0_lt_compat; exact Hs).
  replace (x * (1 / scale)) with (x / scale) by (unfold Rdiv; ring).
  set (y := x / scale).
  assert (Hy : 0 <= y) by (apply Rmult_le_pos; lra).
  assert (Hxy : x = y * scale).
  { unfold y, Rdiv. rewrite Rmult_assoc, Rinv_l by lra. ring. }
  pose proof (tanh_nonneg y Hy) as Ht0.
  pose proof (tanh_le_id y Hy) as Hty.
  pose proof (tanh_lt_1 y) as Ht1.
  rewrite (Rabs_pos_eq y Hy).
  destruct (ln_1p_le y Hy) as [Hp0 Hpy].
  unfold copysign. destruct (Rlt_dec (tanh y) 0) as [Hneg | _]; [lra |].
  rewrite (Rabs_pos_eq _ Hp0).
  set (t := tanh y) in *. set (p := ln (1 + y)) in *.
  repeat split.
  - apply Rmult_le_pos; [nra | lra].
  - apply Rle_trans with (y * scale); [| lra].
    apply Rmult_le_compat_r; [lra | nra].
  - rewrite (Rmult_comm scale). apply Rmult_le_compat_r; [lra | nra].
  - intros Hxpos.
    assert (Hypos : 0 < y) by (apply Rmult_lt_0_compat; lra).
    pose proof (tanh_pos y Hypos) as Htpos. fold t in Htpos.
    assert (Hppos : 0 < p).
    { unfold p. rewrite <- ln_1. apply ln_increasing; lra. }
    apply Rmult_lt_0_compat; [| lra].
    destruct (Req_dec lerp 0) as [-> | Hne]; [lra |].
    assert (0 < lerp * t) by (apply Rmult_lt_0_compat; lra).
    nra.
Qed.

Lemma clip_entry_odd (lerp inv scale x : R) :
  x <> 0 -> 0 < inv ->
  clip_entry lerp inv scale (- x) = - clip_entry lerp inv scale x.
Proof.
  intros Hx Hinv. unfold clip_entry.
  replace (- x * inv) with (- (x * inv)) by ring.
  rewrite tanh_opp, Rabs_Ropp.
  set (y := x * inv). set (p := ln (1 + Rabs y)).
  assert (Hy : y <> 0) by (unfold y; nra).
  assert (Ht : tanh y <> 0).
  { destruct (Rlt_dec 0 y) as [Hpos | Hnp].
    - pose proof (tanh_pos y Hpos). lra.
    - assert (Hneg : 0 < - y) by lra.
      pose proof (tanh_pos _ Hneg) as H0. rewrite tanh_opp in H0. lra. }
  unfold copysign.
  destruct (Rlt_dec (- tanh y) 0); destruct (Rlt_dec (tanh y) 0);
    try lra.
Qed.

(** X8: for [scale > 0] and [0 <= lerp <= 1] an entry left by
    [trust_region_clip_] keeps the sign of the entry it replaces, is zero
    only for a zero entry, is never larger in magnitude, and stays under
    [scale * (lerp + (1 - lerp) * log(1 + |x| / scale))]: the clipped
    gradient grows at most logarithmically. *)
Theorem X8_trust_region_clip_entry (lerp scale x : R) :
  0 < scale -> 0 <= lerp <= 1 ->
  let c := clip_entry lerp (1 / scale) scale x in
  Rabs c <= Rabs x /\
  Rabs c <= scale * (lerp + (1 - lerp) * ln (1 + Rabs x / scale)) /\
  (0 < x -> 0 < c) /\ (x < 0 -> c < 0) /\ (x = 0 -> c = 0).
Proof.
  intros Hs Hl c.
  assert (Hinv : 0 < 1 / scale).
  { unfold Rdiv. rewrite Rmult_1_l. apply Rinv_0_lt_compat, Hs. }
  destruct (Rtotal_order x 0) as [Hneg | [-> | Hpos]].
  - assert (Hc : c = - clip_entry lerp (1 / scale) scale (- x)).
    { unfold c. rewrite clip_entry_odd by lra. lra. }
    destruct (clip_entry_nonneg lerp scale (- x) Hs Hl ltac:(lra))
      as ((H0 & Hle) & Hlog & Hstrict).
    specialize (Hstrict ltac:(lra)).
    rewrite Hc, Rabs_Ropp, (Rabs_pos_eq _ H0), (Rabs_left x Hneg).
    repeat split; try lra.
  - destruct (clip_entry_nonneg lerp scale 0 Hs Hl ltac:(lra))
      as ((H0 & Hle) & Hlog & _).
    assert (Hc0 : c = 0) by (unfold c; lra).
    rewrite Hc0, Rabs_R0. unfold Rdiv. rewrite Rmult_0_l, Rplus_0_r, ln_1.
    repeat split; try lra. nra.
  - destruct (clip_entry_nonneg lerp scale x Hs Hl ltac:(lra))
      as ((H0 & Hle) & Hlog & Hstrict).
    specialize (Hstrict Hpos). fold c in H0, Hle, Hlog, Hstrict.
    rewrite (Rabs_pos_eq c H0), (Rabs_pos_eq x) by lra.
    repeat split; try lra.
Qed.

Lemma X8_trust_region_clip_entry_witness :
  Rabs (clip_entry 0.9 (1 / 1.5) 1.5 6) <= Rabs 6 /\
  0 < clip_entry 0.9 (1 / 1.5) 1.5 6.
Proof.
  destruct (X8_trust_region_clip_entry 0.9 1.5 6 ltac:(lra) ltac:(lra))
    as (Hle & _ & Hpos & _).
  split; [exact Hle | apply Hpos; lra].
Defined.
End ClipEntryFacts.

Section DimMergerShape.
Import DimMerger.
Open Scope Z_scope.

(** The loop never lengthens the shape: the groups written out plus the
    open group are no more than those on entry plus the axes consumed. *)
Lemma merge_loop_length (m : Z) (dims : list Z) :
  forall (acc : list Z) (curr : Z),
    (length (fst (merge_loop m dims acc curr))
     + (if snd (merge_loop m dims acc curr) >? 1 then 1 else 0)
     <= length acc + (if curr >? 1 then 1 else 0) + length dims)%nat.
Proof.
  induction dims as [| sh dims IH]; intros acc curr; simpl; [lia |].
  destruct (curr * sh >? m).
  - destruct (curr >? 1) eqn:Hc.
    + pose proof (IH (acc ++ [curr]) sh) as H.
      rewrite length_app in H. simpl in H.
      destruct (sh >? 1); lia.
    + pose proof (IH (acc ++ [sh]) 1) as H.
      rewrite length_app in H. simpl in H. lia.
  - pose proof (IH acc (curr * sh)) as H.
    destruct (curr * sh >? 1); destruct (curr >? 1); lia.
Qed.

(** Every group written out, and the open group unless it is the initial
    1, is within the cap or is one of the axes as it came. *)
Lemma merge_loop_groups (m : Z) (all : list Z) (dims : list Z) :
  forall (acc : list Z) (curr : Z),
    (forall d, In d dims -> In d all) ->
    Forall (fun x => x <= m \/ In x all) acc ->
    (curr <= m \/ In curr all \/ curr = 1) ->
    Forall (fun x => x <= m \/ In x all) (fst (merge_loop m dims acc curr))
    /\ (snd (merge_loop m dims acc curr) <= m
        \/ In (snd (merge_loop m dims acc curr)) all
        \/ snd (merge_loop m dims acc curr) = 1).
Proof.
  induction dims as [| sh dims IH]; intros acc curr Hsub Hacc Hcurr; simpl.
  - split; assumption.
  - assert (Hsh : In sh all) by (apply Hsub; left; reflexivity).
    assert (Hsub' : forall d, In d dims -> In d all)
      by (intros d Hd; apply Hsub; right; exact Hd).
    destruct (curr * sh >? m) eqn:Hbig.
    + destruct (curr >? 1) eqn:Hc.
      * apply IH; [exact Hsub' | | right; left; exact Hsh].
        apply Forall_app. split; [exact Hacc |].
        constructor; [| constructor].
        destruct Hcurr as [H | [H | H]]; [left; exact H | right; exact H | lia].
      * apply IH; [exact Hsub' | | right; right; reflexivity].
        apply Forall_app. split; [exact Hacc |].
        constructor; [right; exact Hsh | constructor].
    + apply IH; [exact Hsub' | exact Hacc | left; lia].
Qed.

(** While the product of what is consumed stays within the cap nothing is
    written out. *)
Lemma merge_loop_fits (m : Z) (dims : list Z) :
  forall (curr : Z),
    Forall (fun d => 1 <= d) dims -> 1 <= curr ->
    curr * prod_Z dims <= m ->
    merge_loop m dims [] curr = ([], curr * prod_Z dims).
Proof.
  induction dims as [| sh dims IH]; intros curr Hpos Hcurr Hfit; simpl.
  - f_equal. lia.
  - inversion Hpos as [| ? ? Hsh Hrest]; subst. simpl in Hfit.
    assert (Hprod : 1 <= prod_Z dims).
    { clear -Hrest. induction Hrest; simpl; [lia | nia]. }
    destruct (curr * sh >? m) eqn:Hbig; [exfalso; nia |].
    rewrite IH; [f_equal; ring | exact Hrest | nia | ].
    rewrite <- Z.mul_assoc. exact Hfit.
Qed.

Lemma merged_shape_cons (d0 : Z) (rest : list Z) (m : Z) :
  exists rest' : list Z,
    merged_shape (d0 :: rest) m = d0 :: rest' /\
    (length rest' <= length rest)%nat /\
    Forall (fun x => x <= m \/ In x rest) rest'.
Proof.
  unfold merged_shape. cbn [tail firstn].
  pose proof (merge_loop_length m (rev rest) [] 1) as Hlen.
  destruct (merge_loop_groups m rest (rev rest) [] 1) as [Hacc Hcurr].
  { intros d Hd. apply in_rev. exact Hd. }
  { constructor. }
  { right; right; reflexivity. }
  destruct (merge_loop m (rev rest) [] 1) as [ns c].
  cbn [fst snd length] in Hlen, Hacc, Hcurr. rewrite length_rev in Hlen.
  change (1 >? 1) with false in Hlen. cbv iota in Hlen.
  assert (Hrev : Forall (fun x => x <= m \/ In x rest) (rev ns))
    by (apply Forall_rev; exact Hacc).
  change ([d0] ++ rev ns) with (d0 :: rev ns).
  destruct (c >? 1) eqn:Hc; cbn [orb length Nat.eqb].
  - exists (rev ns ++ [c]). split; [reflexivity |]. split.
    + rewrite length_app, length_rev. simpl. lia.
    + apply Forall_app. split; [exact Hrev |].
      constructor; [| constructor].
      destruct Hcurr as [H | [H | H]];
        [left; exact H | right; exact H | lia].
  - exists (rev ns). split; [reflexivity |]. split; [| exact Hrev].
    rewrite length_rev. lia.
Qed.

(** X9: with every trailing axis of size at least 1, [dim_merger] (without
    [split]) returns a view of the same entries and dtype with the same
    number of elements; the leading axis is kept as it is, and the rank
    does not grow. *)
Theorem X9_dim_merger_reshapes (grad : Tensor) (m d0 : Z) (rest : list Z) :
  t_shape grad = d0 :: rest ->
  Forall (fun d => 1 <= d) rest ->
  exists (t' : Tensor) (rest' : list Z),
    dim_merger grad m = Ok t' /\
    t_data t' = t_data grad /\ t_dtype t' = t_dtype grad /\
    numel t' = numel grad /\
    t_shape t' = d0 :: rest' /\
    (length rest' <= length rest)%nat.
Proof.
  intros Hshape Hpos.
  assert (Hpos' : Forall (fun d => 1 <= d) (tail (t_shape grad)))
    by (rewrite Hshape; exact Hpos).
  rewrite (dim_merger_ok_positive grad m Hpos').
  pose proof (merged_shape_prod (t_shape grad) m Hpos') as Hprod.
  rewrite Hshape in *.
  destruct (merged_shape_cons d0 rest m) as (rest' & Hm & Hlen & _).
  eexists _, rest'. split; [reflexivity |].
  cbn [t_data t_dtype t_shape]. unfold numel. cbn [t_shape].
  rewrite Hshape.
  split; [reflexivity |]. split; [reflexivity |].
  split; [exact Hprod |]. split; [exact Hm | exact Hlen].
Qed.

Lemma X9_dim_merger_reshapes_witness :
  exists (t' : Tensor) (rest' : list Z),
    dim_merger (mkTensor float32 [2; 3; 4] (repeat 0%R 24)) 6 = Ok t' /\
    numel t' = 24 /\ t_shape t' = 2 :: rest' /\ (length rest' <= 2)%nat.
Proof.
  destruct (X9_dim_merger_reshapes
              (mkTensor float32 [2; 3; 4] (repeat 0%R 24)) 6 2 [3; 4]
              eq_refl ltac:(repeat constructor; lia))
    as (t' & rest' & Hok & _ & _ & Hnum & Hshape & Hlen).
  exists t', rest'. repeat split; assumption.
Defined.

(** X10: every axis of the merged shape after the first is either within
    [max_precond_dim] or one of the trailing axes of the input, unmerged:
    merging never builds a group above the cap. *)
Theorem X10_dim_merger_groups_capped (shape : list Z) (m : Z) :
  Forall (fun x => x <= m \/ In x (tail shape))
         (tail (merged_shape shape m)).
Proof.
  destruct shape as [| d0 rest].
  - cbn. constructor.
  - destruct (merged_shape_cons d0 rest m) as (rest' & -> & _ & Hcap).
    exact Hcap.
Qed.

(** X11: when the trailing axes are all of size at least 1 and their
    product is above 1 and within [max_precond_dim], they are merged into
    one axis: the result is the matrix of shape
    [(shape[0], prod(shape[1:]))]. *)
Theorem X11_dim_merger_all_fit (grad : Tensor) (m d0 : Z) (rest : list Z) :
  t_shape grad = d0 :: rest ->
  Forall (fun d => 1 <= d) rest ->
  1 < prod_Z rest <= m ->
  dim_merger grad m
    = Ok (mkTensor (t_dtype grad) [d0; prod_Z rest] (t_data grad)).
Proof.
  intros Hshape Hpos [Hgt Hfit].
  assert (Hpos' : Forall (fun d => 1 <= d) (tail (t_shape grad)))
    by (rewrite Hshape; exact Hpos).
  rewrite (dim_merger_ok_positive grad m Hpos'). do 2 f_equal.
  rewrite Hshape. unfold merged_shape. cbn [tail firstn].
  rewrite merge_loop_fits;
    [| apply Forall_rev; exact Hpos | lia | rewrite prod_Z_rev; lia].
  rewrite prod_Z_rev, Z.mul_1_l.
  assert (Hc : (prod_Z rest >? 1) = true) by (apply Z.gtb_lt; lia).
  rewrite Hc. reflexivity.
Qed.

Lemma X11_dim_merger_all_fit_witness :
  dim_merger (mkTensor float32 [128; 64; 3; 3] []) 576
    = Ok (mkTensor float32 [128; 576] []).
Proof.
  apply (X11_dim_merger_all_fit (mkTensor float32 [128; 64; 3; 3] [])
           576 128 [64; 3; 3] eq_refl).
  - repeat constructor; lia.
  - simpl. lia.
Defined.
End DimMergerShape.

Section ClippingFacts.
Open Scope R_scope.
Import Ops.

Lemma sum_squares_nonneg (d : list R) : 0 <= sum_R (map (fun x => x * x) d).
Proof.
  induction d as [| x d IH]; unfold sum_R in *; simpl; [lra |]. nra.
Qed.

Lemma vector_norm_nonneg (d : list R) : 0 <= vector_norm d.
Proof. unfold vector_norm. apply sqrt_pos. Qed.

Lemma vector_norm_scale (c : R) (d : list R) :
  vector_norm (map (Rmult c) d) = Rabs c * vector_norm d.
Proof.
  unfold vector_norm. rewrite map_map.
  replace (sum_R (map (fun x => c * x * (c * x)) d))
    with (c * c * sum_R (map (fun x => x * x) d)).
  - rewrite sqrt_mult; [| nra | apply sum_squares_nonneg].
    f_equal. change (c * c) with (Rsqr c). apply sqrt_Rsqr_abs.
  - induction d as [| x d IH]; unfold sum_R in *; simpl; [lra |].
    rewrite <- IH. ring.
Qed.

(** X12: [adaptive_gradient_clipping_] with [clip_val > 0] and [eps > 0]
    on non-empty lists of one length multiplies every gradient by a
    factor between 0 and 1, after which its norm is at most
    [clip_val * max(norm(p), minimum)]; a gradient whose norm is at least
    [eps] and already within that bound is left as it is.  With
    [clip_val > 0] and empty lists the first [torch._foreach_norm]
    raises.  With [clip_val <= 0] nothing is changed. *)
Theorem X12_adaptive_gradient_clipping (parameters gradients : list Tensor)
    (clip_val minimum eps : R) :
  0 < eps -> length parameters = length gradients ->
  (clip_val <= 0 ->
   adaptive_gradient_clipping_ parameters gradients clip_val minimum eps
     = Ok gradients) /\
  (0 < clip_val -> parameters = [] ->
   adaptive_gradient_clipping_ parameters gradients clip_val minimum eps
     = Err (RuntimeError "Tensor list must have at least one tensor.")) /\
  (0 < clip_val -> parameters <> [] ->
   exists clipped : list Tensor,
     adaptive_gradient_clipping_ parameters gradients clip_val minimum eps
       = Ok clipped /\
     length clipped = length gradients /\
     forall (i : nat) (p g : Tensor),
       parameters !! i = Some p -> gradients !! i = Some g ->
       let bound := clip_val * Rmax (vector_norm (t_data p)) minimum in
       exists c : R,
         clipped !! i = Some (scale_tensor c g) /\
         0 <= c <= 1 /\
         vector_norm (t_data (scale_tensor c g)) <= bound /\
         vector_norm (t_data (scale_tensor c g)) <= vector_norm (t_data g) /\
         (eps <= vector_norm (t_data g) <= bound -> c = 1)).
Proof.
  intros Heps Hlen. unfold adaptive_gradient_clipping_. split; [| split].
  - intros Hc. destruct (Rle_dec clip_val 0); [reflexivity | lra].
  - intros Hc ->. destruct (Rle_dec clip_val 0) as [Hle | _]; [lra |].
    reflexivity.
  - intros Hc Hne. destruct (Rle_dec clip_val 0) as [Hle | _]; [lra |].
    destruct parameters as [| p0 parameters']; [contradiction |].
    destruct gradients as [| g0 gradients']; [discriminate Hlen |].
    set (parameters := p0 :: parameters') in *.
    set (gradients := g0 :: gradients') in *.
    rewrite !length_map, Hlen, Nat.eqb_refl.
    eexists. split; [reflexivity |]. split.
    { rewrite length_zip_with, !length_map, length_zip_with, !length_map.
      lia. }
    intros i p g Hp Hg.
    set (P := Rmax (vector_norm (t_data p)) minimum) in *.
    set (G := Rmax (vector_norm (t_data g)) eps).
    exists (Rmin (P / G * clip_val) 1).
    assert (HG : 0 < G) by (unfold G; pose proof (Rmax_r (vector_norm (t_data g)) eps); lra).
    assert (HgG : vector_norm (t_data g) <= G) by apply Rmax_l.
    assert (HP : 0 <= P).
    { unfold P. pose proof (Rmax_l (vector_norm (t_data p)) minimum).
      pose proof (vector_norm_nonneg (t_data p)). lra. }
    pose proof (vector_norm_nonneg (t_data g)) as Hg0.
    assert (Hratio : 0 <= P / G * clip_val).
    { apply Rmult_le_pos; [| lra].
      apply Rmult_le_pos; [exact HP | left; apply Rinv_0_lt_compat, HG]. }
    assert (Hc01 : 0 <= Rmin (P / G * clip_val) 1 <= 1).
    { split; [apply Rmin_glb; lra | apply Rmin_r]. }
    split.
    { rewrite lookup_zip_with, Hg. cbn [option_bind mbind].
      rewrite !list_lookup_fmap, lookup_zip_with, !list_lookup_fmap.
      rewrite Hp, Hg. reflexivity. }
    split; [exact Hc01 |].
    cbn [scale_tensor t_data]. rewrite vector_norm_scale.
    rewrite (Rabs_pos_eq _ (proj1 Hc01)).
    split; [| split].
    + apply Rle_trans with (P / G * clip_val * vector_norm (t_data g)).
      * apply Rmult_le_compat_r; [exact Hg0 | apply Rmin_l].
      * assert (Hfrac : vector_norm (t_data g) / G <= 1).
        { apply (Rmult_le_reg_r G); [exact HG |].
          unfold Rdiv. rewrite Rmult_assoc, Rinv_l by lra. lra. }
        replace (P / G * clip_val * vector_norm (t_data g))
          with (clip_val * P * (vector_norm (t_data g) / G))
          by (unfold Rdiv; ring).
        assert (0 <= clip_val * P) by (apply Rmult_le_pos; lra).
        nra.
    + nra.
    + intros [Hlo Hhi].
      assert (HGeq : G = vector_norm (t_data g)) by (unfold G; apply Rmax_left; lra).
      apply Rmin_right.
      apply (Rmult_le_reg_r G); [exact HG |].
      unfold Rdiv. rewrite Rmult_1_l.
      replace (P * / G * clip_val * G) with (clip_val * P * (/ G * G)) by ring.
      rewrite Rinv_l by lra. lra.
Qed.

Lemma X12_adaptive_gradient_clipping_witness :
  exists clipped : list Tensor,
    adaptive_gradient_clipping_
      [mkTensor float32 [2]%Z [3; 4]] [mkTensor float32 [2]%Z [30; 40]]
      1 0.001 0.00000001 = Ok clipped /\
    length clipped = 1%nat.
Proof.
  destruct (X12_adaptive_gradient_clipping
              [mkTensor float32 [2]%Z [3; 4]]
              [mkTensor float32 [2]%Z [30; 40]]
              1 0.001 0.00000001 ltac:(lra) eq_refl)
    as (_ & _ & Hclip).
  destruct (Hclip ltac:(lra) ltac:(discriminate))
    as (clipped & Hrun & Hlen & _).
  exists clipped. split; [exact Hrun | exact Hlen].
Defined.
End ClippingFacts.

Section ExpAvgSqFacts.
Import ExpAvgSq.
Open Scope R_scope.

Lemma nth_map_R (f : R -> R) (l : list R) (i : nat) :
  (i < length l)%nat -> nth i (map f l) 0 = f (nth i l 0).
Proof.
  revert i. induction l as [| x l IH]; intros i Hi; simpl in Hi; [lia |].
  destruct i as [| i]; simpl; [reflexivity | apply IH; lia].
Qed.

(** X13: for [0 <= beta2 < 1] and [eps > 0], if the second-moment
    estimate has no negative entry then after [exp_avg_sq_] it still has
    none, every entry of the returned denominator is at least [eps] and
    at least [sqrt(1 - beta2) * |g|] for the gradient entry [g] it was
    updated with: dividing the gradient by the denominator gives entries
    of magnitude at most [1 / sqrt(1 - beta2)]. *)
Theorem X13_exp_avg_sq_denominator (state grad : Tensor) (beta2 eps : R)
    (i : nat) :
  0 <= beta2 < 1 -> 0 < eps ->
  length (t_data state) = length (t_data grad) ->
  Forall (fun s => 0 <= s) (t_data state) ->
  (i < length (t_data grad))%nat ->
  let '(state', denom) := exp_avg_sq_ state grad beta2 eps in
  let g := nth i (t_data grad) 0 in
  let d := nth i (t_data denom) 0 in
  Forall (fun s => 0 <= s) (t_data state') /\
  t_shape state' = t_shape state /\
  eps <= d /\
  sqrt (1 - beta2) * Rabs g <= d /\
  Rabs (g / d) <= / sqrt (1 - beta2).
Proof.
  intros Hb Heps Hlen Hpos Hi. unfold exp_avg_sq_. cbv zeta.
  cbn [second_moment denominator Ops.with_data t_data t_shape].
  set (upd := fun s g : R => s * beta2 + (1 - beta2) * (g * g)).
  assert (Hs' : Forall (fun s => 0 <= s)
                  (zip_with upd (t_data state) (t_data grad))).
  { clear Hi Hlen. revert Hpos. generalize (t_data grad).
    induction (t_data state) as [| s l IH]; intros k Hpos;
      [constructor |].
    destruct k as [| g k]; [constructor |].
    inversion Hpos; subst. simpl. constructor; [| apply IH; assumption].
    unfold upd. assert (0 <= g * g) by nra. nra. }
  split; [exact Hs' |]. split; [reflexivity |].
  rewrite nth_map_R by (rewrite length_zip_with; lia).
  rewrite (nth_zip_with_R upd) by lia.
  set (s := nth i (t_data state) 0). set (g := nth i (t_data grad) 0).
  assert (Hs : 0 <= s).
  { unfold s. rewrite Forall_forall in Hpos. apply Hpos.
    apply list_elem_of_In, nth_In. lia. }
  assert (Hgg : 0 <= g * g) by nra.
  assert (Hlow : (1 - beta2) * (g * g) <= upd s g) by (unfold upd; nra).
  assert (Hsq : sqrt (1 - beta2) * Rabs g <= sqrt (upd s g)).
  { rewrite <- (sqrt_Rsqr_abs g), <- sqrt_mult by (unfold Rsqr; nra || lra).
    apply sqrt_le_1_alt. exact Hlow. }
  assert (Hd : sqrt (upd s g) <= Rmax (sqrt (upd s g)) eps) by apply Rmax_l.
  assert (He : eps <= Rmax (sqrt (upd s g)) eps) by apply Rmax_r.
  set (d := Rmax (sqrt (upd s g)) eps) in *.
  assert (Hroot : 0 < sqrt (1 - beta2)) by (apply sqrt_lt_R0; lra).
  split; [exact He |]. split; [lra |].
  unfold Rdiv. rewrite Rabs_mult, (Rabs_inv d), (Rabs_pos_eq d) by lra.
  apply (Rmult_le_reg_r d); [lra |].
  rewrite Rmult_assoc, Rinv_l, Rmult_1_r by lra.
  apply (Rmult_le_reg_l (sqrt (1 - beta2))); [exact Hroot |].
  rewrite <- Rmult_assoc, Rinv_r, Rmult_1_l by lra. lra.
Qed.

Lemma X13_exp_avg_sq_denominator_witness :
  let '(state', denom) :=
    exp_avg_sq_ (mkTensor float32 [2]%Z [0; 1])
      (mkTensor float32 [2]%Z [3; -4]) 0.99 0.00000001 in
  0.00000001 <= nth 1 (t_data denom) 0 /\
  Forall (fun s => 0 <= s) (t_data state').
Proof.
  pose proof (X13_exp_avg_sq_denominator
                (mkTensor float32 [2]%Z [0; 1])
                (mkTensor float32 [2]%Z [3; -4]) 0.99 0.00000001 1%nat
                ltac:(lra) ltac:(lra) eq_refl
                ltac:(repeat constructor; lra) ltac:(simpl; lia)) as H.
  destruct (exp_avg_sq_ _ _ _ _) as [state' denom].
  destruct H as (Hpos & _ & Heps & _). split; [exact Heps | exact Hpos].
Defined.
End ExpAvgSqFacts.

Section EinsumFacts.
Import Einsum Shampoo GgtSubscripts.
Open Scope nat_scope.

Lemma subscripts_fine_all :
  forallb (fun rank => forallb (subscripts_fine rank) (seq 0 rank))
          (seq 0 27) = true.
Proof. vm_compute. reflexivity. Qed.

Lemma aligned_spec (la lb : list ascii) (sh : list Z) (p q : ascii * Z) :
  aligned la lb = true ->
  length la = length sh -> length lb = length sh ->
  In p (combine la sh) -> In q (combine lb sh) ->
  fst p = fst q -> snd p = snd q.
Proof.
  intros Hal Hla Hlb Hp Hq Heq.
  apply (In_nth _ _ (" "%char, 0%Z)) in Hp as (i & Hi & Hp).
  apply (In_nth _ _ (" "%char, 0%Z)) in Hq as (j & Hj & Hq).
  rewrite length_combine in Hi, Hj.
  rewrite combine_nth in Hp, Hq by assumption.
  subst p q. simpl in *.
  unfold aligned in Hal.
  rewrite forallb_forall in Hal.
  specialize (Hal i ltac:(apply in_seq; lia)).
  rewrite forallb_forall in Hal.
  specialize (Hal j ltac:(apply in_seq; lia)).
  rewrite Heq in Hal.
  rewrite (proj2 (Ascii.eqb_eq _ _) eq_refl) in Hal. simpl in Hal.
  apply Nat.eqb_eq in Hal. subst j. reflexivity.
Qed.

Lemma strict_aligned (la : list ascii) (sh : list Z) :
  aligned la la = true -> length la = length sh ->
  strict (combine la sh) = true.
Proof.
  intros Hal Hla. unfold strict.
  apply forallb_forall. intros p Hp.
  apply forallb_forall. intros q Hq.
  destruct (Ascii.eqb (fst p) (fst q)) eqn:E; [| reflexivity].
  apply Ascii.eqb_eq in E. simpl.
  apply Z.eqb_eq. exact (aligned_spec la la sh p q Hal Hla Hla Hp Hq E).
Qed.

Lemma broadcastable_aligned (la lb : list ascii) (sh : list Z) :
  aligned la la = true -> aligned la lb = true ->
  aligned lb la = true -> aligned lb lb = true ->
  length la = length sh -> length lb = length sh ->
  broadcastable (combine la sh ++ combine lb sh) = true.
Proof.
  intros Haa Hab Hba Hbb Hla Hlb. unfold broadcastable.
  apply forallb_forall. intros p Hp.
  apply forallb_forall. intros q Hq.
  destruct (Ascii.eqb (fst p) (fst q)) eqn:E; [| reflexivity].
  apply Ascii.eqb_eq in E. simpl.
  assert (Hs : snd p = snd q).
  { apply in_app_or in Hp. apply in_app_or in Hq.
    destruct Hp as [Hp | Hp], Hq as [Hq | Hq].
    - exact (aligned_spec la la sh p q Haa Hla Hla Hp Hq E).
    - exact (aligned_spec la lb sh p q Hab Hla Hlb Hp Hq E).
    - exact (aligned_spec lb la sh p q Hba Hlb Hla Hp Hq E).
    - exact (aligned_spec lb lb sh p q Hbb Hlb Hlb Hp Hq E). }
  rewrite (proj2 (Z.eqb_eq _ _) Hs). reflexivity.
Qed.

(** For a gradient of rank at most 26 [torch.einsum] accepts the
    expression of every axis. *)
Lemma ggt_expr_valid (rank idx : nat) (sh : list Z) :
  rank <= 26 -> idx < rank -> length sh = rank ->
  exists e, ggt_expr rank idx = Ok e /\ valid e [sh; sh] = true.
Proof.
  intros Hrank Hidx Hsh.
  pose proof subscripts_fine_all as Hall.
  rewrite forallb_forall in Hall.
  specialize (Hall rank ltac:(apply in_seq; lia)).
  rewrite forallb_forall in Hall.
  specialize (Hall idx ltac:(apply in_seq; lia)).
  unfold subscripts_fine, ggt_subscripts in Hall.
  destruct (ggt_expr rank idx) as [e |]; [| discriminate Hall].
  exists e. split; [reflexivity |]. unfold valid.
  destruct (split_arrow _) as [[lhs out] |]; [| discriminate Hall].
  destruct (split_on "," lhs) as [| la [| lb [| ? ?]]];
    try discriminate Hall.
  apply andb_prop in Hall as [Hall Hout].
  apply andb_prop in Hall as [Hall Hbb].
  apply andb_prop in Hall as [Hall Hba].
  apply andb_prop in Hall as [Hall Hab].
  apply andb_prop in Hall as [Hall Haa].
  apply andb_prop in Hall as [Hall Hletb].
  apply andb_prop in Hall as [Hall Hleta].
  apply andb_prop in Hall as [Hla Hlb].
  apply Nat.eqb_eq in Hla, Hlb.
  assert (Hla' : length la = length sh) by lia.
  assert (Hlb' : length lb = length sh) by lia.
  cbn [operands_ok zip_with concat]. unfold operand_ok.
  rewrite app_nil_r.
  rewrite (proj2 (Nat.eqb_eq _ _) Hla'), (proj2 (Nat.eqb_eq _ _) Hlb').
  rewrite !strict_aligned, broadcastable_aligned by assumption.
  rewrite Hleta, Hletb, Hout. reflexivity.
Qed.
End EinsumFacts.

Section ShampooFacts.
Import Shampoo.
Context `{TorchLib}.
Open Scope Z_scope.

Lemma slots_insert (GG : list (option Tensor)) (idx : nat) (m m' : Tensor) :
  GG !! idx = Some (Some m) ->
  t_dtype m' = t_dtype m -> t_shape m' = t_shape m ->
  slots (<[idx := Some m']> GG) = slots GG.
Proof.
  intros Hm Hdtype Hshape. unfold slots.
  change (map ?f) with (fmap (M:=list) f).
  rewrite list_fmap_insert. apply list_insert_id.
  rewrite list_lookup_fmap, Hm. simpl. rewrite Hdtype, Hshape. reflexivity.
Qed.

Lemma slots_lookup (GG GG0 : list (option Tensor)) (k : nat) (t : Tensor) :
  slots GG = slots GG0 -> GG0 !! k = Some (Some t) ->
  exists t', GG !! k = Some (Some t') /\ t_dtype t' = t_dtype t.
Proof.
  intros Heq Ht.
  assert (Hs : slots GG !! k = Some (Some (t_dtype t, t_shape t))).
  { rewrite Heq. unfold slots.
    change (map ?f) with (fmap (M:=list) f).
    rewrite list_lookup_fmap, Ht. reflexivity. }
  unfold slots in Hs.
  change (map ?f) with (fmap (M:=list) f) in Hs.
  rewrite list_lookup_fmap in Hs.
  destruct (GG !! k) as [[t0 |] |]; try discriminate Hs.
  exists t0. split; [reflexivity |]. simpl in Hs. congruence.
Qed.

(** From axis [idx] on, if every axis within the cap has a matrix of the
    dtype of the gradient in its slot, the loop runs through and keeps
    the slots. *)
Lemma ggt_loop_keeps_slots (grad : Tensor) (m : Z) (beta : R)
    (dims : list Z) :
  (ndim grad <= 26)%nat ->
  Promote.is_half (t_dtype grad) = false ->
  (forall e, t_dtype (einsum e [grad; grad]) = t_dtype grad) ->
  forall (idx : nat) (GG : list (option Tensor)),
    (idx + length dims <= ndim grad)%nat ->
    (forall k sh, dims !! k = Some sh -> (sh >? m) = false ->
       exists t, GG !! (idx + k)%nat = Some (Some t) /\
                 t_dtype t = t_dtype grad) ->
    exists GG', ggt_loop grad m beta idx dims GG = Ok GG' /\
                slots GG' = slots GG.
Proof.
  intros Hrank Hhalf Heinsum.
  induction dims as [| sh dims IH]; intros idx GG Hlen Hslots; simpl.
  - eexists. split; reflexivity.
  - simpl in Hlen.
    assert (Hnext : forall GG0, slots GG0 = slots GG ->
              forall k sh0, dims !! k = Some sh0 -> (sh0 >? m) = false ->
              exists t, GG0 !! (S idx + k)%nat = Some (Some t) /\
                        t_dtype t = t_dtype grad).
    { intros GG0 Heq k sh0 Hk Hsh0.
      destruct (Hslots (S k) sh0 Hk Hsh0) as (t & Ht & Hdt).
      replace (idx + S k)%nat with (S idx + k)%nat in Ht by lia.
      destruct (slots_lookup GG0 GG _ t Heq Ht) as (t0 & Ht0 & Hdt0).
      exists t0. split; [exact Ht0 | congruence]. }
    destruct (sh >? m) eqn:Hbig.
    + apply IH; [lia | apply Hnext; reflexivity].
    + destruct (ggt_expr_valid (ndim grad) idx (t_shape grad)
                  Hrank ltac:(lia) eq_refl) as (e & -> & ->).
      cbn [negb].
      destruct (Hslots 0%nat sh eq_refl Hbig) as (t & Ht & Hdt).
      rewrite Nat.add_0_r in Ht. rewrite Ht.
      assert (Hprom : promoted (einsum e [grad; grad])
                      = einsum e [grad; grad]).
      { unfold promoted. rewrite Heinsum, Hhalf. reflexivity. }
      rewrite Hprom, Heinsum, Hdt.
      assert (Hrefl : dtype_eqb (t_dtype grad) (t_dtype grad) = true)
        by (destruct (t_dtype grad); reflexivity).
      rewrite Hrefl.
      set (t' := lerp_tensor t (einsum e [grad; grad]) (1 - beta)).
      assert (Hkeep : slots (<[idx := Some t']> GG) = slots GG)
        by (apply (slots_insert GG idx t t' Ht); reflexivity).
      destruct (IH (S idx) (<[idx := Some t']> GG) ltac:(lia)
                  (Hnext _ Hkeep)) as (GG' & Hrun & Hs).
      exists GG'. split; [exact Hrun | rewrite Hs; exact Hkeep].
Qed.

(** X14: [compute_ggt] and [init_preconditioner] agree on which axes
    carry statistics.  Take a gradient of rank at most 26 that is not
    half precision, and [torch.einsum] to return a tensor of the dtype of
    its operands.  If the slots of [GG] are those that
    [init_preconditioner] lays out for this gradient, cap and
    [precondition_1d] (matrices or empty lists, and the dtypes and shapes
    of the matrices), then [compute_ggt] with these arguments returns,
    never reaches an empty slot, and leaves the same slots: the
    statistics can be accumulated step after step. *)
Theorem X14_compute_ggt_keeps_slots (grad : Tensor)
    (GG : list (option Tensor)) (max_precond_dim : Z)
    (precondition_1d : bool) (beta : R) :
  (ndim grad <= 26)%nat ->
  Promote.is_half (t_dtype grad) = false ->
  (forall e : string, t_dtype (einsum e [grad; grad]) = t_dtype grad) ->
  slots GG = slots (init_preconditioner grad max_precond_dim precondition_1d) ->
  exists GG' : list (option Tensor),
    compute_ggt grad GG max_precond_dim precondition_1d beta = Ok GG' /\
    slots GG' = slots GG.
Proof.
  intros Hrank Hhalf Heinsum Hslots. unfold compute_ggt.
  destruct ((ndim grad =? 1)%nat
            && (negb precondition_1d
                || (nth 0 (t_shape grad) 0 >? max_precond_dim))) eqn:Hearly.
  { eexists. split; reflexivity. }
  apply ggt_loop_keeps_slots; try assumption; [unfold ndim; simpl; lia |].
  intros k sh Hk Hsh. simpl.
  unfold init_preconditioner in Hslots.
  destruct (ndim grad =? 1)%nat eqn:Hone.
  - simpl in Hearly. rewrite Hearly in Hslots.
    apply Nat.eqb_eq in Hone. unfold ndim in Hone.
    destruct (t_shape grad) as [| n [| ? ?]]; try discriminate Hone.
    destruct k as [| k]; [| discriminate Hk].
    exact (slots_lookup _ _ 0%nat (zeros2 _ (t_dtype grad)) Hslots eq_refl).
  - assert (Hz : (map (fun sh => if sh >? max_precond_dim then None
                                 else Some (zeros2 sh (t_dtype grad)))
                      (t_shape grad)) !! k
                 = Some (Some (zeros2 sh (t_dtype grad)))).
    { change (map ?f) with (fmap (M:=list) f).
      rewrite list_lookup_fmap, Hk. simpl. rewrite Hsh. reflexivity. }
    exact (slots_lookup _ _ _ _ Hslots Hz).
Qed.

(** X15: the cap given to [compute_ggt] has to be the one the slots were
    laid out with.  If the first axis of a gradient of rank 2 to 26 is
    above the cap of [init_preconditioner] and within the cap given to
    [compute_ggt], the update reaches the empty list in slot 0 and raises
    [AttributeError]. *)
Theorem X15_compute_ggt_cap_mismatch (grad : Tensor) (sh sh' : Z)
    (rest : list Z) (m m' : Z) (precondition_1d : bool) (beta : R) :
  t_shape grad = sh :: sh' :: rest ->
  (ndim grad <= 26)%nat ->
  m < sh <= m' ->
  compute_ggt grad (init_preconditioner grad m precondition_1d) m'
    precondition_1d beta
  = Err (AttributeError "'list' object has no attribute 'lerp_'").
Proof.
  intros Hshape Hrank [Hlo Hhi].
  destruct (ggt_expr_valid (ndim grad) 0 (t_shape grad) Hrank
              ltac:(unfold ndim; rewrite Hshape; simpl; lia) eq_refl)
    as (e & He & Hvalid).
  unfold compute_ggt, init_preconditioner.
  assert (Hone : (ndim grad =? 1)%nat = false)
    by (unfold ndim; rewrite Hshape; reflexivity).
  rewrite Hone. cbn [andb]. rewrite Hshape. cbn [map ggt_loop].
  assert (E1 : (sh >? m') = false) by (rewrite Z.gtb_ltb; apply Z.ltb_ge; lia).
  assert (E2 : (sh >? m) = true) by (apply Z.gtb_lt; lia).
  rewrite E1, E2, He, Hvalid. reflexivity.
Qed.

End ShampooFacts.

Section ShampooInstance.
Import Shampoo Gram.
Open Scope Z_scope.

Lemma X14_compute_ggt_keeps_slots_witness :
  exists GG' : list (option Tensor),
    compute_ggt grad_2x3 (init_preconditioner grad_2x3 2 false) 2 false
      0.95%R = Ok GG' /\
    slots GG' = [Some (float32, [2; 2]); None].
Proof.
  destruct (X14_compute_ggt_keeps_slots grad_2x3
              (init_preconditioner grad_2x3 2 false) 2 false 0.95%R
              ltac:(unfold ndim, grad_2x3; simpl; lia) eq_refl
              (fun _ => eq_refl) eq_refl)
    as (GG' & Hrun & Hs).
  exists GG'. split; [exact Hrun | rewrite Hs; reflexivity].
Defined.

Lemma X15_compute_ggt_cap_mismatch_witness :
  compute_ggt grad_2x3 (init_preconditioner grad_2x3 1 false) 2 false
    0.95%R
  = Err (AttributeError "'list' object has no attribute 'lerp_'").
Proof.
  apply (X15_compute_ggt_cap_mismatch grad_2x3 2 3 [] 1 2 false 0.95%R
           eq_refl).
  - unfold ndim, grad_2x3. simpl. lia.
  - lia.
Defined.
End ShampooInstance.

Section GramFacts.
Import Shampoo Gram Ops.
Open Scope R_scope.

Lemma sum_R_nonneg (l : list R) : Forall (fun x => 0 <= x) l -> 0 <= sum_R l.
Proof.
  induction 1 as [| x l Hx _ IH]; unfold sum_R in *; simpl; lra.
Qed.

Lemma gram_axis_size (grad : Tensor) (idx : nat) :
  nth idx (map Z.to_nat (t_shape grad)) 0%nat
    = Z.to_nat (nth idx (t_shape grad) 0%Z).
Proof. change 0%nat with (Z.to_nat 0). apply map_nth. Qed.

(** The contraction is a symmetric matrix with sums of squares on its
    diagonal. *)
Lemma gram_symmetric (grad : Tensor) (idx : nat) :
  symmetric_nonneg_diag (Z.to_nat (nth idx (t_shape grad) 0%Z))
    (gram grad idx).
Proof.
  unfold gram. rewrite gram_axis_size.
  set (n := Z.to_nat (nth idx (t_shape grad) 0%Z)).
  set (outer := fold_right Nat.mul 1%nat _).
  set (inner := fold_right Nat.mul 1%nat _).
  split; [| split].
  - split; [reflexivity |]. cbn [mk_mat t_data]. apply table_length.
  - intros x y Hx Hy. rewrite !get2_mk_mat by assumption.
    f_equal. apply flat_map_ext. intros a. apply map_ext. intros c.
    apply Rmult_comm.
  - intros x Hx. rewrite get2_mk_mat by assumption.
    apply sum_R_nonneg. apply Forall_forall. intros v Hv.
    apply list_elem_of_In, in_flat_map in Hv as (a & _ & Hv).
    apply in_map_iff in Hv as (c & <- & _). nra.
Qed.

(** Interpolating between two such matrices with a weight in [0, 1]
    gives such a matrix. *)
Lemma lerp_symmetric (n : nat) (m e : Tensor) (w : R) :
  0 <= w <= 1 ->
  symmetric_nonneg_diag n m -> symmetric_nonneg_diag n e ->
  symmetric_nonneg_diag n (lerp_tensor m e w).
Proof.
  intros Hw (Hsqm & Hsymm & Hdm) (Hsqe & Hsyme & Hde).
  destruct (square_dims n m Hsqm) as (_ & Hcm & _).
  destruct (square_dims n e Hsqe) as (_ & Hce & _).
  destruct Hsqm as [Hshm Hlm]. destruct Hsqe as [Hshe Hle].
  assert (Hentry : forall x y, (x < n)%nat -> (y < n)%nat ->
            get2 (lerp_tensor m e w) x y
              = get2 m x y + w * (get2 e x y - get2 m x y)).
  { intros x y Hx Hy. unfold get2, mat_entry.
    replace (ncols (lerp_tensor m e w)) with n
      by (unfold ncols, lerp_tensor, with_data; simpl; exact (eq_sym Hcm)).
    rewrite Hcm, Hce. cbn [lerp_tensor with_data t_data].
    apply nth_zip_with_R; nia. }
  split; [| split].
  - split; [exact Hshm |].
    cbn [lerp_tensor with_data t_data]. rewrite length_zip_with. lia.
  - intros x y Hx Hy. rewrite !Hentry by assumption.
    rewrite (Hsymm x y), (Hsyme x y) by assumption. reflexivity.
  - intros x Hx. rewrite Hentry by assumption.
    specialize (Hdm x Hx). specialize (Hde x Hx). nra.
Qed.

(** [promote] keeps the shape and the entries. *)
Lemma promoted_symmetric (n : nat) (t : Tensor) :
  symmetric_nonneg_diag n t -> symmetric_nonneg_diag n (promoted t).
Proof.
  unfold promoted. destruct (Promote.is_half (t_dtype t)); [| tauto].
  intros Ht. exact Ht.
Qed.
End GramFacts.

Section GramLoop.
Import Shampoo Gram Ops.
Context `{TorchLib}.
Open Scope R_scope.

(** A property of the matrices in the slots that every single update
    keeps is kept by the loop. *)
Lemma ggt_loop_invariant (P : nat -> Tensor -> Prop) (grad : Tensor)
    (m : Z) (beta : R) (dims : list Z) :
  forall (idx : nat) (GG GG' : list (option Tensor)),
    (forall k e t, (k < idx + length dims)%nat ->
       ggt_expr (ndim grad) k = Ok e -> P k t ->
       P k (lerp_tensor t (promoted (einsum e [grad; grad])) (1 - beta))) ->
    (forall k t, GG !! k = Some (Some t) -> P k t) ->
    ggt_loop grad m beta idx dims GG = Ok GG' ->
    forall k t, GG' !! k = Some (Some t) -> P k t.
Proof.
  induction dims as [| sh dims IH]; intros idx GG GG' Hstep HP Hrun;
    simpl in Hrun.
  - injection Hrun as <-. exact HP.
  - assert (Hstep' : forall k e t, (k < S idx + length dims)%nat ->
              ggt_expr (ndim grad) k = Ok e -> P k t ->
              P k (lerp_tensor t (promoted (einsum e [grad; grad]))
                     (1 - beta))).
    { intros k e t Hk. apply Hstep. simpl. lia. }
    destruct (sh >? m)%Z.
    + exact (IH (S idx) GG GG' Hstep' HP Hrun).
    + destruct (ggt_expr (ndim grad) idx) as [e |] eqn:He;
        [| discriminate Hrun].
      destruct (negb (Einsum.valid e [t_shape grad; t_shape grad]));
        [discriminate Hrun |].
      destruct (GG !! idx) as [[t0 |] |] eqn:Ht0; try discriminate Hrun.
      destruct (dtype_eqb (t_dtype t0) _); [| discriminate Hrun].
      refine (IH (S idx) _ GG' Hstep' _ Hrun).
      intros k t Hk.
      destruct (decide (k = idx)) as [-> | Hne].
      * rewrite list_lookup_insert_eq in Hk
          by (apply lookup_lt_Some in Ht0; exact Ht0).
        injection Hk as <-.
        apply Hstep; [simpl; lia | exact He | apply HP; exact Ht0].
      * rewrite list_lookup_insert_ne in Hk by congruence.
        apply HP. exact Hk.
Qed.

(** X16: the statistics stay symmetric.  Take [0 <= beta <= 1] and
    [einsum] on the expressions of [compute_ggt] to be the contraction
    [gram].  If every matrix in [GG] is a well-formed symmetric matrix of
    the size of its axis without a negative diagonal entry, as the zero
    matrices of [init_preconditioner] are, then so is every matrix after
    [compute_ggt]. *)
Theorem X16_compute_ggt_symmetric (grad : Tensor)
    (GG GG' : list (option Tensor)) (max_precond_dim : Z)
    (precondition_1d : bool) (beta : R) :
  0 <= beta <= 1 ->
  (forall (idx : nat) (e : string), (idx < ndim grad)%nat ->
     ggt_expr (ndim grad) idx = Ok e ->
     einsum e [grad; grad] = gram grad idx) ->
  (forall (k : nat) (t : Tensor), GG !! k = Some (Some t) ->
     symmetric_nonneg_diag (Z.to_nat (nth k (t_shape grad) 0%Z)) t) ->
  compute_ggt grad GG max_precond_dim precondition_1d beta = Ok GG' ->
  forall (k : nat) (t : Tensor), GG' !! k = Some (Some t) ->
    symmetric_nonneg_diag (Z.to_nat (nth k (t_shape grad) 0%Z)) t.
Proof.
  intros Hb Heinsum HGG Hrun. unfold compute_ggt in Hrun.
  destruct ((ndim grad =? 1)%nat && _).
  - injection Hrun as <-. exact HGG.
  - apply (ggt_loop_invariant
             (fun k t =>
                symmetric_nonneg_diag (Z.to_nat (nth k (t_shape grad) 0%Z)) t)
             grad max_precond_dim beta (t_shape grad) 0%nat GG GG');
      [| exact HGG | exact Hrun].
    intros k e t Hk He Ht. rewrite (Heinsum k e Hk He).
    apply lerp_symmetric;
      [lra | exact Ht | apply promoted_symmetric, gram_symmetric].
Qed.
End GramLoop.

Section GramInstance.
Import Shampoo Gram Ops.
Open Scope R_scope.

Lemma zeros2_symmetric (n : nat) (dt : dtype) :
  symmetric_nonneg_diag n (zeros2 (Z.of_nat n) dt).
Proof.
  assert (Hentry : forall x y, (x < n)%nat -> (y < n)%nat ->
            get2 (zeros2 (Z.of_nat n) dt) x y = 0).
  { intros x y Hx Hy. unfold get2, mat_entry, zeros2. cbn [t_data].
    rewrite Nat2Z.id. apply nth_repeat. }
  split; [| split].
  - split; [reflexivity |]. unfold zeros2. cbn [t_data].
    rewrite repeat_length, Nat2Z.id. reflexivity.
  - intros x y Hx Hy. rewrite !Hentry by assumption. reflexivity.
  - intros x Hx. rewrite Hentry by assumption. lra.
Qed.

Lemma X16_compute_ggt_symmetric_witness :
  exists GG' : list (option Tensor),
    compute_ggt grad_2x3 (init_preconditioner grad_2x3 3 false) 3 false 0.95
      = Ok GG' /\
    forall (k : nat) (t : Tensor), GG' !! k = Some (Some t) ->
      symmetric_nonneg_diag (Z.to_nat (nth k [2; 3]%Z 0%Z)) t.
Proof.
  eexists. split; [reflexivity |].
  apply (X16_compute_ggt_symmetric grad_2x3
           (init_preconditioner grad_2x3 3 false) _ 3 false 0.95).
  - lra.
  - intros idx e Hidx He.
    destruct idx as [| [| idx]]; [| | unfold ndim in Hidx; simpl in Hidx; lia];
      injection He as <-; reflexivity.
  - intros k t Hk.
    destruct k as [| [| k]]; [| | discriminate Hk];
      injection Hk as <-.
    + apply (zeros2_symmetric 2).
    + apply (zeros2_symmetric 3).
  - reflexivity.
Defined.
End GramInstance.

Section MemFacts.
Import Py Mem.

Lemma load_ok (h : heap) (l : loc) (t : Tensor) :
  h !! l = Some (OTensor t) -> load l h = (h, Ok t).
Proof. unfold load. intros ->. reflexivity. Qed.

Lemma holds_length (h : heap) (ls : list loc) (ts : list Tensor) :
  holds h ls ts -> length ls = length ts.
Proof. apply Forall2_length. Qed.

Lemma holds_frame (h h' : heap) (ls : list loc) (ts : list Tensor) :
  holds h ls ts -> (forall l, l ∈ ls -> h' !! l = h !! l) -> holds h' ls ts.
Proof.
  intros Hh Hsame. induction Hh as [| l t ls ts Hl _ IH]; constructor.
  - rewrite Hsame by apply list_elem_of_here. exact Hl.
  - apply IH. intros l0 Hl0. apply Hsame, list_elem_of_further, Hl0.
Qed.

Lemma holds_lookup (h : heap) (ls : list loc) (ts : list Tensor)
    (i : nat) (l : loc) :
  holds h ls ts -> ls !! i = Some l ->
  exists t, ts !! i = Some t /\ h !! l = Some (OTensor t).
Proof.
  intros Hh Hl. destruct (Forall2_lookup_l _ _ _ _ _ Hh Hl) as (t & Ht & Hlt).
  exists t. split; assumption.
Qed.

Lemma nonempty_ok (ls : list loc) (h : heap) :
  ls <> [] -> nonempty ls h = (h, Ok tt).
Proof. destruct ls; [contradiction | reflexivity]. Qed.

(** The loop of [foreach_] on distinct tensors: each is replaced by [f]
    of itself, nothing else changes. *)
Lemma forM_store_spec (f : Tensor -> Tensor) (ls : list loc) :
  forall (ts : list Tensor) (h : heap),
    NoDup ls -> holds h ls ts ->
    exists h', forM_ (fun l => let! t := load l in store l (f t)) ls h
                 = (h', Ok tt) /\
               holds h' ls (map f ts) /\
               (forall l, l ∉ ls -> h' !! l = h !! l).
Proof.
  induction ls as [| l ls IH]; intros ts h Hnd Hh.
  - inversion Hh; subst. exists h. repeat split; constructor.
  - inversion Hh as [| ? t ? ts' Hl Hrest]; subst.
    apply NoDup_cons in Hnd as [Hnotin Hnd].
    set (h1 := <[l := OTensor (f t)]> h).
    assert (Hh1 : holds h1 ls ts').
    { apply (holds_frame h); [exact Hrest |].
      intros l0 Hl0. unfold h1. apply lookup_insert_ne.
      intros ->. contradiction. }
    destruct (IH ts' h1 Hnd Hh1) as (h' & Hrun & Hres & Hframe).
    exists h'. split; [| split].
    + cbn [forM_].
      rewrite (bind_Ok _ _ h h1 tt);
        [exact Hrun | rewrite (bind_Ok _ _ h h t (load_ok h l t Hl)); reflexivity].
    + simpl. constructor; [| exact Hres].
      rewrite (Hframe l Hnotin). unfold h1. apply lookup_insert_eq.
    + intros l0 Hl0. apply not_elem_of_cons in Hl0 as [Hne Hl0].
      rewrite (Hframe l0 Hl0). unfold h1. apply lookup_insert_ne. congruence.
Qed.

(** [foreach_] on a list of distinct tensors that is not empty. *)
Lemma foreach_spec (f : Tensor -> Tensor) (ls : list loc)
    (ts : list Tensor) (h : heap) :
  ls <> [] -> NoDup ls -> holds h ls ts ->
  exists h', foreach_ f ls h = (h', Ok tt) /\
             holds h' ls (map f ts) /\
             (forall l, l ∉ ls -> h' !! l = h !! l).
Proof.
  intros Hne Hnd Hh. unfold foreach_.
  rewrite (bind_Ok _ _ h h tt (nonempty_ok ls h Hne)).
  apply forM_store_spec; assumption.
Qed.

(** [pairwise_] on distinct targets whose partners are not targets. *)
Lemma pairwise_spec (f : Tensor -> Tensor -> Tensor) (ls : list loc) :
  forall (os : list loc) (ts us : list Tensor) (h : heap),
    NoDup ls -> holds h ls ts -> holds h os us ->
    length ls = length os ->
    (forall o, o ∈ os -> o ∉ ls) ->
    exists h', pairwise_ f (combine ls os) h = (h', Ok tt) /\
               holds h' ls (zip_with f ts us) /\
               (forall l, l ∉ ls -> h' !! l = h !! l).
Proof.
  induction ls as [| l ls IH]; intros os ts us h Hnd Hh Ho Hlen Hdisj.
  - inversion Hh; subst. exists h. repeat split; constructor.
  - destruct os as [| o os]; [discriminate Hlen |].
    inversion Hh as [| ? t ? ts' Hl Hrest]; subst.
    inversion Ho as [| ? u ? us' Hou Horest]; subst.
    apply NoDup_cons in Hnd as [Hnotin Hnd].
    set (h1 := <[l := OTensor (f t u)]> h).
    assert (Hh1 : holds h1 ls ts').
    { apply (holds_frame h); [exact Hrest |].
      intros l0 Hl0. unfold h1. apply lookup_insert_ne.
      intros ->. contradiction. }
    assert (Ho1 : holds h1 os us').
    { apply (holds_frame h); [exact Horest |].
      intros o0 Ho0. unfold h1. apply lookup_insert_ne.
      intros ->. apply (Hdisj o0); [apply list_elem_of_further, Ho0 |].
      apply list_elem_of_here. }
    destruct (IH os ts' us' h1 Hnd Hh1 Ho1 ltac:(simpl in Hlen; lia))
      as (h' & Hrun & Hres & Hframe).
    { intros o0 Ho0 Hin. apply (Hdisj o0);
        [apply list_elem_of_further, Ho0 | apply list_elem_of_further, Hin]. }
    exists h'. split; [| split].
    + unfold pairwise_. cbn [combine forM_ fst snd].
      rewrite (bind_Ok _ _ h h1 tt); [exact Hrun |].
      rewrite (bind_Ok _ _ h h t (load_ok h l t Hl)).
      rewrite (bind_Ok _ _ h h u (load_ok h o u Hou)). reflexivity.
    + simpl. constructor; [| exact Hres].
      rewrite (Hframe l Hnotin). unfold h1. apply lookup_insert_eq.
    + intros l0 Hl0. apply not_elem_of_cons in Hl0 as [Hne Hl0].
      rewrite (Hframe l0 Hl0). unfold h1. apply lookup_insert_ne. congruence.
Qed.

Lemma foreach2_spec (f : Tensor -> Tensor -> Tensor) (ls os : list loc)
    (ts us : list Tensor) (h : heap) :
  ls <> [] ->
  NoDup ls -> holds h ls ts -> holds h os us ->
  length ls = length os ->
  (forall o, o ∈ os -> o ∉ ls) ->
  exists h', foreach2_ f ls os h = (h', Ok tt) /\
             holds h' ls (zip_with f ts us) /\
             (forall l, l ∉ ls -> h' !! l = h !! l).
Proof.
  intros Hne Hnd Hh Ho Hlen Hdisj. unfold foreach2_.
  rewrite (bind_Ok _ _ h h tt (nonempty_ok ls h Hne)).
  rewrite Hlen, Nat.eqb_refl.
  apply pairwise_spec; assumption.
Qed.

(** New tensors computed from the contents of [ls]: the new locations
    are distinct and were free before, nothing that was there changes. *)
Lemma temporaries_spec (F : Tensor -> Tensor) (ls : list loc) :
  forall (ts : list Tensor) (h : heap),
    holds h ls ts ->
    exists h' os,
      mapM (fun g => let! t := load g in new (F t)) ls h = (h', Ok os) /\
      holds h' os (map F ts) /\
      NoDup os /\
      (forall o, o ∈ os -> h !! o = None) /\
      (forall l, l ∉ os -> h' !! l = h !! l).
Proof.
  induction ls as [| l ls IH]; intros ts h Hh.
  - inversion Hh; subst. exists h, []. repeat split; try constructor.
    intros o Ho. inversion Ho.
  - inversion Hh as [| ? t ? ts' Hl Hrest]; subst.
    set (l0 := fresh (dom h)).
    set (h1 := <[l0 := OTensor (F t)]> h).
    assert (Hfresh : h !! l0 = None).
    { apply not_elem_of_dom. apply is_fresh. }
    assert (Hh1 : holds h1 ls ts').
    { apply (holds_frame h); [exact Hrest |].
      intros l1 Hl1. unfold h1. apply lookup_insert_ne.
      intros <-. clear -Hrest Hl1 Hfresh.
      induction Hrest as [| a b ls ts Hab _ IHr]; [inversion Hl1 |].
      apply elem_of_cons in Hl1 as [-> | Hl1];
        [congruence | exact (IHr Hl1)]. }
    destruct (IH ts' h1 Hh1) as (h' & os & Hrun & Hres & Hnd & Hfree & Hframe).
    assert (Hl0 : l0 ∉ os).
    { intros Hin. specialize (Hfree l0 Hin). unfold h1 in Hfree.
      rewrite lookup_insert_eq in Hfree. discriminate Hfree. }
    exists h', (l0 :: os). split; [| split; [| split; [| split]]].
    + cbn [mapM].
      rewrite (bind_Ok _ _ h h1 l0);
        [| rewrite (bind_Ok _ _ h h t (load_ok h l t Hl)); reflexivity].
      rewrite (bind_Ok _ _ h1 h' os Hrun). reflexivity.
    + simpl. constructor; [| exact Hres].
      rewrite (Hframe l0 Hl0). unfold h1. apply lookup_insert_eq.
    + apply NoDup_cons. split; assumption.
    + intros o Ho. apply elem_of_cons in Ho as [-> | Ho];
        [exact Hfresh |].
      specialize (Hfree o Ho). unfold h1 in Hfree.
      destruct (decide (o = l0)) as [-> | Hne]; [exact Hfresh |].
      rewrite lookup_insert_ne in Hfree by congruence. exact Hfree.
    + intros l1 Hl1. apply not_elem_of_cons in Hl1 as [Hne Hl1].
      rewrite (Hframe l1 Hl1). unfold h1. apply lookup_insert_ne. congruence.
Qed.

(** [foreach_new] on a list that is not empty. *)
Lemma foreach_new_spec (F : Tensor -> Tensor) (ls : list loc)
    (ts : list Tensor) (h : heap) :
  ls <> [] -> holds h ls ts ->
  exists h' os,
    foreach_new F ls h = (h', Ok os) /\
    holds h' os (map F ts) /\
    NoDup os /\
    (forall o, o ∈ os -> h !! o = None) /\
    (forall l, l ∉ os -> h' !! l = h !! l).
Proof.
  intros Hne Hh. unfold foreach_new.
  rewrite (bind_Ok _ _ h h tt (nonempty_ok ls h Hne)).
  apply temporaries_spec. exact Hh.
Qed.

Lemma holds_in_dom (h : heap) (ls : list loc) (ts : list Tensor) (l : loc) :
  holds h ls ts -> l ∈ ls -> h !! l <> None.
Proof.
  intros Hh Hl. induction Hh as [| a b ls ts Hab _ IH]; [inversion Hl |].
  apply elem_of_cons in Hl as [-> | Hl]; [congruence | exact (IH Hl)].
Qed.
End MemFacts.

Section TrustRegionFacts.
Import Py Mem TrustRegion.
Open Scope R_scope.

(** The seven passes over one tensor amount to [clip_entry] on every
    entry. *)
Lemma clip_passes_tensor (lerp inv scale : R) (t : Tensor) :
  let t1 := map_entries (fun x => x * inv) t in
  let u := map_entries tanh t1 in
  let t4 := map_entries (fun x => ln (1 + x)) (map_entries Rabs t1) in
  let t5 := zip_entries copysign t4 u in
  let t6 := zip_entries (fun g t => g + lerp * (t - g)) t5 u in
  map_entries (fun x => x * scale) t6
    = map_entries (clip_entry lerp inv scale) t.
Proof.
  unfold map_entries, zip_entries, Ops.with_data. cbn [t_data t_dtype t_shape].
  f_equal. induction (t_data t) as [| x d IH]; [reflexivity |].
  simpl. rewrite IH. reflexivity.
Qed.

Lemma clip_passes_list (lerp inv scale : R) (ts : list Tensor) :
  let ts1 := map (map_entries (fun x => x * inv)) ts in
  let us := map (map_entries tanh) ts1 in
  let ts4 := map (map_entries (fun x => ln (1 + x)))
                 (map (map_entries Rabs) ts1) in
  let ts5 := zip_with (zip_entries copysign) ts4 us in
  let ts6 := zip_with (zip_entries (fun g t => g + lerp * (t - g))) ts5 us in
  map (map_entries (fun x => x * scale)) ts6
    = map (map_entries (clip_entry lerp inv scale)) ts.
Proof.
  induction ts as [| t ts IH]; [reflexivity |].
  cbn zeta in *. cbn [map zip_with]. rewrite IH. f_equal.
  apply clip_passes_tensor.
Qed.

Lemma trust_region_clip_spec (grad : list loc) (ts : list Tensor)
    (lerp scale : R) (h : heap) :
  grad <> [] -> NoDup grad -> holds h grad ts -> scale <> 0 ->
  exists h',
    trust_region_clip_ grad lerp scale h = (h', Ok (Value None)) /\
    holds h' grad (map (map_entries (clip_entry lerp (1 / scale) scale)) ts) /\
    (forall l, h !! l <> None -> l ∉ grad -> h' !! l = h !! l).
Proof.
  intros Hne Hnd Hh Hscale. unfold trust_region_clip_.
  rewrite (true_div_value 1 scale Hscale).
  set (inv := 1 / scale).
  destruct (foreach_spec (map_entries (fun x => x * inv)) grad ts h Hne Hnd Hh)
    as (h1 & Hrun1 & Hh1 & Hf1).
  destruct (foreach_new_spec (map_entries tanh) grad _ h1 Hne Hh1)
    as (h2 & os & Hrun2 & Hos & Hndo & Hfree & Hf2).
  assert (Hdisj : forall o, o ∈ os -> o ∉ grad).
  { intros o Ho Hin. apply (holds_in_dom h1 grad _ o Hh1 Hin).
    apply Hfree, Ho. }
  assert (Hgo : forall l, l ∈ grad -> l ∉ os).
  { intros l Hl Ho. exact (Hdisj l Ho Hl). }
  assert (Hh2 : holds h2 grad (map (map_entries (fun x => x * inv)) ts)).
  { apply (holds_frame h1); [exact Hh1 |].
    intros l Hl. apply Hf2, Hgo, Hl. }
  destruct (foreach_spec (map_entries Rabs) grad _ h2 Hne Hnd Hh2)
    as (h3 & Hrun3 & Hh3 & Hf3).
  destruct (foreach_spec (map_entries (fun x => ln (1 + x))) grad _ h3
              Hne Hnd Hh3)
    as (h4 & Hrun4 & Hh4 & Hf4).
  assert (Hos4 : holds h4 os
                   (map (map_entries tanh)
                        (map (map_entries (fun x => x * inv)) ts))).
  { apply (holds_frame h2); [exact Hos |].
    intros o Ho. rewrite (Hf4 o (Hdisj o Ho)). apply Hf3, Hdisj, Ho. }
  assert (Hlen : length grad = length os).
  { rewrite (holds_length _ _ _ Hh4), (holds_length _ _ _ Hos4).
    rewrite !length_map. reflexivity. }
  destruct (pairwise_spec (zip_entries copysign) grad os _ _ h4 Hnd Hh4 Hos4
              Hlen Hdisj)
    as (h5 & Hrun5 & Hh5 & Hf5).
  assert (Hos5 : holds h5 os
                   (map (map_entries tanh)
                        (map (map_entries (fun x => x * inv)) ts))).
  { apply (holds_frame h4); [exact Hos4 |].
    intros o Ho. apply Hf5, Hdisj, Ho. }
  destruct (foreach2_spec (zip_entries (fun g t => g + lerp * (t - g)))
              grad os _ _ h5 Hne Hnd Hh5 Hos5 Hlen Hdisj)
    as (h6 & Hrun6 & Hh6 & Hf6).
  destruct (foreach_spec (map_entries (fun x => x * scale)) grad _ h6
              Hne Hnd Hh6)
    as (h7 & Hrun7 & Hh7 & Hf7).
  exists h7. split; [| split].
  - rewrite (bind_Ok _ _ h h1 tt Hrun1).
    rewrite (bind_Ok _ _ h1 h2 os Hrun2).
    rewrite (bind_Ok _ _ h2 h3 tt Hrun3).
    rewrite (bind_Ok _ _ h3 h4 tt Hrun4).
    rewrite (bind_Ok _ _ h4 h5 tt Hrun5).
    rewrite (bind_Ok _ _ h5 h6 tt Hrun6).
    rewrite (bind_Ok _ _ h6 h7 tt Hrun7). reflexivity.
  - rewrite <- (clip_passes_list lerp inv scale ts). exact Hh7.
  - intros l Hl Hnot.
    rewrite (Hf7 l Hnot), (Hf6 l Hnot), (Hf5 l Hnot), (Hf4 l Hnot),
      (Hf3 l Hnot).
    rewrite Hf2; [apply Hf1, Hnot |].
    intros Ho. apply Hl. rewrite <- (Hf1 l Hnot). apply Hfree, Ho.
Qed.

(** X17: on a list of distinct tensors that is not empty and with
    [scale] not zero, [trust_region_clip_] replaces every entry [x] of
    every gradient by [clip_entry] of it, in place, leaves every other
    tensor that was in the store as it is, and returns [None]: there is
    no value to bind the clipped list to.  On the empty list and with
    [scale] not zero the first [torch._foreach_mul_] raises.  With
    [scale = 0] it raises [ZeroDivisionError] before any tensor is
    touched. *)
Theorem X17_trust_region_clip_in_place (grad : list loc) (ts : list Tensor)
    (lerp scale : R) (h : heap) :
  NoDup grad -> holds h grad ts ->
  (scale <> 0 -> grad <> [] ->
   exists h',
     trust_region_clip_ grad lerp scale h = (h', Ok (Value None)) /\
     holds h' grad
       (map (map_entries (clip_entry lerp (1 / scale) scale)) ts) /\
     (forall l, h !! l <> None -> l ∉ grad -> h' !! l = h !! l)) /\
  (scale <> 0 -> grad = [] ->
   trust_region_clip_ grad lerp scale h
     = (h, Err (RuntimeError "Tensor list must have at least one tensor.")))
  /\
  trust_region_clip_ grad lerp 0 h = (h, Ok ZeroDivisionError).
Proof.
  intros Hnd Hh. split; [| split].
  - intros Hscale Hne. apply trust_region_clip_spec; assumption.
  - intros Hscale ->. unfold trust_region_clip_.
    rewrite (true_div_value 1 scale Hscale). reflexivity.
  - unfold trust_region_clip_, true_div.
    destruct (Req_dec_T 0 0) as [_ | Hne]; [reflexivity | contradiction Hne].
    reflexivity.
Qed.

Lemma X17_trust_region_clip_in_place_witness :
  exists h',
    trust_region_clip_ [2%positive] 0.9 1.5 World1.heap1
      = (h', Ok (Value None)) /\
    h' !! 2%positive
      = Some (OTensor (map_entries (clip_entry 0.9 (1 / 1.5) 1.5) Rank1.G1)) /\
    h' !! 1%positive = World1.heap1 !! 1%positive.
Proof.
  destruct (X17_trust_region_clip_in_place [2%positive] [Rank1.G1] 0.9 1.5
              World1.heap1)
    as [Hclip _].
  - apply NoDup_singleton.
  - constructor; [reflexivity | constructor].
  - destruct (Hclip ltac:(lra) ltac:(discriminate))
      as (h' & Hrun & Hres & Hframe).
    exists h'. split; [exact Hrun |]. split.
    + inversion Hres; subst. assumption.
    + apply Hframe; [discriminate |].
      intros Hin. apply list_elem_of_singleton in Hin. discriminate Hin.
Defined.
End TrustRegionFacts.

Section PromoteFacts.
Import Py Mem Promote.

Lemma promote_tensor_alias (h : heap) (x : loc) (t : Tensor) :
  h !! x = Some (OTensor t) -> is_half (t_dtype t) = false ->
  promote_tensor x h = (h, Ok x).
Proof.
  intros Hx Hhalf. unfold promote_tensor.
  rewrite (bind_Ok _ _ h h (PTensor x) (promote_alias h x t Hx Hhalf)).
  reflexivity.
Qed.

Lemma promote_tensor_copy (h : heap) (x : loc) (t : Tensor) :
  h !! x = Some (OTensor t) -> is_half (t_dtype t) = true ->
  exists l,
    h !! l = None /\
    promote_tensor x h = (<[l := OTensor (to_float t)]> h, Ok l).
Proof.
  intros Hx Hhalf.
  exists (fst (alloc (OTensor (to_float t)) h)). split; [apply alloc_fresh |].
  unfold promote_tensor.
  rewrite (bind_Ok _ _ h (<[fst (alloc (OTensor (to_float t)) h)
                             := OTensor (to_float t)]> h)
             (PTensor (fst (alloc (OTensor (to_float t)) h))));
    [reflexivity |].
  unfold promote. rewrite is_dtype_pair_false by (rewrite Hx; eauto).
  rewrite Hx, Hhalf. reflexivity.
Qed.

(** Promoting tensors succeeds and changes nothing that was in the
    store. *)
Lemma promote_all_frame (ps : list loc) :
  forall (pts : list Tensor) (h : heap),
    holds h ps pts ->
    exists h' ls,
      mapM promote_tensor ps h = (h', Ok ls) /\
      (forall l, h !! l <> None -> h' !! l = h !! l).
Proof.
  induction ps as [| p ps IH]; intros pts h Hh.
  - exists h, []. split; [reflexivity | reflexivity].
  - inversion Hh as [| ? t ? pts' Hp Hrest]; subst.
    assert (Hone : exists h1 l1,
              promote_tensor p h = (h1, Ok l1) /\
              (forall l, h !! l <> None -> h1 !! l = h !! l)).
    { destruct (is_half (t_dtype t)) eqn:Hhalf.
      - destruct (promote_tensor_copy h p t Hp Hhalf) as (l & Hfree & Hrun).
        eexists _, l. split; [exact Hrun |].
        intros l0 Hl0. apply lookup_insert_ne. congruence.
      - exists h, p. split; [apply (promote_tensor_alias h p t Hp Hhalf) |].
        reflexivity. }
    destruct Hone as (h1 & l1 & Hrun1 & Hf1).
    assert (Hh1 : holds h1 ps pts').
    { apply (holds_frame h); [exact Hrest |].
      intros l Hl. apply Hf1. apply (holds_in_dom h ps pts' l Hrest Hl). }
    destruct (IH pts' h1 Hh1) as (h' & ls & Hrun & Hf).
    exists h', (l1 :: ls). split.
    + cbn [mapM]. rewrite (bind_Ok _ _ h h1 l1 Hrun1).
      rewrite (bind_Ok _ _ h1 h' ls Hrun). reflexivity.
    + intros l Hl. rewrite Hf; [apply Hf1, Hl |].
      rewrite Hf1 by exact Hl. exact Hl.
Qed.

Lemma promote_all_alias (ps : list loc) :
  forall (pts : list Tensor) (h : heap),
    holds h ps pts ->
    Forall (fun t => is_half (t_dtype t) = false) pts ->
    mapM promote_tensor ps h = (h, Ok ps).
Proof.
  induction ps as [| p ps IH]; intros pts h Hh Hfull; [reflexivity |].
  inversion Hh as [| ? t ? pts' Hp Hrest]; subst.
  inversion Hfull as [| ? ? Ht Hfull']; subst.
  cbn [mapM].
  rewrite (bind_Ok _ _ h h p (promote_tensor_alias h p t Hp Ht)).
  rewrite (bind_Ok _ _ h h ps (IH pts' h Hrest Hfull')). reflexivity.
Qed.
End PromoteFacts.

Section TailFacts.
Import Py Mem Kron Step Tail TrustRegion UpdateParam.
Context {packed : Type} `{StochasticRound}.
Open Scope R_scope.

Lemma lift_heap_run {A : Type} (m : M heap A) (w : World packed)
    (h' : heap) (r : result A) :
  m (w_heap w) = (h', r) -> lift_heap m w = (set_heap h' w, r).
Proof. unfold lift_heap. intros ->. reflexivity. Qed.

(** X18: with the default [clip_fn] the end of [_step] never updates a
    parameter.  [trust_region_clip_] clips the gradients in place and
    returns [None]; [None] is bound to [grad_list] and handed to
    [update_param_], whose [zip(update, param)] raises [TypeError].  The
    gradients hold their clipped values, every other tensor that was in
    the store, the parameters among them, holds what it held.  [_step]
    returns before these lines when there is no gradient; on an empty
    list they raise too, at the first [torch._foreach_mul_], and change
    nothing. *)
Theorem X18_default_clip_raises (w : World packed) (lr weight_decay : R)
    (p_list grad_list : list loc) (ps gs : list Tensor) :
  NoDup grad_list ->
  holds (w_heap w) grad_list gs ->
  holds (w_heap w) p_list ps ->
  (0 <= g_step (w_group w))%Z ->
  (grad_list <> [] ->
   exists w',
     step_tail default_clip_fn lr weight_decay p_list grad_list w
       = (w', Err (TypeError "'NoneType' object is not iterable")) /\
     holds (w_heap w') grad_list
       (map (map_entries (clip_entry 0.9 (1 / 1.5) 1.5)) gs) /\
     (forall l, w_heap w !! l <> None -> l ∉ grad_list ->
        w_heap w' !! l = w_heap w !! l)) /\
  (grad_list = [] ->
   step_tail default_clip_fn lr weight_decay p_list grad_list w
     = (w, Err (RuntimeError "Tensor list must have at least one tensor."))).
Proof.
  intros Hnd Hgs Hps Hstep. split.
  2:{ intros ->. unfold step_tail, default_clip_fn.
      apply bind_Err.
      replace w with (set_heap (w_heap w) w) at 2 by (destruct w; reflexivity).
      apply lift_heap_run. unfold trust_region_clip_.
      rewrite (true_div_value 1 1.5 ltac:(lra)). reflexivity. }
  intros Hne.
  destruct (trust_region_clip_spec grad_list gs 0.9 1.5 (w_heap w) Hne Hnd
              Hgs ltac:(lra))
    as (h1 & Hclip & Hres & Hframe).
  assert (Hps1 : exists ps1, holds h1 p_list ps1).
  { clear -Hps Hres Hframe.
    induction Hps as [| p t p_list ps Hp _ IH].
    - exists []. constructor.
    - destruct IH as (ps1 & IH).
      destruct (decide (p ∈ grad_list)) as [Hin | Hnot].
      + apply list_elem_of_lookup in Hin as (i & Hi).
        destruct (holds_lookup h1 grad_list _ i p Hres Hi) as (t1 & _ & Ht1).
        exists (t1 :: ps1). constructor; assumption.
      + exists (t :: ps1). constructor; [| exact IH].
        rewrite Hframe; [exact Hp | congruence | exact Hnot]. }
  destruct Hps1 as (ps1 & Hps1).
  destruct (promote_all_frame p_list ps1 h1 Hps1) as (h2 & ls & Hprom & Hf2).
  exists (set_heap h2 w). split; [| split].
  - unfold step_tail, default_clip_fn.
    rewrite (bind_Ok _ _ w (set_heap h1 w) (Value None)
               (lift_heap_run _ w h1 _ Hclip)).
    cbv beta iota. unfold bind at 1, get. cbv beta iota.
    cbn [w_group set_heap].
    rewrite (warmup_value lr _ _ Hstep).
    rewrite (bind_Err _ _ (set_heap h1 w) (set_heap h2 (set_heap h1 w))
               (TypeError "'NoneType' object is not iterable"));
      [reflexivity |].
    apply lift_heap_run. cbn [w_heap set_heap].
    unfold update_param_.
    rewrite (bind_Ok _ _ h1 h2 ls Hprom). reflexivity.
  - cbn [w_heap set_heap]. apply (holds_frame h1); [exact Hres |].
    intros l Hl. apply Hf2.
    apply (holds_in_dom h1 grad_list _ l Hres Hl).
  - cbn [w_heap set_heap]. intros l Hl Hnot.
    rewrite Hf2; [apply Hframe; assumption |].
    rewrite Hframe by assumption. exact Hl.
Qed.
End TailFacts.

Section UpdateParamFacts.
Import Py Mem Promote CopyStochastic UpdateParam.
Context `{StochasticRound}.
Open Scope R_scope.

(** The views of the updates in the shapes of the parameters, promoted:
    for updates that are not half precision, the updates themselves. *)
Lemma update_views_alias (us : list loc) :
  forall (ps : list loc) (uts pts : list Tensor) (h : heap),
    holds h us uts -> holds h ps pts ->
    Forall (fun t => is_half (t_dtype t) = false) uts ->
    Forall2 (fun ut pt => numel ut = prod_Z (t_shape pt)) uts pts ->
    mapM (fun up : loc * loc =>
            let! u := load (fst up) in
            let! p := load (snd up) in
            run! lift_result (view u (t_shape p)) in
            promote_tensor (fst up))
         (combine us ps) h
      = (h, Ok us).
Proof.
  induction us as [| u us IH]; intros ps uts pts h Hu Hp Hfull Hview.
  - inversion Hu; subst. inversion Hview; subst. inversion Hp; subst.
    reflexivity.
  - inversion Hu as [| ? ut ? uts' Hul Hurest]; subst.
    inversion Hview as [| ? pt ? pts' Hnum Hview']; subst.
    inversion Hp as [| p ? ps' ? Hpl Hprest]; subst.
    inversion Hfull as [| ? ? Hut Hfull']; subst.
    cbn [combine mapM fst snd].
    erewrite bind_Ok.
    2:{ rewrite (bind_Ok _ _ h h ut (load_ok h u ut Hul)).
        rewrite (bind_Ok _ _ h h pt (load_ok h p pt Hpl)).
        rewrite (bind_Ok _ _ h h
                   (mkTensor (t_dtype ut) (t_shape pt) (t_data ut))).
        - apply (promote_tensor_alias h u ut Hul Hut).
        - unfold lift_result, view. rewrite Hnum, Z.eqb_refl. reflexivity. }
    rewrite (bind_Ok _ _ h h us (IH ps' uts' pts' h Hurest Hprest Hfull' Hview')).
    reflexivity.
Qed.

(** Copying a tensor that is not bfloat16 onto itself does nothing. *)
Lemma copy_list_self (ps : list loc) :
  forall (pts : list Tensor) (h : heap),
    holds h ps pts ->
    Forall (fun t => is_half (t_dtype t) = false) pts ->
    copy_stochastic_list_ ps ps h = (h, Ok tt).
Proof.
  induction ps as [| p ps IH]; intros pts h Hp Hfull; [reflexivity |].
  inversion Hp as [| ? pt ? pts' Hpl Hprest]; subst.
  inversion Hfull as [| ? ? Hpt Hfull']; subst.
  unfold copy_stochastic_list_. cbn [combine forM_ fst snd].
  rewrite (bind_Ok _ _ h h tt); [exact (IH pts' h Hprest Hfull') |].
  rewrite (bind_Ok _ _ h h pt (load_ok h p pt Hpl)).
  destruct (t_dtype pt); try discriminate Hpt; cbn [dtype_eqb];
    unfold set_; rewrite Pos.eqb_refl; reflexivity.
Qed.

Lemma holds_map_dtype (h : heap) (ls : list loc) (ts : list Tensor)
    (f : Tensor -> Tensor) :
  (forall t, t_dtype (f t) = t_dtype t) ->
  Forall (fun t => is_half (t_dtype t) = false) ts ->
  Forall (fun t => is_half (t_dtype t) = false) (map f ts).
Proof.
  intros Hf Hfull. induction Hfull as [| t ts Ht _ IH]; simpl; constructor.
  - rewrite Hf. exact Ht.
  - exact IH.
Qed.

Lemma zip_with_dtype (f : Tensor -> Tensor -> Tensor) (ts us : list Tensor) :
  (forall t u, t_dtype (f t u) = t_dtype t) ->
  Forall (fun t => is_half (t_dtype t) = false) ts ->
  Forall (fun t => is_half (t_dtype t) = false) (zip_with f ts us).
Proof.
  intros Hf Hfull. revert us.
  induction Hfull as [| t ts Ht _ IH]; intros us; [constructor |].
  destruct us as [| u us]; simpl; constructor.
  - rewrite Hf. exact Ht.
  - apply IH.
Qed.

Lemma update_param_spec (ps us : list loc) (pts uts : list Tensor)
    (lr decay : R) (h : heap) :
  ps <> [] ->
  NoDup ps -> holds h ps pts -> holds h us uts ->
  (forall u, u ∈ us -> u ∉ ps) ->
  Forall (fun t => is_half (t_dtype t) = false) pts ->
  Forall (fun t => is_half (t_dtype t) = false) uts ->
  Forall2 (fun ut pt => numel ut = prod_Z (t_shape pt)) uts pts ->
  exists h',
    update_param_ ps (Some us) lr decay None h = (h', Ok tt) /\
    holds h' ps
      (zip_with
         (zip_entries
            (fun x y =>
               (if Rlt_dec 0 decay then (1 - decay * lr) * x else x)
               + lr * y))
         pts uts) /\
    (forall l, l ∉ ps -> h' !! l = h !! l).
Proof.
  intros Hne Hnd Hp Hu Hdisj Hpfull Hufull Hview.
  assert (Hlen : length ps = length us).
  { rewrite (holds_length _ _ _ Hp), (holds_length _ _ _ Hu).
    symmetry. apply (Forall2_length _ _ _ Hview). }
  set (scaled := if Rlt_dec 0 decay
                 then map (scale_tensor (1 - decay * lr)) pts else pts).
  assert (Hdecay : exists h1,
            (if Rlt_dec 0 decay
             then foreach_ (scale_tensor (1 - decay * lr)) ps
             else ret tt) h = (h1, Ok tt) /\
            holds h1 ps scaled /\
            (forall l, l ∉ ps -> h1 !! l = h !! l)).
  { unfold scaled. destruct (Rlt_dec 0 decay).
    - apply foreach_spec; assumption.
    - exists h. repeat split; [exact Hp]. }
  destruct Hdecay as (h1 & Hrun1 & Hh1 & Hf1).
  assert (Hu1 : holds h1 us uts).
  { apply (holds_frame h); [exact Hu |].
    intros u Hin. apply Hf1, Hdisj, Hin. }
  destruct (foreach2_spec (zip_entries (fun p u => p + lr * u)) ps us
              scaled uts h1 Hne Hnd Hh1 Hu1 Hlen Hdisj)
    as (h2 & Hrun2 & Hh2 & Hf2).
  assert (Hfull2 : Forall (fun t => is_half (t_dtype t) = false)
                     (zip_with (zip_entries (fun p u => p + lr * u))
                        scaled uts)).
  { apply zip_with_dtype; [reflexivity |].
    unfold scaled. destruct (Rlt_dec 0 decay); [| exact Hpfull].
    apply (holds_map_dtype h ps); [reflexivity | exact Hpfull]. }
  exists h2. split; [| split].
  - unfold update_param_.
    rewrite (bind_Ok _ _ h h ps (promote_all_alias ps pts h Hp Hpfull)).
    rewrite (bind_Ok _ _ h h us
               (update_views_alias us ps uts pts h Hu Hp Hufull Hview)).
    rewrite (bind_Ok _ _ h h1 tt Hrun1).
    rewrite (bind_Ok _ _ h1 h2 tt Hrun2).
    apply (copy_list_self ps _ h2 Hh2 Hfull2).
  - replace (zip_with (zip_entries (fun x y =>
               (if Rlt_dec 0 decay then (1 - decay * lr) * x else x)
               + lr * y)) pts uts)
      with (zip_with (zip_entries (fun p u => p + lr * u)) scaled uts);
      [exact Hh2 |].
    unfold scaled. clear. destruct (Rlt_dec 0 decay); [| reflexivity].
    revert uts.
    induction pts as [| t pts IH]; intros uts; [reflexivity |].
    destruct uts as [| u uts]; [reflexivity |].
    cbn [map zip_with]. rewrite IH. f_equal.
    unfold zip_entries, scale_tensor, Ops.with_data.
    cbn [t_data t_dtype t_shape]. f_equal.
    change (map (Rmult (1 - decay * lr)))
      with (fmap (M:=list) (Rmult (1 - decay * lr))).
    rewrite zip_with_fmap_l. reflexivity.
  - intros l Hl. rewrite (Hf2 l Hl). apply Hf1, Hl.
Qed.

(** X19: [update_param_] on a list, not empty, of distinct parameters and
    on updates that are not half precision, the updates with the element
    counts of their parameters and not among the parameters.  Each
    parameter entry [x] becomes [(1 - decay * lr) * x + lr * u] for its
    update entry [u] when [decay > 0], and [x + lr * u] otherwise; the
    parameters are written in place and nothing else in the store
    changes. *)
Theorem X19_update_param_formula (ps us : list loc) (pts uts : list Tensor)
    (lr decay : R) (h : heap) :
  ps <> [] ->
  NoDup ps -> holds h ps pts -> holds h us uts ->
  (forall u, u ∈ us -> u ∉ ps) ->
  Forall (fun t => is_half (t_dtype t) = false) pts ->
  Forall (fun t => is_half (t_dtype t) = false) uts ->
  Forall2 (fun ut pt => numel ut = prod_Z (t_shape pt)) uts pts ->
  exists h',
    update_param_ ps (Some us) lr decay None h = (h', Ok tt) /\
    holds h' ps
      (zip_with
         (zip_entries
            (fun x u =>
               (if Rlt_dec 0 decay then (1 - decay * lr) * x else x)
               + lr * u))
         pts uts) /\
    (forall l, l ∉ ps -> h' !! l = h !! l).
Proof.
  intros Hne Hnd Hp Hu Hdisj Hpfull Hufull Hview.
  destruct (update_param_spec ps us pts uts lr decay h Hne Hnd Hp Hu Hdisj
              Hpfull Hufull Hview) as (h' & Hrun & Hres & Hframe).
  exists h'. split; [exact Hrun |]. split; [exact Hres | exact Hframe].
Qed.
End UpdateParamFacts.

Section TailUpdateFacts.
Import Py Mem Promote Kron Step Tail UpdateParam.
Context {packed : Type} `{StochasticRound}.
Open Scope R_scope.

Lemma zip_entries_ext (f g : R -> R -> R) (ts us : list Tensor) :
  (forall x y, f x y = g x y) ->
  zip_with (zip_entries f) ts us = zip_with (zip_entries g) ts us.
Proof.
  intros Hfg. apply zip_with_ext; [| reflexivity | reflexivity].
  intros t u. unfold zip_entries. f_equal.
  apply zip_with_ext; [exact Hfg | reflexivity | reflexivity].
Qed.

(** X20: the parameter update at the end of [_step] when [clip_fn]
    returns a list of gradients.  With [lr_t] the value of
    [warmup(lr, group['step'], group['warmup_steps'])], the learning rate
    handed to [update_param_] is [-lr_t]: for parameters and gradients
    that are not half precision every parameter entry [x] becomes
    [(1 + weight_decay * lr_t) * x - lr_t * g] for its gradient entry [g]
    when [weight_decay > 0], and [x - lr_t * g] otherwise.  [_step]
    returns before these lines when there is no parameter; on an empty
    list [update_param_] raises at its first [torch._foreach_*] call and
    changes nothing. *)
Theorem X20_step_tail_update
    (clip_fn : list loc -> M (World packed) (arith (option (list loc))))
    (w w1 : World packed) (lr weight_decay : R)
    (p_list grad_list clipped : list loc) (ps gs : list Tensor) :
  clip_fn grad_list w = (w1, Ok (Value (Some clipped))) ->
  NoDup p_list ->
  holds (w_heap w1) p_list ps -> holds (w_heap w1) clipped gs ->
  (forall g, g ∈ clipped -> g ∉ p_list) ->
  Forall (fun t => is_half (t_dtype t) = false) ps ->
  Forall (fun t => is_half (t_dtype t) = false) gs ->
  Forall2 (fun g p => numel g = prod_Z (t_shape p)) gs ps ->
  (0 <= g_step (w_group w1))%Z ->
  exists lr_t : R,
    warmup lr (g_step (w_group w1)) (g_warmup_steps (w_group w1))
      = Value lr_t /\
    (p_list <> [] ->
     exists h' : heap,
       step_tail clip_fn lr weight_decay p_list grad_list w
         = (set_heap h' w1, Ok (Value tt)) /\
       holds h' p_list
         (zip_with
            (zip_entries
               (fun x g =>
                  (if Rlt_dec 0 weight_decay
                   then (1 + weight_decay * lr_t) * x else x)
                  - lr_t * g))
            ps gs) /\
       (forall l, l ∉ p_list -> h' !! l = w_heap w1 !! l)) /\
    (p_list = [] ->
     step_tail clip_fn lr weight_decay p_list grad_list w
       = (w1,
          Err (RuntimeError "Tensor list must have at least one tensor."))).
Proof.
  intros Hclip Hnd Hp Hg Hdisj Hpfull Hgfull Hview Hstep.
  pose proof (warmup_value lr _ (g_warmup_steps (w_group w1)) Hstep) as Hwarm.
  set (lr_t := if (g_step (w_group w1) >=? g_warmup_steps (w_group w1))%Z
               then lr
               else lr * IZR (g_step (w_group w1))
                    / IZR (g_warmup_steps (w_group w1))) in *.
  exists lr_t. split; [exact Hwarm |]. split.
  2:{ intros ->. inversion Hp; subst. inversion Hview; subst.
      inversion Hg; subst. unfold step_tail.
      rewrite (bind_Ok _ _ w w1 (Value (Some [])) Hclip).
      cbv beta iota. unfold bind at 1, get. cbv beta iota.
      rewrite Hwarm. apply bind_Err.
      replace w1 with (set_heap (w_heap w1) w1) at 2
        by (destruct w1; reflexivity).
      apply lift_heap_run. unfold update_param_.
      destruct (Rlt_dec 0 weight_decay); reflexivity. }
  intros Hne.
  destruct (update_param_spec p_list clipped ps gs (- lr_t) weight_decay
              (w_heap w1) Hne Hnd Hp Hg Hdisj Hpfull Hgfull Hview)
    as (h' & Hrun & Hres & Hframe).
  exists h'. split; [| split].
  - unfold step_tail.
    rewrite (bind_Ok _ _ w w1 (Value (Some clipped)) Hclip).
    cbv beta iota. unfold bind at 1, get. cbv beta iota.
    rewrite Hwarm.
    rewrite (bind_Ok _ _ w1 (set_heap h' w1) tt
               (lift_heap_run _ w1 h' _ Hrun)).
    reflexivity.
  - rewrite (zip_entries_ext _
               (fun x y =>
                  (if Rlt_dec 0 weight_decay
                   then (1 - weight_decay * - lr_t) * x else x)
                  + - lr_t * y)); [exact Hres |].
    intros x y. destruct (Rlt_dec 0 weight_decay); ring.
  - exact Hframe.
Qed.
End TailUpdateFacts.

Section TailInstance.
Import Py Mem Promote Kron Step Tail UpdateParam Reference World1 ExactRound.
Open Scope R_scope.

Lemma X18_default_clip_raises_witness :
  exists w' : World (list loc),
    step_tail default_clip_fn 0.001 0 [1%positive] [2%positive] world1
      = (w', Err (TypeError "'NoneType' object is not iterable")) /\
    w_heap w' !! 1%positive = heap1 !! 1%positive.
Proof.
  destruct (X18_default_clip_raises world1 0.001 0 [1%positive] [2%positive]
              [mkTensor float32 [2]%Z [0; 0]] [Rank1.G1])
    as (Hraise & _).
  - apply NoDup_singleton.
  - constructor; [reflexivity | constructor].
  - constructor; [reflexivity | constructor].
  - simpl. lia.
  - destruct (Hraise ltac:(discriminate)) as (w' & Hrun & _ & Hframe).
    exists w'. split; [exact Hrun |].
    apply Hframe; [discriminate |].
    intros Hin. apply list_elem_of_singleton in Hin. discriminate Hin.
Defined.

Lemma X19_update_param_formula_witness :
  exists h' : heap,
    update_param_ [1%positive] (Some [2%positive]) (-0.001) 0.1 None heap1
      = (h', Ok tt) /\
    h' !! 1%positive
      = Some (OTensor
                (zip_entries
                   (fun x u =>
                      (if Rlt_dec 0 0.1 then (1 - 0.1 * -0.001) * x else x)
                      + -0.001 * u)
                   (mkTensor float32 [2]%Z [0; 0]) Rank1.G1)).
Proof.
  destruct (X19_update_param_formula [1%positive] [2%positive]
              [mkTensor float32 [2]%Z [0; 0]] [Rank1.G1] (-0.001) 0.1 heap1)
    as (h' & Hrun & Hres & _).
  - discriminate.
  - apply NoDup_singleton.
  - constructor; [reflexivity | constructor].
  - constructor; [reflexivity | constructor].
  - intros u Hu Hin. apply list_elem_of_singleton in Hu, Hin. congruence.
  - repeat constructor.
  - repeat constructor.
  - constructor; [reflexivity | constructor].
  - exists h'. split; [exact Hrun |]. inversion Hres; subst. assumption.
Defined.

Lemma X20_step_tail_update_witness :
  exists (lr_t : R) (h' : heap),
    step_tail (fun x => ret (Value (Some x))) 0.001 0.1
      [1%positive] [2%positive] world1
      = (set_heap h' world1, Ok (Value tt)) /\
    h' !! 1%positive
      = Some (OTensor
                (zip_entries
                   (fun x g =>
                      (if Rlt_dec 0 0.1 then (1 + 0.1 * lr_t) * x else x)
                      - lr_t * g)
                   (mkTensor float32 [2]%Z [0; 0]) Rank1.G1)).
Proof.
  destruct (X20_step_tail_update (fun x => ret (Value (Some x)))
              world1 world1 0.001 0.1 [1%positive] [2%positive]
              [2%positive] [mkTensor float32 [2]%Z [0; 0]] [Rank1.G1])
    as (lr_t & _ & Hupd & _).
  - reflexivity.
  - apply NoDup_singleton.
  - constructor; [reflexivity | constructor].
  - constructor; [reflexivity | constructor].
  - intros u Hu Hin. apply list_elem_of_singleton in Hu, Hin. congruence.
  - repeat constructor.
  - repeat constructor.
  - constructor; [reflexivity | constructor].
  - simpl. lia.
  - destruct (Hupd ltac:(discriminate)) as (h' & Hrun & Hres & _).
    exists lr_t, h'. split; [exact Hrun |]. inversion Hres; subst. assumption.
Defined.
End TailInstance.

Section ScheduleFreeStepFacts.
Import Py Mem Promote CopyStochastic ScheduleFreeStep.
Context `{StochasticRound}.
Open Scope R_scope.

(** For a positive learning rate and a weight sum that is not negative
    the weight is positive, and [ckp1] is the share of the new weight in
    the new sum. *)
Lemma weights_positive (lr weight_lr_power weight_sum r : R) (step : Z) :
  0 < lr -> 0 <= weight_sum ->
  exists weight : R,
    0 < weight /\
    weights lr weight_lr_power weight_sum r step
      = Value (weight_sum + weight, weight / (weight_sum + weight)) /\
    0 < weight / (weight_sum + weight) <= 1.
Proof.
  intros Hlr Hsum. unfold weights, pow_float.
  destruct (Rlt_dec 0 lr) as [_ | Hn]; [| contradiction].
  assert (Hbase : 0 < IZR (Z.max step 1)) by (apply IZR_lt; lia).
  destruct (Rlt_dec 0 (IZR (Z.max step 1))) as [_ | Hn]; [| contradiction].
  cbn [abind].
  set (weight := Rpower lr weight_lr_power * Rpower (IZR (Z.max step 1)) r).
  assert (Hw : 0 < weight).
  { unfold weight, Rpower. apply Rmult_lt_0_compat; apply exp_pos. }
  exists weight. split; [exact Hw |].
  rewrite true_div_value by lra. split; [reflexivity |].
  assert (Hinv : 0 < / (weight_sum + weight))
    by (apply Rinv_0_lt_compat; lra).
  split.
  - apply Rmult_lt_0_compat; assumption.
  - apply (Rmult_le_reg_r (weight_sum + weight)); [lra |].
    unfold Rdiv. rewrite Rmult_assoc, Rinv_l by lra. lra.
Qed.

Lemma schedule_free_full (lr weight_lr_power weight_sum beta1 r : R)
    (step : Z) (weight_sum' ckp1 : R)
    (ps zs gs : list loc) (pts zts gts : list Tensor) (h : heap) :
  weights lr weight_lr_power weight_sum r step = Value (weight_sum', ckp1) ->
  ps <> [] ->
  NoDup ps -> NoDup zs ->
  holds h ps pts -> holds h zs zts -> holds h gs gts ->
  (forall z, z ∈ zs -> z ∉ ps) ->
  (forall g, g ∈ gs -> g ∉ ps) -> (forall g, g ∈ gs -> g ∉ zs) ->
  Forall (fun t => is_half (t_dtype t) = false) pts ->
  Forall (fun t => is_half (t_dtype t) = false) zts ->
  length ps = length zs -> length ps = length gs ->
  exists h',
    schedule_free_ lr weight_lr_power weight_sum beta1 ps zs gs r step h
      = (h', Ok (Value weight_sum')) /\
    holds h' ps
      (zip_with
         (zip_entries (fun p g => p + lr * (beta1 * (1 - ckp1) - 1) * g))
         (zip_with (zip_entries (fun p z => p + ckp1 * (z - p))) pts zts)
         gts) /\
    holds h' zs (zip_with (zip_entries (fun z g => z - lr * g)) zts gts) /\
    (forall l, l ∉ ps -> l ∉ zs -> h' !! l = h !! l).
Proof.
  intros Hweights Hne Hndp Hndz Hp Hz Hg Hzp Hgp Hgz Hpfull Hzfull Hlz Hlg.
  assert (Hnez : zs <> [])
    by (intros ->; destruct ps; [contradiction | discriminate Hlz]).
  destruct (foreach2_spec (zip_entries (fun p z => p + ckp1 * (z - p)))
              ps zs pts zts h Hne Hndp Hp Hz Hlz Hzp)
    as (h1 & Hrun1 & Hp1 & Hf1).
  assert (Hg1 : holds h1 gs gts).
  { apply (holds_frame h); [exact Hg |]. intros g Hin. apply Hf1, Hgp, Hin. }
  destruct (foreach2_spec
              (zip_entries (fun p g => p + lr * (beta1 * (1 - ckp1) - 1) * g))
              ps gs _ gts h1 Hne Hndp Hp1 Hg1 Hlg Hgp)
    as (h2 & Hrun2 & Hp2 & Hf2).
  assert (Hp2full : Forall (fun t => is_half (t_dtype t) = false)
                      (zip_with
                         (zip_entries
                            (fun p g => p + lr * (beta1 * (1 - ckp1) - 1) * g))
                         (zip_with
                            (zip_entries (fun p z => p + ckp1 * (z - p)))
                            pts zts) gts)).
  { apply zip_with_dtype; [reflexivity |].
    apply zip_with_dtype; [reflexivity | exact Hpfull]. }
  assert (Hz2 : holds h2 zs zts).
  { apply (holds_frame h); [exact Hz |].
    intros z Hin. rewrite (Hf2 z (Hzp z Hin)). apply Hf1, Hzp, Hin. }
  assert (Hg2 : holds h2 gs gts).
  { apply (holds_frame h1); [exact Hg1 |].
    intros g Hin. apply Hf2, Hgp, Hin. }
  destruct (foreach2_spec (zip_entries (fun z g => z - lr * g))
              zs gs zts gts h2 Hnez Hndz Hz2 Hg2 ltac:(lia) Hgz)
    as (h3 & Hrun3 & Hz3 & Hf3).
  assert (Hz3full : Forall (fun t => is_half (t_dtype t) = false)
                      (zip_with (zip_entries (fun z g => z - lr * g))
                         zts gts)).
  { apply zip_with_dtype; [reflexivity | exact Hzfull]. }
  exists h3. split; [| split; [| split]].
  - unfold schedule_free_. rewrite Hweights.
    rewrite (bind_Ok _ _ h h ps (promote_all_alias ps pts h Hp Hpfull)).
    rewrite (bind_Ok _ _ h h zs (promote_all_alias zs zts h Hz Hzfull)).
    rewrite (bind_Ok _ _ h h1 tt Hrun1).
    rewrite (bind_Ok _ _ h1 h2 tt Hrun2).
    rewrite (bind_Ok _ _ h2 h2 tt (copy_list_self ps _ h2 Hp2 Hp2full)).
    rewrite (bind_Ok _ _ h2 h3 tt Hrun3).
    rewrite (bind_Ok _ _ h3 h3 tt (copy_list_self zs _ h3 Hz3 Hz3full)).
    reflexivity.
  - apply (holds_frame h2); [exact Hp2 |].
    intros p Hin. apply Hf3. intros Hz'. exact (Hzp p Hz' Hin).
  - exact Hz3.
  - intros l Hlp Hlzs.
    rewrite (Hf3 l Hlzs), (Hf2 l Hlp). apply Hf1, Hlp.
Qed.

(** X21: one call of [schedule_free_] on lists, not empty, of distinct
    float32 (not half precision) parameters and [z] tensors, each
    parameter with a [z] tensor and a gradient of its shape, with a
    positive learning rate and a weight sum that is not negative.  It
    returns
    [weight_sum + weight] for a positive [weight]; with
    [ckp1 = weight / (weight_sum + weight)], which lies in (0, 1], every
    parameter entry [p] becomes
    [p + ckp1 * (z - p) + lr * (beta1 * (1 - ckp1) - 1) * g], read from
    the [z] before its own step, and every [z] entry becomes
    [z - lr * g]. *)
Theorem X21_schedule_free_step (lr weight_lr_power weight_sum beta1 r : R)
    (step : Z) (ps zs gs : list loc) (pts zts gts : list Tensor) (h : heap) :
  0 < lr -> 0 <= weight_sum ->
  ps <> [] ->
  NoDup ps -> NoDup zs ->
  holds h ps pts -> holds h zs zts -> holds h gs gts ->
  (forall z, z ∈ zs -> z ∉ ps) ->
  (forall g, g ∈ gs -> g ∉ ps) -> (forall g, g ∈ gs -> g ∉ zs) ->
  Forall (fun t => is_half (t_dtype t) = false) pts ->
  Forall (fun t => is_half (t_dtype t) = false) zts ->
  Forall2 same_shape pts zts -> Forall2 same_shape pts gts ->
  exists (weight : R) (h' : heap),
    let ckp1 := weight / (weight_sum + weight) in
    0 < weight /\ 0 < ckp1 <= 1 /\
    schedule_free_ lr weight_lr_power weight_sum beta1 ps zs gs r step h
      = (h', Ok (Value (weight_sum + weight))) /\
    holds h' ps
      (zip_with
         (zip_entries (fun p g => p + lr * (beta1 * (1 - ckp1) - 1) * g))
         (zip_with (zip_entries (fun p z => p + ckp1 * (z - p))) pts zts)
         gts) /\
    holds h' zs (zip_with (zip_entries (fun z g => z - lr * g)) zts gts) /\
    (forall l, l ∉ ps -> l ∉ zs -> h' !! l = h !! l).
Proof.
  intros Hlr Hsum Hne Hndp Hndz Hp Hz Hg Hzp Hgp Hgz Hpfull Hzfull Hsz Hsg.
  assert (Hlz : length ps = length zs).
  { rewrite (holds_length _ _ _ Hp), (holds_length _ _ _ Hz).
    apply (Forall2_length _ _ _ Hsz). }
  assert (Hlg : length ps = length gs).
  { rewrite (holds_length _ _ _ Hp), (holds_length _ _ _ Hg).
    apply (Forall2_length _ _ _ Hsg). }
  destruct (weights_positive lr weight_lr_power weight_sum r step Hlr Hsum)
    as (weight & Hw & Hweights & Hc).
  destruct (schedule_free_full lr weight_lr_power weight_sum beta1 r step
              _ _ ps zs gs pts zts gts h Hweights Hne Hndp Hndz Hp Hz Hg Hzp
              Hgp Hgz Hpfull Hzfull Hlz Hlg)
    as (h' & Hrun & Hps & Hzs & Hframe).
  exists weight, h'. cbv zeta.
  split; [exact Hw |]. split; [exact Hc |]. split; [exact Hrun |].
  split; [exact Hps |]. split; [exact Hzs | exact Hframe].
Qed.
End ScheduleFreeStepFacts.

Section LostUpdateFacts.
Import Py Mem Promote CopyStochastic ScheduleFreeStep.
Context `{StochasticRound}.
Open Scope R_scope.

(** Promoting half-precision tensors makes float32 copies at locations
    that were free. *)
Lemma promote_all_copy (zs : list loc) :
  forall (zts : list Tensor) (h : heap),
    holds h zs zts ->
    Forall (fun t => is_half (t_dtype t) = true) zts ->
    exists h' os,
      mapM promote_tensor zs h = (h', Ok os) /\
      holds h' os (map to_float zts) /\
      NoDup os /\
      (forall o, o ∈ os -> h !! o = None) /\
      (forall l, l ∉ os -> h' !! l = h !! l).
Proof.
  induction zs as [| z zs IH]; intros zts h Hh Hhalf.
  - inversion Hh; subst. exists h, []. repeat split; try constructor.
    intros o Ho. inversion Ho.
  - inversion Hh as [| ? t ? zts' Hz Hrest]; subst.
    inversion Hhalf as [| ? ? Ht Hhalf']; subst.
    destruct (promote_tensor_copy h z t Hz Ht) as (l0 & Hfresh & Hrun0).
    set (h1 := <[l0 := OTensor (to_float t)]> h) in *.
    assert (Hh1 : holds h1 zs zts').
    { apply (holds_frame h); [exact Hrest |].
      intros l1 Hl1. unfold h1. apply lookup_insert_ne.
      intros <-. exact (holds_in_dom h zs zts' l0 Hrest Hl1 Hfresh). }
    destruct (IH zts' h1 Hh1 Hhalf')
      as (h' & os & Hrun & Hres & Hnd & Hfree & Hframe).
    assert (Hl0 : l0 ∉ os).
    { intros Hin. specialize (Hfree l0 Hin). unfold h1 in Hfree.
      rewrite lookup_insert_eq in Hfree. discriminate Hfree. }
    exists h', (l0 :: os). split; [| split; [| split; [| split]]].
    + cbn [mapM]. rewrite (bind_Ok _ _ h h1 l0 Hrun0).
      rewrite (bind_Ok _ _ h1 h' os Hrun). reflexivity.
    + simpl. constructor; [| exact Hres].
      rewrite (Hframe l0 Hl0). unfold h1. apply lookup_insert_eq.
    + apply NoDup_cons. split; assumption.
    + intros o Ho. apply elem_of_cons in Ho as [-> | Ho]; [exact Hfresh |].
      specialize (Hfree o Ho). unfold h1 in Hfree.
      destruct (decide (o = l0)) as [-> | Hne]; [exact Hfresh |].
      rewrite lookup_insert_ne in Hfree by congruence. exact Hfree.
    + intros l1 Hl1. apply not_elem_of_cons in Hl1 as [Hne Hl1].
      rewrite (Hframe l1 Hl1). unfold h1. apply lookup_insert_ne. congruence.
Qed.

(** [copy_stochastic_list_] onto distinct targets that are not bfloat16,
    from sources that are not targets: every target goes through
    [set_]. *)
Lemma copy_list_set (zs : list loc) :
  forall (os : list loc) (dts sts : list Tensor) (h : heap),
    NoDup zs -> holds h zs dts -> holds h os sts ->
    length zs = length os ->
    (forall o, o ∈ os -> o ∉ zs) ->
    Forall (fun t => dtype_eqb (t_dtype t) bfloat16 = false) dts ->
    exists h',
      copy_stochastic_list_ zs os h = (h', Ok tt) /\
      holds h' zs (zip_with Step.set_value dts sts) /\
      (forall l, l ∉ zs -> h' !! l = h !! l).
Proof.
  induction zs as [| z zs IH]; intros os dts sts h Hnd Hz Ho Hlen Hdisj Hnb.
  - inversion Hz; subst. exists h. repeat split; constructor.
  - destruct os as [| o os]; [discriminate Hlen |].
    inversion Hz as [| ? d ? dts' Hzl Hzrest]; subst.
    inversion Ho as [| ? s ? sts' Hol Horest]; subst.
    inversion Hnb as [| ? ? Hd Hnb']; subst.
    apply NoDup_cons in Hnd as [Hnotin Hnd].
    assert (Hoz : o <> z).
    { intros ->. apply (Hdisj z); apply list_elem_of_here. }
    set (h1 := <[z := OTensor (Step.set_value d s)]> h).
    assert (Hz1 : holds h1 zs dts').
    { apply (holds_frame h); [exact Hzrest |].
      intros l0 Hl0. unfold h1. apply lookup_insert_ne.
      intros ->. contradiction. }
    assert (Ho1 : holds h1 os sts').
    { apply (holds_frame h); [exact Horest |].
      intros o0 Ho0. unfold h1. apply lookup_insert_ne.
      intros ->. apply (Hdisj o0); [apply list_elem_of_further, Ho0 |].
      apply list_elem_of_here. }
    destruct (IH os dts' sts' h1 Hnd Hz1 Ho1 ltac:(simpl in Hlen; lia))
      as (h' & Hrun & Hres & Hframe); [| exact Hnb' |].
    { intros o0 Ho0 Hin. apply (Hdisj o0);
        [apply list_elem_of_further, Ho0 | apply list_elem_of_further, Hin]. }
    exists h'. split; [| split].
    + unfold copy_stochastic_list_. cbn [combine forM_ fst snd].
      rewrite (bind_Ok _ _ h h1 tt); [exact Hrun |].
      rewrite (bind_Ok _ _ h h d (load_ok h z d Hzl)). rewrite Hd.
      unfold set_.
      assert (Hne : Pos.eqb o z = false) by (apply Pos.eqb_neq; exact Hoz).
      rewrite Hne.
      rewrite (bind_Ok _ _ h h d (load_ok h z d Hzl)).
      rewrite (bind_Ok _ _ h h s (load_ok h o s Hol)). reflexivity.
    + simpl. constructor; [| exact Hres].
      rewrite (Hframe z Hnotin). unfold h1. apply lookup_insert_eq.
    + intros l0 Hl0. apply not_elem_of_cons in Hl0 as [Hne Hl0].
      rewrite (Hframe l0 Hl0). unfold h1. apply lookup_insert_ne. congruence.
Qed.

(** A float16 tensor whose entries were overwritten gets its old entries
    back when its float32 copy is copied into it. *)
Lemma restore_float16 (f : R -> R -> R) (zts gts : list Tensor) :
  Forall (fun t => t_dtype t = float16) zts ->
  length zts = length gts ->
  zip_with Step.set_value (zip_with (zip_entries f) zts gts)
           (map to_float zts)
    = zts.
Proof.
  intros Hz. revert gts.
  induction Hz as [| t zts Ht _ IH]; intros gts Hlen; [reflexivity |].
  destruct gts as [| g gts]; [discriminate Hlen |].
  cbn [zip_with map]. rewrite IH by (simpl in Hlen; lia). f_equal.
  unfold Step.set_value, to_float, zip_entries, Ops.with_data.
  cbn [t_dtype t_shape t_data]. rewrite Ht. cbn [dtype_eqb].
  destruct t as [dt sh d]. cbn in *. subst dt. reflexivity.
Qed.

(** X22: with [z] tensors in float16 the [z] step of [schedule_free_] is
    lost, on lists, not empty, of distinct tensors where each parameter
    has a [z] tensor and a gradient of its shape.  [z32] holds float32
    copies of [z] made before
    [torch._foreach_sub_(z, grad, alpha=lr)] changes [z], and
    [copy_stochastic_list_(z, z32)] then copies them back: after the call
    every [z] tensor holds exactly what it held before, whatever the
    gradients are.  The parameters are float32 and are updated. *)
Theorem X22_schedule_free_half_z (lr weight_lr_power weight_sum beta1 r : R)
    (step : Z) (ps zs gs : list loc) (pts zts gts : list Tensor) (h : heap) :
  0 < lr -> 0 <= weight_sum ->
  ps <> [] ->
  NoDup ps -> NoDup zs ->
  holds h ps pts -> holds h zs zts -> holds h gs gts ->
  (forall z, z ∈ zs -> z ∉ ps) ->
  (forall g, g ∈ gs -> g ∉ ps) -> (forall g, g ∈ gs -> g ∉ zs) ->
  Forall (fun t => is_half (t_dtype t) = false) pts ->
  Forall (fun t => t_dtype t = float16) zts ->
  Forall2 same_shape pts zts -> Forall2 same_shape pts gts ->
  exists (weight : R) (h' : heap),
    let ckp1 := weight / (weight_sum + weight) in
    schedule_free_ lr weight_lr_power weight_sum beta1 ps zs gs r step h
      = (h', Ok (Value (weight_sum + weight))) /\
    holds h' zs zts /\
    holds h' ps
      (zip_with
         (zip_entries (fun p g => p + lr * (beta1 * (1 - ckp1) - 1) * g))
         (zip_with (zip_entries (fun p z => p + ckp1 * (z - p))) pts
            (map to_float zts))
         gts).
Proof.
  intros Hlr Hsum Hne Hndp Hndz Hp Hz Hg Hzp Hgp Hgz Hpfull Hz16 Hsz Hsg.
  assert (Hlz : length ps = length zs).
  { rewrite (holds_length _ _ _ Hp), (holds_length _ _ _ Hz).
    apply (Forall2_length _ _ _ Hsz). }
  assert (Hlg : length ps = length gs).
  { rewrite (holds_length _ _ _ Hp), (holds_length _ _ _ Hg).
    apply (Forall2_length _ _ _ Hsg). }
  assert (Hnez : zs <> [])
    by (intros ->; destruct ps; [contradiction | discriminate Hlz]).
  destruct (weights_positive lr weight_lr_power weight_sum r step Hlr Hsum)
    as (weight & Hw & Hweights & Hc).
  set (ckp1 := weight / (weight_sum + weight)) in *.
  assert (Hzhalf : Forall (fun t => is_half (t_dtype t) = true) zts).
  { eapply Forall_impl; [exact Hz16 |]. intros t Ht. simpl in Ht.
    rewrite Ht. reflexivity. }
  destruct (promote_all_copy zs zts h Hz Hzhalf)
    as (h1 & os & Hprom & Hos & Hndo & Hfree & Hf1).
  assert (Hlive : forall l, h !! l <> None -> l ∉ os).
  { intros l Hl Hin. apply Hl, Hfree, Hin. }
  assert (Hop : forall o, o ∈ os -> o ∉ ps).
  { intros o Ho Hin. exact (Hlive o (holds_in_dom h ps pts o Hp Hin) Ho). }
  assert (Hoz : forall o, o ∈ os -> o ∉ zs).
  { intros o Ho Hin. exact (Hlive o (holds_in_dom h zs zts o Hz Hin) Ho). }
  assert (Hp1 : holds h1 ps pts).
  { apply (holds_frame h); [exact Hp |]. intros l Hl.
    apply Hf1, Hlive, (holds_in_dom h ps pts l Hp Hl). }
  assert (Hlos : length ps = length os).
  { rewrite (holds_length _ _ _ Hos), length_map,
      <- (holds_length _ _ _ Hz). exact Hlz. }
  destruct (foreach2_spec (zip_entries (fun p z => p + ckp1 * (z - p)))
              ps os pts _ h1 Hne Hndp Hp1 Hos Hlos Hop)
    as (h2 & Hrun2 & Hp2 & Hf2).
  assert (Hg2 : holds h2 gs gts).
  { apply (holds_frame h); [exact Hg |]. intros g Hin.
    rewrite (Hf2 g (Hgp g Hin)).
    apply Hf1, Hlive, (holds_in_dom h gs gts g Hg Hin). }
  destruct (foreach2_spec
              (zip_entries (fun p g => p + lr * (beta1 * (1 - ckp1) - 1) * g))
              ps gs _ gts h2 Hne Hndp Hp2 Hg2 Hlg Hgp)
    as (h3 & Hrun3 & Hp3 & Hf3).
  assert (Hp3full : Forall (fun t => is_half (t_dtype t) = false)
                      (zip_with
                         (zip_entries
                            (fun p g => p + lr * (beta1 * (1 - ckp1) - 1) * g))
                         (zip_with
                            (zip_entries (fun p z => p + ckp1 * (z - p)))
                            pts (map to_float zts)) gts)).
  { apply zip_with_dtype; [reflexivity |].
    apply zip_with_dtype; [reflexivity | exact Hpfull]. }
  assert (Hsame3 : forall l, l ∉ ps -> l ∉ os -> h3 !! l = h !! l).
  { intros l Hlp Hlo. rewrite (Hf3 l Hlp), (Hf2 l Hlp). apply Hf1, Hlo. }
  assert (Hz3 : holds h3 zs zts).
  { apply (holds_frame h); [exact Hz |]. intros z Hin.
    apply Hsame3; [apply Hzp, Hin |].
    apply Hlive, (holds_in_dom h zs zts z Hz Hin). }
  assert (Hg3 : holds h3 gs gts).
  { apply (holds_frame h2); [exact Hg2 |]. intros g Hin. apply Hf3, Hgp, Hin. }
  destruct (foreach2_spec (zip_entries (fun z g => z - lr * g))
              zs gs zts gts h3 Hnez Hndz Hz3 Hg3 ltac:(lia) Hgz)
    as (h4 & Hrun4 & Hz4 & Hf4).
  assert (Hos4 : holds h4 os (map to_float zts)).
  { apply (holds_frame h1); [exact Hos |]. intros o Ho.
    rewrite (Hf4 o (Hoz o Ho)), (Hf3 o (Hop o Ho)). apply Hf2, Hop, Ho. }
  assert (Hnb : Forall (fun t => dtype_eqb (t_dtype t) bfloat16 = false)
                  (zip_with (zip_entries (fun z g => z - lr * g)) zts gts)).
  { clear -Hz16. revert gts.
    induction Hz16 as [| t zts Ht _ IH]; intros gts; [constructor |].
    destruct gts as [| g gts]; simpl; constructor; [| apply IH].
    cbn. rewrite Ht. reflexivity. }
  destruct (copy_list_set zs os _ _ h4 Hndz Hz4 Hos4 ltac:(lia) Hoz Hnb)
    as (h5 & Hrun5 & Hz5 & Hf5).
  exists weight, h5. cbv zeta. fold ckp1. split; [| split].
  - unfold schedule_free_. rewrite Hweights. fold ckp1.
    rewrite (bind_Ok _ _ h h ps (promote_all_alias ps pts h Hp Hpfull)).
    rewrite (bind_Ok _ _ h h1 os Hprom).
    rewrite (bind_Ok _ _ h1 h2 tt Hrun2).
    rewrite (bind_Ok _ _ h2 h3 tt Hrun3).
    rewrite (bind_Ok _ _ h3 h3 tt (copy_list_self ps _ h3 Hp3 Hp3full)).
    rewrite (bind_Ok _ _ h3 h4 tt Hrun4).
    rewrite (bind_Ok _ _ h4 h5 tt Hrun5).
    reflexivity.
  - rewrite restore_float16 in Hz5; [exact Hz5 | exact Hz16 |].
    rewrite <- (holds_length _ _ _ Hz), <- (holds_length _ _ _ Hg). lia.
  - apply (holds_frame h3); [exact Hp3 |]. intros p Hin.
    assert (Hpz : p ∉ zs) by (intros Hz'; exact (Hzp p Hz' Hin)).
    rewrite (Hf5 p Hpz). apply Hf4, Hpz.
Qed.
End LostUpdateFacts.

Section ScheduleFreeStepInstance.
Import Py Mem Promote CopyStochastic ScheduleFreeStep ExactRound SFWorld.
Open Scope R_scope.

Lemma X21_schedule_free_step_witness :
  exists (weight : R) (h' : heap),
    schedule_free_ 0.01 2 0 0.9 [1%positive] [2%positive] [3%positive] 0 1
      heap32
      = (h', Ok (Value (0 + weight))) /\
    h' !! 2%positive
      = Some (OTensor (zip_entries (fun z g => z - 0.01 * g) z32 g1)).
Proof.
  destruct (X21_schedule_free_step 0.01 2 0 0.9 0 1
              [1%positive] [2%positive] [3%positive] [p1] [z32] [g1] heap32)
    as (weight & h' & _ & _ & Hrun & _ & Hz & _).
  - lra.
  - lra.
  - discriminate.
  - apply NoDup_singleton.
  - apply NoDup_singleton.
  - constructor; [reflexivity | constructor].
  - constructor; [reflexivity | constructor].
  - constructor; [reflexivity | constructor].
  - intros l Hl Hin. apply list_elem_of_singleton in Hl, Hin. congruence.
  - intros l Hl Hin. apply list_elem_of_singleton in Hl, Hin. congruence.
  - intros l Hl Hin. apply list_elem_of_singleton in Hl, Hin. congruence.
  - repeat constructor.
  - repeat constructor.
  - repeat constructor.
  - repeat constructor.
  - exists weight, h'. split; [exact Hrun |]. inversion Hz; subst. assumption.
Defined.

Lemma X22_schedule_free_half_z_witness :
  exists (weight : R) (h' : heap),
    schedule_free_ 0.01 2 0 0.9 [1%positive] [2%positive] [3%positive] 0 1
      heap16
      = (h', Ok (Value (0 + weight))) /\
    h' !! 2%positive = Some (OTensor z16).
Proof.
  destruct (X22_schedule_free_half_z 0.01 2 0 0.9 0 1
              [1%positive] [2%positive] [3%positive] [p1] [z16] [g1] heap16)
    as (weight & h' & Hrun & Hz & _).
  - lra.
  - lra.
  - discriminate.
  - apply NoDup_singleton.
  - apply NoDup_singleton.
  - constructor; [reflexivity | constructor].
  - constructor; [reflexivity | constructor].
  - constructor; [reflexivity | constructor].
  - intros l Hl Hin. apply list_elem_of_singleton in Hl, Hin. congruence.
  - intros l Hl Hin. apply list_elem_of_singleton in Hl, Hin. congruence.
  - intros l Hl Hin. apply list_elem_of_singleton in Hl, Hin. congruence.
  - repeat constructor.
  - repeat constructor.
  - repeat constructor.
  - repeat constructor.
  - exists weight, h'. split; [exact Hrun |]. inversion Hz; subst. assumption.
Defined.
End ScheduleFreeStepInstance.

Section ScheduleFreeOptFacts.
Import Py Mem Promote CopyStochastic ScheduleFreeOpt.
Context `{StochasticRound}.
Open Scope R_scope.

Lemma on_heap_run {A : Type} (m : M heap A) (o : Opt) (h' : heap)
    (r : result A) :
  m (o_heap o) = (h', r) -> on_heap m o = (set_heap h' o, r).
Proof. unfold on_heap. intros ->. reflexivity. Qed.

Lemma set_heap_id (o : Opt) : set_heap (o_heap o) o = o.
Proof. destruct o. reflexivity. Qed.

(** One parameter: [p] moves towards [z] by [weight], nothing else
    changes. *)
Lemma move_param_spec (weight : R) (all : list loc) (p : loc)
    (pt zt : Tensor) (o : Opt) :
  has_z o all p pt zt -> p ∈ all ->
  move_param weight p o
    = (set_heap (<[p := OTensor (lerp_towards weight pt zt)]> (o_heap o)) o,
       Ok tt).
Proof.
  intros (Hp & Hpfull & Hzfull & _ & d & z & Hd & Hz & Hzall & Hzt) Hin.
  assert (Hzp : z <> p) by (intros ->; contradiction).
  unfold move_param.
  rewrite (bind_Ok _ _ o o d).
  2:{ unfold state_.
      rewrite (bind_Ok _ _ o o pt).
      - rewrite Hd. reflexivity.
      - rewrite <- (set_heap_id o) at 2.
        apply on_heap_run, load_ok, Hp. }
  rewrite Hz. apply on_heap_run.
  rewrite (bind_Ok _ _ _ _ z (promote_tensor_alias _ z zt Hzt Hzfull)).
  rewrite (bind_Ok _ _ _ _ p (promote_tensor_alias _ p pt Hp Hpfull)).
  unfold pairwise_. cbn [forM_ fst snd].
  erewrite bind_Ok.
  2:{ erewrite bind_Ok; [reflexivity |].
      rewrite (bind_Ok _ _ _ _ pt (load_ok _ p pt Hp)).
      rewrite (bind_Ok _ _ _ _ zt (load_ok _ z zt Hzt)).
      reflexivity. }
  unfold copy_stochastic_. rewrite Pos.eqb_refl. reflexivity.
Qed.

(** The facts about a parameter survive writes to other parameters. *)
Lemma has_z_frame (o o' : Opt) (all : list loc) (p : loc) (pt zt : Tensor) :
  has_z o all p pt zt ->
  o_state o' = o_state o ->
  o_heap o' !! p = o_heap o !! p ->
  (forall l, l ∉ all -> o_heap o' !! l = o_heap o !! l) ->
  has_z o' all p pt zt.
Proof.
  intros (Hp & Hpfull & Hzfull & Hlen & d & z & Hd & Hz & Hzall & Hzt)
    Hstate Hsame Hframe.
  split; [rewrite Hsame; exact Hp |].
  split; [exact Hpfull |]. split; [exact Hzfull |]. split; [exact Hlen |].
  exists d, z. rewrite Hstate, (Hframe z Hzall). repeat split; assumption.
Qed.

Lemma has_z_functional (o : Opt) (all : list loc) (p : loc)
    (pt zt pt' zt' : Tensor) :
  has_z o all p pt zt -> has_z o all p pt' zt' -> pt' = pt /\ zt' = zt.
Proof.
  intros (Hp & _ & _ & _ & d & z & Hd & Hz & _ & Hzt)
         (Hp' & _ & _ & _ & d' & z' & Hd' & Hz' & _ & Hzt').
  assert (pt' = pt) as -> by congruence.
  split; [reflexivity |]. congruence.
Qed.

(** The loop over the parameters of one group. *)
Lemma move_params_spec (weight : R) (all : list loc) (ps : list loc) :
  forall o : Opt,
    NoDup ps -> (forall p, p ∈ ps -> p ∈ all) ->
    (forall p, p ∈ ps -> exists pt zt, has_z o all p pt zt) ->
    exists h',
      forM_ (move_param weight) ps o = (set_heap h' o, Ok tt) /\
      (forall p pt zt, p ∈ ps -> has_z o all p pt zt ->
         h' !! p = Some (OTensor (lerp_towards weight pt zt))) /\
      (forall l, l ∉ ps -> h' !! l = o_heap o !! l).
Proof.
  induction ps as [| p ps IH]; intros o Hnd Hall Hz.
  - exists (o_heap o). split; [| split].
    + cbn [forM_]. rewrite set_heap_id. reflexivity.
    + intros p pt zt Hin. inversion Hin.
    + reflexivity.
  - apply NoDup_cons in Hnd as [Hnotin Hnd].
    destruct (Hz p (list_elem_of_here _ _)) as (pt & zt & Hpz).
    pose proof (move_param_spec weight all p pt zt o Hpz
                  (Hall p (list_elem_of_here _ _))) as Hrun1.
    set (o1 := set_heap
                 (<[p := OTensor (lerp_towards weight pt zt)]> (o_heap o)) o)
      in *.
    assert (Hz1 : forall q, q ∈ ps -> exists qt zt', has_z o1 all q qt zt').
    { intros q Hq. destruct (Hz q (list_elem_of_further _ _ _ Hq))
        as (qt & zt' & Hqz).
      exists qt, zt'. apply (has_z_frame o); [exact Hqz | reflexivity | |].
      - unfold o1. cbn. apply lookup_insert_ne. intros ->. contradiction.
      - intros l Hl. unfold o1. cbn. apply lookup_insert_ne.
        intros ->. apply Hl, Hall, list_elem_of_here. }
    destruct (IH o1 Hnd
                (fun q Hq => Hall q (list_elem_of_further _ _ _ Hq)) Hz1)
      as (h' & Hrun & Hpost & Hframe).
    exists h'. split; [| split].
    + cbn [forM_]. rewrite (bind_Ok _ _ o o1 tt Hrun1). exact Hrun.
    + intros q qt zt' Hq Hqz.
      apply elem_of_cons in Hq as [-> | Hq].
      * destruct (has_z_functional o all p pt zt qt zt' Hpz Hqz) as [-> ->].
        rewrite (Hframe p Hnotin). unfold o1. cbn. apply lookup_insert_eq.
      * apply Hpost; [exact Hq |].
        apply (has_z_frame o); [exact Hqz | reflexivity | |].
        -- unfold o1. cbn. apply lookup_insert_ne. intros ->. contradiction.
        -- intros l Hl. unfold o1. cbn. apply lookup_insert_ne.
           intros ->. apply Hl, Hall, list_elem_of_here.
    + intros l Hl. apply not_elem_of_cons in Hl as [Hne Hl].
      rewrite (Hframe l Hl). unfold o1. cbn. apply lookup_insert_ne.
      congruence.
Qed.

Lemma all_params_cons (g : Group) (gs : list Group) :
  all_params (g :: gs) = params g ++ all_params gs.
Proof. reflexivity. Qed.

Lemma elem_of_all_params (gs : list Group) (g : Group) (p : loc) :
  g ∈ gs -> p ∈ params g -> p ∈ all_params gs.
Proof.
  intros Hg Hp. induction gs as [| g0 gs IH]; [inversion Hg |].
  rewrite all_params_cons. apply elem_of_app.
  apply elem_of_cons in Hg as [-> | Hg]; [left; exact Hp | right; auto].
Qed.

(** A pass over the groups, for a loop body [f] that moves the
    parameters of the groups with a weight and switches their mode, and
    skips the others. *)
Lemma pass_spec (f : nat -> Group -> M Opt unit) (wt : Group -> option R)
    (mode : bool) (enabled : Group -> Prop) (all : list loc) :
  (forall i g o, enabled g ->
     f i g o
       = match wt g with
         | Some w =>
             (run! forM_ (move_param w) (params g) in set_train_mode i mode) o
         | None => (o, Ok tt)
         end) ->
  forall (rest done : list Group) (o : Opt),
    o_groups o = done ++ rest ->
    Forall enabled rest ->
    NoDup (all_params rest) ->
    (forall p, p ∈ all_params rest -> p ∈ all) ->
    (forall p, p ∈ all_params rest -> exists pt zt, has_z o all p pt zt) ->
    exists h',
      forM_ (fun ig : nat * Group => f (fst ig) (snd ig))
            (imap (fun i g => ((length done + i)%nat, g)) rest) o
        = (mkOpt h' (o_state o)
             (done ++ map (fun g => switched (wt g) mode g)
                          rest),
           Ok tt) /\
      (forall g p pt zt, g ∈ rest -> p ∈ params g -> has_z o all p pt zt ->
         h' !! p
           = Some (OTensor match wt g with
                           | Some w => lerp_towards w pt zt
                           | None => pt
                           end)) /\
      (forall l, l ∉ all_params rest -> h' !! l = o_heap o !! l).
Proof.
  intros Hf rest.
  induction rest as [| g rest IH]; intros done o Hgroups Hen Hnd Hall Hz.
  - exists (o_heap o). split; [| split].
    + cbn [imap forM_ map]. rewrite <- Hgroups. destruct o; reflexivity.
    + intros g p pt zt Hg. inversion Hg.
    + reflexivity.
  - inversion Hen as [| ? ? Heg Hen']; subst.
    rewrite all_params_cons in Hnd, Hall, Hz.
    apply NoDup_app in Hnd as (Hndg & Hdisj & Hnd').
    assert (Hstep : exists h1,
              f (length done + 0)%nat g o
                = (mkOpt h1 (o_state o)
                     (done ++ switched (wt g) mode g :: rest),
                   Ok tt) /\
              (forall p pt zt, p ∈ params g -> has_z o all p pt zt ->
                 h1 !! p
                   = Some (OTensor match wt g with
                                   | Some w => lerp_towards w pt zt
                                   | None => pt
                                   end)) /\
              (forall l, l ∉ params g -> h1 !! l = o_heap o !! l)).
    { rewrite (Hf _ g o Heg). destruct (wt g) as [w |].
      - destruct (move_params_spec w all (params g) o Hndg)
          as (h1 & Hrun & Hpost & Hframe).
        + intros p Hp. apply Hall, elem_of_app. left. exact Hp.
        + intros p Hp. apply Hz, elem_of_app. left. exact Hp.
        + exists h1. split; [| split; assumption].
          rewrite (bind_Ok _ _ o (set_heap h1 o) tt Hrun).
          unfold set_train_mode, modify, set_groups, set_heap. cbn.
          rewrite Hgroups, alter_app_r. reflexivity.
      - exists (o_heap o). split; [| split].
        + cbn [switched]. rewrite <- Hgroups. destruct o; reflexivity.
        + intros p pt zt _ (Hp & _). exact Hp.
        + reflexivity. }
    destruct Hstep as (h1 & Hrun1 & Hpost1 & Hframe1).
    set (g' := switched (wt g) mode g) in *.
    set (o1 := mkOpt h1 (o_state o) (done ++ g' :: rest)) in *.
    assert (Hkeep : forall p pt zt, p ∈ all_params rest ->
              has_z o all p pt zt -> has_z o1 all p pt zt).
    { intros p pt zt Hp Hpz.
      apply (has_z_frame o); [exact Hpz | reflexivity | |].
      - apply Hframe1. intros Hin. exact (Hdisj p Hin Hp).
      - intros l Hl. apply Hframe1. intros Hin. apply Hl, Hall, elem_of_app.
        left. exact Hin. }
    destruct (IH (done ++ [g']) o1) as (h' & Hrun & Hpost & Hframe).
    { unfold o1. cbn. rewrite <- app_assoc. reflexivity. }
    { exact Hen'. }
    { exact Hnd'. }
    { intros p Hp. apply Hall, elem_of_app. right. exact Hp. }
    { intros p Hp. destruct (Hz p) as (pt & zt & Hpz);
        [apply elem_of_app; right; exact Hp |].
      exists pt, zt. apply Hkeep; assumption. }
    exists h'. split; [| split].
    + rewrite imap_cons. cbn [forM_ fst snd].
      rewrite (bind_Ok _ _ o o1 tt Hrun1).
      rewrite (imap_ext _ (fun i g0 => ((length (done ++ [g']) + i)%nat, g0)))
        by (intros i x _; cbn; rewrite length_app; cbn; f_equal; lia).
      rewrite Hrun. unfold o1. cbn [o_state map].
      rewrite <- app_assoc. reflexivity.
    + intros g0 p pt zt Hg0 Hp Hpz.
      apply elem_of_cons in Hg0 as [-> | Hg0].
      * rewrite Hframe; [apply Hpost1; assumption |].
        intros Hin. exact (Hdisj p Hp Hin).
      * apply Hpost; [exact Hg0 | exact Hp |].
        apply Hkeep; [| exact Hpz].
        apply (elem_of_all_params rest g0 p Hg0 Hp).
    + intros l Hl. apply not_elem_of_app in Hl as [Hlg Hlr].
      rewrite (Hframe l Hlr). apply Hframe1, Hlg.
Qed.

(** Moving towards [z] by [1 - 1 / b] and then by [1 - b] gives the
    tensor back. *)
Lemma lerp_round_trip (b : R) (pt zt : Tensor) :
  0 < b -> length (t_data zt) = length (t_data pt) ->
  lerp_towards (1 - b) (lerp_towards (1 - 1 / b) pt zt) zt = pt.
Proof.
  intros Hb Hlen. unfold lerp_towards, zip_entries, Ops.with_data.
  cbn [t_data t_dtype t_shape]. destruct pt as [dt sh pd]. cbn in *.
  f_equal. revert Hlen. generalize (t_data zt). clear zt.
  induction pd as [| x pd IH]; intros zd Hlen; [reflexivity |].
  destruct zd as [| e zd]; [discriminate Hlen |].
  cbn [zip_with]. rewrite IH by (simpl in Hlen; lia). f_equal.
  field. lra.
Qed.

Lemma eval_group_eq (i : nat) (g : Group) (o : Opt) :
  training g ->
  eval_group i g o
    = match eval_weight g with
      | Some w =>
          (run! forM_ (move_param w) (params g) in set_train_mode i false) o
      | None => (o, Ok tt)
      end.
Proof.
  intros (Hmode & b & Hb). unfold eval_group, eval_weight, train_mode_of.
  rewrite Hmode, Hb. unfold lift. cbn [bind].
  destruct (Rlt_dec 0 b); reflexivity.
Qed.

Lemma train_group_eq (i : nat) (g : Group) (o : Opt) :
  evaluated g ->
  train_group i g o
    = match train_weight g with
      | Some w =>
          (run! forM_ (move_param w) (params g) in set_train_mode i true) o
      | None => (o, Ok tt)
      end.
Proof.
  intros (b & m & Hb & Hmode & Hm).
  unfold train_group, train_weight, train_mode_of.
  rewrite Hmode, Hb. unfold lift. cbn [bind].
  destruct (Rlt_dec 0 b) as [Hpos | _]; [| reflexivity].
  rewrite (Hm Hpos). reflexivity.
Qed.

Lemma train_weight_switched (w : option R) (mode : bool) (g : Group) :
  train_weight (switched w mode g) = train_weight g.
Proof. destruct w; reflexivity. Qed.

Lemma all_params_switched (wt : Group -> option R) (mode : bool)
    (gs : list Group) :
  all_params (map (fun g => switched (wt g) mode g) gs) = all_params gs.
Proof.
  induction gs as [| g gs IH]; [reflexivity |].
  cbn [map]. rewrite !all_params_cons, IH. f_equal.
  unfold switched. destruct (wt g); reflexivity.
Qed.

Lemma elem_of_all_params_inv (gs : list Group) (p : loc) :
  p ∈ all_params gs -> exists g, g ∈ gs /\ p ∈ params g.
Proof.
  induction gs as [| g gs IH]; intros Hp; [inversion Hp |].
  rewrite all_params_cons in Hp. apply elem_of_app in Hp as [Hp | Hp].
  - exists g. split; [apply list_elem_of_here | exact Hp].
  - destruct (IH Hp) as (g0 & Hg0 & Hp0).
    exists g0. split; [apply list_elem_of_further, Hg0 | exact Hp0].
Qed.

(** X23: [eval()] followed by [train()] gives the optimizer back.  For
    an optimizer whose groups are all in training mode, whose parameters
    are distinct tensors that are not half precision, each with a [z] of
    its own size in its state that is not a parameter, [eval] returns,
    and [train] on its result returns the optimizer as it was: every
    parameter, every group and the state.  In between, every parameter
    of a group with [beta1 > 0] holds [p + (1 - 1 / beta1) * (z - p)]
    and the group is out of training mode; groups with [beta1 <= 0] are
    left alone by both. *)
Theorem X23_eval_train_round_trip (o : Opt) :
  Forall training (o_groups o) ->
  NoDup (all_params (o_groups o)) ->
  (forall p, p ∈ all_params (o_groups o) ->
     exists pt zt, has_z o (all_params (o_groups o)) p pt zt) ->
  exists o1 : Opt,
    eval o = (o1, Ok tt) /\
    train o1 = (o, Ok tt) /\
    o_groups o1 = map (fun g => switched (eval_weight g) false g) (o_groups o) /\
    (forall g p pt zt w,
       g ∈ o_groups o -> p ∈ params g ->
       has_z o (all_params (o_groups o)) p pt zt ->
       eval_weight g = Some w ->
       o_heap o1 !! p = Some (OTensor (lerp_towards w pt zt))).
Proof.
  intros Htrain Hnd Hz.
  set (all := all_params (o_groups o)) in *.
  destruct (pass_spec eval_group eval_weight false training all
              eval_group_eq (o_groups o) [] o eq_refl Htrain Hnd
              (fun p Hp => Hp) Hz)
    as (h1 & Hrun1 & Hpost1 & Hframe1).
  cbn [app length Nat.add] in Hrun1.
  set (gs1 := map (fun g => switched (eval_weight g) false g) (o_groups o))
    in *.
  set (o1 := mkOpt h1 (o_state o) gs1) in *.
  assert (Hall1 : all_params gs1 = all)
    by apply all_params_switched.
  assert (Hev : Forall evaluated gs1).
  { unfold gs1. apply Forall_fmap.
    eapply Forall_impl; [exact Htrain |].
    intros g (Hmode & b & Hb). cbn. unfold switched, eval_weight.
    rewrite Hb. destruct (Rlt_dec 0 b) as [Hpos | Hnp].
    - exists b, false. repeat split; assumption.
    - exists b, true. split; [exact Hb |]. split; [exact Hmode |].
      intros Hpos. contradiction. }
  (* what the parameters hold after [eval] *)
  assert (Hz1 : forall g p pt zt, g ∈ o_groups o -> p ∈ params g ->
            has_z o all p pt zt ->
            has_z o1 all p
              match eval_weight g with
              | Some w => lerp_towards w pt zt
              | None => pt
              end zt).
  { intros g p pt zt Hg Hp Hpz.
    pose proof (Hpost1 g p pt zt Hg Hp Hpz) as Hh1.
    destruct Hpz as (Hpt & Hpfull & Hzfull & Hlen & d & z & Hd & Hzd & Hzall
                     & Hzt).
    split; [exact Hh1 |].
    split; [destruct (eval_weight g); exact Hpfull |].
    split; [exact Hzfull |].
    split.
    { destruct (eval_weight g); [| exact Hlen].
      unfold lerp_towards, zip_entries. cbn [t_data Ops.with_data].
      rewrite length_zip_with. lia. }
    exists d, z. unfold o1. cbn [o_state o_heap].
    split; [destruct (eval_weight g); exact Hd |].
    split; [exact Hzd |]. split; [exact Hzall |].
    rewrite (Hframe1 z Hzall). exact Hzt. }
  destruct (pass_spec train_group train_weight true evaluated all
              train_group_eq gs1 [] o1 eq_refl Hev)
    as (h2 & Hrun2 & Hpost2 & Hframe2).
  { rewrite Hall1. exact Hnd. }
  { rewrite Hall1. intros p Hp. exact Hp. }
  { rewrite Hall1. intros p Hp.
    destruct (elem_of_all_params_inv (o_groups o) p Hp) as (g & Hg & Hpg).
    destruct (Hz p Hp) as (pt & zt & Hpz).
    eexists _, zt. exact (Hz1 g p pt zt Hg Hpg Hpz). }
  cbn [app length Nat.add o_state] in Hrun2.
  exists o1. split; [| split; [| split]].
  - unfold eval. cbv beta. unfold bind at 1, get. cbv beta iota.
    exact Hrun1.
  - unfold train. unfold bind at 1, get. cbv beta iota.
    change (enumerate o1) with (imap (fun i g => (i, g)) gs1).
    rewrite Hrun2. f_equal.
    assert (Hheap : h2 = o_heap o).
    { apply map_eq. intros l.
      destruct (decide (l ∈ all)) as [Hin | Hnot].
      - destruct (elem_of_all_params_inv (o_groups o) l Hin)
          as (g & Hg & Hpg).
        destruct (Hz l Hin) as (pt & zt & Hpz).
        pose proof (Hz1 g l pt zt Hg Hpg Hpz) as Hpz1.
        assert (Hg1 : switched (eval_weight g) false g ∈ gs1).
        { unfold gs1.
          exact (list_elem_of_fmap_2
                   (fun g0 => switched (eval_weight g0) false g0) _ _ Hg). }
        assert (Hpg1 : l ∈ params (switched (eval_weight g) false g)).
        { unfold switched. destruct (eval_weight g); exact Hpg. }
        rewrite (Hpost2 _ l _ zt Hg1 Hpg1 Hpz1).
        destruct Hpz as (Hpt & _ & _ & Hlen & _).
        rewrite Hpt. do 2 f_equal.
        clear -Hlen. rewrite train_weight_switched.
        unfold eval_weight, train_weight.
        destruct (beta1_of g) as [b |]; [| reflexivity].
        destruct (Rlt_dec 0 b) as [Hpos | Hnp]; [| reflexivity].
        apply lerp_round_trip; assumption.
      - rewrite Hframe2 by (rewrite Hall1; exact Hnot).
        unfold o1. cbn [o_heap]. apply Hframe1, Hnot. }
    assert (Hgroups : map (fun g => switched (train_weight g) true g) gs1
                      = o_groups o).
    { unfold gs1. rewrite map_map.
      rewrite <- (map_id (o_groups o)) at 2.
      apply map_ext_Forall. eapply Forall_impl; [exact Htrain |].
      intros g (Hmode & b & Hb). cbn. rewrite train_weight_switched.
      unfold switched, eval_weight, train_weight. rewrite Hb.
      destruct (Rlt_dec 0 b) as [Hpos | Hnp]; [| reflexivity].
      unfold with_mode. cbn. destruct g; cbn in *. congruence. }
    rewrite Hheap, Hgroups. destruct o; reflexivity.
  - reflexivity.
  - intros g p pt zt w Hg Hp Hpz Hw.
    unfold o1. cbn [o_heap].
    rewrite (Hpost1 g p pt zt Hg Hp Hpz), Hw. reflexivity.
Qed.
End ScheduleFreeOptFacts.

Section ScheduleFreeOptInstance.
Import Py Mem Promote CopyStochastic ScheduleFreeOpt ExactRound SFWorld.
Open Scope R_scope.

Lemma X23_eval_train_round_trip_witness :
  exists o1 : Opt,
    eval opt1 = (o1, Ok tt) /\ train o1 = (opt1, Ok tt) /\
    o_heap o1 !! 1%positive
      = Some (OTensor (lerp_towards (1 - 1 / 0.9) p1 z32)).
Proof.
  destruct (X23_eval_train_round_trip opt1) as (o1 & Heval & Htrain & _ & Hp).
  - constructor; [| constructor].
    split; [reflexivity | exists 0.9; reflexivity].
  - apply NoDup_singleton.
  - intros p Hp. apply list_elem_of_singleton in Hp as ->.
    exists p1, z32. split; [reflexivity |]. split; [reflexivity |].
    split; [reflexivity |]. split; [reflexivity |].
    exists (<["z" := 2%positive]> ∅), 2%positive.
    split; [reflexivity |]. split; [reflexivity |].
    split; [| reflexivity].
    intros Hin. apply list_elem_of_singleton in Hin. discriminate Hin.
  - exists o1. split; [exact Heval |]. split; [exact Htrain |].
    apply (Hp group1 1%positive p1 z32 (1 - 1 / 0.9)).
    + apply list_elem_of_here.
    + apply list_elem_of_here.
    + split; [reflexivity |]. split; [reflexivity |].
      split; [reflexivity |]. split; [reflexivity |].
      exists (<["z" := 2%positive]> ∅), 2%positive.
      split; [reflexivity |]. split; [reflexivity |].
      split; [| reflexivity].
      intros Hin. apply list_elem_of_singleton in Hin. discriminate Hin.
    + unfold eval_weight. cbn.
      destruct (Rlt_dec 0 0.9) as [_ | Hn]; [reflexivity | exfalso; lra].
Defined.
End ScheduleFreeOptInstance.

Section FirstSightFacts.
Import Py Promote Kron Step.
Context {packed : Type} `{NumpyLib} `{TorchLib} `{Rng}
        `{Collaborators packed}.

Lemma mapM_fmap {S A B C : Type} (f : B -> M S C) (g : A -> B)
    (l : list A) :
  mapM (fun x => f (g x)) l = mapM f (map g l).
Proof.
  induction l as [| x l IH]; [reflexivity |].
  cbn [mapM map]. rewrite IH. reflexivity.
Qed.

(** New tensors: their locations are distinct and were free, they hold
    the given contents, and nothing that was in the store changes. *)
Lemma new_tensors_spec (ts : list Tensor) :
  forall w : World packed,
    exists h' ls,
      mapM new_tensor ts w = (set_heap h' w, Ok ls) /\
      Forall2 (fun l t => h' !! l = Some (OTensor t)) ls ts /\
      NoDup ls /\
      (forall l, l ∈ ls -> w_heap w !! l = None) /\
      (forall l, l ∉ ls -> h' !! l = w_heap w !! l).
Proof.
  induction ts as [| t ts IH]; intros w.
  - exists (w_heap w), []. split; [| split; [| split; [| split]]].
    + cbn [mapM]. destruct w; reflexivity.
    + constructor.
    + constructor.
    + intros l Hl. inversion Hl.
    + reflexivity.
  - set (l0 := fresh (dom (w_heap w))).
    set (w1 := set_heap (<[l0 := OTensor t]> (w_heap w)) w).
    assert (Hfresh : w_heap w !! l0 = None).
    { apply not_elem_of_dom. apply is_fresh. }
    assert (Hnew : new_tensor t w = (w1, Ok l0)) by reflexivity.
    destruct (IH w1) as (h' & ls & Hrun & Hres & Hnd & Hfree & Hframe).
    assert (Hl0 : l0 ∉ ls).
    { intros Hin. specialize (Hfree l0 Hin). unfold w1 in Hfree.
      cbn in Hfree. rewrite lookup_insert_eq in Hfree. discriminate Hfree. }
    exists h', (l0 :: ls). split; [| split; [| split; [| split]]].
    + cbn [mapM]. rewrite (bind_Ok _ _ w w1 l0 Hnew).
      rewrite (bind_Ok _ _ w1 (set_heap h' w1) ls Hrun). reflexivity.
    + constructor; [| exact Hres].
      rewrite (Hframe l0 Hl0). unfold w1. cbn. apply lookup_insert_eq.
    + apply NoDup_cons. split; assumption.
    + intros l Hl. apply elem_of_cons in Hl as [-> | Hl]; [exact Hfresh |].
      specialize (Hfree l Hl). unfold w1 in Hfree. cbn in Hfree.
      destruct (decide (l = l0)) as [-> | Hne]; [exact Hfresh |].
      rewrite lookup_insert_ne in Hfree by congruence. exact Hfree.
    + intros l Hl. apply not_elem_of_cons in Hl as [Hne Hl].
      rewrite (Hframe l Hl). unfold w1. cbn. apply lookup_insert_ne.
      congruence.
Qed.

(** X24: the state of a parameter seen for the first time, with
    [store_triu_as_line=False] and arguments that [init_Q_exprs]
    accepts.  [_step] allocates a zero momentum buffer, the factors that
    [init_Q_exprs] returns and one cache tensor [torch.empty_like(q)]
    per factor: the cache is allocated, not computed from the factors.
    All of them are new tensors, nothing that was in the store changes,
    and the state dictionary holds the five entries.  Gathering the
    parameter again finds [Q] in its state and returns the same tensors
    without touching the store or the state. *)
Theorem X24_first_sight_state (grp : Group) (q_dtype : dtype)
    (p g : loc) (pt gt : Tensor) (w : World packed)
    (Q : list Tensor) (exprs : InitQ.Exprs) :
  tensor_at w p pt -> tensor_at w g gt ->
  w_state w !! (p, t_shape pt) = None ->
  g_store_triu_as_line grp = false ->
  InitQ.init_Q_exprs pt (g_precond_init_scale grp)
    (g_max_size_triangular grp) (g_min_ndim_triangular grp)
    (g_memory_save_mode grp) (Some q_dtype) = Ok (Q, exprs) ->
  exists (w' : World packed) (ea : loc) (Qrefs cache : list loc),
    let v := mkVal p g ea (SVTensors Qrefs) cache in
    gather grp q_dtype (p, g) w = (w', Ok v) /\
    tensor_at w' ea (zeros_like gt) /\
    Forall2 (tensor_at w') Qrefs Q /\
    Forall2 (tensor_at w') cache (map empty_like Q) /\
    NoDup (ea :: Qrefs ++ cache) /\
    (forall l, l ∈ ea :: Qrefs ++ cache -> w_heap w !! l = None) /\
    (forall l, w_heap w !! l <> None -> w_heap w' !! l = w_heap w !! l) /\
    w_state w' !! (p, t_shape pt)
      = Some (<["cache_expr" := SVStr (cache_expr_of Q (t_shape gt))]>
                (<["Q_cache" := SVTensors cache]>
                   (<["Q" := SVTensors Qrefs]>
                      (<["exprs" := SVExprs exprs]>
                         (<["exp_avg" := SVTensor ea]> ∅))))) /\
    gather grp q_dtype (p, g) w' = (w', Ok v).
Proof.
  intros Hp Hg Hnone Hline Hinit.
  set (key := (p, t_shape pt)) in *.
  (* the empty dictionary made by [state_] *)
  set (w0 := set_state (<[key := ∅]> (w_state w)) w).
  assert (Hstate : state_ p w = (w0, Ok key)).
  { unfold state_. rewrite (bind_Ok _ _ _ _ _ (read_tensor_at _ _ _ Hp)).
    unfold bind, modify, ret. fold key. rewrite Hnone. reflexivity. }
  (* the momentum buffer *)
  set (ea := fresh (dom (w_heap w))).
  assert (Hea : w_heap w !! ea = None).
  { apply not_elem_of_dom. apply is_fresh. }
  set (h1 := <[ea := OTensor (zeros_like gt)]> (w_heap w)).
  set (w1 := set_heap h1 w0).
  (* the factors and the cache *)
  set (d1 := <["exprs" := SVExprs exprs]>
               (<["exp_avg" := SVTensor ea]> (∅ : gmap string (sval packed)))).
  set (w2 := set_state (<[key := <["exp_avg" := SVTensor ea]> ∅]> (w_state w))
               w1).
  destruct (new_tensors_spec Q w2) as (h2 & Qrefs & HQ & HQres & HQnd & HQfree
                                       & HQframe).
  set (w3 := set_state (<[key := <["Q" := SVTensors Qrefs]> d1]> (w_state w))
               (set_heap h2 w2)).
  destruct (new_tensors_spec (map empty_like Q) w3)
    as (h3 & cache & HC & HCres & HCnd & HCfree & HCframe).
  set (dict := <["cache_expr" := SVStr (cache_expr_of Q (t_shape gt))]>
                 (<["Q_cache" := SVTensors cache]>
                    (<["Q" := SVTensors Qrefs]> d1))).
  set (w' := set_state (<[key := dict]> (w_state w)) (set_heap h3 w3)).
  assert (Hinit_state :
            init_state key p g (g_precond_init_scale grp)
              (g_max_size_triangular grp) (g_min_ndim_triangular grp)
              (g_memory_save_mode grp) (g_store_triu_as_line grp) q_dtype w0
            = (w', Ok tt)).
  { unfold init_state.
    assert (Hg0 : tensor_at w0 g gt) by exact Hg.
    rewrite (bind_Ok _ _ _ _ _ (read_tensor_at _ _ _ Hg0)).
    rewrite (bind_Ok _ _ w0 w1 ea eq_refl).
    rewrite (bind_Ok _ _ w1 w2 tt).
    2:{ unfold setitem, modify, w2, state_dict, w1, w0. cbn.
        rewrite lookup_insert_eq, insert_insert_eq. reflexivity. }
    assert (Hp2 : tensor_at w2 p pt).
    { unfold tensor_at, w2, w1, h1. cbn.
      rewrite lookup_insert_ne; [exact Hp |].
      intros ->. unfold tensor_at in Hp. congruence. }
    rewrite (bind_Ok _ _ _ _ _ (read_tensor_at _ _ _ Hp2)).
    rewrite (bind_Ok _ _ w2 w2 (Q, exprs)) by (unfold lift; rewrite Hinit; reflexivity).
    rewrite (bind_Ok _ _ w2 (set_heap h2 w2) Qrefs HQ).
    rewrite (bind_Ok _ _ (set_heap h2 w2)
               (set_state (<[key := d1]> (w_state w)) (set_heap h2 w2)) tt).
    2:{ unfold setitem, modify, state_dict, w2. cbn.
        rewrite lookup_insert_eq, insert_insert_eq. reflexivity. }
    rewrite Hline. cbv iota.
    rewrite (bind_Ok _ _
               (set_state (<[key := d1]> (w_state w)) (set_heap h2 w2))
               (set_state (<[key := d1]> (w_state w)) (set_heap h2 w2))
               (SVTensors Qrefs) eq_refl).
    rewrite (bind_Ok _ _ _ w3 tt).
    2:{ unfold setitem, modify, state_dict, w3, w2. cbn.
        rewrite lookup_insert_eq, insert_insert_eq. reflexivity. }
    rewrite mapM_fmap.
    rewrite (bind_Ok _ _ w3 (set_heap h3 w3) cache HC).
    rewrite (bind_Ok _ _ (set_heap h3 w3)
               (set_state
                  (<[key := <["Q_cache" := SVTensors cache]>
                              (<["Q" := SVTensors Qrefs]> d1)]> (w_state w))
                  (set_heap h3 w3)) tt).
    2:{ unfold setitem, modify, state_dict, w3. cbn.
        rewrite lookup_insert_eq, insert_insert_eq. reflexivity. }
    unfold setitem, modify, state_dict, w'. cbn.
    rewrite lookup_insert_eq, insert_insert_eq. reflexivity. }
  (* the heap of the result *)
  assert (Hheap : w_heap w' = h3) by reflexivity.
  assert (Hea2 : ea ∉ Qrefs).
  { intros Hin. specialize (HQfree ea Hin). unfold w2, w1, h1 in HQfree.
    cbn in HQfree. rewrite lookup_insert_eq in HQfree. discriminate HQfree. }
  assert (HQ3 : forall l, l ∈ Qrefs -> l ∉ cache).
  { intros l Hl Hc. specialize (HCfree l Hc). unfold w3 in HCfree.
    cbn in HCfree.
    apply list_elem_of_lookup in Hl as (i & Hi).
    destruct (Forall2_lookup_l _ _ _ _ _ HQres Hi) as (t & _ & Ht).
    congruence. }
  assert (Hea3 : ea ∉ cache).
  { intros Hc. specialize (HCfree ea Hc). unfold w3 in HCfree. cbn in HCfree.
    rewrite (HQframe ea Hea2) in HCfree. unfold w2, w1, h1 in HCfree.
    cbn in HCfree. rewrite lookup_insert_eq in HCfree. discriminate HCfree. }
  assert (Hold : forall l, w_heap w !! l <> None -> h3 !! l = w_heap w !! l).
  { intros l Hl.
    assert (Hne : l <> ea) by (intros ->; contradiction).
    assert (Hl2 : h1 !! l = w_heap w !! l)
      by (unfold h1; apply lookup_insert_ne; congruence).
    assert (HlQ : l ∉ Qrefs).
    { intros Hin. specialize (HQfree l Hin). unfold w2, w1 in HQfree.
      cbn in HQfree. congruence. }
    assert (HlC : l ∉ cache).
    { intros Hin. specialize (HCfree l Hin). unfold w3 in HCfree.
      cbn in HCfree. rewrite (HQframe l HlQ) in HCfree. unfold w2, w1 in HCfree.
      cbn in HCfree. congruence. }
    rewrite (HCframe l HlC). unfold w3. cbn.
    rewrite (HQframe l HlQ). exact Hl2. }
  assert (Hp' : tensor_at w' p pt).
  { unfold tensor_at. rewrite Hheap, Hold; [exact Hp |].
    unfold tensor_at in Hp. congruence. }
  assert (Hdict : state_dict key w' = dict).
  { unfold state_dict, w'. cbn. rewrite lookup_insert_eq. reflexivity. }
  assert (Htail : forall wx : World packed,
            state_dict key wx = dict ->
            (let! ea := getitem key "exp_avg" in
             let! ea := as_tensor ea in
             let! Q := getitem key "Q" in
             let! Qc := getitem key "Q_cache" in
             let! Qc := as_tensors Qc in
             ret (mkVal p g ea Q Qc)) wx
            = (wx, Ok (mkVal p g ea (SVTensors Qrefs) cache))).
  { intros wx Hwx.
    assert (Hget : forall name v,
              dict !! name = Some v -> getitem key name wx = (wx, Ok v)).
    { intros name v Hv. unfold getitem. rewrite Hwx, Hv. reflexivity. }
    rewrite (bind_Ok _ _ wx wx (SVTensor ea)).
    2:{ apply Hget. unfold dict, d1.
        rewrite !lookup_insert_ne by discriminate. apply lookup_insert_eq. }
    rewrite (bind_Ok _ _ wx wx ea eq_refl).
    rewrite (bind_Ok _ _ wx wx (SVTensors Qrefs)).
    2:{ apply Hget. unfold dict.
        rewrite !lookup_insert_ne by discriminate. apply lookup_insert_eq. }
    rewrite (bind_Ok _ _ wx wx (SVTensors cache)).
    2:{ apply Hget. unfold dict.
        rewrite lookup_insert_ne by discriminate. apply lookup_insert_eq. }
    rewrite (bind_Ok _ _ wx wx cache eq_refl). reflexivity. }
  exists w', ea, Qrefs, cache. cbv zeta.
  split; [| split; [| split; [| split; [| split; [| split; [| split]]]]]].
  - unfold gather. rewrite (bind_Ok _ _ _ _ _ Hstate).
    rewrite (bind_Ok _ _ w0 w0 w0 eq_refl).
    assert (Hfresh : state_dict key w0 = ∅).
    { unfold state_dict, w0. cbn. rewrite lookup_insert_eq. reflexivity. }
    rewrite Hfresh, lookup_empty.
    rewrite bool_decide_eq_false_2 by (intros [? ?]; discriminate).
    rewrite (bind_Ok _ _ w0 w' tt Hinit_state).
    apply Htail, Hdict.
  - unfold tensor_at. rewrite Hheap, (HCframe ea Hea3). unfold w3. cbn.
    rewrite (HQframe ea Hea2). unfold w2, w1, h1. cbn.
    apply lookup_insert_eq.
  - unfold tensor_at. rewrite Hheap.
    assert (Hkeep : forall l, l ∈ Qrefs -> h3 !! l = h2 !! l).
    { intros l Hl. apply (HCframe l), HQ3, Hl. }
    clear -HQres Hkeep.
    induction HQres as [| l t ls ts Hl _ IH]; constructor.
    + rewrite Hkeep by apply list_elem_of_here. exact Hl.
    + apply IH. intros l0 Hl0. apply Hkeep, list_elem_of_further, Hl0.
  - unfold tensor_at. rewrite Hheap. exact HCres.
  - apply NoDup_cons. split.
    + intros Hin. apply elem_of_app in Hin as [Hin | Hin];
        [exact (Hea2 Hin) | exact (Hea3 Hin)].
    + apply NoDup_app. split; [exact HQnd |]. split; [exact HQ3 | exact HCnd].
  - intros l Hl. apply elem_of_cons in Hl as [-> | Hl]; [exact Hea |].
    apply elem_of_app in Hl as [Hl | Hl].
    + specialize (HQfree l Hl). unfold w2, w1, h1 in HQfree. cbn in HQfree.
      destruct (decide (l = ea)) as [-> | Hne]; [exact Hea |].
      rewrite lookup_insert_ne in HQfree by congruence. exact HQfree.
    + assert (HlQ : l ∉ Qrefs) by (intros Hq; exact (HQ3 l Hq Hl)).
      specialize (HCfree l Hl). unfold w3 in HCfree. cbn in HCfree.
      rewrite (HQframe l HlQ) in HCfree. unfold w2, w1, h1 in HCfree.
      cbn in HCfree.
      destruct (decide (l = ea)) as [-> | Hne]; [exact Hea |].
      rewrite lookup_insert_ne in HCfree by congruence. exact HCfree.
  - intros l Hl. rewrite Hheap. apply Hold, Hl.
  - split.
    + unfold w'. cbn. fold key. apply lookup_insert_eq.
    + unfold gather.
      assert (Hstate' : state_ p w' = (w', Ok key)).
      { unfold state_.
        rewrite (bind_Ok _ _ _ _ _ (read_tensor_at _ _ _ Hp')).
        unfold bind, modify, ret. fold key.
        assert (Hk : w_state w' !! key = Some dict)
          by (unfold w'; cbn; apply lookup_insert_eq).
        rewrite Hk. reflexivity. }
      rewrite (bind_Ok _ _ _ _ _ Hstate').
      rewrite (bind_Ok _ _ w' w' w' eq_refl).
      rewrite Hdict.
      assert (HhasQ : is_Some (dict !! "Q")).
      { unfold dict. rewrite !lookup_insert_ne by discriminate.
        rewrite lookup_insert_eq. eauto. }
      rewrite (bool_decide_eq_true_2 _ HhasQ).
      rewrite (bind_Ok _ _ w' w' tt eq_refl).
      apply Htail, Hdict.
Qed.
End FirstSightFacts.

Section FirstSightInstance.
Import Py Promote Kron Step.
Import Rank1 Reference FirstSight StableSort.

Lemma X24_first_sight_state_witness :
  exists (w' : World (list loc)) (ea : loc) (Qrefs cache : list loc),
    gather group44 float32 (1%positive, 2%positive) world44
      = (w', Ok (mkVal 1%positive 2%positive ea (SVTensors Qrefs) cache)) /\
    tensor_at w' ea (zeros_like grad_44) /\
    length Qrefs = 2%nat /\ length cache = 2%nat /\
    NoDup (ea :: Qrefs ++ cache) /\
    gather group44 float32 (1%positive, 2%positive) w'
      = (w', Ok (mkVal 1%positive 2%positive ea (SVTensors Qrefs) cache)).
Proof.
  destruct (init_Q_exprs_tensor InitQ.param_44
              (g_precond_init_scale group44) (g_max_size_triangular group44)
              (g_min_ndim_triangular group44) None (Some float32)
              [false; false])
    as (ex & Hinit & _).
  - simpl. lia.
  - reflexivity.
  - destruct (fun Q => X24_first_sight_state group44 float32 1%positive
                          2%positive InitQ.param_44 grad_44 world44 Q ex
                          eq_refl eq_refl eq_refl eq_refl)
      with (1 := Hinit)
      as (w' & ea & Qrefs & cache & Hrun & Hea & HQ & HC & Hnd & _ & _ & _
          & Hagain).
    exists w', ea, Qrefs, cache.
    split; [exact Hrun |]. split; [exact Hea |].
    split; [exact (Forall2_length _ _ _ HQ) |].
    split; [| split; [exact Hnd | exact Hagain]].
    rewrite (Forall2_length _ _ _ HC). reflexivity.
Defined.
End FirstSightInstance.
